(* ===== verification/_CoqProject ===== *)
-Q . S2P
Prelude.v
Keys.v
Store.v
Promise.v
World.v
Host.v
Wrapper.v
Refinement.v
EndToEnd.v
StoreOps.v
IndexOrder.v
TxLifecycle.v
Open.v
Scenarios.v
System.v
Frame.v
TxMachine.v
StoreWf.v
Termination.v
Await.v
Settle.v
Liveness.v
Fifo.v
Completion.v
