(* ===== verification/Prelude.v ===== *)
(** * A verification development of indexeddb-promise

    [indexeddb-promise] (src/src/index.ts, compiled to src/index.js, with
    its declaration file src/lib/index.d.ts) is a thin promise layer over
    the browser's IndexedDB API.  It has four wrapper classes and one
    entry point:

    - [PromisedIndexedDbIndex]       wraps an [IDBIndex];
    - [PromisedIndexedDbObjectStore] wraps an [IDBObjectStore];
    - [PromisedIndexedDbTransaction] wraps an [IDBTransaction];
    - [PromisedIndexedDb]            wraps an [IDBDatabase];
    - [openDatabase]                 drives [indexedDB.open].

    Every request-producing method repeats one idiom: inside the executor of
    [new Promise], call the native method, which returns an [IDBRequest],
    and register a ['success'] listener that resolves the promise with
    [req.result] and an ['error'] listener that rejects it with the event.
    Nothing else is stored: each wrapper owns one native handle.

    The program is therefore only meaningful together with the platform it
    wraps.  The development models both sides.
    - The wrapper side is translated from src/src/index.ts.
    - The platform side (IndexedDB, the DOM event dispatch, ECMAScript
      promises) is modelled from the IndexedDB semantics the spec relies on.
    The two meet at the typeclass [Host.IdbHost]: the wrapper is written
    against it, and [Host.platform] is its instance.

    ** Files, in dependency order

    - [Prelude] (this file): a state-and-exception monad [st] modelling
      synchronous JavaScript execution (a call either returns normally or
      throws, and side effects made before a throw persist), its notation
      in [st_scope], its laws (rewrite base [st_simpl], tactic [run_st]),
      the hint base [idb], and generic list lemmas.
    - [Keys]: JavaScript values, IndexedDB keys and their total order
      (numbers before strings), key ranges, key paths.
    - [Store]: the records of one object store as a strictly sorted
      association list, its key generator, and the platform's record
      operations (store a record with or without overwrite, delete a
      range, clear, get, getAll, getKey, getAllKeys, count), for the store
      and for its indexes (entries kept sorted by [entry_insert]).
    - [Promise]: the ECMAScript promise cell and its resolving functions
      (a promise settles at most once).
    - [World]: the JavaScript heap seen by the program (promises, requests
      with their event listeners, transactions, connections, wrapper
      objects), the closures the wrapper registers as listeners
      (defunctionalized as [Listener]), event dispatch, and the schema
      operations of an upgrade; hint base [keeps].
    - [Host]: the IndexedDB platform, the instance [platform] of
      [IdbHost]: the synchronous part of each native method (its checks
      and exceptions, and the request it queues) and the asynchronous part
      (the platform executing a queued request and firing ['success'] or
      ['error'], aborting the transaction when an error event is not
      cancelled, auto-committing, running an open request once every
      earlier open request of its database has been processed, the
      connection queue of [open_ready]); [host_step]
      is one step of the platform, [run_host] a bounded run; hint base
      [pure].
    - [Wrapper]: the four classes of src/src/index.ts and [openDatabase],
      one definition per method or getter, with the source's names
      ([PromisedIndexedDbObjectStore_put], ...); [request_promise] is the
      idiom above.
    - [Refinement]: the contract of the request-to-promise idiom (spec
      4.1) and the theorems that every promisified method implements it.
    - [EndToEnd]: the settlement of a promise when the platform runs its
      request: the abstract outcome [settlement] of the request's
      operation on the database as it is then.
    - [StoreOps]: the operations of spec section 8 end to end, from the
      wrapper's call to the state of its promise ([scheduled] names the
      request a call queued).
    - [IndexOrder]: the order of an index against a reference sort.
    - [TxLifecycle]: a failed request aborts its transaction unless a
      client listener cancels the error; [abort()] reverts the scope;
      [dispatchEvent], [objectStore] and the listener methods.
    - [Open]: the contract of [openDatabase] (spec 4.6), listener by
      listener.
    - [Scenarios]: the scenarios of spec section 8, closed programs run on
      the model and checked by evaluation.
    - [System]: a client program and the platform interleaved
      ([sys_step], [reachable]); a task of the client is a sequence of
      wrapper calls ([run_calls]), the first exception ending it; hint
      base [wrapper].
    - [Frame]: [step_ok R m], "every run of [m] relates its worlds by the
      preorder [R]", its rules along the monad (hint base [frame], tactic
      [frame_step]).
    - [TxMachine]: the transaction state machine [tx_trans] and its
      closure [lifecycle]; hint bases [same] and [adv].
    - [StoreWf]: the well-formedness of every store of every reachable
      world; hint bases [wfu] and [wfops].
    - [Termination]: a weakest precondition [wp] for the monad, the
      platform's pending work [host_measure] (a sum over the finite maps
      of transactions and requests), and the termination of the
      platform; hint bases [quiet] and [hoku].
    - [Await]: what a pending promise waits for ([awaited]: a request
      carrying the wrapper's listeners, queued in an unfinished
      transaction, or an open request not done or upgrading), the
      invariant [settle_inv] that every pending promise is awaited, the
      relation [grows] that keeps it, and the proof that every wrapper
      call keeps it ([srel_run_call]); hint base [grows].
    - [Settle]: the platform's steps keep [settle_inv]: a step that
      dequeues a request, completes an open request or finishes an
      upgrade breaks waits only at the request it fires an event at next
      ([breaks]), and that event settles them ([inv_dispatch]).
    - [Liveness]: no transaction is active between tasks ([no_active]);
      at an idle platform every transaction has finished; hence the
      liveness of the wrapper's promises.
    - [Fifo]: the queue of every transaction is strictly increasing and
      below the allocation counter ([fifo]); [place_request] appends,
      [run_request] and [deliver_abort] take the head, so requests run in
      the order the wrapper placed them; hint base [fifo].
    - [Completion]: the invariant [ordered] linking requests to queues (a
      request of a transaction that is not done waits in its queue, a
      queued id is a request of that transaction, open requests belong to
      none); the platform completes only the head of a queue, so the
      requests of a transaction complete in placement order; hint base
      [ordu], tactics [o_leaf] and [o_step].

    ** What the theorems show (by group)

    - Keys and Store: the key comparison is a strict total order; the
      store invariant [store_wf] (records strictly sorted by key, key
      generator above every numeric key) is preserved by every record
      operation; the functional behaviour of each operation; the key
      generator's bound 2^53 and its failure past it.
    - Promise and System: settlement is final, for one operation and
      along every run of a client program ([reachable_promises_final],
      a property of the promise model itself, kept as a lemma).
    - Refinement: for every promisified method, a synchronous throw of the
      native call yields a rejected promise (not a throw); otherwise the
      promise is pending with exactly the two listeners registered, and it
      settles to the request's result on 'success' and to the event on
      'error'.
    - EndToEnd and StoreOps: the promise of a call is fulfilled with the
      result of its operation (put then get, add on an existing key
      rejected with a ConstraintError event, generated keys, delete,
      clear, getAllKeys with a bound).
    - IndexOrder (equivalence): the index order built by insertion equals
      stdpp's [merge_sort] of the same entries, on any store with distinct
      keys, so [index(name).getAll()] resolves in the reference order.
    - TxMachine (state machine, safety): every transaction of a reachable
      world went through [lifecycle] ([reachable_tx_lifecycle], with
      its corollaries that a finished one stays finished and an aborting
      one only finishes); commit requires an active one.
    - StoreWf (type invariant): every store of every reachable world, and
      every snapshot kept for an abort, satisfies [store_wf].
    - Termination: every platform step that does work lowers
      [host_measure] and keeps the existence of what transactions refer
      to ([host_ok], true in every reachable world); so [run_host] with
      a fuel above the measure ends with the platform idle (and, as a
      corollary, there is no infinite run of platform steps).
    - Await, Settle and Liveness (invariant, liveness): in every
      reachable world each pending promise is awaited
      ([promises_awaited]); running the platform to its idle point
      (within [host_measure + 1] steps) settles every promise except that
      of an [openDatabase] whose request reported 'blocked' while another
      connection stays open, or waits in its database's connection queue
      behind such a request ([promises_settle]).
    - Fifo and Completion (invariant, functional, safety): in every
      reachable world each transaction's queue lists its requests in
      placement order ([queues_fifo]), so the head the platform runs
      next is the earliest one placed; and a transaction's requests
      complete in the order they were placed
      ([requests_complete_in_order]).
    - TxLifecycle and Open: error paths (abort on a failed request,
      revert of the scope, [openDatabase] whose native open throws), the
      listeners of [openDatabase], and [dispatchEvent] with the event's
      [bubbles] and [cancelable] flags and the connection as the
      transaction's parent.
    - Scenarios: the spec's testable scenarios run through the wrapper
      and the platform model and evaluated; they are examples, not
      properties.

    Invariants over runs are proved by induction on [System.reachable],
    with [Frame]'s rules taking every operation apart along the monad.

    ** Bounds and fuel

    The platform runs with an explicit step bound [fuel] in
    [Host.run_host]: each step retires one request, finishes one
    transaction or advances one open request.  [Scenarios] uses a fuel of
    20; each scenario needs fewer than 10 steps ([run_host] stops as soon
    as [host_step] reports nothing to do, and [run_host_idle] shows that
    further fuel changes nothing then).  [Termination] shows that the
    fuel is never what stops the platform: a fuel above [host_measure]
    of the world (two units per queued request and per pending commit,
    one per pending abort event, at most four per open request) always
    reaches an idle platform, and [Liveness] runs the platform with
    exactly that fuel.  The theorems of [System], [TxMachine], [StoreWf],
    [Termination], [Liveness], [Fifo] and [Completion] quantify over
    every interleaving of client tasks (any number of calls each) and
    platform steps.  [Fifo] and [Completion] run the platform 20 and 2
    steps in their examples.  Keys are integers (IndexedDB keys are
    doubles; the model keeps the integral ones, which is what the key
    generator produces, bounded by 2^53) and strings.

    ** Not modelled

    src/index.js (compiled output of src/src/index.ts) and
    src/lib/index.d.ts (declarations only); date, binary and array keys;
    structured cloning (values are stored as given); the [versionchange]
    event on other connections; capture-phase listeners and the
    uninitialized-event check of [dispatchEvent] (the wrapper registers
    no capture listener and a caller's [new Event(...)] is initialized);
    promise reaction jobs (the caller's
    continuations): the observable of a call is the state of the promise
    it returned.  Client code between tasks is modelled only through the
    calls it makes ([System.Call], in sequence within a task) and the
    logging of its callbacks: a callback does not itself call the wrapper. *)

From stdpp Require Export base list gmap strings.
From Stdlib Require Export ZArith Sorted.

Create HintDb idb.

(** ** Synchronous JavaScript execution: a state and exception monad *)

Inductive outcome (E A : Type) : Type :=
| Normal (a : A)
| Throw (e : E).
Arguments Normal {E A} a.
Arguments Throw {E A} e.

Definition st (E S A : Type) : Type := S -> outcome E A * S.

Definition st_ret {E S A} (a : A) : st E S A := fun s => (Normal a, s).

Definition st_bind {E S A B} (m : st E S A) (k : A -> st E S B) : st E S B :=
  fun s =>
    match m s with
    | (Normal a, s') => k a s'
    | (Throw e, s') => (Throw e, s')
    end.

Definition st_throw {E S A} (e : E) : st E S A := fun s => (Throw e, s).

Definition st_get {E S} : st E S S := fun s => (Normal s, s).

Definition st_put {E S} (s : S) : st E S unit := fun _ => (Normal tt, s).

Definition st_modify {E S} (f : S -> S) : st E S unit := fun s => (Normal tt, f s).

(** [try { m } catch (e) { h(e) }]: the handler runs in the state left by
    the throw, as in JavaScript, where effects before a throw persist. *)
Definition st_catch {E S A} (m : st E S A) (h : E -> st E S A) : st E S A :=
  fun s =>
    match m s with
    | (Normal a, s') => (Normal a, s')
    | (Throw e, s') => h e s'
    end.

Declare Scope st_scope.
Delimit Scope st_scope with st.
Notation "x <- m ;; k" := (st_bind m (fun x => k))
  (at level 100, m at next level, right associativity) : st_scope.
Notation "m ;; k" := (st_bind m (fun _ => k))
  (at level 100, right associativity) : st_scope.
Notation "'ret' a" := (st_ret a) (at level 10) : st_scope.

Section StLaws.
Context {E S : Type}.

Lemma st_bind_ret_l {A B} (a : A) (k : A -> st E S B) :
  st_bind (st_ret a) k = k a.
Proof. reflexivity. Qed.

Lemma st_bind_ret_r {A} (m : st E S A) s : st_bind m st_ret s = m s.
Proof. unfold st_bind. by destruct (m s) as [[] ?]. Qed.

Lemma st_bind_assoc {A B C} (m : st E S A) (k : A -> st E S B) (k' : B -> st E S C) s :
  st_bind (st_bind m k) k' s = st_bind m (fun a => st_bind (k a) k') s.
Proof. unfold st_bind. by destruct (m s) as [[] ?]. Qed.

Lemma st_bind_throw {A B} (e : E) (k : A -> st E S B) :
  st_bind (st_throw e) k = st_throw e.
Proof. reflexivity. Qed.

(** Running a bind: the two cases of the first computation. *)
Lemma st_bind_run_normal {A B} (m : st E S A) (k : A -> st E S B) s a s' :
  m s = (Normal a, s') -> st_bind m k s = k a s'.
Proof. unfold st_bind. by intros ->. Qed.

Lemma st_bind_run_throw {A B} (m : st E S A) (k : A -> st E S B) s e s' :
  m s = (Throw e, s') -> st_bind m k s = (Throw e, s').
Proof. unfold st_bind. by intros ->. Qed.

Lemma st_bind_get_run {B} (k : S -> st E S B) s : st_bind st_get k s = k s s.
Proof. reflexivity. Qed.

Lemma st_bind_modify_run {B} (f : S -> S) (k : unit -> st E S B) s :
  st_bind (st_modify f) k s = k tt (f s).
Proof. reflexivity. Qed.

Lemma st_bind_ret_run {A B} (a : A) (k : A -> st E S B) s : st_bind (st_ret a) k s = k a s.
Proof. reflexivity. Qed.

Lemma st_catch_run_normal {A} (m : st E S A) h s a s' :
  m s = (Normal a, s') -> st_catch m h s = (Normal a, s').
Proof. unfold st_catch. by intros ->. Qed.

Lemma st_catch_run_throw {A} (m : st E S A) h s e s' :
  m s = (Throw e, s') -> st_catch m h s = h e s'.
Proof. unfold st_catch. by intros ->. Qed.
End StLaws.

Create Rewrite HintDb st_simpl.
#[export] Hint Rewrite @st_bind_ret_l @st_bind_assoc @st_bind_throw
  @st_bind_get_run @st_bind_modify_run @st_bind_ret_run : st_simpl.

(** ** Generic list lemmas shared by the components *)

Section ListFacts.
Context {A : Type}.

Lemma length_firstn_le (n : nat) (l : list A) : length (firstn n l) <= n.
Proof. rewrite length_firstn. lia. Qed.

Lemma in_firstn (n : nat) (l : list A) x : In x (firstn n l) -> In x l.
Proof.
  revert l; induction n as [|n IH]; intros [|y l]; simpl; try tauto.
  intros [-> | H]; [by left | right; by apply IH].
Qed.

Lemma StronglySorted_firstn (R : A -> A -> Prop) (n : nat) (l : list A) :
  StronglySorted R l -> StronglySorted R (firstn n l).
Proof.
  revert l; induction n as [|n IH]; intros [|y l] H; simpl; [constructor..|].
  apply StronglySorted_inv in H as [H1 H2].
  constructor; [by apply IH|].
  rewrite List.Forall_forall in H2 |- *. intros x Hx. apply H2. by eapply in_firstn.
Qed.

Lemma StronglySorted_filter (R : A -> A -> Prop) (f : A -> bool) (l : list A) :
  StronglySorted R l -> StronglySorted R (List.filter f l).
Proof.
  induction l as [|y l IH]; intros H; simpl; [constructor|].
  apply StronglySorted_inv in H as [H1 H2].
  destruct (f y); [|by apply IH].
  constructor; [by apply IH|].
  rewrite List.Forall_forall in H2 |- *. intros x Hx. apply H2.
  by apply filter_In in Hx as [? _].
Qed.

Lemma StronglySorted_map {B} (R : B -> B -> Prop) (g : A -> B) (l : list A) :
  StronglySorted (fun x y => R (g x) (g y)) l -> StronglySorted R (map g l).
Proof.
  induction l as [|y l IH]; intros H; simpl; [constructor|].
  apply StronglySorted_inv in H as [H1 H2].
  constructor; [by apply IH|].
  rewrite List.Forall_forall in H2 |- *. intros x Hx.
  apply in_map_iff in Hx as (z & <- & Hz). by apply H2.
Qed.
End ListFacts.

#[export] Hint Resolve length_firstn_le StronglySorted_firstn StronglySorted_filter : idb.

(** [invc H]: invert, substitute and clear, the usual short form. *)
Ltac invc H := inversion H; subst; clear H.
