(* ===== verification/Keys.v ===== *)
(** * Keys: JavaScript values, IndexedDB keys, ranges and key paths

    The values the wrapper passes through ([value: any], [req.result]) are
    JavaScript values [JsVal].  IndexedDB keys ([IDBValidKey]) are the
    values of [Key], ordered by the platform's key comparison: every
    number is below every string; numbers compare numerically and strings
    by code unit.  A query argument ([IDBValidKey | IDBKeyRange]) is a
    [QueryArg]; the platform converts it to a [KeyRange] (or fails with a
    [DataError]).  Key paths select the in-line key of a value; [inject_key]
    writes a generated key into a value. *)

From S2P Require Import Prelude.
From Stdlib Require Import String Ascii.

(** ** Values *)

#[warnings="-register-all"]
Inductive JsVal : Type :=
| JUndefined
| JNull
| JBool (b : bool)
| JNum (n : Z)
| JStr (s : string)
| JArr (vs : list JsVal)
| JObj (fields : list (string * JsVal)).

(** Property read [o[f]] on an object's own properties, in insertion order. *)
Fixpoint prop_get (f : string) (fs : list (string * JsVal)) : option JsVal :=
  match fs with
  | [] => None
  | (g, v) :: fs' => if String.eqb f g then Some v else prop_get f fs'
  end.

(** Property write [o[f] = v]: an existing property keeps its position, a
    new one is appended. *)
Fixpoint prop_set (f : string) (v : JsVal) (fs : list (string * JsVal)) : list (string * JsVal) :=
  match fs with
  | [] => [(f, v)]
  | (g, w) :: fs' => if String.eqb f g then (g, v) :: fs' else (g, w) :: prop_set f v fs'
  end.

(** ** Keys and their order *)

Inductive Key : Type :=
| KNum (n : Z)
| KStr (s : string).

#[export] Instance Key_eq_dec : EqDecision Key.
Proof. solve_decision. Defined.

Definition key_compare (a b : Key) : comparison :=
  match a, b with
  | KNum x, KNum y => Z.compare x y
  | KStr x, KStr y => String.compare x y
  | KNum _, KStr _ => Lt
  | KStr _, KNum _ => Gt
  end.

Definition key_lt (a b : Key) : Prop := key_compare a b = Lt.

Definition key_ltb (a b : Key) : bool :=
  match key_compare a b with Lt => true | _ => false end.

Definition key_to_val (k : Key) : JsVal :=
  match k with KNum n => JNum n | KStr s => JStr s end.

(** "Convert a value to a key": only numbers and strings are modelled. *)
Definition to_key (v : JsVal) : option Key :=
  match v with
  | JNum n => Some (KNum n)
  | JStr s => Some (KStr s)
  | _ => None
  end.

(** ** Ranges and queries *)

Record KeyRange : Type := mkRange {
  kr_lower : option Key;
  kr_upper : option Key;
  kr_lowerOpen : bool;
  kr_upperOpen : bool
}.

Definition range_only (k : Key) : KeyRange := mkRange (Some k) (Some k) false false.
Definition range_all : KeyRange := mkRange None None false false.

Definition range_includes (r : KeyRange) (k : Key) : bool :=
  match kr_lower r with
  | None => true
  | Some lo => match key_compare lo k with
               | Lt => true
               | Eq => negb (kr_lowerOpen r)
               | Gt => false
               end
  end &&
  match kr_upper r with
  | None => true
  | Some hi => match key_compare k hi with
               | Lt => true
               | Eq => negb (kr_upperOpen r)
               | Gt => false
               end
  end.

(** The argument [query] of the wrapper's methods. *)
Inductive QueryArg : Type :=
| QVal (v : JsVal)
| QRange (r : KeyRange).

(** "Convert a value to a key range", with its null-disallowed flag;
    [None] is the [DataError] the platform throws. *)
Definition to_key_range (null_disallowed : bool) (q : option QueryArg) : option KeyRange :=
  let absent := if null_disallowed then None else Some range_all in
  match q with
  | None | Some (QVal JUndefined) | Some (QVal JNull) => absent
  | Some (QRange r) => Some r
  | Some (QVal v) => range_only <$> to_key v
  end.

(** ** Key paths *)

(** A key path string ["a.b"] is the list of its identifiers; [""] is []. *)
Definition KeyPath := list string.

Fixpoint eval_key_path (p : KeyPath) (v : JsVal) : option JsVal :=
  match p with
  | [] => Some v
  | f :: p' =>
      match v with
      | JObj fs => prop_get f fs ≫= eval_key_path p'
      | _ => None
      end
  end.

Definition extract_key (p : KeyPath) (v : JsVal) : option Key :=
  eval_key_path p v ≫= to_key.

(** "Inject a key into a value using a key path": missing objects on the
    path are created; a non-object on the path makes it impossible. *)
Fixpoint inject_key (p : KeyPath) (kv : JsVal) (v : JsVal) : option JsVal :=
  match p with
  | [] => None
  | [f] =>
      match v with
      | JObj fs => Some (JObj (prop_set f kv fs))
      | _ => None
      end
  | f :: p' =>
      match v with
      | JObj fs =>
          let inner := default (JObj []) (prop_get f fs) in
          (fun w => JObj (prop_set f w fs)) <$> inject_key p' kv inner
      | _ => None
      end
  end.

(** ** Lemmas *)

Lemma ascii_compare_trans (a b c : ascii) :
  Ascii.compare a b = Lt -> Ascii.compare b c = Lt -> Ascii.compare a c = Lt.
Proof.
  unfold Ascii.compare. rewrite !N.compare_lt_iff. lia.
Qed.

Lemma ascii_compare_refl (a : ascii) : Ascii.compare a a = Eq.
Proof. apply N.compare_refl. Qed.

Lemma string_compare_trans (s1 s2 s3 : string) :
  String.compare s1 s2 = Lt -> String.compare s2 s3 = Lt -> String.compare s1 s3 = Lt.
Proof.
  revert s2 s3; induction s1 as [|c1 s1 IH]; intros [|c2 s2] [|c3 s3]; simpl;
    try discriminate; auto.
  destruct (Ascii.compare c1 c2) eqn:E12; try discriminate;
    destruct (Ascii.compare c2 c3) eqn:E23; try discriminate; intros H1 H2.
  - apply Ascii.compare_eq_iff in E12, E23. subst. by rewrite ascii_compare_refl, (IH s2).
  - apply Ascii.compare_eq_iff in E12. subst. by rewrite E23.
  - apply Ascii.compare_eq_iff in E23. subst. by rewrite E12.
  - by rewrite (ascii_compare_trans c1 c2 c3).
Qed.

Lemma string_compare_refl (s : string) : String.compare s s = Eq.
Proof.
  induction s as [|c s IH]; simpl; [done|]. by rewrite ascii_compare_refl.
Qed.

Lemma key_compare_refl (k : Key) : key_compare k k = Eq.
Proof. destruct k; simpl; [apply Z.compare_refl | apply string_compare_refl]. Qed.

Lemma key_compare_eq (a b : Key) : key_compare a b = Eq <-> a = b.
Proof.
  split; [|intros ->; apply key_compare_refl].
  destruct a, b; simpl; try discriminate.
  - by intros ->%Z.compare_eq.
  - by intros ->%String.compare_eq_iff.
Qed.

Lemma key_compare_antisym (a b : Key) : key_compare b a = CompOpp (key_compare a b).
Proof.
  destruct a, b; simpl; try done.
  - apply Z.compare_antisym.
  - apply String.compare_antisym.
Qed.

Lemma key_lt_trans (a b c : Key) : key_lt a b -> key_lt b c -> key_lt a c.
Proof.
  unfold key_lt. destruct a, b, c; simpl; try discriminate; auto.
  - rewrite !Z.compare_lt_iff. lia.
  - apply string_compare_trans.
Qed.

Lemma key_lt_irrefl (k : Key) : ~ key_lt k k.
Proof. unfold key_lt. by rewrite key_compare_refl. Qed.

Lemma key_ltb_lt (a b : Key) : key_ltb a b = true <-> key_lt a b.
Proof. unfold key_ltb, key_lt. by destruct (key_compare a b). Qed.

Lemma key_lt_asym (a b : Key) : key_lt a b -> ~ key_lt b a.
Proof. unfold key_lt. rewrite (key_compare_antisym a b). by intros ->. Qed.

(** Trichotomy, in the form the case analyses use. *)
Lemma key_compare_cases (a b : Key) :
  (key_compare a b = Lt /\ key_lt a b) \/ (key_compare a b = Eq /\ a = b) \/
  (key_compare a b = Gt /\ key_lt b a).
Proof.
  unfold key_lt. rewrite (key_compare_antisym a b).
  destruct (key_compare a b) eqn:E; simpl.
  - right; left. split; [done|]. by apply key_compare_eq.
  - by left.
  - by right; right.
Qed.

#[export] Instance key_lt_strict : StrictOrder key_lt.
Proof. split; [intros k; apply key_lt_irrefl | intros a b c; apply key_lt_trans]. Qed.

Lemma to_key_val (k : Key) : to_key (key_to_val k) = Some k.
Proof. by destruct k. Qed.

Lemma range_only_includes (k k' : Key) : range_includes (range_only k) k' = true <-> k' = k.
Proof.
  unfold range_includes; simpl. rewrite (key_compare_antisym k k').
  destruct (key_compare_cases k k') as [[-> H]|[[-> <-]|[-> H]]]; simpl;
    split; intros Heq; try done; subst; by destruct (key_lt_irrefl _ H).
Qed.

Lemma range_all_includes (k : Key) : range_includes range_all k = true.
Proof. done. Qed.

Lemma prop_get_set_eq (f : string) (v : JsVal) fs : prop_get f (prop_set f v fs) = Some v.
Proof.
  induction fs as [|[g w] fs IH]; simpl; [by rewrite String.eqb_refl|].
  destruct (String.eqb f g) eqn:E; simpl; rewrite E; [done | exact IH].
Qed.

Lemma inject_key_step (f g : string) (p : KeyPath) (kv v : JsVal) :
  inject_key (f :: g :: p) kv v =
  match v with
  | JObj fs => (fun w => JObj (prop_set f w fs)) <$> inject_key (g :: p) kv (default (JObj []) (prop_get f fs))
  | _ => None
  end.
Proof. reflexivity. Qed.

(** Round trip: a key injected at a key path is the key extracted there. *)
Lemma extract_inject (p : KeyPath) (k : Key) (v v' : JsVal) :
  inject_key p (key_to_val k) v = Some v' -> extract_key p v' = Some k.
Proof.
  unfold extract_key. revert v v'.
  induction p as [|f p IH]; intros v v' Hinj; [done|].
  destruct p as [|g p].
  - destruct v; try done. injection Hinj as <-. simpl.
    rewrite prop_get_set_eq. apply to_key_val.
  - rewrite inject_key_step in Hinj. destruct v as [| | | | | |fs]; try done.
    destruct (inject_key (g :: p) (key_to_val k) _) as [w|] eqn:E; [|done].
    injection Hinj as <-. cbn [eval_key_path]. rewrite prop_get_set_eq.
    by apply IH in E.
Qed.

