(* ===== verification/Store.v ===== *)
(** * Store: the records of an object store and the platform's operations on them

    This is the storage the wrapper delegates to: an object store holds
    records (key, value) in ascending key order, an optional in-line key
    path, an optional key generator, and indexes.  The operations are the
    platform's "store a record into an object store" (with or without
    overwrite: [add] and [put]), "delete records", "clear", and the
    retrievals behind [get], [getKey], [getAll], [getAllKeys] and [count],
    for the store and for an index.  They are modelled from the IndexedDB
    algorithms the spec relies on; no code of the repository implements
    them. *)

From S2P Require Import Prelude Keys.

(** Error names the platform reports (DOMException names, and the
    ECMAScript [TypeError] of WebIDL conversions). *)
Inductive ErrorName : Type :=
| DataError
| ReadOnlyError
| TransactionInactiveError
| InvalidStateError
| NotFoundError
| ConstraintError
| AbortError
| VersionError
| InvalidAccessError
| TypeError.

#[export] Instance ErrorName_eq_dec : EqDecision ErrorName.
Proof. solve_decision. Defined.

(** The result of an operation run by the platform. *)
Inductive op_result (A : Type) : Type :=
| Done (a : A)
| Failed (e : ErrorName).
Arguments Done {A} a.
Arguments Failed {A} e.

Record IndexMeta : Type := mkIndex {
  ix_keyPath : KeyPath;
  ix_unique : bool;
  ix_multiEntry : bool
}.

Record ObjectStore : Type := mkStore {
  os_keyPath : option KeyPath;
  os_autoIncrement : bool;
  os_current : Z;
  os_records : list (Key * JsVal);
  os_indexes : list (string * IndexMeta)
}.

Definition set_current (s : ObjectStore) (c : Z) : ObjectStore :=
  mkStore (os_keyPath s) (os_autoIncrement s) c (os_records s) (os_indexes s).

Definition set_records (s : ObjectStore) (rs : list (Key * JsVal)) : ObjectStore :=
  mkStore (os_keyPath s) (os_autoIncrement s) (os_current s) rs (os_indexes s).

Definition set_indexes (s : ObjectStore) (ixs : list (string * IndexMeta)) : ObjectStore :=
  mkStore (os_keyPath s) (os_autoIncrement s) (os_current s) (os_records s) ixs.

(** A new store: the key generator's current number starts at 1. *)
Definition new_store (kp : option KeyPath) (auto : bool) : ObjectStore :=
  mkStore kp auto 1 [] [].

(** ** Records *)

Fixpoint rec_lookup (k : Key) (rs : list (Key * JsVal)) : option JsVal :=
  match rs with
  | [] => None
  | (k', v) :: rs' => if decide (k = k') then Some v else rec_lookup k rs'
  end.

Fixpoint rec_insert (k : Key) (v : JsVal) (rs : list (Key * JsVal)) : list (Key * JsVal) :=
  match rs with
  | [] => [(k, v)]
  | (k', v') :: rs' =>
      match key_compare k k' with
      | Lt => (k, v) :: rs
      | Eq => (k, v) :: rs'
      | Gt => (k', v') :: rec_insert k v rs'
      end
  end.

Definition rec_in_range (r : KeyRange) (rs : list (Key * JsVal)) : list (Key * JsVal) :=
  List.filter (fun kv => range_includes r kv.1) rs.

Definition rec_delete_range (r : KeyRange) (rs : list (Key * JsVal)) : list (Key * JsVal) :=
  List.filter (fun kv => negb (range_includes r kv.1)) rs.

(** The [count] argument of [getAll]/[getAllKeys]: absent or 0 is no limit. *)
Definition take_limit {A} (count : option Z) (l : list A) : list A :=
  match count with
  | Some n => if Z.eqb n 0 then l else firstn (Z.to_nat n) l
  | None => l
  end.

(** ** The key generator *)

Definition key_gen_max : Z := 2 ^ 53.

Definition generate_key (s : ObjectStore) : option (Key * ObjectStore) :=
  if Z.ltb key_gen_max (os_current s) then None
  else Some (KNum (os_current s), set_current s (os_current s + 1)).

Definition possibly_update_key_generator (s : ObjectStore) (k : Key) : ObjectStore :=
  match k with
  | KNum n =>
      let v := Z.min n key_gen_max in
      if Z.leb (os_current s) v then set_current s (v + 1) else s
  | KStr _ => s
  end.

(** ** Indexes *)

Definition index_keys (ix : IndexMeta) (v : JsVal) : list Key :=
  match eval_key_path (ix_keyPath ix) v with
  | None => []
  | Some iv =>
      if ix_multiEntry ix then
        match iv with
        | JArr vs => remove_dups (omap to_key vs)
        | _ => option_list (to_key iv)
        end
      else option_list (to_key iv)
  end.

(** An index entry: (index key, primary key, value). *)
Definition IndexEntry : Type := (Key * Key * JsVal)%type.

Definition entry_compare (e1 e2 : IndexEntry) : comparison :=
  match key_compare e1.1.1 e2.1.1 with
  | Eq => key_compare e1.1.2 e2.1.2
  | c => c
  end.

Fixpoint entry_insert (e : IndexEntry) (es : list IndexEntry) : list IndexEntry :=
  match es with
  | [] => [e]
  | e' :: es' =>
      match entry_compare e e' with
      | Gt => e' :: entry_insert e es'
      | _ => e :: es
      end
  end.

(** The index's records, in index-key order, ties in primary-key order. *)
Definition index_entries (ix : IndexMeta) (rs : list (Key * JsVal)) : list IndexEntry :=
  fold_right entry_insert []
    (flat_map (fun kv => map (fun ik => (ik, kv.1, kv.2)) (index_keys ix kv.2)) rs).

Definition entries_in_range (r : KeyRange) (es : list IndexEntry) : list IndexEntry :=
  List.filter (fun e => range_includes r e.1.1) es.

(** The index's natural order on its entries, not strict. *)
Definition entry_le (e1 e2 : IndexEntry) : Prop := entry_compare e1 e2 <> Gt.

(** Would storing [value] under [k] break a unique index?  The record
    replaced by the same primary key does not count. *)
Definition index_conflict (s : ObjectStore) (k : Key) (value : JsVal) : bool :=
  existsb (fun nix =>
    ix_unique nix.2 &&
    existsb (fun kv =>
      negb (bool_decide (kv.1 = k)) &&
      existsb (fun ik => bool_decide (ik ∈ index_keys nix.2 kv.2)) (index_keys nix.2 value))
      (os_records s))
    (os_indexes s).

(** ** Storing a record ([add]: [no_overwrite = true]; [put]: [false]) *)

(** The key and value to store, and the store with its generator advanced. *)
Definition record_key (s : ObjectStore) (value : JsVal) (key : option Key)
  : op_result (Key * JsVal * ObjectStore) :=
  match key with
  | Some k =>
      if os_autoIncrement s then Done (k, value, possibly_update_key_generator s k)
      else Done (k, value, s)
  | None =>
      if os_autoIncrement s then
        match generate_key s with
        | None => Failed ConstraintError
        | Some (k, s') =>
            match os_keyPath s with
            | Some p =>
                match inject_key p (key_to_val k) value with
                | Some v' => Done (k, v', s')
                | None => Failed DataError
                end
            | None => Done (k, value, s')
            end
        end
      else Failed DataError
  end.

Definition store_record (s : ObjectStore) (value : JsVal) (key : option Key) (no_overwrite : bool)
  : ObjectStore * op_result Key :=
  match record_key s value key with
  | Failed e => (s, Failed e)
  | Done (k, v, s') =>
      if no_overwrite && bool_decide (is_Some (rec_lookup k (os_records s'))) then
        (s', Failed ConstraintError)
      else if index_conflict s' k v then (s', Failed ConstraintError)
      else (set_records s' (rec_insert k v (os_records s')), Done k)
  end.

(** ** Retrievals and deletions on the store *)

Definition store_delete (r : KeyRange) (s : ObjectStore) : ObjectStore :=
  set_records s (rec_delete_range r (os_records s)).

Definition store_clear (s : ObjectStore) : ObjectStore := set_records s [].

Definition store_get (r : KeyRange) (s : ObjectStore) : JsVal :=
  match rec_in_range r (os_records s) with
  | (_, v) :: _ => v
  | [] => JUndefined
  end.

Definition store_getKey (r : KeyRange) (s : ObjectStore) : JsVal :=
  match rec_in_range r (os_records s) with
  | (k, _) :: _ => key_to_val k
  | [] => JUndefined
  end.

Definition store_getAll (r : KeyRange) (count : option Z) (s : ObjectStore) : list JsVal :=
  map snd (take_limit count (rec_in_range r (os_records s))).

Definition store_getAllKeys (r : KeyRange) (count : option Z) (s : ObjectStore) : list Key :=
  map fst (take_limit count (rec_in_range r (os_records s))).

Definition store_count (r : KeyRange) (s : ObjectStore) : Z :=
  Z.of_nat (length (rec_in_range r (os_records s))).

(** ** Retrievals on an index *)

Definition index_get (ix : IndexMeta) (r : KeyRange) (s : ObjectStore) : JsVal :=
  match entries_in_range r (index_entries ix (os_records s)) with
  | e :: _ => e.2
  | [] => JUndefined
  end.

Definition index_getKey (ix : IndexMeta) (r : KeyRange) (s : ObjectStore) : JsVal :=
  match entries_in_range r (index_entries ix (os_records s)) with
  | e :: _ => key_to_val e.1.2
  | [] => JUndefined
  end.

Definition index_getAll (ix : IndexMeta) (r : KeyRange) (count : option Z) (s : ObjectStore) : list JsVal :=
  map snd (take_limit count (entries_in_range r (index_entries ix (os_records s)))).

Definition index_getAllKeys (ix : IndexMeta) (r : KeyRange) (count : option Z) (s : ObjectStore) : list Key :=
  map (fun e => e.1.2) (take_limit count (entries_in_range r (index_entries ix (os_records s)))).

Definition index_count (ix : IndexMeta) (r : KeyRange) (s : ObjectStore) : Z :=
  Z.of_nat (length (entries_in_range r (index_entries ix (os_records s)))).

(** ** The store invariant *)

Definition keys_sorted (rs : list (Key * JsVal)) : Prop := StronglySorted key_lt (map fst rs).

(** Every numeric key within the generator's range is below its current
    number, so a generated key is never the key of a stored record. *)
Definition gen_wf (s : ObjectStore) : Prop :=
  os_autoIncrement s = true ->
  (1 <= os_current s <= key_gen_max + 1)%Z /\
  forall n v, In (KNum n, v) (os_records s) -> (n <= key_gen_max)%Z -> (n < os_current s)%Z.

Definition store_wf (s : ObjectStore) : Prop := keys_sorted (os_records s) /\ gen_wf s.


(** ** Lemmas on records *)

Lemma rec_insert_in (k : Key) (v : JsVal) rs kv :
  In kv (rec_insert k v rs) -> kv = (k, v) \/ In kv rs.
Proof.
  induction rs as [|[k' v'] rs IH]; simpl; [intuition|].
  destruct (key_compare k k'); simpl; intuition.
Qed.

Lemma rec_insert_forall (P : Key -> Prop) (k : Key) (v : JsVal) rs :
  P k -> Forall P (map fst rs) -> Forall P (map fst (rec_insert k v rs)).
Proof.
  intros Hk Hrs. rewrite List.Forall_forall in Hrs |- *.
  intros x (kv & <- & Hin)%in_map_iff.
  destruct (rec_insert_in k v rs kv Hin) as [-> | H]; [done|].
  apply Hrs, in_map_iff. eauto.
Qed.

Lemma rec_insert_sorted (k : Key) (v : JsVal) rs :
  keys_sorted rs -> keys_sorted (rec_insert k v rs).
Proof.
  unfold keys_sorted. induction rs as [|[k' v'] rs IH]; intros H; simpl.
  - repeat constructor.
  - apply StronglySorted_inv in H as [Hs Hf].
    destruct (key_compare_cases k k') as [[-> Hlt]|[[-> ->]|[-> Hgt]]]; simpl.
    + constructor; [by constructor|]. constructor; [done|].
      eapply Forall_impl; [exact Hf|]. intros x. by apply key_lt_trans.
    + by constructor.
    + constructor; [by apply IH|]. by apply rec_insert_forall.
Qed.

Lemma rec_lookup_insert_eq (k : Key) (v : JsVal) rs : rec_lookup k (rec_insert k v rs) = Some v.
Proof.
  induction rs as [|[k' v'] rs IH]; cbn [rec_lookup rec_insert]; [by case_decide|].
  destruct (key_compare_cases k k') as [[-> _]|[[-> ->]|[-> Hgt]]];
    cbn [rec_lookup]; case_decide; try done.
  subst. by destruct (key_lt_irrefl k').
Qed.

Lemma rec_lookup_insert_ne (k k' : Key) (v : JsVal) rs :
  k <> k' -> rec_lookup k' (rec_insert k v rs) = rec_lookup k' rs.
Proof.
  intros Hne. induction rs as [|[k'' v''] rs IH]; cbn [rec_lookup rec_insert].
  - case_decide; [by subst|done].
  - destruct (key_compare k k'') eqn:E; cbn [rec_lookup].
    + apply key_compare_eq in E as ->. case_decide; [by subst|done].
    + case_decide; [by subst|done].
    + by rewrite IH.
Qed.

Lemma rec_lookup_in (k : Key) (v : JsVal) rs : rec_lookup k rs = Some v -> In (k, v) rs.
Proof.
  induction rs as [|[k' v'] rs IH]; simpl; [done|].
  case_decide; [intros [= <-]; subst; by left | intros; right; auto].
Qed.

Lemma rec_lookup_none (k : Key) rs : rec_lookup k rs = None -> forall v, ~ In (k, v) rs.
Proof.
  induction rs as [|[k' v'] rs IH]; simpl; [by intros _ v []|].
  case_decide as Hne; [done|]. intros H v [Heq | Hin].
  - injection Heq as -> ->. by apply Hne.
  - by eapply IH.
Qed.

Lemma rec_lookup_delete_range (r : KeyRange) (k : Key) rs :
  rec_lookup k (rec_delete_range r rs) = if range_includes r k then None else rec_lookup k rs.
Proof.
  unfold rec_delete_range.
  induction rs as [|[k' v'] rs IH]; simpl; [by destruct (range_includes r k)|].
  destruct (range_includes r k') eqn:E; simpl.
  - rewrite IH. case_decide; subst; [by rewrite E|done].
  - case_decide; subst; [by rewrite E|done].
Qed.

Lemma keys_sorted_filter (f : Key * JsVal -> bool) rs :
  keys_sorted rs -> keys_sorted (List.filter f rs).
Proof.
  unfold keys_sorted. intros H. apply StronglySorted_map.
  apply StronglySorted_filter.
  induction rs as [|kv rs IH]; [constructor|]. simpl in H.
  apply StronglySorted_inv in H as [H1 H2]. constructor; [by apply IH|].
  rewrite List.Forall_forall in H2 |- *. intros x Hx. apply H2, in_map_iff. eauto.
Qed.

Lemma take_limit_incl {A} (count : option Z) (l : list A) x : In x (take_limit count l) -> In x l.
Proof.
  unfold take_limit. destruct count as [n|]; [|done].
  destruct (Z.eqb n 0); [done|]. apply in_firstn.
Qed.

Lemma take_limit_sorted {A} (R : A -> A -> Prop) (count : option Z) (l : list A) :
  StronglySorted R l -> StronglySorted R (take_limit count l).
Proof.
  unfold take_limit. destruct count as [n|]; [|done].
  destruct (Z.eqb n 0); [done|]. apply StronglySorted_firstn.
Qed.

Lemma take_limit_length {A} (n : Z) (l : list A) :
  (0 < n)%Z -> (length (take_limit (Some n) l) <= Z.to_nat n)%nat.
Proof.
  intros Hn. unfold take_limit. destruct (Z.eqb_spec n 0); [lia|]. apply length_firstn_le.
Qed.

#[export] Hint Resolve rec_insert_sorted keys_sorted_filter take_limit_sorted : idb.

(** ** Preservation of the invariant *)

(** Arithmetic on the generator's bound: [simpl] may unfold [key_gen_max]
    on one side only, so unfold it everywhere first. *)
Ltac gen_lia := unfold key_gen_max in *; simpl in *; lia.

Lemma generate_key_spec (s : ObjectStore) k s' :
  generate_key s = Some (k, s') ->
  k = KNum (os_current s) /\ s' = set_current s (os_current s + 1) /\ (os_current s <= key_gen_max)%Z.
Proof.
  unfold generate_key. destruct (Z.ltb_spec key_gen_max (os_current s)); [done|].
  intros [= <- <-]. split_and!; [done..|gen_lia].
Qed.

Lemma gen_wf_records (s : ObjectStore) rs :
  gen_wf s -> (forall kv, In kv rs -> In kv (os_records s)) -> gen_wf (set_records s rs).
Proof.
  unfold gen_wf; simpl. intros Hwf Hrs Hauto. destruct (Hwf Hauto) as [Hb Hk].
  split; [done|]. intros n v Hin Hn. apply (Hk n v); [by apply Hrs | done].
Qed.

(** The key chosen by [record_key] respects the generator: a numeric key
    within range is below the new current number. *)
Lemma record_key_spec (s : ObjectStore) value key k v s' :
  gen_wf s -> record_key s value key = Done (k, v, s') ->
  os_records s' = os_records s /\ os_indexes s' = os_indexes s /\
  os_autoIncrement s' = os_autoIncrement s /\ os_keyPath s' = os_keyPath s /\ gen_wf s' /\
  (os_autoIncrement s = true -> forall n, k = KNum n -> (n <= key_gen_max)%Z -> (n < os_current s')%Z).
Proof.
  intros Hwf. unfold record_key.
  destruct key as [k0|]; destruct (os_autoIncrement s) eqn:Ha; try done.
  - intros [= <- <- <-]. unfold possibly_update_key_generator.
    destruct k0 as [n0|s0]; [|split_and!; try done; intros; discriminate].
    destruct (Hwf Ha) as [Hb Hk].
    destruct (Z.leb_spec (os_current s) (Z.min n0 key_gen_max)); simpl;
      (split_and!; [done..| |]).
    + intros _. split; [gen_lia|]. intros n v0 Hin Hn. specialize (Hk n v0 Hin Hn). gen_lia.
    + intros _ n [= ->] Hn. gen_lia.
    + done.
    + intros _ n [= ->] Hn. gen_lia.
  - intros [= <- <- <-]. split_and!; done.
  - destruct (generate_key s) as [[k1 s1]|] eqn:Hg; [|done].
    apply generate_key_spec in Hg as (-> & -> & Hle).
    destruct (Hwf Ha) as [Hb Hk].
    assert (Hgen : gen_wf (set_current s (os_current s + 1))).
    { intros _. simpl. split; [gen_lia|]. intros n v0 Hin Hn. specialize (Hk n v0 Hin Hn). gen_lia. }
    destruct (os_keyPath s) as [p|] eqn:Hp;
      [destruct (inject_key p _ value) as [v'|]; [|done]|];
      intros [= <- <- <-]; simpl; (split_and!; [done..|]); intros _ n [= ->] _; gen_lia.
Qed.

Lemma store_record_wf (s : ObjectStore) value key no_overwrite :
  store_wf s -> store_wf (store_record s value key no_overwrite).1.
Proof.
  intros [Hsort Hgen]. unfold store_record.
  destruct (record_key s value key) as [[[k v] s']|e] eqn:Hrk; [|done].
  destruct (record_key_spec s value key k v s' Hgen Hrk) as (Hr & _ & Ha & _ & Hgen' & Hk).
  assert (Hwf' : store_wf s') by (split; [by rewrite Hr | done]).
  destruct (_ && _); [done|]. destruct (index_conflict s' k v); [done|]. simpl.
  split; [by apply rec_insert_sorted; rewrite Hr|].
  intros Hauto. destruct (Hgen' Hauto) as [Hb Hold]. split; [done|].
  intros n v0 Hin Hn. simpl in Hin.
  destruct (rec_insert_in k v _ _ Hin) as [[= <- _] | Hin'].
  - apply (Hk); [by rewrite <- Ha | done | done].
  - by apply (Hold n v0).
Qed.

Lemma gen_wf_filter (s : ObjectStore) (f : Key * JsVal -> bool) :
  gen_wf s -> gen_wf (set_records s (List.filter f (os_records s))).
Proof.
  intros Hwf. apply gen_wf_records; [done|]. intros kv Hin.
  by apply filter_In in Hin as [? _].
Qed.

Lemma store_delete_wf (r : KeyRange) (s : ObjectStore) : store_wf s -> store_wf (store_delete r s).
Proof.
  intros [Hs Hg]. split; [by apply keys_sorted_filter | by apply gen_wf_filter].
Qed.

Lemma store_clear_wf (s : ObjectStore) : store_wf s -> store_wf (store_clear s).
Proof.
  intros [Hs Hg]. split; [constructor|].
  intros Ha. destruct (Hg Ha) as [Hb _]. split; [done|]. by intros ? ? [].
Qed.

Lemma new_store_wf (kp : option KeyPath) (auto : bool) : store_wf (new_store kp auto).
Proof.
  split; [constructor|]. intros _. simpl. split; [unfold key_gen_max; gen_lia|]. by intros ? ? [].
Qed.

#[export] Hint Resolve store_record_wf store_delete_wf store_clear_wf new_store_wf : idb.

(** ** Functional behaviour of the record operations *)

Lemma store_record_put_lookup (s : ObjectStore) (value : JsVal) (k : Key) s' r :
  store_record s value (Some k) false = (s', r) ->
  (r = Done k /\ rec_lookup k (os_records s') = Some value) \/
  (r = Failed ConstraintError /\ os_records s' = os_records s).
Proof.
  unfold store_record, record_key.
  assert (Hk : forall s1, os_records s1 = os_records s ->
    (if false && bool_decide (is_Some (rec_lookup k (os_records s1))) then (s1, Failed ConstraintError)
     else if index_conflict s1 k value then (s1, Failed ConstraintError)
     else (set_records s1 (rec_insert k value (os_records s1)), Done k)) = (s', r) ->
    (r = Done k /\ rec_lookup k (os_records s') = Some value) \/
    (r = Failed ConstraintError /\ os_records s' = os_records s)).
  { intros s1 Hs1. simpl. destruct (index_conflict s1 k value).
    - intros [= <- <-]. by right.
    - intros [= <- <-]. left. split; [done|]. apply rec_lookup_insert_eq. }
  destruct (os_autoIncrement s); apply Hk; [|done].
  unfold possibly_update_key_generator.
  destruct k as [n|]; [|done]. by destruct (Z.leb _ _).
Qed.

Lemma store_record_add_existing (s : ObjectStore) (value : JsVal) (k : Key) s' r :
  is_Some (rec_lookup k (os_records s)) ->
  store_record s value (Some k) true = (s', r) ->
  r = Failed ConstraintError /\ os_records s' = os_records s.
Proof.
  intros Hk. unfold store_record, record_key.
  assert (Hrec : os_records (if os_autoIncrement s then possibly_update_key_generator s k else s)
                 = os_records s).
  { destruct (os_autoIncrement s); [|done]. unfold possibly_update_key_generator.
    destruct k; [|done]. by destruct (Z.leb _ _). }
  destruct (os_autoIncrement s); simpl in Hrec;
    [rewrite Hrec|]; rewrite bool_decide_true by done; intros [= <- <-]; by split.
Qed.

(** The generated key of an auto-increment store is the current number,
    and it never collides with a stored key. *)
Lemma store_record_generated (s : ObjectStore) (value : JsVal) :
  store_wf s -> os_autoIncrement s = true -> os_keyPath s = None ->
  (os_current s <= key_gen_max)%Z -> index_conflict (set_current s (os_current s + 1)) (KNum (os_current s)) value = false ->
  store_record s value None true =
    (set_records (set_current s (os_current s + 1)) (rec_insert (KNum (os_current s)) value (os_records s)),
     Done (KNum (os_current s))).
Proof.
  intros [_ Hgen] Ha Hp Hle Hix. unfold store_record, record_key, generate_key.
  rewrite Ha, Hp. destruct (Z.ltb_spec key_gen_max (os_current s)); [gen_lia|].
  simpl. rewrite Hix, bool_decide_false; [done|].
  destruct (Hgen Ha) as [_ Hk]. intros [v Hv]. apply rec_lookup_in in Hv.
  specialize (Hk _ _ Hv Hle). lia.
Qed.

Lemma store_record_generator_exhausted (s : ObjectStore) (value : JsVal) (no_overwrite : bool) :
  os_autoIncrement s = true -> (key_gen_max < os_current s)%Z ->
  store_record s value None no_overwrite = (s, Failed ConstraintError).
Proof.
  intros Ha Hgt. unfold store_record, record_key, generate_key. rewrite Ha.
  by destruct (Z.ltb_spec key_gen_max (os_current s)); [|lia].
Qed.

Lemma store_delete_lookup (r : KeyRange) (s : ObjectStore) (k : Key) :
  rec_lookup k (os_records (store_delete r s)) =
  if range_includes r k then None else rec_lookup k (os_records s).
Proof. apply rec_lookup_delete_range. Qed.

Lemma rec_in_range_iff (r : KeyRange) rs kv :
  In kv (rec_in_range r rs) <-> In kv rs /\ range_includes r kv.1 = true.
Proof. apply filter_In. Qed.

Lemma store_getAllKeys_sorted (r : KeyRange) (count : option Z) (s : ObjectStore) :
  store_wf s -> StronglySorted key_lt (store_getAllKeys r count s).
Proof.
  intros [Hs _]. unfold store_getAllKeys.
  apply StronglySorted_map. apply take_limit_sorted.
  apply StronglySorted_filter.
  unfold keys_sorted in Hs. remember (os_records s) as rs eqn:E. clear E.
  induction rs as [|kv rs IH]; [constructor|]. simpl in Hs.
  apply StronglySorted_inv in Hs as [H1 H2]. constructor; [by apply IH|].
  rewrite List.Forall_forall in H2 |- *. intros x Hx. apply H2, in_map_iff. eauto.
Qed.

Lemma store_getAllKeys_in_range (r : KeyRange) (count : option Z) (s : ObjectStore) :
  Forall (fun k => range_includes r k = true) (store_getAllKeys r count s).
Proof.
  unfold store_getAllKeys. rewrite List.Forall_forall.
  intros k (kv & <- & Hin)%in_map_iff.
  apply take_limit_incl, rec_in_range_iff in Hin. tauto.
Qed.

(** [get(k)] on a single key is the lookup of that key. *)
Lemma store_get_only (k : Key) (s : ObjectStore) :
  store_get (range_only k) s = default JUndefined (rec_lookup k (os_records s)).
Proof.
  unfold store_get, rec_in_range. induction (os_records s) as [|[k' v'] rs IH]; simpl; [done|].
  destruct (range_includes (range_only k) k') eqn:E.
  - apply range_only_includes in E as ->. by rewrite decide_True.
  - rewrite decide_False; [exact IH|]. intros <-.
    by rewrite (proj2 (range_only_includes k k) eq_refl) in E.
Qed.

Lemma possibly_update_key_generator_same (s : ObjectStore) (k : Key) :
  os_records (possibly_update_key_generator s k) = os_records s /\
  os_indexes (possibly_update_key_generator s k) = os_indexes s.
Proof. unfold possibly_update_key_generator. destruct k; [|done]. by destruct (Z.leb _ _). Qed.

Lemma index_conflict_same (s1 s2 : ObjectStore) (k : Key) (value : JsVal) :
  os_records s1 = os_records s2 -> os_indexes s1 = os_indexes s2 ->
  index_conflict s1 k value = index_conflict s2 k value.
Proof. unfold index_conflict. by intros -> ->. Qed.

(** [add] at a key that is not in the store, with no unique index
    violated, stores the record and returns the key. *)
Lemma store_record_add_fresh (s : ObjectStore) (value : JsVal) (k : Key) :
  rec_lookup k (os_records s) = None -> index_conflict s k value = false ->
  exists s', store_record s value (Some k) true = (s', Done k) /\ rec_lookup k (os_records s') = Some value.
Proof.
  intros Hnone Hic. unfold store_record, record_key.
  set (s1 := if os_autoIncrement s then possibly_update_key_generator s k else s).
  assert (Hs1 : os_records s1 = os_records s /\ os_indexes s1 = os_indexes s).
  { unfold s1. destruct (os_autoIncrement s); [apply possibly_update_key_generator_same | done]. }
  replace (if os_autoIncrement s then Done (k, value, possibly_update_key_generator s k) else Done (k, value, s))
    with (Done (A:=Key * JsVal * ObjectStore) (k, value, s1)) by (unfold s1; by destruct (os_autoIncrement s)).
  destruct Hs1 as [Hr Hi]. rewrite Hr, Hnone, bool_decide_false by (intros [? [=]]).
  rewrite (index_conflict_same s1 s k value Hr Hi), Hic. eexists. split; [reflexivity|].
  cbn [set_records os_records]. apply rec_lookup_insert_eq.
Qed.


(** ** The order of index entries *)

Lemma key_compare_le_trans (a b c : Key) :
  key_compare a b <> Gt -> key_compare b c <> Gt -> key_compare a c <> Gt.
Proof.
  destruct (key_compare_cases a b) as [[Hab Lab]|[[_ ->]|[Hab _]]]; [| done | by rewrite Hab].
  destruct (key_compare_cases b c) as [[_ Lbc]|[[_ <-]|[Hbc _]]]; [| by rewrite Hab | by rewrite Hbc].
  intros _ _. pose proof (key_lt_trans _ _ _ Lab Lbc) as Lac. unfold key_lt in Lac. by rewrite Lac.
Qed.

Lemma entry_compare_antisym (e1 e2 : IndexEntry) : entry_compare e2 e1 = CompOpp (entry_compare e1 e2).
Proof.
  unfold entry_compare. rewrite (key_compare_antisym e1.1.1 e2.1.1).
  destruct (key_compare e1.1.1 e2.1.1); [apply key_compare_antisym | done | done].
Qed.

Lemma entry_le_cases (e1 e2 : IndexEntry) :
  entry_le e1 e2 <-> key_compare e1.1.1 e2.1.1 = Lt \/ (e1.1.1 = e2.1.1 /\ key_compare e1.1.2 e2.1.2 <> Gt).
Proof.
  unfold entry_le, entry_compare.
  destruct (key_compare_cases e1.1.1 e2.1.1) as [[-> _]|[[-> ->]|[-> Hlt]]].
  - split; [by left | done].
  - split; [by right | by intros [[=]|[_ ?]]].
  - split; [done|]. intros [[=]|[Heq _]]. rewrite Heq in Hlt. by apply key_lt_irrefl in Hlt.
Qed.

Lemma entry_le_trans (e1 e2 e3 : IndexEntry) : entry_le e1 e2 -> entry_le e2 e3 -> entry_le e1 e3.
Proof.
  rewrite !entry_le_cases. intros [H12|[E12 H12]] [H23|[E23 H23]].
  - left. pose proof (key_lt_trans _ _ _ H12 H23) as H. exact H.
  - left. by rewrite <- E23.
  - left. by rewrite E12.
  - right. split; [congruence | exact (key_compare_le_trans _ _ _ H12 H23)].
Qed.

Lemma entry_insert_in (e : IndexEntry) es x : In x (entry_insert e es) -> x = e \/ In x es.
Proof.
  induction es as [|e' es IH]; cbn [entry_insert]; [intros [<-|[]]; by left|].
  destruct (entry_compare e e'); cbn [In]; try (intros [<-|Hx]; [by left | by right]).
  intros [<-|Hx]; [by right; left | destruct (IH Hx); [by left | by right; right]].
Qed.

Lemma entry_insert_sorted (e : IndexEntry) es :
  StronglySorted entry_le es -> StronglySorted entry_le (entry_insert e es).
Proof.
  induction es as [|e' es IH]; intros Hs; cbn [entry_insert]; [repeat constructor|].
  apply StronglySorted_inv in Hs as [Hs Hall].
  destruct (entry_compare e e') eqn:E.
  1,2: constructor; [by constructor | constructor; [unfold entry_le; by rewrite E|]];
       eapply Forall_impl; [exact Hall|]; intros x Hx; apply (entry_le_trans _ e'); [unfold entry_le; by rewrite E | done].
  constructor; [by apply IH|]. rewrite List.Forall_forall in Hall |- *.
  intros x [->|Hx]%entry_insert_in; [|by apply Hall].
  unfold entry_le. rewrite entry_compare_antisym, E. done.
Qed.

(** The index lists its entries in its natural order. *)
Lemma index_entries_sorted (ix : IndexMeta) rs : StronglySorted entry_le (index_entries ix rs).
Proof.
  unfold index_entries. induction (flat_map _ rs) as [|e es IH]; cbn [fold_right]; [constructor|].
  by apply entry_insert_sorted.
Qed.

(** [getAllKeys(range, count)] on an index, with [count > 0]: at most
    [count] primary keys, those of entries of the index that are in the
    range, in the index's order. *)
Lemma index_getAllKeys_spec (ix : IndexMeta) (r : KeyRange) (n : Z) (s : ObjectStore) :
  (0 < n)%Z ->
  (length (index_getAllKeys ix r (Some n) s) <= Z.to_nat n)%nat /\
  exists es, index_getAllKeys ix r (Some n) s = map (fun e => e.1.2) es /\ StronglySorted entry_le es /\
    Forall (fun e => range_includes r e.1.1 = true /\ In e (index_entries ix (os_records s))) es.
Proof.
  intros Hn. unfold index_getAllKeys. split; [rewrite length_map; by apply take_limit_length|].
  eexists. split; [reflexivity|]. split.
  - apply take_limit_sorted, StronglySorted_filter, index_entries_sorted.
  - apply List.Forall_forall. intros e He%take_limit_incl. unfold entries_in_range in He.
    apply filter_In in He. tauto.
Qed.

