(* ===== verification/Promise.v ===== *)
(** * Promise: ECMAScript promises as cells of a heap

    [new Promise(executor)] allocates a pending promise and hands the
    executor its resolving functions; the first call of [resolve] or
    [reject] settles it and later calls do nothing (the "already resolved"
    flag of the resolving functions).  The values the wrapper resolves with
    are never thenables (request results are structured clones, which carry
    no functions), so resolving fulfils at once.

    The heap is generic in the fulfilment values [V] and rejection reasons
    [R]; [World] instantiates it.  The theorem of this file is that
    settlement is final: [heap_extends] is a preorder that every heap
    operation respects. *)

From S2P Require Import Prelude.

Inductive PState (V R : Type) : Type :=
| Pending
| Fulfilled (v : V)
| Rejected (r : R).
Arguments Pending {V R}.
Arguments Fulfilled {V R} v.
Arguments Rejected {V R} r.

Section PromiseHeap.
Context {V R : Type}.

Local Abbreviation pheap := (gmap nat (PState V R)).

Definition promise_alloc (p : nat) (h : pheap) : pheap := <[p := Pending]> h.

(** [resolve(v)]: fulfils a pending promise, ignored otherwise. *)
Definition promise_resolve (p : nat) (v : V) (h : pheap) : pheap :=
  match h !! p with
  | Some Pending => <[p := Fulfilled v]> h
  | _ => h
  end.

(** [reject(r)]: rejects a pending promise, ignored otherwise. *)
Definition promise_reject (p : nat) (r : R) (h : pheap) : pheap :=
  match h !! p with
  | Some Pending => <[p := Rejected r]> h
  | _ => h
  end.

Definition settled (st : PState V R) : Prop :=
  match st with Pending => False | _ => True end.

(** [h'] extends [h]: every promise of [h] is still there, and a settled
    one has not changed. *)
Definition heap_extends (h h' : pheap) : Prop :=
  forall p st, h !! p = Some st ->
    exists st', h' !! p = Some st' /\ (settled st -> st' = st).

#[export] Instance heap_extends_preorder : PreOrder heap_extends.
Proof.
  split.
  - intros h p st Hp. by exists st.
  - intros h1 h2 h3 H12 H23 p st Hp.
    destruct (H12 p st Hp) as (st2 & Hp2 & Hs2).
    destruct (H23 p st2 Hp2) as (st3 & Hp3 & Hs3).
    exists st3. split; [done|]. intros Hs. rewrite Hs3; [by apply Hs2|].
    by rewrite (Hs2 Hs).
Qed.

Lemma promise_resolve_extends (p : nat) (v : V) (h : pheap) :
  heap_extends h (promise_resolve p v h).
Proof.
  unfold promise_resolve. destruct (h !! p) as [[]|] eqn:Hp; try reflexivity.
  intros q st Hq. destruct (decide (p = q)) as [<-|Hne].
  - rewrite lookup_insert_eq. rewrite Hp in Hq. injection Hq as <-. by eexists.
  - rewrite lookup_insert_ne by done. by exists st.
Qed.

Lemma promise_reject_extends (p : nat) (r : R) (h : pheap) :
  heap_extends h (promise_reject p r h).
Proof.
  unfold promise_reject. destruct (h !! p) as [[]|] eqn:Hp; try reflexivity.
  intros q st Hq. destruct (decide (p = q)) as [<-|Hne].
  - rewrite lookup_insert_eq. rewrite Hp in Hq. injection Hq as <-. by eexists.
  - rewrite lookup_insert_ne by done. by exists st.
Qed.

Lemma promise_alloc_extends (p : nat) (h : pheap) :
  h !! p = None -> heap_extends h (promise_alloc p h).
Proof.
  intros Hfresh q st Hq. unfold promise_alloc.
  rewrite lookup_insert_ne; [by exists st|]. intros ->. congruence.
Qed.

Lemma promise_resolve_pending (p : nat) (v : V) (h : pheap) :
  h !! p = Some Pending -> promise_resolve p v h !! p = Some (Fulfilled v).
Proof. intros Hp. unfold promise_resolve. rewrite Hp. apply lookup_insert_eq. Qed.

Lemma promise_reject_pending (p : nat) (r : R) (h : pheap) :
  h !! p = Some Pending -> promise_reject p r h !! p = Some (Rejected r).
Proof. intros Hp. unfold promise_reject. rewrite Hp. apply lookup_insert_eq. Qed.

Lemma promise_resolve_other (p q : nat) (v : V) (h : pheap) :
  p <> q -> promise_resolve p v h !! q = h !! q.
Proof.
  intros Hne. unfold promise_resolve. destruct (h !! p) as [[]|]; try done.
  by rewrite lookup_insert_ne.
Qed.

Lemma promise_reject_other (p q : nat) (r : R) (h : pheap) :
  p <> q -> promise_reject p r h !! q = h !! q.
Proof.
  intros Hne. unfold promise_reject. destruct (h !! p) as [[]|]; try done.
  by rewrite lookup_insert_ne.
Qed.

(** A settled promise is a fixed point of both resolving functions. *)
Lemma promise_resolve_settled (p : nat) (v : V) (h : pheap) st :
  h !! p = Some st -> settled st -> promise_resolve p v h = h.
Proof. unfold promise_resolve. intros -> Hs. by destruct st. Qed.

Lemma promise_reject_settled (p : nat) (r : R) (h : pheap) st :
  h !! p = Some st -> settled st -> promise_reject p r h = h.
Proof. unfold promise_reject. intros -> Hs. by destruct st. Qed.
End PromiseHeap.

#[export] Hint Resolve promise_resolve_extends promise_reject_extends promise_alloc_extends : idb.
