(* ===== verification/World.v ===== *)
(** * World: the JavaScript heap the wrapper runs in

    The state shared by the wrapper and the platform: promises, request
    objects with their event listeners, transactions, connections, the
    wrapper objects the program allocates, the stored databases, and a log
    of the caller's callbacks that were invoked.  The JavaScript code runs
    in the monad [JS] (the [st] monad of [Prelude] over [World], throwing
    [ErrorName]s).

    The closures the wrapper registers with [addEventListener] are
    defunctionalized as [Listener]; [run_listener] is their bodies (the
    arrow functions of src/src/index.ts), and [dispatch] is DOM event
    dispatch: the listeners of each target on the event's path, in
    registration order, with exceptions reported and not propagated. *)

From S2P Require Import Prelude Keys Store Promise.

(** ** Events *)

Inductive EvType : Type :=
| EvSuccess | EvError | EvUpgradeNeeded | EvBlocked | EvAbort | EvComplete.

#[export] Instance EvType_eq_dec : EqDecision EvType.
Proof. solve_decision. Defined.

Inductive Target : Type :=
| TRequest (r : nat)
| TTx (t : nat)
| TConn (c : nat).

Record Event : Type := mkEvent {
  ev_type : EvType;
  ev_target : Target;
  ev_oldVersion : Z;
  ev_newVersion : option Z
}.

(** An [Event] a caller constructs and passes to [dispatchEvent]: its
    type, its [bubbles] and [cancelable] flags, and its dispatch flag
    (set while the event is being dispatched). *)
Record DomEvent : Type := mkDomEvent {
  de_type : EvType;
  de_bubbles : bool;
  de_cancelable : bool;
  de_dispatching : bool
}.

(** A rejection reason: an exception thrown in the executor, or the error
    event passed to the ['error'] listener. *)
Inductive Reason : Type :=
| RThrown (e : ErrorName)
| REvent (ev : Event).

(** A caller's own event handler: its identity, and whether it calls
    [preventDefault()]. *)
Record ClientCb : Type := mkCb { cb_id : nat; cb_cancels : bool }.

#[export] Instance ClientCb_eq_dec : EqDecision ClientCb.
Proof. solve_decision. Defined.

(** The schema changes a migration callback makes on the raw database. *)
Inductive SchemaCmd : Type :=
| CreateObjectStore (name : string) (kp : option KeyPath) (auto : bool)
| DeleteObjectStore (name : string)
| CreateIndex (st : string) (name : string) (kp : KeyPath) (unique multiEntry : bool)
| DeleteIndex (st : string) (name : string).

(** The caller's migration callback: what it does for given versions. *)
Record Migration : Type := mkMigration {
  mig_id : nat;
  mig_body : Z -> option Z -> list SchemaCmd
}.

(** ** Native handles and the wrapper classes' state *)

Record StoreHandle : Type := mkStoreHandle { sh_tx : nat; sh_name : string }.
Record IndexHandle : Type := mkIndexHandle { ih_store : StoreHandle; ih_name : string }.

Record PromisedIndexedDbIndex : Type := mkPIndex { index : IndexHandle }.
Record PromisedIndexedDbObjectStore : Type := mkPStore { store : StoreHandle }.
Record PromisedIndexedDbTransaction : Type := mkPTx { transaction : nat }.
Record PromisedIndexedDb : Type := mkPDb { db : nat }.

(** An object of the program's heap: an instance of one of the classes. *)
Inductive WrapperObj : Type :=
| OIndex (o : PromisedIndexedDbIndex)
| OStore (o : PromisedIndexedDbObjectStore)
| OTx (o : PromisedIndexedDbTransaction)
| ODb (o : PromisedIndexedDb).

(** A promise's value: a JavaScript value or a reference to a wrapper object. *)
Inductive PVal : Type :=
| PJs (v : JsVal)
| PObj (o : nat).

(** ** The closures registered as listeners *)

Inductive Listener : Type :=
| LResolveResult (p : nat) (req : nat)  (* () => { resolve(req.result); } *)
| LResolveUndefined (p : nat)           (* () => { resolve(undefined); } *)
| LReject (p : nat)                     (* (ev) => { reject(ev); } *)
| LOpenSuccess (p : nat)                (* (ev) => { resolve(new PromisedIndexedDb(ev.target.result)); } *)
| LUpgrade (m : Migration)              (* (ev) => { migration(db, ev.oldVersion, ev.newVersion); } *)
| LBlocked (b : nat)                    (* (ev) => { blocked(ev.oldVersion, ev.newVersion); } *)
| LClient (cb : ClientCb).              (* a caller's handler passed through *)

(** Two registrations are the same callback only for a caller's handler
    passed twice: each call of a wrapper method creates new closures. *)
Definition same_listener (a b : Listener) : bool :=
  match a, b with
  | LClient c1, LClient c2 => bool_decide (c1 = c2)
  | _, _ => false
  end.

(** ** Requests, transactions, connections, databases *)

Inductive ReqOp : Type :=
| OpAdd (v : JsVal) (k : option Key)
| OpPut (v : JsVal) (k : option Key)
| OpDelete (r : KeyRange)
| OpClear
| OpGet (r : KeyRange)
| OpGetKey (r : KeyRange)
| OpGetAll (r : KeyRange) (c : option Z)
| OpGetAllKeys (r : KeyRange) (c : option Z)
| OpCount (r : KeyRange)
| OpOpen (name : string) (version : Z).

Inductive Source : Type :=
| SrcStore (h : StoreHandle)
| SrcIndex (h : IndexHandle)
| SrcFactory.

Record Request : Type := mkRequest {
  rq_source : Source;
  rq_op : ReqOp;
  rq_done : bool;
  rq_result : JsVal;
  rq_conn : option nat;          (* the result of an open request *)
  rq_error : option ErrorName;
  rq_blocked : bool;             (* 'blocked' already fired at an open request *)
  rq_listeners : list (EvType * Listener)
}.

Record Database : Type := mkDb { db_version : Z; db_stores : gmap string ObjectStore }.

Inductive TxMode : Type := ReadOnly | ReadWrite | VersionChange.

#[export] Instance TxMode_eq_dec : EqDecision TxMode.
Proof. solve_decision. Defined.

(** [TxAborting]: aborted and reverted, its error and abort events not yet
    all fired (the platform's "finished" state with queued events). *)
Inductive TxState : Type := TxActive | TxInactive | TxCommitting | TxAborting | TxFinished.

#[export] Instance TxState_eq_dec : EqDecision TxState.
Proof. solve_decision. Defined.

Record Transaction : Type := mkTx {
  tx_conn : nat;
  tx_scope : list string;
  tx_mode : TxMode;
  tx_state : TxState;
  tx_requests : list nat;                         (* placed, not yet executed *)
  tx_snapshot : option Database;                  (* the database before the first request ran *)
  tx_aborted : bool;
  tx_openreq : option nat;                        (* the open request of an upgrade *)
  tx_listeners : list (EvType * Listener)
}.

Record Connection : Type := mkConn {
  conn_name : string;
  conn_version : Z;
  conn_closed : bool;
  conn_listeners : list (EvType * Listener)
}.

Inductive LogEntry : Type :=
| LogClient (cb : ClientCb) (ev : Event)
| LogBlocked (b : nat) (oldVersion : Z) (newVersion : option Z)
| LogMigration (m : nat) (c : nat) (oldVersion : Z) (newVersion : option Z).

Record World : Type := mkWorld {
  w_promises : gmap nat (PState PVal Reason);
  w_requests : gmap nat Request;
  w_txs : gmap nat Transaction;
  w_conns : gmap nat Connection;
  w_objects : gmap nat WrapperObj;
  w_dbs : gmap string Database;
  w_next : nat;
  w_log : list LogEntry
}.

Abbreviation JS A := (st ErrorName World A).

Local Open Scope st_scope.

(** ** Field updates *)

Definition set_promises (f : gmap nat (PState PVal Reason) -> gmap nat (PState PVal Reason)) (w : World) : World :=
  mkWorld (f (w_promises w)) (w_requests w) (w_txs w) (w_conns w) (w_objects w) (w_dbs w) (w_next w) (w_log w).
Definition set_requests (f : gmap nat Request -> gmap nat Request) (w : World) : World :=
  mkWorld (w_promises w) (f (w_requests w)) (w_txs w) (w_conns w) (w_objects w) (w_dbs w) (w_next w) (w_log w).
Definition set_txs (f : gmap nat Transaction -> gmap nat Transaction) (w : World) : World :=
  mkWorld (w_promises w) (w_requests w) (f (w_txs w)) (w_conns w) (w_objects w) (w_dbs w) (w_next w) (w_log w).
Definition set_conns (f : gmap nat Connection -> gmap nat Connection) (w : World) : World :=
  mkWorld (w_promises w) (w_requests w) (w_txs w) (f (w_conns w)) (w_objects w) (w_dbs w) (w_next w) (w_log w).
Definition set_objects (f : gmap nat WrapperObj -> gmap nat WrapperObj) (w : World) : World :=
  mkWorld (w_promises w) (w_requests w) (w_txs w) (w_conns w) (f (w_objects w)) (w_dbs w) (w_next w) (w_log w).
Definition set_dbs (f : gmap string Database -> gmap string Database) (w : World) : World :=
  mkWorld (w_promises w) (w_requests w) (w_txs w) (w_conns w) (w_objects w) (f (w_dbs w)) (w_next w) (w_log w).
Definition bump_next (w : World) : World :=
  mkWorld (w_promises w) (w_requests w) (w_txs w) (w_conns w) (w_objects w) (w_dbs w) (S (w_next w)) (w_log w).
Definition log_entry (e : LogEntry) (w : World) : World :=
  mkWorld (w_promises w) (w_requests w) (w_txs w) (w_conns w) (w_objects w) (w_dbs w) (w_next w) (w_log w ++ [e]).

(** The world before anything ran. *)
Definition empty_world : World := mkWorld ∅ ∅ ∅ ∅ ∅ ∅ 0 [].

(** ** Primitive operations *)

Definition fresh : JS nat := w <- st_get ;; st_modify bump_next ;; ret (w_next w).

Definition alloc_promise : JS nat :=
  p <- fresh ;; st_modify (set_promises (promise_alloc p)) ;; ret p.

Definition resolve (p : nat) (v : PVal) : JS unit := st_modify (set_promises (promise_resolve p v)).
Definition reject (p : nat) (r : Reason) : JS unit := st_modify (set_promises (promise_reject p r)).

(** [new C(handle)]: a fresh object of the heap. *)
Definition alloc_object (o : WrapperObj) : JS nat :=
  i <- fresh ;; st_modify (set_objects (insert i o)) ;; ret i.

(** [new Promise(executor)]: an exception thrown by the executor rejects
    the promise instead of propagating. *)
Definition new_promise (executor : nat -> JS unit) : JS nat :=
  p <- alloc_promise ;;
  st_catch (executor p) (fun e => reject p (RThrown e)) ;;
  ret p.

Definition listeners_of (w : World) (t : Target) : list (EvType * Listener) :=
  match t with
  | TRequest r => default [] (rq_listeners <$> w_requests w !! r)
  | TTx t => default [] (tx_listeners <$> w_txs w !! t)
  | TConn c => default [] (conn_listeners <$> w_conns w !! c)
  end.

Definition update_listeners (t : Target) (f : list (EvType * Listener) -> list (EvType * Listener)) (w : World) : World :=
  match t with
  | TRequest r => set_requests (alter (fun rq =>
      mkRequest (rq_source rq) (rq_op rq) (rq_done rq) (rq_result rq) (rq_conn rq) (rq_error rq) (rq_blocked rq)
        (f (rq_listeners rq))) r) w
  | TTx t => set_txs (alter (fun tx =>
      mkTx (tx_conn tx) (tx_scope tx) (tx_mode tx) (tx_state tx) (tx_requests tx) (tx_snapshot tx)
        (tx_aborted tx) (tx_openreq tx) (f (tx_listeners tx))) t) w
  | TConn c => set_conns (alter (fun cn =>
      mkConn (conn_name cn) (conn_version cn) (conn_closed cn) (f (conn_listeners cn))) c) w
  end.

(** [target.addEventListener(type, l)]: ignored when the same callback is
    already registered for the type. *)
Definition add_listener (t : Target) (ty : EvType) (l : Listener) : JS unit :=
  st_modify (update_listeners t (fun ls =>
    if existsb (fun e => bool_decide (e.1 = ty) && same_listener e.2 l) ls then ls else ls ++ [(ty, l)])).

(** [target.removeEventListener(type, l)]. *)
Definition remove_listener (t : Target) (ty : EvType) (l : Listener) : JS unit :=
  st_modify (update_listeners t (List.filter (fun e => negb (bool_decide (e.1 = ty) && same_listener e.2 l)))).

(** ** Schema changes on a connection's database (during an upgrade) *)

Definition set_db (name : string) (d : Database) (w : World) : World :=
  set_dbs (insert name d) w.

Definition schema_step (d : Database) (cmd : SchemaCmd) : op_result Database :=
  match cmd with
  | CreateObjectStore n kp auto =>
      if bool_decide (is_Some (db_stores d !! n)) then Failed ConstraintError
      else if auto && bool_decide (kp = Some []) then Failed InvalidAccessError
      else Done (mkDb (db_version d) (<[n := new_store kp auto]> (db_stores d)))
  | DeleteObjectStore n =>
      match db_stores d !! n with
      | None => Failed NotFoundError
      | Some _ => Done (mkDb (db_version d) (delete n (db_stores d)))
      end
  | CreateIndex sn n kp u me =>
      match db_stores d !! sn with
      | None => Failed NotFoundError
      | Some s =>
          if bool_decide (n ∈ (os_indexes s).*1) then Failed ConstraintError
          else Done (mkDb (db_version d)
                 (<[sn := set_indexes s (os_indexes s ++ [(n, mkIndex kp u me)])]> (db_stores d)))
      end
  | DeleteIndex sn n =>
      match db_stores d !! sn with
      | None => Failed NotFoundError
      | Some s =>
          if bool_decide (n ∈ (os_indexes s).*1) then
            Done (mkDb (db_version d)
                   (<[sn := set_indexes s (List.filter (fun e => negb (String.eqb e.1 n)) (os_indexes s))]> (db_stores d)))
          else Failed NotFoundError
      end
  end.

(** The migration's commands run one after the other; the first failure
    throws, and the changes before it stay (the upgrade transaction is
    then aborted by the platform, which reverts them). *)
Fixpoint run_schema (c : nat) (cmds : list SchemaCmd) : JS unit :=
  match cmds with
  | [] => ret tt
  | cmd :: cmds' =>
      w <- st_get ;;
      match w_conns w !! c with
      | None => st_throw InvalidStateError
      | Some cn =>
          match w_dbs w !! conn_name cn with
          | None => st_throw InvalidStateError
          | Some d =>
              match schema_step d cmd with
              | Failed e => st_throw e
              | Done d' => st_modify (set_db (conn_name cn) d') ;; run_schema c cmds'
              end
          end
      end
  end.

(** ** The listener bodies *)

Definition request_conn (w : World) (t : Target) : option nat :=
  match t with
  | TRequest r => w_requests w !! r ≫= rq_conn
  | _ => None
  end.

(** The result is whether the listener called [preventDefault()]. *)
Definition run_listener (l : Listener) (ev : Event) : JS bool :=
  match l with
  | LResolveResult p r =>
      w <- st_get ;;
      resolve p (PJs (default JUndefined (rq_result <$> w_requests w !! r))) ;; ret false
  | LResolveUndefined p => resolve p (PJs JUndefined) ;; ret false
  | LReject p => reject p (REvent ev) ;; ret false
  | LOpenSuccess p =>
      w <- st_get ;;
      match request_conn w (ev_target ev) with
      | Some c => o <- alloc_object (ODb (mkPDb c)) ;; resolve p (PObj o) ;; ret false
      | None => ret false
      end
  | LUpgrade m =>
      w <- st_get ;;
      match request_conn w (ev_target ev) with
      | Some c =>
          st_modify (log_entry (LogMigration (mig_id m) c (ev_oldVersion ev) (ev_newVersion ev))) ;;
          run_schema c (mig_body m (ev_oldVersion ev) (ev_newVersion ev)) ;; ret false
      | None => ret false
      end
  | LBlocked b => st_modify (log_entry (LogBlocked b (ev_oldVersion ev) (ev_newVersion ev))) ;; ret false
  | LClient cb => st_modify (log_entry (LogClient cb ev)) ;; ret (cb_cancels cb)
  end.

(** ** Event dispatch *)

(** The listeners of one target, in registration order; the result is
    (some listener cancelled the event, some listener threw). *)
Fixpoint dispatch_listeners (ls : list (EvType * Listener)) (ev : Event) : JS (bool * bool) :=
  match ls with
  | [] => ret (false, false)
  | (ty, l) :: ls' =>
      r <- (if bool_decide (ty = ev_type ev)
            then st_catch (c <- run_listener l ev ;; ret (c, false)) (fun _ => ret (false, true))
            else ret (false, false)) ;;
      r' <- dispatch_listeners ls' ev ;;
      ret (r.1 || r'.1, r.2 || r'.2)
  end.

(** Each target of the path in turn; a target's listeners are those
    registered when the event reaches it. *)
Fixpoint dispatch_path (path : list Target) (ev : Event) : JS (bool * bool) :=
  match path with
  | [] => ret (false, false)
  | t :: path' =>
      w <- st_get ;;
      r <- dispatch_listeners (listeners_of w t) ev ;;
      r' <- dispatch_path path' ev ;;
      ret (r.1 || r'.1, r.2 || r'.2)
  end.

(** ** Settled promises stay settled *)

(** Promise ids are below the allocation counter. *)
Definition ids_fresh (w : World) : Prop :=
  forall p, is_Some (w_promises w !! p) -> p < w_next w.

(** A computation that never changes a settled promise, nor loses one. *)
Definition keeps_settled {A} (m : JS A) : Prop :=
  forall w r w', m w = (r, w') -> ids_fresh w ->
    heap_extends (w_promises w) (w_promises w') /\ ids_fresh w'.

(** An update that leaves the promises alone and the counter no lower. *)
Definition untouched (f : World -> World) : Prop :=
  forall w, w_promises (f w) = w_promises w /\ w_next w <= w_next (f w).

Create HintDb keeps.

Section KeepsSettled.
Context {A B : Type}.

Lemma keeps_ret (a : A) : keeps_settled (st_ret a).
Proof. intros w r w' [= <- <-] Hf. split; [reflexivity | done]. Qed.

Lemma keeps_throw (e : ErrorName) : keeps_settled (A:=A) (st_throw e).
Proof. intros w r w' [= <- <-] Hf. split; [reflexivity | done]. Qed.

Lemma keeps_bind (m : JS A) (k : A -> JS B) :
  keeps_settled m -> (forall a, keeps_settled (k a)) -> keeps_settled (st_bind m k).
Proof.
  intros Hm Hk w r w'. unfold st_bind.
  destruct (m w) as [[a|e] w1] eqn:E; intros Hrun Hf;
    destruct (Hm _ _ _ E Hf) as [H1 Hf1].
  - destruct (Hk a _ _ _ Hrun Hf1) as [H2 Hf2]. split; [by etrans | done].
  - injection Hrun as <- <-. done.
Qed.

Lemma keeps_catch (m : JS A) (h : ErrorName -> JS A) :
  keeps_settled m -> (forall e, keeps_settled (h e)) -> keeps_settled (st_catch m h).
Proof.
  intros Hm Hh w r w'. unfold st_catch.
  destruct (m w) as [[a|e] w1] eqn:E; intros Hrun Hf;
    destruct (Hm _ _ _ E Hf) as [H1 Hf1].
  - injection Hrun as <- <-. done.
  - destruct (Hh e _ _ _ Hrun Hf1) as [H2 Hf2]. split; [by etrans | done].
Qed.

Lemma keeps_get (k : World -> JS A) :
  (forall w, keeps_settled (k w)) -> keeps_settled (st_bind st_get k).
Proof. intros Hk w r w' Hrun. by apply (Hk w w r w'). Qed.

Lemma keeps_modify (f : World -> World) : untouched f -> keeps_settled (st_modify f).
Proof.
  intros Hu w r w' [= <- <-] Hf. destruct (Hu w) as [Hp Hn].
  rewrite Hp. split; [reflexivity|]. intros p Hs. rewrite Hp in Hs. specialize (Hf p Hs). lia.
Qed.
End KeepsSettled.

Lemma untouched_requests f : untouched (set_requests f).
Proof. done. Qed.
Lemma untouched_txs f : untouched (set_txs f).
Proof. done. Qed.
Lemma untouched_conns f : untouched (set_conns f).
Proof. done. Qed.
Lemma untouched_objects f : untouched (set_objects f).
Proof. done. Qed.
Lemma untouched_dbs f : untouched (set_dbs f).
Proof. done. Qed.
Lemma untouched_set_db n d : untouched (set_db n d).
Proof. done. Qed.
Lemma untouched_log e : untouched (log_entry e).
Proof. done. Qed.
Lemma untouched_bump : untouched bump_next.
Proof. intros w. simpl. split; [done | lia]. Qed.
Lemma untouched_listeners t f : untouched (update_listeners t f).
Proof. by destruct t. Qed.

Lemma promise_resolve_dom (p q : nat) (v : PVal) (h : gmap nat (PState PVal Reason)) :
  is_Some (promise_resolve p v h !! q) -> is_Some (h !! q).
Proof.
  unfold promise_resolve. destruct (h !! p) as [[]|] eqn:Hp; try done.
  destruct (decide (p = q)) as [<-|]; [by rewrite Hp | by rewrite lookup_insert_ne].
Qed.

Lemma promise_reject_dom (p q : nat) (r : Reason) (h : gmap nat (PState PVal Reason)) :
  is_Some (promise_reject p r h !! q) -> is_Some (h !! q).
Proof.
  unfold promise_reject. destruct (h !! p) as [[]|] eqn:Hp; try done.
  destruct (decide (p = q)) as [<-|]; [by rewrite Hp | by rewrite lookup_insert_ne].
Qed.

Lemma keeps_resolve (p : nat) (v : PVal) : keeps_settled (resolve p v).
Proof.
  intros w r w' Hrun Hf. injection Hrun as <- <-. cbn [w_promises set_promises w_next] in *. split; [apply promise_resolve_extends|].
  intros q Hq. apply Hf. exact (promise_resolve_dom p q v _ Hq).
Qed.

Lemma keeps_reject (p : nat) (r : Reason) : keeps_settled (reject p r).
Proof.
  intros w r' w' Hrun Hf. injection Hrun as <- <-. cbn [w_promises set_promises w_next] in *. split; [apply promise_reject_extends|].
  intros q Hq. apply Hf. exact (promise_reject_dom p q r _ Hq).
Qed.

Lemma keeps_alloc_promise : keeps_settled alloc_promise.
Proof.
  intros w r w' Hrun Hf. injection Hrun as <- <-.
  cbn [w_promises set_promises bump_next w_next] in *. unfold promise_alloc. split.
  - apply promise_alloc_extends. destruct (w_promises w !! w_next w) eqn:E; [|done].
    specialize (Hf (w_next w) (mk_is_Some _ _ E)). exfalso. lia.
  - intros q Hq. cbn [w_promises set_promises bump_next w_next] in *. destruct (decide (w_next w = q)) as [<-|Hne]; [lia|].
    rewrite lookup_insert_ne in Hq by done. specialize (Hf q Hq). lia.
Qed.

#[export] Hint Resolve keeps_ret keeps_throw keeps_bind keeps_catch keeps_get keeps_modify
  keeps_resolve keeps_reject keeps_alloc_promise
  untouched_requests untouched_txs untouched_conns untouched_objects untouched_dbs
  untouched_set_db untouched_log untouched_bump untouched_listeners : keeps.
#[export] Hint Extern 2 (keeps_settled (match ?x with _ => _ end)) => destruct x : keeps.
#[export] Hint Extern 2 (keeps_settled (if ?x then _ else _)) => destruct x : keeps.
#[export] Hint Unfold fresh alloc_object new_promise add_listener remove_listener : keeps.

Ltac keeps_auto := unfold keeps_settled at 0; eauto 20 with keeps.

Lemma keeps_new_promise (ex : nat -> JS unit) :
  (forall p, keeps_settled (ex p)) -> keeps_settled (new_promise ex).
Proof. intros Hex. unfold new_promise. eauto 10 with keeps. Qed.

Lemma keeps_alloc_object (o : WrapperObj) : keeps_settled (alloc_object o).
Proof. unfold alloc_object, fresh. eauto 10 with keeps. Qed.

Lemma keeps_run_schema (c : nat) cmds : keeps_settled (run_schema c cmds).
Proof. induction cmds; simpl; eauto 10 with keeps. Qed.

Lemma keeps_run_listener (l : Listener) (ev : Event) : keeps_settled (run_listener l ev).
Proof.
  destruct l; simpl; eauto 10 using keeps_alloc_object, keeps_run_schema with keeps.
Qed.

Lemma keeps_dispatch_listeners ls (ev : Event) : keeps_settled (dispatch_listeners ls ev).
Proof.
  induction ls as [|[ty l] ls IH]; simpl; eauto 10 using keeps_run_listener with keeps.
Qed.

Lemma keeps_dispatch_path path (ev : Event) : keeps_settled (dispatch_path path ev).
Proof.
  induction path as [|t path IH]; simpl; eauto 10 using keeps_dispatch_listeners with keeps.
Qed.

Lemma keeps_add_listener t ty l : keeps_settled (add_listener t ty l).
Proof. unfold add_listener. eauto with keeps. Qed.

Lemma keeps_remove_listener t ty l : keeps_settled (remove_listener t ty l).
Proof. unfold remove_listener. eauto with keeps. Qed.

#[export] Hint Resolve keeps_new_promise keeps_alloc_object keeps_run_schema keeps_run_listener
  keeps_dispatch_listeners keeps_dispatch_path keeps_add_listener keeps_remove_listener : keeps.

Lemma ids_fresh_of_forall (w : World) :
  map_Forall (fun p _ => p < w_next w) (w_promises w) -> ids_fresh w.
Proof. intros Hall p [st Hp]. exact (Hall p st Hp). Qed.

Lemma keeps_settled_lookup {A} (m : JS A) w o w' p st :
  keeps_settled m -> m w = (o, w') -> ids_fresh w ->
  w_promises w !! p = Some st -> settled st -> w_promises w' !! p = Some st.
Proof.
  intros Hm Hrun Hf Hp Hs. destruct (Hm w o w' Hrun Hf) as [Hext _].
  destruct (Hext p st Hp) as (st' & Hp' & Heq). rewrite Hp'. by rewrite Heq.
Qed.

Lemma keeps_settled_fresh {A} (m : JS A) w o w' :
  keeps_settled m -> m w = (o, w') -> ids_fresh w -> ids_fresh w'.
Proof. intros Hm Hrun Hf. by destruct (Hm w o w' Hrun Hf). Qed.

Lemma update_listeners_promises t f w : w_promises (update_listeners t f w) = w_promises w.
Proof. by destruct t. Qed.

Lemma update_listeners_request_eq r f w rq :
  w_requests w !! r = Some rq ->
  w_requests (update_listeners (TRequest r) f w) !! r =
  Some (mkRequest (rq_source rq) (rq_op rq) (rq_done rq) (rq_result rq) (rq_conn rq) (rq_error rq)
          (rq_blocked rq) (f (rq_listeners rq))).
Proof. intros Hr. cbn [update_listeners set_requests w_requests]. rewrite lookup_alter_eq. by rewrite Hr. Qed.

(** Dispatch at one target never throws: listeners' exceptions are reported. *)
Lemma dispatch_listeners_normal ls (ev : Event) (w : World) :
  exists fl w', dispatch_listeners ls ev w = (Normal fl, w').
Proof.
  revert w. induction ls as [|[ty l] ls IH]; intros w; cbn [dispatch_listeners];
    [by eexists _, _|].
  unfold st_bind at 1. case_bool_decide.
  - unfold st_catch.
    destruct (st_bind (run_listener l ev) (fun c => st_ret (c, false)) w) as [[b|e] w1];
      unfold st_bind, st_ret; destruct (IH w1) as (fl & w2 & ->); by eexists _, _.
  - unfold st_bind, st_ret. destruct (IH w) as (fl & w2 & ->). by eexists _, _.
Qed.

(** A computation that keeps settled promises, run after a step that
    settled [p], leaves [p] as it is. *)
Lemma keeps_after {A B} (m : JS A) (k : A -> JS B) w o1 w1 p st :
  m w = (o1, w1) -> (forall a, keeps_settled (k a)) -> ids_fresh w1 ->
  w_promises w1 !! p = Some st -> settled st ->
  w_promises (snd (st_bind m k w)) !! p = Some st.
Proof.
  intros Hm Hk Hf Hp Hs. unfold st_bind. rewrite Hm. destruct o1 as [a|e]; [|done].
  destruct (k a w1) as [o2 w2] eqn:E. exact (keeps_settled_lookup _ _ _ _ _ _ (Hk a) E Hf Hp Hs).
Qed.

#[export] Hint Extern 1 (keeps_settled _) => progress cbv beta zeta : keeps.

(** Run the state-passing binds of a goal: get, modify, return. *)
Ltac run_st := repeat (rewrite ?st_bind_modify_run, ?st_bind_get_run, ?st_bind_ret_run; cbv beta).

(** Listeners of other event types do nothing. *)
Lemma dispatch_listeners_skip ls (ev : Event) (w : World) :
  Forall (fun e => e.1 <> ev_type ev) ls -> dispatch_listeners ls ev w = (Normal (false, false), w).
Proof.
  induction 1 as [|[ty l] ls Hty _ IH]; [done|]. cbn [dispatch_listeners].
  rewrite bool_decide_false by done. rewrite st_bind_ret_run, (st_bind_run_normal _ _ _ _ _ IH). done.
Qed.

(** Exactly one listener of the target has the event's type: dispatch runs
    it alone and reports whether it cancelled or threw. *)
Lemma dispatch_listeners_one ls1 (ty : EvType) (l : Listener) ls2 (ev : Event) (w w1 : World) o :
  Forall (fun e => e.1 <> ev_type ev) ls1 -> ty = ev_type ev -> Forall (fun e => e.1 <> ev_type ev) ls2 ->
  run_listener l ev w = (o, w1) ->
  dispatch_listeners (ls1 ++ (ty, l) :: ls2) ev w =
  (Normal (match o with Normal c => c | Throw _ => false end, match o with Normal _ => false | Throw _ => true end), w1).
Proof.
  intros H1 Hty H2 Hl. induction H1 as [|[ty' l'] ls1 Hty' _ IH]; cbn [app dispatch_listeners].
  - rewrite bool_decide_true by done. unfold st_bind at 1, st_catch. unfold st_bind at 1. rewrite Hl.
    destruct o as [c|e]; cbn; rewrite (st_bind_run_normal _ _ _ _ _ (dispatch_listeners_skip _ _ _ H2));
      cbn; by rewrite ?orb_false_r.
  - rewrite bool_decide_false by done. rewrite st_bind_ret_run, (st_bind_run_normal _ _ _ _ _ IH). done.
Qed.
