(* ===== verification/Host.v ===== *)
(** * Host: the IndexedDB platform the wrapper calls

    [IdbHost] is the interface the wrapper is written against: the native
    methods and getters of [IDBIndex], [IDBObjectStore], [IDBTransaction],
    [IDBDatabase] and [IDBFactory] that src/src/index.ts calls.
    [IdbHostLaws] is what the wrapper's theorems need of it: a
    request-producing method either throws or returns a new request with
    no listener, and no native method touches a promise.

    [platform] is the model of the browser's implementation, from the
    IndexedDB algorithms: the synchronous method steps (their checks and
    the exceptions they throw, in the platform's order) and the
    asynchronous part, [host_step], which executes the first request of a
    runnable transaction and fires ['success'] or ['error'] at it, aborts
    a transaction whose error event was not cancelled, delivers the abort
    events, and commits a transaction with no request left. *)

From S2P Require Import Prelude Keys Store Promise World.

Local Open Scope st_scope.

(** The [options] argument of [IDBDatabase.transaction]. *)
Inductive Durability : Type := DurDefault | DurStrict | DurRelaxed.
Definition IDBTransactionOptions := option Durability.

(** The [names: string | string[]] argument of [IDBDatabase.transaction]. *)
Inductive NamesArg : Type := NameOne (n : string) | NameMany (ns : list string).

Definition names_list (a : NamesArg) : list string :=
  match a with NameOne n => [n] | NameMany ns => ns end.

Class IdbHost : Type := {
  IDBIndex_name : IndexHandle -> JS string;
  IDBIndex_objectStore : IndexHandle -> JS StoreHandle;
  IDBIndex_keyPath : IndexHandle -> JS KeyPath;
  IDBIndex_multiEntry : IndexHandle -> JS bool;
  IDBIndex_unique : IndexHandle -> JS bool;
  IDBIndex_count : IndexHandle -> option QueryArg -> JS nat;
  IDBIndex_get : IndexHandle -> QueryArg -> JS nat;
  IDBIndex_getAll : IndexHandle -> option QueryArg -> option Z -> JS nat;
  IDBIndex_getAllKeys : IndexHandle -> option QueryArg -> option Z -> JS nat;
  IDBIndex_getKey : IndexHandle -> QueryArg -> JS nat;

  IDBObjectStore_indexNames : StoreHandle -> JS (list string);
  IDBObjectStore_keyPath : StoreHandle -> JS (option KeyPath);
  IDBObjectStore_name : StoreHandle -> JS string;
  IDBObjectStore_transaction : StoreHandle -> JS nat;
  IDBObjectStore_autoIncrement : StoreHandle -> JS bool;
  IDBObjectStore_add : StoreHandle -> JsVal -> option JsVal -> JS nat;
  IDBObjectStore_clear : StoreHandle -> JS nat;
  IDBObjectStore_count : StoreHandle -> option QueryArg -> JS nat;
  IDBObjectStore_delete : StoreHandle -> QueryArg -> JS nat;
  IDBObjectStore_get : StoreHandle -> QueryArg -> JS nat;
  IDBObjectStore_getAll : StoreHandle -> option QueryArg -> option Z -> JS nat;
  IDBObjectStore_getAllKeys : StoreHandle -> option QueryArg -> option Z -> JS nat;
  IDBObjectStore_getKey : StoreHandle -> QueryArg -> JS nat;
  IDBObjectStore_index : StoreHandle -> string -> JS IndexHandle;
  IDBObjectStore_put : StoreHandle -> JsVal -> option JsVal -> JS nat;

  IDBTransaction_db : nat -> JS nat;
  IDBTransaction_mode : nat -> JS TxMode;
  IDBTransaction_objectStoreNames : nat -> JS (list string);
  IDBTransaction_abort : nat -> JS unit;
  IDBTransaction_commit : nat -> JS unit;
  IDBTransaction_objectStore : nat -> string -> JS StoreHandle;

  IDBDatabase_name : nat -> JS string;
  IDBDatabase_version : nat -> JS Z;
  IDBDatabase_objectStoreNames : nat -> JS (list string);
  IDBDatabase_close : nat -> JS unit;
  IDBDatabase_transaction : nat -> NamesArg -> option TxMode -> IDBTransactionOptions -> JS nat;

  IDBFactory_open : string -> Z -> JS nat
}.

(** ** The laws the wrapper relies on *)

Definition req_ids_fresh (w : World) : Prop :=
  forall r, is_Some (w_requests w !! r) -> r < w_next w.

(** A native method: no promise changes and the allocation counter does not
    go back. *)
Definition native_method {A} (m : JS A) : Prop :=
  forall w o w', m w = (o, w') -> w_promises w' = w_promises w /\ w_next w <= w_next w'.

(** A request-producing native method: in addition, a normal return is a
    request that did not exist before and has no listener yet. *)
Definition request_method (m : JS nat) : Prop :=
  native_method m /\
  forall w r w', m w = (Normal r, w') -> req_ids_fresh w ->
    w_requests w !! r = None /\
    exists rq, w_requests w' !! r = Some rq /\ rq_listeners rq = [] /\ rq_done rq = false.

Class IdbHostLaws (H : IdbHost) : Prop := {
  index_count_req h q : request_method (IDBIndex_count h q);
  index_get_req h q : request_method (IDBIndex_get h q);
  index_getAll_req h q c : request_method (IDBIndex_getAll h q c);
  index_getAllKeys_req h q c : request_method (IDBIndex_getAllKeys h q c);
  index_getKey_req h q : request_method (IDBIndex_getKey h q);
  store_add_req h v k : request_method (IDBObjectStore_add h v k);
  store_clear_req h : request_method (IDBObjectStore_clear h);
  store_count_req h q : request_method (IDBObjectStore_count h q);
  store_delete_req h q : request_method (IDBObjectStore_delete h q);
  store_get_req h q : request_method (IDBObjectStore_get h q);
  store_getAll_req h q c : request_method (IDBObjectStore_getAll h q c);
  store_getAllKeys_req h q c : request_method (IDBObjectStore_getAllKeys h q c);
  store_getKey_req h q : request_method (IDBObjectStore_getKey h q);
  store_put_req h v k : request_method (IDBObjectStore_put h v k);
  factory_open_req n v : request_method (IDBFactory_open n v)
}.

(** ** The platform: synchronous method steps *)

Definition get_tx (t : nat) : JS Transaction :=
  w <- st_get ;;
  match w_txs w !! t with
  | Some tx => ret tx
  | None => st_throw InvalidStateError
  end.

Definition get_conn (c : nat) : JS Connection :=
  w <- st_get ;;
  match w_conns w !! c with
  | Some cn => ret cn
  | None => st_throw InvalidStateError
  end.

Definition get_db (name : string) : JS Database :=
  w <- st_get ;;
  match w_dbs w !! name with
  | Some d => ret d
  | None => st_throw InvalidStateError
  end.

(** The object store of a handle; a deleted store is an [InvalidStateError]. *)
Definition get_store (h : StoreHandle) : JS (Transaction * ObjectStore) :=
  tx <- get_tx (sh_tx h) ;;
  cn <- get_conn (tx_conn tx) ;;
  d <- get_db (conn_name cn) ;;
  match db_stores d !! sh_name h with
  | Some s => ret (tx, s)
  | None => st_throw InvalidStateError
  end.

Definition get_index (h : IndexHandle) : JS (Transaction * ObjectStore * IndexMeta) :=
  txs <- get_store (ih_store h) ;;
  let '(tx, s) := txs in
  match list_to_map (M := gmap string IndexMeta) (os_indexes s) !! ih_name h with
  | Some ix => ret (tx, s, ix)
  | None => st_throw InvalidStateError
  end.

Definition require (b : bool) (e : ErrorName) : JS unit :=
  if b then ret tt else st_throw e.

Definition is_active (tx : Transaction) : bool := bool_decide (tx_state tx = TxActive).
Definition is_finished (tx : Transaction) : bool :=
  bool_decide (tx_state tx = TxFinished) || bool_decide (tx_state tx = TxAborting).

(** "Convert a value to a key range"; a failure is a [DataError]. *)
Definition key_range_of (null_disallowed : bool) (q : option QueryArg) : JS KeyRange :=
  match to_key_range null_disallowed q with
  | Some r => ret r
  | None => st_throw DataError
  end.

(** The [[EnforceRange] unsigned long] conversion of a [count] argument. *)
Definition count_arg (c : option Z) : JS (option Z) :=
  match c with
  | None => ret None
  | Some n => if (0 <=? n)%Z && (n <=? 2 ^ 32 - 1)%Z then ret (Some n) else st_throw TypeError
  end.

(** Create a request with source [src] and append it to the transaction's
    request list. *)
Definition place_request (t : nat) (src : Source) (op : ReqOp) : JS nat :=
  r <- fresh ;;
  st_modify (set_requests (insert r (mkRequest src op false JUndefined None None false []))) ;;
  st_modify (set_txs (alter (fun tx =>
    mkTx (tx_conn tx) (tx_scope tx) (tx_mode tx) (tx_state tx) (tx_requests tx ++ [r])
      (tx_snapshot tx) (tx_aborted tx) (tx_openreq tx) (tx_listeners tx)) t)) ;;
  ret r.

(** A read on a store: deleted store, inactive transaction, range. *)
Definition store_read (h : StoreHandle) (null_disallowed : bool) (q : option QueryArg)
    (op : KeyRange -> ReqOp) : JS nat :=
  txs <- get_store h ;;
  let tx := txs.1 in
  require (is_active tx) TransactionInactiveError ;;
  r <- key_range_of null_disallowed q ;;
  place_request (sh_tx h) (SrcStore h) (op r).

(** A write on a store: deleted store, inactive, read-only, range. *)
Definition store_write (h : StoreHandle) (null_disallowed : bool) (q : option QueryArg)
    (op : KeyRange -> ReqOp) : JS nat :=
  txs <- get_store h ;;
  let tx := txs.1 in
  require (is_active tx) TransactionInactiveError ;;
  require (negb (bool_decide (tx_mode tx = ReadOnly))) ReadOnlyError ;;
  r <- key_range_of null_disallowed q ;;
  place_request (sh_tx h) (SrcStore h) (op r).

(** [add] and [put]: the "add or put" steps. *)
Definition store_add_or_put (h : StoreHandle) (value : JsVal) (key : option JsVal) (no_overwrite : bool) : JS nat :=
  txs <- get_store h ;;
  let '(tx, s) := txs in
  require (is_active tx) TransactionInactiveError ;;
  require (negb (bool_decide (tx_mode tx = ReadOnly))) ReadOnlyError ;;
  let key := match key with Some JUndefined => None | _ => key end in
  require (negb (bool_decide (is_Some (os_keyPath s)) && bool_decide (is_Some key))) DataError ;;
  require (bool_decide (is_Some (os_keyPath s)) || os_autoIncrement s || bool_decide (is_Some key)) DataError ;;
  k <- match key with
       | Some kv => match to_key kv with Some k => ret (Some k) | None => st_throw DataError end
       | None =>
           match os_keyPath s with
           | Some p =>
               match eval_key_path p value with
               | Some kv => match to_key kv with Some k => ret (Some k) | None => st_throw DataError end
               | None =>
                   require (os_autoIncrement s) DataError ;;
                   require (bool_decide (is_Some (inject_key p (JNum 1) value))) DataError ;;
                   ret None
               end
           | None => ret None
           end
       end ;;
  place_request (sh_tx h) (SrcStore h) (if no_overwrite then OpAdd value k else OpPut value k).

(** A read on an index: deleted index or store, inactive, range. *)
Definition index_read (h : IndexHandle) (null_disallowed : bool) (q : option QueryArg)
    (op : KeyRange -> ReqOp) : JS nat :=
  txsi <- get_index h ;;
  let tx := txsi.1.1 in
  require (is_active tx) TransactionInactiveError ;;
  r <- key_range_of null_disallowed q ;;
  place_request (sh_tx (ih_store h)) (SrcIndex h) (op r).

(** ** The remaining synchronous steps *)

Definition update_tx (t : nat) (f : Transaction -> Transaction) : JS unit :=
  st_modify (set_txs (alter f t)).

Definition with_state (st : TxState) (tx : Transaction) : Transaction :=
  mkTx (tx_conn tx) (tx_scope tx) (tx_mode tx) st (tx_requests tx) (tx_snapshot tx)
    (tx_aborted tx) (tx_openreq tx) (tx_listeners tx).

(** Names in ascending order, duplicates removed (a [DOMStringList]). *)
Fixpoint insert_name (n : string) (ns : list string) : list string :=
  match ns with
  | [] => [n]
  | m :: ns' =>
      match String.compare n m with
      | Lt => n :: ns
      | Eq => ns
      | Gt => m :: insert_name n ns'
      end
  end.
Definition sorted_names (ns : list string) : list string := fold_right insert_name [] ns.

(** "Abort a transaction": revert the changes (the whole database for an
    upgrade transaction, the stores of the scope otherwise); the error
    events of the pending requests and the abort event follow. *)
Definition revert_scope (snap cur : Database) (scope : list string) : Database :=
  mkDb (db_version cur)
    (fold_right (fun n m => match db_stores snap !! n with
                            | Some s => <[n := s]> m
                            | None => delete n m
                            end) (db_stores cur) scope).

Definition abort_tx (t : nat) : JS unit :=
  tx <- get_tx t ;;
  cn <- get_conn (tx_conn tx) ;;
  match tx_snapshot tx with
  | Some snap =>
      d <- get_db (conn_name cn) ;;
      st_modify (set_db (conn_name cn)
        (if bool_decide (tx_mode tx = VersionChange) then snap else revert_scope snap d (tx_scope tx)))
  | None => ret tt
  end ;;
  update_tx t (fun tx =>
    mkTx (tx_conn tx) (tx_scope tx) (tx_mode tx) TxAborting (tx_requests tx) (tx_snapshot tx)
      true (tx_openreq tx) (tx_listeners tx)).

Definition tx_abort (t : nat) : JS unit :=
  tx <- get_tx t ;;
  require (negb (bool_decide (tx_state tx = TxCommitting)) && negb (is_finished tx)) InvalidStateError ;;
  abort_tx t.

Definition tx_commit (t : nat) : JS unit :=
  tx <- get_tx t ;;
  require (is_active tx) InvalidStateError ;;
  update_tx t (with_state TxCommitting).

Definition tx_objectStore (t : nat) (name : string) : JS StoreHandle :=
  tx <- get_tx t ;;
  require (negb (is_finished tx)) InvalidStateError ;;
  require (bool_decide (name ∈ tx_scope tx)) NotFoundError ;;
  ret (mkStoreHandle t name).

Definition store_index (h : StoreHandle) (name : string) : JS IndexHandle :=
  txs <- get_store h ;;
  let '(tx, s) := txs in
  require (negb (is_finished tx)) InvalidStateError ;;
  require (bool_decide (name ∈ (os_indexes s).*1)) NotFoundError ;;
  ret (mkIndexHandle h name).

Definition db_store_names (c : nat) : JS (list string) :=
  cn <- get_conn c ;; d <- get_db (conn_name cn) ;; ret (sorted_names (map fst (map_to_list (db_stores d)))).

Definition db_close (c : nat) : JS unit :=
  st_modify (set_conns (alter (fun cn =>
    mkConn (conn_name cn) (conn_version cn) true (conn_listeners cn)) c)).

Definition upgrade_running (w : World) (c : nat) : bool :=
  existsb (fun ttx => bool_decide (tx_conn ttx.2 = c) && bool_decide (tx_mode ttx.2 = VersionChange)
                      && negb (bool_decide (tx_state ttx.2 = TxFinished)))
    (map_to_list (w_txs w)).

(** [IDBDatabase.transaction(storeNames, mode, options)]. *)
Definition db_transaction (c : nat) (names : NamesArg) (mode : option TxMode)
    (options : IDBTransactionOptions) : JS nat :=
  w <- st_get ;;
  cn <- get_conn c ;;
  require (negb (upgrade_running w c)) InvalidStateError ;;
  require (negb (conn_closed cn)) InvalidStateError ;;
  d <- get_db (conn_name cn) ;;
  let scope := sorted_names (names_list names) in
  require (forallb (fun n => bool_decide (is_Some (db_stores d !! n))) scope) NotFoundError ;;
  require (negb (bool_decide (scope = []))) InvalidAccessError ;;
  m <- match mode with
       | None => ret ReadOnly
       | Some VersionChange => st_throw TypeError
       | Some m => ret m
       end ;;
  t <- fresh ;;
  st_modify (set_txs (insert t (mkTx c scope m TxActive [] None false None []))) ;;
  ret t.

(** [indexedDB.open(name, version)]: the [[EnforceRange] unsigned long
    long] conversion, then a request the platform runs later. *)
Definition factory_open (name : string) (version : Z) : JS nat :=
  require ((1 <=? version)%Z && (version <=? 2 ^ 53 - 1)%Z) TypeError ;;
  r <- fresh ;;
  st_modify (set_requests (insert r (mkRequest SrcFactory (OpOpen name version) false JUndefined None None false []))) ;;
  ret r.

Definition conn_of_tx (t : nat) : JS Connection := tx <- get_tx t ;; get_conn (tx_conn tx).

#[export] Instance platform : IdbHost := {
  IDBIndex_name h := ret (ih_name h);
  IDBIndex_objectStore h := ret (ih_store h);
  IDBIndex_keyPath h := x <- get_index h ;; ret (ix_keyPath x.2);
  IDBIndex_multiEntry h := x <- get_index h ;; ret (ix_multiEntry x.2);
  IDBIndex_unique h := x <- get_index h ;; ret (ix_unique x.2);
  IDBIndex_count h q := index_read h false q OpCount;
  IDBIndex_get h q := index_read h true (Some q) OpGet;
  IDBIndex_getAll h q c := c' <- count_arg c ;; index_read h false q (fun r => OpGetAll r c');
  IDBIndex_getAllKeys h q c := c' <- count_arg c ;; index_read h false q (fun r => OpGetAllKeys r c');
  IDBIndex_getKey h q := index_read h true (Some q) OpGetKey;

  IDBObjectStore_indexNames h := x <- get_store h ;; ret (sorted_names (os_indexes x.2).*1);
  IDBObjectStore_keyPath h := x <- get_store h ;; ret (os_keyPath x.2);
  IDBObjectStore_name h := ret (sh_name h);
  IDBObjectStore_transaction h := ret (sh_tx h);
  IDBObjectStore_autoIncrement h := x <- get_store h ;; ret (os_autoIncrement x.2);
  IDBObjectStore_add h v k := store_add_or_put h v k true;
  IDBObjectStore_clear h := store_write h false None (fun _ => OpClear);
  IDBObjectStore_count h q := store_read h false q OpCount;
  IDBObjectStore_delete h q := store_write h true (Some q) OpDelete;
  IDBObjectStore_get h q := store_read h true (Some q) OpGet;
  IDBObjectStore_getAll h q c := c' <- count_arg c ;; store_read h false q (fun r => OpGetAll r c');
  IDBObjectStore_getAllKeys h q c := c' <- count_arg c ;; store_read h false q (fun r => OpGetAllKeys r c');
  IDBObjectStore_getKey h q := store_read h true (Some q) OpGetKey;
  IDBObjectStore_index := store_index;
  IDBObjectStore_put h v k := store_add_or_put h v k false;

  IDBTransaction_db t := tx <- get_tx t ;; ret (tx_conn tx);
  IDBTransaction_mode t := tx <- get_tx t ;; ret (tx_mode tx);
  IDBTransaction_objectStoreNames t := tx <- get_tx t ;; ret (tx_scope tx);
  IDBTransaction_abort := tx_abort;
  IDBTransaction_commit := tx_commit;
  IDBTransaction_objectStore := tx_objectStore;

  IDBDatabase_name c := cn <- get_conn c ;; ret (conn_name cn);
  IDBDatabase_version c := cn <- get_conn c ;; ret (conn_version cn);
  IDBDatabase_objectStoreNames := db_store_names;
  IDBDatabase_close := db_close;
  IDBDatabase_transaction := db_transaction;

  IDBFactory_open := factory_open
}.

(** ** The platform: executing requests and firing events *)

Definition op_map {A B} (f : A -> B) (r : op_result A) : op_result B :=
  match r with Done a => Done (f a) | Failed e => Failed e end.

(** The operation of a request on a store: the store after it and the
    request's result. *)
Definition exec_store_op (op : ReqOp) (s : ObjectStore) : ObjectStore * op_result JsVal :=
  match op with
  | OpAdd v k => let (s', r) := store_record s v k true in (s', op_map key_to_val r)
  | OpPut v k => let (s', r) := store_record s v k false in (s', op_map key_to_val r)
  | OpDelete r => (store_delete r s, Done JUndefined)
  | OpClear => (store_clear s, Done JUndefined)
  | OpGet r => (s, Done (store_get r s))
  | OpGetKey r => (s, Done (store_getKey r s))
  | OpGetAll r c => (s, Done (JArr (store_getAll r c s)))
  | OpGetAllKeys r c => (s, Done (JArr (map key_to_val (store_getAllKeys r c s))))
  | OpCount r => (s, Done (JNum (store_count r s)))
  | OpOpen _ _ => (s, Failed InvalidStateError)
  end.

Definition exec_index_op (ix : IndexMeta) (op : ReqOp) (s : ObjectStore) : op_result JsVal :=
  match op with
  | OpGet r => Done (index_get ix r s)
  | OpGetKey r => Done (index_getKey ix r s)
  | OpGetAll r c => Done (JArr (index_getAll ix r c s))
  | OpGetAllKeys r c => Done (JArr (map key_to_val (index_getAllKeys ix r c s)))
  | OpCount r => Done (JNum (index_count ix r s))
  | _ => Failed InvalidStateError
  end.

Definition exec_request (src : Source) (op : ReqOp) (d : Database) : Database * op_result JsVal :=
  match src with
  | SrcStore h =>
      match db_stores d !! sh_name h with
      | Some s => let (s', res) := exec_store_op op s in
                  (mkDb (db_version d) (<[sh_name h := s']> (db_stores d)), res)
      | None => (d, Failed InvalidStateError)
      end
  | SrcIndex h =>
      match db_stores d !! sh_name (ih_store h) with
      | Some s =>
          match list_to_map (M := gmap string IndexMeta) (os_indexes s) !! ih_name h with
          | Some ix => (d, exec_index_op ix op s)
          | None => (d, Failed InvalidStateError)
          end
      | None => (d, Failed InvalidStateError)
      end
  | SrcFactory => (d, Failed InvalidStateError)
  end.

Definition success_event (r : nat) : Event := mkEvent EvSuccess (TRequest r) 0 None.
Definition error_event (r : nat) : Event := mkEvent EvError (TRequest r) 0 None.

Definition update_request (r : nat) (f : Request -> Request) : JS unit :=
  st_modify (set_requests (alter f r)).

(** Set the request's done flag and its result or error. *)
Definition complete_request (r : nat) (res : op_result JsVal) : JS unit :=
  update_request r (fun rq =>
    mkRequest (rq_source rq) (rq_op rq) true
      (match res with Done v => v | Failed _ => JUndefined end) (rq_conn rq)
      (match res with Done _ => None | Failed e => Some e end) (rq_blocked rq) (rq_listeners rq)).

(** Execute the first request of a transaction, then fire 'success' (at
    the request) or 'error' (at the request, bubbling to the transaction
    and the connection).  During dispatch the transaction is active.  A
    listener that threw aborts the transaction with [AbortError]; an error
    event nobody cancelled aborts it with the request's error. *)
Definition run_request (t : nat) (r : nat) : JS unit :=
  tx <- get_tx t ;;
  cn <- get_conn (tx_conn tx) ;;
  d <- get_db (conn_name cn) ;;
  w <- st_get ;;
  match w_requests w !! r with
  | None => ret tt
  | Some rq =>
      let (d', res) := exec_request (rq_source rq) (rq_op rq) d in
      st_modify (set_db (conn_name cn) d') ;;
      update_tx t (fun tx =>
        mkTx (tx_conn tx) (tx_scope tx) (tx_mode tx)
          (if bool_decide (tx_state tx = TxInactive) then TxActive else tx_state tx)
          (tail (tx_requests tx)) (Some (default d (tx_snapshot tx))) (tx_aborted tx)
          (tx_openreq tx) (tx_listeners tx)) ;;
      complete_request r res ;;
      fl <- (match res with
             | Done _ => dispatch_path [TRequest r] (success_event r)
             | Failed _ => dispatch_path [TRequest r; TTx t; TConn (tx_conn tx)] (error_event r)
             end) ;;
      tx' <- get_tx t ;;
      (if is_active tx' then update_tx t (with_state TxInactive) else ret tt) ;;
      let must_abort := fl.2 || match res with Failed _ => negb fl.1 | Done _ => false end in
      if must_abort && negb (is_finished tx') then abort_tx t else ret tt
  end.

Definition close_conn (c : nat) : JS unit := db_close c.

(** An aborted transaction: each pending request gets [AbortError] and an
    error event, then the transaction gets 'abort'; an aborted upgrade
    closes its connection and fails its open request. *)
Definition deliver_abort (t : nat) : JS unit :=
  tx <- get_tx t ;;
  match tx_requests tx with
  | r :: rs =>
      update_tx t (fun tx =>
        mkTx (tx_conn tx) (tx_scope tx) (tx_mode tx) (tx_state tx) rs (tx_snapshot tx)
          (tx_aborted tx) (tx_openreq tx) (tx_listeners tx)) ;;
      complete_request r (Failed AbortError) ;;
      dispatch_path [TRequest r; TTx t; TConn (tx_conn tx)] (error_event r) ;; ret tt
  | [] =>
      update_tx t (with_state TxFinished) ;;
      dispatch_path [TTx t; TConn (tx_conn tx)] (mkEvent EvAbort (TTx t) 0 None) ;;
      match tx_openreq tx with
      | Some r =>
          close_conn (tx_conn tx) ;;
          complete_request r (Failed AbortError) ;;
          dispatch_path [TRequest r] (error_event r) ;; ret tt
      | None => ret tt
      end
  end.

(** A transaction with no request left commits: 'complete' at the
    transaction; an upgrade then fires 'success' at its open request. *)
Definition finish_commit (t : nat) : JS unit :=
  tx <- get_tx t ;;
  update_tx t (with_state TxFinished) ;;
  dispatch_path [TTx t] (mkEvent EvComplete (TTx t) 0 None) ;;
  match tx_openreq tx with
  | Some r => dispatch_path [TRequest r] (success_event r) ;; ret tt
  | None => ret tt
  end.

(** ** Opening a database *)

Definition new_connection (name : string) (version : Z) : JS nat :=
  c <- fresh ;;
  st_modify (set_conns (insert c (mkConn name version false []))) ;;
  ret c.

Definition open_conns (w : World) (name : string) : list nat :=
  map fst (List.filter (fun cc => String.eqb (conn_name cc.2) name && negb (conn_closed cc.2))
             (map_to_list (w_conns w))).

(** One step of "open a database" for the pending request [r]. *)
Definition run_open (r : nat) (name : string) (version : Z) (rq : Request) : JS unit :=
  w <- st_get ;;
  let d := default (mkDb 0 ∅) (w_dbs w !! name) in
  st_modify (set_db name d) ;;
  if (version <? db_version d)%Z then
    complete_request r (Failed VersionError) ;;
    dispatch_path [TRequest r] (error_event r) ;; ret tt
  else if (version =? db_version d)%Z then
    c <- new_connection name version ;;
    update_request r (fun rq =>
      mkRequest (rq_source rq) (rq_op rq) (rq_done rq) (rq_result rq) (Some c)
        (rq_error rq) (rq_blocked rq) (rq_listeners rq)) ;;
    complete_request r (Done JUndefined) ;;
    dispatch_path [TRequest r] (success_event r) ;; ret tt
  else if bool_decide (open_conns w name <> []) then
    update_request r (fun rq =>
      mkRequest (rq_source rq) (rq_op rq) (rq_done rq) (rq_result rq) (rq_conn rq)
        (rq_error rq) true (rq_listeners rq)) ;;
    dispatch_path [TRequest r] (mkEvent EvBlocked (TRequest r) (db_version d) (Some version)) ;; ret tt
  else
    c <- new_connection name version ;;
    t <- fresh ;;
    st_modify (set_txs (insert t (mkTx c (map fst (map_to_list (db_stores d))) VersionChange
                                    TxActive [] (Some d) false (Some r) []))) ;;
    st_modify (set_db name (mkDb version (db_stores d))) ;;
    update_request r (fun rq =>
      mkRequest (rq_source rq) (rq_op rq) (rq_done rq) (rq_result rq) (Some c)
        (rq_error rq) (rq_blocked rq) (rq_listeners rq)) ;;
    complete_request r (Done JUndefined) ;;
    fl <- dispatch_path [TRequest r] (mkEvent EvUpgradeNeeded (TRequest r) (db_version d) (Some version)) ;;
    tx' <- get_tx t ;;
    (if is_active tx' then update_tx t (with_state TxInactive) else ret tt) ;;
    if fl.2 then abort_tx t else ret tt.

(** An open request has been processed when it is done and the upgrade
    it started, if any, has finished. *)
Definition open_processed (w : World) (r : nat) (rq : Request) : bool :=
  rq_done rq && forallb (fun ttx => negb (bool_decide (tx_openreq ttx.2 = Some r))
                                    || bool_decide (tx_state ttx.2 = TxFinished)) (map_to_list (w_txs w)).

(** An earlier open request of the database [name] is still in its
    connection queue. *)
Definition open_queued_before (w : World) (r : nat) (name : string) : bool :=
  existsb (fun rrq => bool_decide (rrq.1 < r) &&
                      match rq_op rrq.2 with
                      | OpOpen n _ => String.eqb n name && negb (open_processed w rrq.1 rrq.2)
                      | _ => false
                      end) (map_to_list (w_requests w)).

(** The open request [r] can progress when every earlier open request of
    its database has been processed (the connection queue), unless it
    already reported 'blocked' and other connections are still open. *)
Definition open_ready (w : World) (r : nat) (rq : Request) : option (string * Z) :=
  match rq_op rq with
  | OpOpen name version =>
      if rq_done rq then None
      else if open_queued_before w r name then None
      else if rq_blocked rq && bool_decide (open_conns w name <> []) then None
      else Some (name, version)
  | _ => None
  end.

(** ** Scheduling *)

Definition conn_db_name (w : World) (c : nat) : option string := conn_name <$> w_conns w !! c.

(** A transaction may run its requests when no earlier unfinished
    transaction of the same database overlaps its scope, unless both are
    read-only. *)
Definition runnable (w : World) (t : nat) (tx : Transaction) : bool :=
  forallb (fun ttx =>
    negb (bool_decide (ttx.1 < t) && negb (bool_decide (tx_state ttx.2 = TxFinished))
          && bool_decide (conn_db_name w (tx_conn ttx.2) = conn_db_name w (tx_conn tx))
          && existsb (fun n => bool_decide (n ∈ tx_scope tx)) (tx_scope ttx.2)
          && negb (bool_decide (tx_mode ttx.2 = ReadOnly) && bool_decide (tx_mode tx = ReadOnly))))
    (map_to_list (w_txs w)).

Definition tx_task (w : World) (t : nat) (tx : Transaction) : option (JS unit) :=
  match tx_state tx with
  | TxAborting => Some (deliver_abort t)
  | TxInactive | TxCommitting =>
      match tx_requests tx with
      | r :: _ => if runnable w t tx then Some (run_request t r) else None
      | [] => Some (finish_commit t)
      end
  | _ => None
  end.

Definition open_task (w : World) (r : nat) (rq : Request) : option (JS unit) :=
  (fun nv => run_open r nv.1 nv.2 rq) <$> open_ready w r rq.

(** One step of the platform: the first transaction with work, otherwise
    the first open request that can progress.  [false]: nothing to do. *)
Definition host_step : JS bool :=
  w <- st_get ;;
  match omap (fun ttx => tx_task w ttx.1 ttx.2) (map_to_list (w_txs w)) with
  | task :: _ => task ;; ret true
  | [] =>
      match omap (fun rrq => open_task w rrq.1 rrq.2) (map_to_list (w_requests w)) with
      | task :: _ => task ;; ret true
      | [] => ret false
      end
  end.

Fixpoint run_host (fuel : nat) : JS unit :=
  match fuel with
  | O => ret tt
  | S n => b <- host_step ;; if b then run_host n else ret tt
  end.

(** The end of a task: every active transaction becomes inactive. *)
Definition end_task : JS unit :=
  st_modify (set_txs (fmap (fun tx =>
    if bool_decide (tx_state tx = TxActive) then with_state TxInactive tx else tx))).

(** A task of the caller: its exception is reported, not propagated. *)
Definition run_task {A} (m : JS A) : JS (option A) :=
  r <- st_catch (a <- m ;; ret (Some a)) (fun _ => ret None) ;;
  end_task ;;
  ret r.

(** ** A fixture *)

(** The database "shop" (version 1) with the auto-increment store
    "items"; connection 0 open on it; transaction 1, read-write on
    "items", active.  The allocation counter is 2. *)
Definition demo_world : World :=
  mkWorld ∅ ∅
    {[1 := mkTx 0 ["items"] ReadWrite TxActive [] None false None []]}
    {[0 := mkConn "shop" 1 false []]}
    ∅
    {["shop" := mkDb 1 {["items" := new_store None true]}]}
    2 [].


(** ** The platform satisfies the laws *)

(** A read of the world that changes nothing. *)
Definition pure_read {A} (m : JS A) : Prop := forall w o w', m w = (o, w') -> w' = w.

Create HintDb pure.

Section PureReads.
Context {A B : Type}.

Lemma pure_ret (a : A) : pure_read (st_ret a).
Proof. by intros w o w' [= _ <-]. Qed.

Lemma pure_throw (e : ErrorName) : pure_read (A:=A) (st_throw e).
Proof. by intros w o w' [= _ <-]. Qed.

Lemma pure_get (k : World -> JS A) : (forall w, pure_read (k w)) -> pure_read (st_bind st_get k).
Proof. intros Hk w o w' Hrun. exact (Hk w w o w' Hrun). Qed.

Lemma pure_bind (m : JS A) (k : A -> JS B) :
  pure_read m -> (forall a, pure_read (k a)) -> pure_read (st_bind m k).
Proof.
  intros Hm Hk w o w'. unfold st_bind.
  destruct (m w) as [[a|e] w1] eqn:E; intros Hrun; apply Hm in E; subst w1.
  - exact (Hk a w o w' Hrun).
  - by injection Hrun as _ <-.
Qed.

(** A pure prefix followed by a request-producing method. *)
Lemma request_method_bind (m : JS A) (k : A -> JS nat) :
  pure_read m -> (forall a, request_method (k a)) -> request_method (st_bind m k).
Proof.
  intros Hm Hk. split.
  - intros w o w'. unfold st_bind.
    destruct (m w) as [[a|e] w1] eqn:E; intros Hrun; apply Hm in E; subst w1.
    + exact (proj1 (Hk a) w o w' Hrun).
    + injection Hrun as _ <-. split; [done | lia].
  - intros w r w'. unfold st_bind.
    destruct (m w) as [[a|e] w1] eqn:E; intros Hrun; apply Hm in E; subst w1; [|done].
    exact (proj2 (Hk a) w r w' Hrun).
Qed.
End PureReads.

Lemma req_ids_fresh_of_forall (w : World) :
  map_Forall (fun r _ => r < w_next w) (w_requests w) -> req_ids_fresh w.
Proof. intros Hall r [rq Hr]. exact (Hall r rq Hr). Qed.

Lemma request_method_throw (e : ErrorName) : request_method (st_throw e).
Proof. split; [intros w o w' [= _ <-]; split; [done | lia] | done]. Qed.

Lemma request_method_place (t : nat) (src : Source) (op : ReqOp) : request_method (place_request t src op).
Proof.
  split.
  - intros w o w' [= _ <-]. simpl. split; [done | lia].
  - intros w r w' [= <- <-] Hf. split.
    + destruct (w_requests w !! w_next w) eqn:E; [|done].
      specialize (Hf _ (mk_is_Some _ _ E)). lia.
    + eexists. split; [cbn [set_txs set_requests bump_next w_requests w_next]; apply lookup_insert_eq|].
      split; reflexivity.
Qed.

Lemma pure_get_tx t : pure_read (get_tx t).
Proof. unfold get_tx. apply pure_get. intros w. destruct (w_txs w !! t); auto using pure_ret, pure_throw. Qed.
Lemma pure_get_conn c : pure_read (get_conn c).
Proof. unfold get_conn. apply pure_get. intros w. destruct (w_conns w !! c); auto using pure_ret, pure_throw. Qed.
Lemma pure_get_db n : pure_read (get_db n).
Proof. unfold get_db. apply pure_get. intros w. destruct (w_dbs w !! n); auto using pure_ret, pure_throw. Qed.

#[export] Hint Resolve pure_ret pure_throw pure_get pure_bind pure_get_tx pure_get_conn pure_get_db
  request_method_bind request_method_throw request_method_place : pure.
#[export] Hint Extern 2 (pure_read (match ?x with _ => _ end)) => destruct x : pure.
#[export] Hint Extern 2 (pure_read (if ?x then _ else _)) => destruct x : pure.
#[export] Hint Extern 2 (request_method (match ?x with _ => _ end)) => destruct x : pure.
#[export] Hint Extern 2 (request_method (if ?x then _ else _)) => destruct x : pure.
#[export] Hint Extern 1 (pure_read _) => progress cbv beta zeta : pure.
#[export] Hint Extern 1 (request_method _) => progress cbv beta zeta : pure.

Lemma pure_get_store h : pure_read (get_store h).
Proof. unfold get_store. eauto 10 with pure. Qed.
Lemma pure_get_index h : pure_read (get_index h).
Proof. unfold get_index. eauto 10 using pure_get_store with pure. Qed.
Lemma pure_require b e : pure_read (require b e).
Proof. unfold require. eauto with pure. Qed.
Lemma pure_key_range_of nd q : pure_read (key_range_of nd q).
Proof. unfold key_range_of. eauto with pure. Qed.
Lemma pure_count_arg c : pure_read (count_arg c).
Proof. unfold count_arg. eauto with pure. Qed.

#[export] Hint Resolve pure_get_store pure_get_index pure_require pure_key_range_of pure_count_arg : pure.

Lemma request_method_store_read h nd q op : request_method (store_read h nd q op).
Proof. unfold store_read. eauto 10 with pure. Qed.
Lemma request_method_store_write h nd q op : request_method (store_write h nd q op).
Proof. unfold store_write. eauto 10 with pure. Qed.
Lemma request_method_index_read h nd q op : request_method (index_read h nd q op).
Proof. unfold index_read. eauto 10 with pure. Qed.
Lemma request_method_add_or_put h v k b : request_method (store_add_or_put h v k b).
Proof. unfold store_add_or_put. eauto 20 with pure. Qed.

#[export] Hint Resolve request_method_store_read request_method_store_write request_method_index_read
  request_method_add_or_put : pure.

Lemma request_method_factory_open (name : string) (version : Z) : request_method (factory_open name version).
Proof.
  split.
  - intros w o w'. unfold factory_open, require.
    destruct (_ && _); [|intros [= _ <-]; split; [done | lia]].
    intros [= _ <-]. simpl. split; [done | lia].
  - intros w r w'. unfold factory_open, require.
    destruct (_ && _); [|done]. intros [= <- <-] Hf. split.
    + destruct (w_requests w !! w_next w) eqn:E; [|done].
      specialize (Hf _ (mk_is_Some _ _ E)). lia.
    + eexists. split; [cbn [set_requests bump_next w_requests w_next]; apply lookup_insert_eq|].
      split; reflexivity.
Qed.

#[export] Instance platform_laws : IdbHostLaws platform.
Proof.
  split; intros; simpl; eauto 20 using request_method_factory_open with pure.
Qed.

(** ** Running the platform's steps symbolically *)

Lemma get_tx_run (w : World) (t : nat) tx : w_txs w !! t = Some tx -> get_tx t w = (Normal tx, w).
Proof. intros H. unfold get_tx. rewrite st_bind_get_run, H. reflexivity. Qed.

Lemma get_conn_run (w : World) (c : nat) cn : w_conns w !! c = Some cn -> get_conn c w = (Normal cn, w).
Proof. intros H. unfold get_conn. rewrite st_bind_get_run, H. reflexivity. Qed.

Lemma get_db_run (w : World) (n : string) d : w_dbs w !! n = Some d -> get_db n w = (Normal d, w).
Proof. intros H. unfold get_db. rewrite st_bind_get_run, H. reflexivity. Qed.

Lemma dispatch_path_normal path (ev : Event) (w : World) :
  exists fl w', dispatch_path path ev w = (Normal fl, w').
Proof.
  revert w. induction path as [|t path IH]; intros w; simpl; [by eexists _, _|].
  rewrite st_bind_get_run. unfold st_bind at 1.
  destruct (dispatch_listeners_normal (listeners_of w t) ev w) as (fl & w1 & ->).
  unfold st_bind. destruct (IH w1) as (fl' & w2 & ->). by eexists _, _.
Qed.

#[export] Hint Unfold get_tx get_conn get_db update_tx abort_tx update_request complete_request
  close_conn db_close : keeps.

Lemma keeps_get_tx t : keeps_settled (get_tx t).
Proof. unfold get_tx. eauto with keeps. Qed.
Lemma keeps_update_tx t f : keeps_settled (update_tx t f).
Proof. unfold update_tx. eauto with keeps. Qed.
Lemma keeps_abort_tx t : keeps_settled (abort_tx t).
Proof. unfold abort_tx, get_tx, get_conn, get_db, update_tx. eauto 20 with keeps. Qed.

#[export] Hint Resolve keeps_get_tx keeps_update_tx keeps_abort_tx : keeps.

#[export] Hint Unfold get_store get_index require place_request store_read store_write store_add_or_put
  index_read key_range_of count_arg tx_abort tx_commit tx_objectStore store_index db_store_names
  db_transaction factory_open run_request deliver_abort finish_commit new_connection run_open
  end_task run_task : keeps.

Lemma keeps_run_request t r : keeps_settled (run_request t r).
Proof. autounfold with keeps. eauto 60 with keeps. Qed.
Lemma keeps_deliver_abort t : keeps_settled (deliver_abort t).
Proof. autounfold with keeps. eauto 60 with keeps. Qed.
Lemma keeps_finish_commit t : keeps_settled (finish_commit t).
Proof. autounfold with keeps. eauto 60 with keeps. Qed.
Lemma keeps_run_open r name version rq : keeps_settled (run_open r name version rq).
Proof. autounfold with keeps. eauto 60 with keeps. Qed.
#[export] Hint Resolve keeps_run_request keeps_deliver_abort keeps_finish_commit keeps_run_open : keeps.

Lemma keeps_tx_task (w : World) t tx m : tx_task w t tx = Some m -> keeps_settled m.
Proof. unfold tx_task. repeat case_match; intros [= <-]; eauto with keeps. Qed.
Lemma keeps_open_task (w : World) r rq m : open_task w r rq = Some m -> keeps_settled m.
Proof. unfold open_task. destruct (open_ready w r rq); intros [= <-]; eauto with keeps. Qed.

(** The first task of a list of candidate tasks keeps settled promises. *)
Lemma keeps_first_task {X} (f : X -> option (JS unit)) (xs : list X) (m : JS unit) ms :
  (forall x m, f x = Some m -> keeps_settled m) -> omap f xs = m :: ms -> keeps_settled m.
Proof.
  intros Hf E. assert (Hm : m ∈ omap f xs) by (rewrite E; left).
  apply list_elem_of_omap in Hm as (x & _ & Hx). eauto.
Qed.

Lemma keeps_host_step : keeps_settled host_step.
Proof.
  unfold host_step. apply keeps_get. intros w.
  destruct (omap _ (map_to_list (w_txs w))) as [|m ms] eqn:E1;
    [destruct (omap _ (map_to_list (w_requests w))) as [|m ms] eqn:E2|]; eauto with keeps.
  - apply keeps_bind; [|eauto with keeps]. eapply keeps_first_task; [|exact E2].
    intros [r rq] m'. apply keeps_open_task.
  - apply keeps_bind; [|eauto with keeps]. eapply keeps_first_task; [|exact E1].
    intros [t tx] m'. apply keeps_tx_task.
Qed.

Lemma keeps_run_host fuel : keeps_settled (run_host fuel).
Proof. induction fuel; simpl; eauto using keeps_host_step with keeps. Qed.

Lemma keeps_run_task {A} (m : JS A) : keeps_settled m -> keeps_settled (run_task m).
Proof. intros Hm. unfold run_task, end_task. eauto 10 with keeps. Qed.

#[export] Hint Resolve keeps_host_step keeps_run_host keeps_run_task : keeps.

Section KeepsMethods.
Lemma keeps_get_store h : keeps_settled (get_store h).
Proof. autounfold with keeps. eauto 20 with keeps. Qed.
Lemma keeps_get_index h : keeps_settled (get_index h).
Proof. autounfold with keeps. eauto 20 with keeps. Qed.
Lemma keeps_count_arg c : keeps_settled (count_arg c).
Proof. autounfold with keeps. eauto 20 with keeps. Qed.
Lemma keeps_store_read h nd q op : keeps_settled (store_read h nd q op).
Proof. autounfold with keeps. eauto 40 with keeps. Qed.
Lemma keeps_store_write h nd q op : keeps_settled (store_write h nd q op).
Proof. autounfold with keeps. eauto 40 with keeps. Qed.
Lemma keeps_store_add_or_put h v k b : keeps_settled (store_add_or_put h v k b).
Proof. autounfold with keeps. eauto 40 with keeps. Qed.
Lemma keeps_index_read h nd q op : keeps_settled (index_read h nd q op).
Proof. autounfold with keeps. eauto 40 with keeps. Qed.
Lemma keeps_store_index h n : keeps_settled (store_index h n).
Proof. autounfold with keeps. eauto 40 with keeps. Qed.
Lemma keeps_tx_objectStore t n : keeps_settled (tx_objectStore t n).
Proof. autounfold with keeps. eauto 40 with keeps. Qed.
Lemma keeps_tx_abort t : keeps_settled (tx_abort t).
Proof. autounfold with keeps. eauto 40 with keeps. Qed.
Lemma keeps_tx_commit t : keeps_settled (tx_commit t).
Proof. autounfold with keeps. eauto 40 with keeps. Qed.
Lemma keeps_db_store_names c : keeps_settled (db_store_names c).
Proof. autounfold with keeps. eauto 40 with keeps. Qed.
Lemma keeps_db_close c : keeps_settled (db_close c).
Proof. autounfold with keeps. eauto 40 with keeps. Qed.
Lemma keeps_db_transaction c ns m o : keeps_settled (db_transaction c ns m o).
Proof. autounfold with keeps. eauto 60 with keeps. Qed.
Lemma keeps_factory_open n v : keeps_settled (factory_open n v).
Proof. autounfold with keeps. eauto 40 with keeps. Qed.
End KeepsMethods.

#[export] Hint Resolve keeps_get_store keeps_get_index keeps_count_arg keeps_store_read keeps_store_write
  keeps_store_add_or_put keeps_index_read keeps_store_index keeps_tx_objectStore keeps_tx_abort
  keeps_tx_commit keeps_db_store_names keeps_db_close keeps_db_transaction keeps_factory_open : keeps.

(** Every operation a request performs on an object store keeps the
    store invariant: records strictly sorted by key (so keys are unique),
    and the key generator above every numeric key it could produce. *)
Lemma exec_store_op_wf (op : ReqOp) (s : ObjectStore) :
  store_wf s -> store_wf (exec_store_op op s).1.
Proof.
  intros Hs. destruct op; cbn [exec_store_op fst]; try (by auto with idb);
    match goal with |- context [store_record ?s ?v ?k ?b] =>
      pose proof (store_record_wf s v k b Hs); destruct (store_record s v k b) end; done.
Qed.


