(* ===== verification/Wrapper.v ===== *)
(** * Wrapper: the classes of src/src/index.ts

    One definition per getter and method of [PromisedIndexedDbIndex],
    [PromisedIndexedDbObjectStore], [PromisedIndexedDbTransaction],
    [PromisedIndexedDb], and [openDatabase], written against the native
    interface [IdbHost] (a Section variable).  [this] is the record of the
    object's one private field (declared in [World]); [new C(handle)] is
    [alloc_object], so every getter that wraps a handle returns a new
    object.

    Every request-producing method is the same code: inside the executor
    of [new Promise], call the native method and register a 'success'
    listener that resolves and an 'error' listener that rejects.  That
    code is [request_promise]; the methods differ only in the native call
    and in what 'success' resolves with ([req.result], or [undefined] for
    [clear] and [delete]). *)

From S2P Require Import Prelude Keys Store Promise World Host.

Local Open Scope st_scope.

(** [type TransactionEventType = 'abort' | 'complete' | 'error'] *)
Inductive TransactionEventType : Type := TEAbort | TEComplete | TEError.

Definition event_type_of (e : TransactionEventType) : EvType :=
  match e with TEAbort => EvAbort | TEComplete => EvComplete | TEError => EvError end.

Section Wrapper.
Context `{H : IdbHost}.

(** [new Promise((resolve, reject) => { const req = <call>;
      req.addEventListener('success', () => { resolve(<result>); });
      req.addEventListener('error', (ev) => { reject(ev); }); })] *)
Definition request_promise (call : JS nat) (on_success : nat -> nat -> Listener) : JS nat :=
  new_promise (fun p =>
    req <- call ;;
    add_listener (TRequest req) EvSuccess (on_success p req) ;;
    add_listener (TRequest req) EvError (LReject p)).

(** ** class PromisedIndexedDbIndex *)

Definition PromisedIndexedDbIndex_name (this : PromisedIndexedDbIndex) : JS string :=
  IDBIndex_name (index this).

Definition PromisedIndexedDbIndex_objectStore (this : PromisedIndexedDbIndex) : JS nat :=
  s <- IDBIndex_objectStore (index this) ;; alloc_object (OStore (mkPStore s)).

Definition PromisedIndexedDbIndex_keyPath (this : PromisedIndexedDbIndex) : JS KeyPath :=
  IDBIndex_keyPath (index this).

Definition PromisedIndexedDbIndex_multiEntry (this : PromisedIndexedDbIndex) : JS bool :=
  IDBIndex_multiEntry (index this).

Definition PromisedIndexedDbIndex_unique (this : PromisedIndexedDbIndex) : JS bool :=
  IDBIndex_unique (index this).

Definition PromisedIndexedDbIndex_count (this : PromisedIndexedDbIndex) (query : option QueryArg) : JS nat :=
  request_promise (IDBIndex_count (index this) query) LResolveResult.

Definition PromisedIndexedDbIndex_get (this : PromisedIndexedDbIndex) (query : QueryArg) : JS nat :=
  request_promise (IDBIndex_get (index this) query) LResolveResult.

Definition PromisedIndexedDbIndex_getAll (this : PromisedIndexedDbIndex)
    (query : option QueryArg) (count : option Z) : JS nat :=
  request_promise (IDBIndex_getAll (index this) query count) LResolveResult.

Definition PromisedIndexedDbIndex_getAllKeys (this : PromisedIndexedDbIndex)
    (query : option QueryArg) (count : option Z) : JS nat :=
  request_promise (IDBIndex_getAllKeys (index this) query count) LResolveResult.

Definition PromisedIndexedDbIndex_getKey (this : PromisedIndexedDbIndex) (query : QueryArg) : JS nat :=
  request_promise (IDBIndex_getKey (index this) query) LResolveResult.

(** ** class PromisedIndexedDbObjectStore *)

Definition PromisedIndexedDbObjectStore_indexNames (this : PromisedIndexedDbObjectStore) : JS (list string) :=
  IDBObjectStore_indexNames (store this).

Definition PromisedIndexedDbObjectStore_keyPath (this : PromisedIndexedDbObjectStore) : JS (option KeyPath) :=
  IDBObjectStore_keyPath (store this).

Definition PromisedIndexedDbObjectStore_name (this : PromisedIndexedDbObjectStore) : JS string :=
  IDBObjectStore_name (store this).

Definition PromisedIndexedDbObjectStore_transaction (this : PromisedIndexedDbObjectStore) : JS nat :=
  t <- IDBObjectStore_transaction (store this) ;; alloc_object (OTx (mkPTx t)).

Definition PromisedIndexedDbObjectStore_autoIncrement (this : PromisedIndexedDbObjectStore) : JS bool :=
  IDBObjectStore_autoIncrement (store this).

Definition PromisedIndexedDbObjectStore_add (this : PromisedIndexedDbObjectStore)
    (value : JsVal) (key : option JsVal) : JS nat :=
  request_promise (IDBObjectStore_add (store this) value key) LResolveResult.

Definition PromisedIndexedDbObjectStore_clear (this : PromisedIndexedDbObjectStore) : JS nat :=
  request_promise (IDBObjectStore_clear (store this)) (fun p _ => LResolveUndefined p).

Definition PromisedIndexedDbObjectStore_count (this : PromisedIndexedDbObjectStore)
    (query : option QueryArg) : JS nat :=
  request_promise (IDBObjectStore_count (store this) query) LResolveResult.

Definition PromisedIndexedDbObjectStore_delete (this : PromisedIndexedDbObjectStore) (query : QueryArg) : JS nat :=
  request_promise (IDBObjectStore_delete (store this) query) (fun p _ => LResolveUndefined p).

Definition PromisedIndexedDbObjectStore_get (this : PromisedIndexedDbObjectStore) (query : QueryArg) : JS nat :=
  request_promise (IDBObjectStore_get (store this) query) LResolveResult.

Definition PromisedIndexedDbObjectStore_getAll (this : PromisedIndexedDbObjectStore)
    (query : option QueryArg) (count : option Z) : JS nat :=
  request_promise (IDBObjectStore_getAll (store this) query count) LResolveResult.

Definition PromisedIndexedDbObjectStore_getAllKeys (this : PromisedIndexedDbObjectStore)
    (query : option QueryArg) (count : option Z) : JS nat :=
  request_promise (IDBObjectStore_getAllKeys (store this) query count) LResolveResult.

Definition PromisedIndexedDbObjectStore_getKey (this : PromisedIndexedDbObjectStore) (query : QueryArg) : JS nat :=
  request_promise (IDBObjectStore_getKey (store this) query) LResolveResult.

Definition PromisedIndexedDbObjectStore_index (this : PromisedIndexedDbObjectStore) (name : string) : JS nat :=
  h <- IDBObjectStore_index (store this) name ;; alloc_object (OIndex (mkPIndex h)).

Definition PromisedIndexedDbObjectStore_put (this : PromisedIndexedDbObjectStore)
    (value : JsVal) (key : option JsVal) : JS nat :=
  request_promise (IDBObjectStore_put (store this) value key) LResolveResult.

(** ** class PromisedIndexedDbTransaction *)

Definition PromisedIndexedDbTransaction_db (this : PromisedIndexedDbTransaction) : JS nat :=
  c <- IDBTransaction_db (transaction this) ;; alloc_object (ODb (mkPDb c)).

Definition PromisedIndexedDbTransaction_mode (this : PromisedIndexedDbTransaction) : JS TxMode :=
  IDBTransaction_mode (transaction this).

Definition PromisedIndexedDbTransaction_objectStoreNames (this : PromisedIndexedDbTransaction) : JS (list string) :=
  IDBTransaction_objectStoreNames (transaction this).

Definition PromisedIndexedDbTransaction_abort (this : PromisedIndexedDbTransaction) : JS unit :=
  IDBTransaction_abort (transaction this).

Definition PromisedIndexedDbTransaction_commit (this : PromisedIndexedDbTransaction) : JS unit :=
  IDBTransaction_commit (transaction this).

Definition PromisedIndexedDbTransaction_objectStore (this : PromisedIndexedDbTransaction) (name : string) : JS nat :=
  h <- IDBTransaction_objectStore (transaction this) name ;; alloc_object (OStore (mkPStore h)).

Definition PromisedIndexedDbTransaction_addEventListener (this : PromisedIndexedDbTransaction)
    (eventType : TransactionEventType) (callback : ClientCb) : JS unit :=
  add_listener (TTx (transaction this)) (event_type_of eventType) (LClient callback).

Definition PromisedIndexedDbTransaction_removeEventListener (this : PromisedIndexedDbTransaction)
    (eventType : TransactionEventType) (callback : ClientCb) : JS unit :=
  remove_listener (TTx (transaction this)) (event_type_of eventType) (LClient callback).

(** [EventTarget.dispatchEvent(ev)] on the native transaction: an event
    already being dispatched is an InvalidStateError; otherwise the event,
    retargeted at the transaction, reaches the transaction's listeners
    and, when it bubbles, those of its parent, the connection.  The result
    is [false] exactly when the event is cancelable and a listener
    called [preventDefault()]. *)
Definition PromisedIndexedDbTransaction_dispatchEvent (this : PromisedIndexedDbTransaction) (ev : DomEvent) : JS bool :=
  require (negb (de_dispatching ev)) InvalidStateError ;;
  w <- st_get ;;
  let t := transaction this in
  let parent := match w_txs w !! t with Some tx => [TConn (tx_conn tx)] | None => [] end in
  fl <- dispatch_path (TTx t :: if de_bubbles ev then parent else []) (mkEvent (de_type ev) (TTx t) 0 None) ;;
  ret (negb (de_cancelable ev && fl.1)).

(** ** class PromisedIndexedDb *)

Definition PromisedIndexedDb_name (this : PromisedIndexedDb) : JS string := IDBDatabase_name (db this).

Definition PromisedIndexedDb_version (this : PromisedIndexedDb) : JS Z := IDBDatabase_version (db this).

Definition PromisedIndexedDb_objectStoreNames (this : PromisedIndexedDb) : JS (list string) :=
  IDBDatabase_objectStoreNames (db this).

Definition PromisedIndexedDb_close (this : PromisedIndexedDb) : JS unit := IDBDatabase_close (db this).

Definition PromisedIndexedDb_transaction (this : PromisedIndexedDb) (names : NamesArg)
    (mode : option TxMode) (options : IDBTransactionOptions) : JS nat :=
  t <- IDBDatabase_transaction (db this) names mode options ;; alloc_object (OTx (mkPTx t)).

(** ** openDatabase *)

Definition openDatabase (name : string) (version : Z) (migration : Migration) (blocked : option nat) : JS nat :=
  new_promise (fun p =>
    req <- IDBFactory_open name version ;;
    add_listener (TRequest req) EvSuccess (LOpenSuccess p) ;;
    add_listener (TRequest req) EvError (LReject p) ;;
    add_listener (TRequest req) EvUpgradeNeeded (LUpgrade migration) ;;
    match blocked with
    | Some b => add_listener (TRequest req) EvBlocked (LBlocked b)
    | None => ret tt
    end).
End Wrapper.
