(* ===== verification/Refinement.v ===== *)
(** * Refinement: the request-to-promise contract (spec 4.1)

    [Contract] states what a promisified method promises: the call
    returns a new promise and never throws; if the native call throws, the
    promise is rejected with the exception; otherwise it is pending with
    the request's 'success' and 'error' listeners, and it settles to the
    request's result when 'success' is fired and to the event when 'error'
    is fired, after which nothing changes it.

    The theorems are proved against any platform satisfying
    [IdbHostLaws]: they are about the code of [request_promise], which
    every request-producing method of the wrapper is. *)

From S2P Require Import Prelude Keys Store Promise World Host Wrapper.

Local Open Scope st_scope.

(** The world after [new Promise] allocated its promise. *)
Definition alloc_world (w : World) : World :=
  set_promises (promise_alloc (w_next w)) (bump_next w).

(** The listeners a promisified call registers on its request. *)
Definition registered (w : World) (r p : nat) (on_success : Listener) : Prop :=
  exists rq, w_requests w !! r = Some rq /\
    rq_listeners rq = [(EvSuccess, on_success); (EvError, LReject p)].

(** [req.result], read when the listener runs. *)
Definition request_result (w : World) (r : nat) : JsVal :=
  default JUndefined (rq_result <$> w_requests w !! r).

(** The success listeners of the wrapper: [resolve(req.result)], and
    [resolve(undefined)] for [clear] and [delete]; and the value each
    resolves with when the request's result is [v]. *)
Definition success_listener (p r : nat) (l : Listener) : Prop :=
  l = LResolveResult p r \/ l = LResolveUndefined p.

Definition success_value (l : Listener) (v : JsVal) : PVal :=
  match l with LResolveUndefined _ => PJs JUndefined | _ => PJs v end.

(** The request a store [get] places in [demo_world], with the wrapper's
    listeners, and the world after the call. *)
Definition demo_get_call : JS nat := IDBObjectStore_get (mkStoreHandle 1 "items") (QVal (JNum 1)).

Definition demo_after_get : World := snd (request_promise demo_get_call LResolveResult demo_world).

Definition demo_get_request : Request :=
  mkRequest (SrcStore (mkStoreHandle 1 "items")) (OpGet (range_only (KNum 1))) false JUndefined None None false
    [(EvSuccess, LResolveResult 2 3); (EvError, LReject 2)].

(** Closing the hypotheses of a theorem on a concrete world: the
    wrapper's listeners are on the request, and the ids are fresh. *)
Ltac solve_registered := eexists; split; [vm_compute; reflexivity | reflexivity].
Ltac solve_fresh := apply ids_fresh_of_forall; apply (bool_decide_unpack _); vm_compute; exact I.

Lemma alloc_world_run (k : nat -> JS nat) w :
  st_bind alloc_promise k w = k (w_next w) (alloc_world w).
Proof. reflexivity. Qed.

Lemma alloc_world_pending (w : World) : w_promises (alloc_world w) !! w_next w = Some Pending.
Proof. apply lookup_insert_eq. Qed.

Lemma alloc_world_req_fresh (w : World) : req_ids_fresh w -> req_ids_fresh (alloc_world w).
Proof. intros Hf r Hr. specialize (Hf r Hr). simpl. lia. Qed.

Lemma alloc_world_fresh (w : World) : ids_fresh w -> ids_fresh (alloc_world w).
Proof.
  intros Hf q Hq. cbn [alloc_world set_promises bump_next w_promises w_next] in *.
  unfold promise_alloc in Hq. destruct (decide (w_next w = q)) as [<-|Hne]; [lia|].
  rewrite lookup_insert_ne in Hq by done. specialize (Hf q Hq). lia.
Qed.

Section Contract.
Context `{H : IdbHost} `{HL : !IdbHostLaws H}.

Lemma request_listeners_after (w : World) (r : nat) rq (l1 l2 : Listener) :
  w_requests w !! r = Some rq -> rq_listeners rq = [] ->
  exists rq', w_requests (update_listeners (TRequest r)
      (fun ls => if existsb (fun e => bool_decide (e.1 = EvError) && same_listener e.2 l2) ls
                 then ls else ls ++ [(EvError, l2)])
      (update_listeners (TRequest r)
        (fun ls => if existsb (fun e => bool_decide (e.1 = EvSuccess) && same_listener e.2 l1) ls
                   then ls else ls ++ [(EvSuccess, l1)]) w)) !! r = Some rq' /\
    rq_listeners rq' = [(EvSuccess, l1); (EvError, l2)] /\ rq_done rq' = rq_done rq.
Proof.
  intros Hr Hl.
  eexists. split; [eapply update_listeners_request_eq, update_listeners_request_eq, Hr|].
  simpl. rewrite Hl. simpl. split; [|done].
  reflexivity.
Qed.

Lemma dispatch_path_cons (t : Target) path (ev : Event) (w w' : World) o :
  dispatch_path (t :: path) ev w = (o, w') ->
  exists fl w1 o', dispatch_listeners (listeners_of w t) ev w = (Normal fl, w1) /\
                   dispatch_path path ev w1 = (o', w').
Proof.
  simpl. rewrite st_bind_get_run. destruct (dispatch_listeners_normal (listeners_of w t) ev w)
    as (fl & w1 & Hl).
  rewrite (st_bind_run_normal _ _ _ _ _ Hl). unfold st_bind.
  destruct (dispatch_path path ev w1) as [[fl'|e] w2] eqn:E; intros [= <- <-]; eauto.
Qed.

Lemma listeners_of_request (w : World) (r : nat) rq :
  w_requests w !! r = Some rq -> listeners_of w (TRequest r) = rq_listeners rq.
Proof. intros Hr. simpl. by rewrite Hr. Qed.

(** The wrapper's two listeners, on 'success' and on 'error'. *)
Lemma wrapper_listeners_success (w : World) (r p : nat) rq (ev : Event) :
  w_requests w !! r = Some rq -> ev_type ev = EvSuccess ->
  dispatch_listeners [(EvSuccess, LResolveResult p r); (EvError, LReject p)] ev w =
  (Normal (false, false), set_promises (promise_resolve p (PJs (rq_result rq))) w).
Proof.
  intros Hr Hty. cbn [dispatch_listeners]. rewrite Hty, bool_decide_true, bool_decide_false by done.
  cbv [st_bind st_catch st_get st_ret resolve st_modify run_listener]. by rewrite Hr.
Qed.

Lemma wrapper_listeners_error (w : World) (r p : nat) (l : Listener) (ev : Event) :
  ev_type ev = EvError ->
  dispatch_listeners [(EvSuccess, l); (EvError, LReject p)] ev w =
  (Normal (false, false), set_promises (promise_reject p (REvent ev)) w).
Proof.
  intros Hty. cbn [dispatch_listeners]. rewrite Hty, bool_decide_false, bool_decide_true by done.
  reflexivity.
Qed.

(** The executor's run when the native call throws. *)
Lemma request_promise_run_throw (call : JS nat) on_success w w2 (e : ErrorName) :
  call (alloc_world w) = (Throw e, w2) ->
  request_promise call on_success w =
  (Normal (w_next w), set_promises (promise_reject (w_next w) (RThrown e)) w2).
Proof.
  intros Hcall. unfold request_promise, new_promise. rewrite alloc_world_run.
  erewrite st_bind_run_normal; [reflexivity|].
  erewrite st_catch_run_throw; [reflexivity|]. by apply st_bind_run_throw.
Qed.

(** The executor's run when the native call returns a request. *)
Lemma request_promise_run_normal (call : JS nat) on_success w w2 (r : nat) :
  call (alloc_world w) = (Normal r, w2) ->
  request_promise call on_success w =
  (Normal (w_next w), snd ((add_listener (TRequest r) EvSuccess (on_success (w_next w) r) ;;
                           add_listener (TRequest r) EvError (LReject (w_next w))) w2)).
Proof.
  intros Hcall. unfold request_promise, new_promise. rewrite alloc_world_run.
  erewrite st_bind_run_normal; [reflexivity|].
  erewrite st_catch_run_normal; [reflexivity|]. by erewrite st_bind_run_normal.
Qed.

(** C4: a synchronous exception of the native call (an inactive
    transaction, a read-only transaction, an invalid key) does not
    propagate: the call returns a new promise, rejected with the
    exception. *)
Theorem request_promise_throw (call : JS nat) (on_success : nat -> nat -> Listener)
    (w w2 : World) (e : ErrorName) :
  request_method call -> call (alloc_world w) = (Throw e, w2) ->
  exists w', request_promise call on_success w = (Normal (w_next w), w') /\
             w_promises w' !! w_next w = Some (Rejected (RThrown e)).
Proof.
  intros [Hnat _] Hcall. destruct (Hnat _ _ _ Hcall) as [Hp _].
  eexists. split; [by apply request_promise_run_throw|].
  apply promise_reject_pending. rewrite Hp. apply alloc_world_pending.
Qed.

(** C5: when the native call returns a request, the call returns a new
    pending promise, and the request, which did not exist before, has
    exactly the 'success' and the 'error' listener. *)
Theorem request_promise_registers (call : JS nat) (on_success : nat -> nat -> Listener)
    (w w2 : World) (r : nat) :
  request_method call -> req_ids_fresh w -> call (alloc_world w) = (Normal r, w2) ->
  exists w', request_promise call on_success w = (Normal (w_next w), w') /\
    w_promises w' !! w_next w = Some Pending /\ w_requests w !! r = None /\
    registered w' r (w_next w) (on_success (w_next w) r).
Proof.
  intros [Hnat Hreq] Hf Hcall. destruct (Hnat _ _ _ Hcall) as [Hp _].
  destruct (Hreq _ _ _ Hcall (alloc_world_req_fresh _ Hf)) as (Hnone & rq & Hr & Hl & _).
  eexists. split; [by apply request_promise_run_normal|]. split_and!.
  - cbn [snd st_bind add_listener st_modify]. rewrite !update_listeners_promises, Hp.
    apply alloc_world_pending.
  - exact Hnone.
  - destruct (request_listeners_after w2 r rq (on_success (w_next w) r) (LReject (w_next w)) Hr Hl)
      as (rq' & Hr' & Hl' & _).
    exists rq'. split; [exact Hr' | exact Hl'].
Qed.

Lemma wrapper_listeners_success_gen (w : World) (r p : nat) rq (l : Listener) (ev : Event) :
  success_listener p r l -> w_requests w !! r = Some rq -> ev_type ev = EvSuccess ->
  dispatch_listeners [(EvSuccess, l); (EvError, LReject p)] ev w =
  (Normal (false, false), set_promises (promise_resolve p (success_value l (rq_result rq))) w).
Proof.
  intros [-> | ->] Hr Hty; [by apply wrapper_listeners_success|].
  cbn [dispatch_listeners]. rewrite Hty, bool_decide_true, bool_decide_false by done. reflexivity.
Qed.

(** 'success' at a request with the wrapper's listeners fulfils its
    promise, whatever the rest of the path does. *)
Lemma success_dispatch_fulfils (w w' : World) (r p : nat) (l : Listener) (path : list Target) (ev : Event) o :
  registered w r p l -> success_listener p r l ->
  ev_type ev = EvSuccess -> w_promises w !! p = Some Pending -> ids_fresh w ->
  dispatch_path (TRequest r :: path) ev w = (o, w') ->
  w_promises w' !! p = Some (Fulfilled (success_value l (request_result w r))).
Proof.
  intros (rq & Hr & Hl) Hs Hty Hp Hf Hrun.
  unfold request_result. rewrite Hr. simpl.
  destruct (dispatch_path_cons _ _ _ _ _ _ Hrun) as (fl & w1 & o' & H1 & H2).
  rewrite (listeners_of_request w r rq Hr), Hl in H1.
  rewrite (wrapper_listeners_success_gen w r p rq l ev Hs Hr Hty) in H1. injection H1 as <- <-.
  eapply (keeps_settled_lookup _ _ _ _ _ _ (keeps_dispatch_path path ev) H2).
  - eapply keeps_settled_fresh; [apply keeps_resolve | reflexivity | exact Hf].
  - by apply promise_resolve_pending.
  - done.
Qed.

(** 'error' at a request with the wrapper's listeners rejects its
    promise with the event. *)
Lemma error_dispatch_rejects (w w' : World) (r p : nat) (l : Listener) (path : list Target) (ev : Event) o :
  registered w r p l ->
  ev_type ev = EvError -> w_promises w !! p = Some Pending -> ids_fresh w ->
  dispatch_path (TRequest r :: path) ev w = (o, w') ->
  w_promises w' !! p = Some (Rejected (REvent ev)).
Proof.
  intros (rq & Hr & Hl) Hty Hp Hf Hrun.
  destruct (dispatch_path_cons _ _ _ _ _ _ Hrun) as (fl & w1 & o' & H1 & H2).
  rewrite (listeners_of_request w r rq Hr), Hl in H1.
  rewrite (wrapper_listeners_error w r p l ev Hty) in H1. injection H1 as <- <-.
  eapply (keeps_settled_lookup _ _ _ _ _ _ (keeps_dispatch_path path ev) H2).
  - eapply keeps_settled_fresh; [apply keeps_reject | reflexivity | exact Hf].
  - by apply promise_reject_pending.
  - done.
Qed.

(** C2: firing 'success' at the request of a promisified call fulfils
    the call's promise with [req.result] (with [undefined] for [clear]
    and [delete]), whatever the listeners further along the event path
    do. *)
Theorem request_success_fulfills (w w' : World) (r p : nat) (l : Listener) (path : list Target) (ev : Event) o :
  registered w r p l -> success_listener p r l ->
  ev_type ev = EvSuccess -> w_promises w !! p = Some Pending -> ids_fresh w ->
  dispatch_path (TRequest r :: path) ev w = (o, w') ->
  w_promises w' !! p = Some (Fulfilled (success_value l (request_result w r))).
Proof. exact (success_dispatch_fulfils w w' r p l path ev o). Qed.

(** C3: firing 'error' at the request of a promisified call rejects the
    call's promise with the error event itself, unmodified. *)
Theorem request_error_rejects (w w' : World) (r p : nat) (l : Listener) (path : list Target) (ev : Event) o :
  registered w r p l ->
  ev_type ev = EvError -> w_promises w !! p = Some Pending -> ids_fresh w ->
  dispatch_path (TRequest r :: path) ev w = (o, w') ->
  w_promises w' !! p = Some (Rejected (REvent ev)).
Proof. exact (error_dispatch_rejects w w' r p l path ev o). Qed.
End Contract.

Lemma request_promise_throw_witness :
  exists w', request_promise (IDBObjectStore_get (mkStoreHandle 0 "items") (QVal (JNum 1))) LResolveResult empty_world
             = (Normal 0, w') /\ w_promises w' !! 0 = Some (Rejected (RThrown InvalidStateError)).
Proof.
  apply (request_promise_throw _ _ empty_world (alloc_world empty_world) InvalidStateError).
  - apply store_get_req.
  - reflexivity.
Defined.

Lemma request_promise_registers_witness :
  exists w', request_promise demo_get_call LResolveResult demo_world = (Normal 2, w') /\
    w_promises w' !! 2 = Some Pending /\ w_requests demo_world !! 3 = None /\
    registered w' 3 2 (LResolveResult 2 3).
Proof.
  apply (request_promise_registers _ _ demo_world (snd (demo_get_call (alloc_world demo_world))) 3).
  - apply store_get_req.
  - apply req_ids_fresh_of_forall. apply (bool_decide_unpack _). vm_compute. exact I.
  - vm_compute. reflexivity.
Defined.

Lemma request_success_fulfills_witness :
  w_promises (snd (dispatch_path [TRequest 3] (success_event 3) demo_after_get)) !! 2 =
  Some (Fulfilled (success_value (LResolveResult 2 3) (request_result demo_after_get 3))).
Proof.
  apply (request_success_fulfills demo_after_get _ 3 2 (LResolveResult 2 3) [] (success_event 3)
           (fst (dispatch_path [TRequest 3] (success_event 3) demo_after_get))).
  - exists demo_get_request. split; [vm_compute; reflexivity | reflexivity].
  - by left.
  - reflexivity.
  - vm_compute. reflexivity.
  - apply ids_fresh_of_forall. apply (bool_decide_unpack _). vm_compute. exact I.
  - apply surjective_pairing.
Defined.

Lemma request_error_rejects_witness :
  w_promises (snd (dispatch_path [TRequest 3; TTx 1; TConn 0] (error_event 3) demo_after_get)) !! 2 =
  Some (Rejected (REvent (error_event 3))).
Proof.
  apply (request_error_rejects demo_after_get _ 3 2 (LResolveResult 2 3) [TTx 1; TConn 0] (error_event 3)
           (fst (dispatch_path [TRequest 3; TTx 1; TConn 0] (error_event 3) demo_after_get))).
  - exists demo_get_request. split; [vm_compute; reflexivity | reflexivity].
  - reflexivity.
  - vm_compute. reflexivity.
  - apply ids_fresh_of_forall. apply (bool_decide_unpack _). vm_compute. exact I.
  - apply surjective_pairing.
Defined.
