(* ===== verification/EndToEnd.v ===== *)
(** * EndToEnd: the wrapper running on the platform

    The promise of a promisified call settles to the abstract outcome of
    its request ([settlement]): fulfilled with the result of the request's
    operation on the database as it is when the platform runs it, or
    rejected with the error event.  This is the refinement of spec 4.1 by
    [Wrapper.request_promise] on [Host.platform]; the testable properties
    of spec section 8 follow from it and from the store lemmas. *)

From S2P Require Import Prelude Keys Store Promise World Host Wrapper Refinement.

Local Open Scope st_scope.

(** The abstract outcome of a request whose operation produced [res],
    for the promise whose success listener is [l]. *)
Definition settlement (l : Listener) (r : nat) (res : op_result JsVal) : PState PVal Reason :=
  match res with
  | Done v => Fulfilled (success_value l v)
  | Failed _ => Rejected (REvent (error_event r))
  end.

Lemma complete_request_lookup (w : World) (r : nat) res rq :
  w_requests w !! r = Some rq ->
  w_requests (set_requests (alter (fun rq =>
    mkRequest (rq_source rq) (rq_op rq) true
      (match res with Done v => v | Failed _ => JUndefined end) (rq_conn rq)
      (match res with Done _ => None | Failed e => Some e end) (rq_blocked rq) (rq_listeners rq)) r) w) !! r =
  Some (mkRequest (rq_source rq) (rq_op rq) true
      (match res with Done v => v | Failed _ => JUndefined end) (rq_conn rq)
      (match res with Done _ => None | Failed e => Some e end) (rq_blocked rq) (rq_listeners rq)).
Proof. intros Hr. cbn [set_requests w_requests]. by rewrite lookup_alter_eq, Hr. Qed.

(** 'success' at a request carrying the wrapper's two listeners runs
    the success listener only, which resolves the promise. *)
Lemma dispatch_success_registered (W : World) (r p : nat) (l : Listener) rq :
  success_listener p r l -> w_requests W !! r = Some rq ->
  rq_listeners rq = [(EvSuccess, l); (EvError, LReject p)] ->
  dispatch_path [TRequest r] (success_event r) W =
  (Normal (false, false), set_promises (promise_resolve p (success_value l (rq_result rq))) W).
Proof.
  intros Hs Hr Hl. cbn [dispatch_path]. rewrite st_bind_get_run, (listeners_of_request W r rq Hr), Hl.
  by rewrite (st_bind_run_normal _ _ _ _ _ (wrapper_listeners_success_gen W r p rq l (success_event r) Hs Hr eq_refl)).
Qed.

(** The success branch of [run_request]: the database takes the
    operation's result, the request's promise is resolved, and the other
    requests, the connections and the transaction's connection stay. *)
Lemma run_request_done (w : World) (t r p : nat) (l : Listener) tx cn d rq d' v :
  w_txs w !! t = Some tx -> w_conns w !! tx_conn tx = Some cn -> w_dbs w !! conn_name cn = Some d ->
  w_requests w !! r = Some rq -> success_listener p r l ->
  rq_listeners rq = [(EvSuccess, l); (EvError, LReject p)] ->
  exec_request (rq_source rq) (rq_op rq) d = (d', Done v) ->
  exists w', run_request t r w = (Normal tt, w') /\
    w_dbs w' = <[conn_name cn := d']> (w_dbs w) /\
    (forall r', r' <> r -> w_requests w' !! r' = w_requests w !! r') /\
    w_promises w' = promise_resolve p (success_value l v) (w_promises w) /\
    w_conns w' = w_conns w /\
    (exists tx', w_txs w' !! t = Some tx' /\ tx_conn tx' = tx_conn tx).
Proof.
  intros Htx Hcn Hd Hr Hs Hl Hexec. unfold run_request.
  rewrite (st_bind_run_normal _ _ _ _ _ (get_tx_run _ _ _ Htx)).
  rewrite (st_bind_run_normal _ _ _ _ _ (get_conn_run _ _ _ Hcn)).
  rewrite (st_bind_run_normal _ _ _ _ _ (get_db_run _ _ _ Hd)).
  rewrite st_bind_get_run, Hr, Hexec.
  unfold update_tx, complete_request, update_request. run_st.
  set (W3 := set_requests _ _).
  rewrite (st_bind_run_normal _ _ _ _ _ (dispatch_success_registered W3 r p l _ Hs
             (complete_request_lookup _ _ (Done v) _ Hr) Hl)).
  cbv beta. set (W4 := set_promises _ W3).
  set (f := fun tx : Transaction => mkTx _ _ _ _ _ _ _ _ _) in W3.
  assert (Htx4 : w_txs W4 !! t = Some (f tx)) by (cbn; by rewrite lookup_alter_eq, Htx).
  rewrite (st_bind_run_normal _ _ _ _ _ (get_tx_run _ _ _ Htx4)). cbn [fst snd orb andb].
  destruct (is_active (f tx)); run_st; (eexists; split; [reflexivity|]).
  all: subst W4 W3; cbn; split_and!; [done | intros; by rewrite lookup_alter_ne | done | done |].
  - rewrite !lookup_alter_eq, Htx. by eexists.
  - rewrite lookup_alter_eq, Htx. by eexists.
Qed.

(** The platform's run of a request settles the promise of the wrapper
    listening on it to the outcome of the request's operation. *)
Lemma run_request_outcome (w : World) (t r p : nat) (l : Listener) tx cn d rq :
  w_txs w !! t = Some tx -> w_conns w !! tx_conn tx = Some cn -> w_dbs w !! conn_name cn = Some d ->
  w_requests w !! r = Some rq -> registered w r p l -> success_listener p r l ->
  w_promises w !! p = Some Pending -> ids_fresh w ->
  w_promises (snd (run_request t r w)) !! p = Some (settlement l r (exec_request (rq_source rq) (rq_op rq) d).2).
Proof.
  intros Htx Hcn Hd Hr (rq0 & Hr0 & Hl) Hs Hp Hf. rewrite Hr in Hr0. injection Hr0 as <-.
  unfold run_request.
  rewrite (st_bind_run_normal _ _ _ _ _ (get_tx_run _ _ _ Htx)).
  rewrite (st_bind_run_normal _ _ _ _ _ (get_conn_run _ _ _ Hcn)).
  rewrite (st_bind_run_normal _ _ _ _ _ (get_db_run _ _ _ Hd)).
  rewrite st_bind_get_run, Hr.
  destruct (exec_request (rq_source rq) (rq_op rq) d) as [d' res] eqn:Hexec. simpl snd.
  unfold update_tx, complete_request, update_request. run_st.
  set (W3 := set_requests _ _).
  assert (Hr3 : exists rq3, w_requests W3 !! r = Some rq3 /\ rq_listeners rq3 = rq_listeners rq /\
                  rq_result rq3 = match res with Done v => v | Failed _ => JUndefined end).
  { eexists. split; [apply complete_request_lookup; exact Hr | done]. }
  destruct Hr3 as (rq3 & Hr3 & Hl3 & Hres3).
  assert (Hreg3 : registered W3 r p l) by (exists rq3; split; [done | by rewrite Hl3]).
  destruct res as [v|e];
  [ pose proof (dispatch_path_normal [TRequest r] (success_event r) W3) as (fl & w4 & Hd4)
  | pose proof (dispatch_path_normal [TRequest r; TTx t; TConn (tx_conn tx)] (error_event r) W3)
      as (fl & w4 & Hd4) ];
  (assert (Hf4 : ids_fresh w4) by exact (keeps_settled_fresh _ _ _ _ (keeps_dispatch_path _ _) Hd4 Hf));
  (eapply keeps_after; [exact Hd4 | intros; eauto 20 with keeps | exact Hf4 | | done]).
  - rewrite (success_dispatch_fulfils W3 w4 r p l [] (success_event r) _ Hreg3 Hs eq_refl Hp Hf Hd4).
    unfold request_result. rewrite Hr3. simpl in Hres3 |- *. by rewrite Hres3.
  - exact (error_dispatch_rejects W3 w4 r p _ _ (error_event r) _ Hreg3 eq_refl Hp Hf Hd4).
Qed.

(** C1: refinement of spec 4.1 by the platform.  When the platform runs a
    request of a promisified call, the call's promise settles to the
    outcome of the request's operation on the database: fulfilled with
    the result (with [undefined] for [clear] and [delete]) or rejected
    with the error event. *)
Theorem run_request_settles (w : World) (t r p : nat) (l : Listener) tx cn d rq :
  w_txs w !! t = Some tx -> w_conns w !! tx_conn tx = Some cn -> w_dbs w !! conn_name cn = Some d ->
  w_requests w !! r = Some rq -> registered w r p l -> success_listener p r l ->
  w_promises w !! p = Some Pending -> ids_fresh w ->
  w_promises (snd (run_request t r w)) !! p = Some (settlement l r (exec_request (rq_source rq) (rq_op rq) d).2).
Proof. exact (run_request_outcome w t r p l tx cn d rq). Qed.

Lemma run_request_settles_witness :
  w_promises (snd (run_request 1 3 demo_after_get)) !! 2 = Some (Fulfilled (PJs JUndefined)).
Proof.
  eapply eq_trans; [eapply (run_request_settles demo_after_get 1 3 2 (LResolveResult 2 3)) |].
  - vm_compute. reflexivity.
  - vm_compute. reflexivity.
  - vm_compute. reflexivity.
  - vm_compute. reflexivity.
  - exists demo_get_request. split; [vm_compute; reflexivity | reflexivity].
  - by left.
  - vm_compute. reflexivity.
  - apply ids_fresh_of_forall. apply (bool_decide_unpack _). vm_compute. exact I.
  - vm_compute. reflexivity.
Defined.

