(* ===== verification/StoreOps.v ===== *)
(** * StoreOps: the operations of spec section 8, end to end

    Each theorem follows a promisified call of the wrapper on a store or
    an index ([Wrapper.PromisedIndexedDbObjectStore_*],
    [Wrapper.PromisedIndexedDbIndex_getAllKeys]) through the platform's
    run of its request ([Host.run_request]) to the state of the call's
    promise.  [scheduled w t r src op name d] says which request that is:
    request [r] of transaction [t] performs [op] on [src], on database
    [name] in state [d].  The store facts come from [Store], the
    settlement from [EndToEnd.run_request_outcome]. *)

From S2P Require Import Prelude Keys Store Promise World Host Wrapper Refinement EndToEnd.

Local Open Scope st_scope.

(** Request [r] of transaction [t] performs [op] on [src], and the
    transaction's connection is to database [name], whose state is [d]. *)
Definition scheduled (w : World) (t r : nat) (src : Source) (op : ReqOp) (name : string) (d : Database) : Prop :=
  exists tx cn rq, w_txs w !! t = Some tx /\ w_conns w !! tx_conn tx = Some cn /\ conn_name cn = name /\
    w_dbs w !! name = Some d /\ w_requests w !! r = Some rq /\ rq_source rq = src /\ rq_op rq = op.

(** [items.put("pen", 1); items.get(1)] through the wrapper on
    [Host.demo_world]: promise 2 and request 3 for the put, promise 4 and
    request 5 for the get, both in transaction 1. *)
Definition demo_put_get : World :=
  snd ((PromisedIndexedDbObjectStore_put (mkPStore (mkStoreHandle 1 "items")) (JStr "pen") (Some (JNum 1)) ;;
        PromisedIndexedDbObjectStore_get (mkPStore (mkStoreHandle 1 "items")) (QVal (JNum 1))) demo_world).

(** [items.add("pen", 1); items.add("cup", 1)] through the wrapper on
    [Host.demo_world]: promise 2 and request 3, then promise 4 and
    request 5. *)
Definition demo_add_twice : World :=
  snd ((PromisedIndexedDbObjectStore_add (mkPStore (mkStoreHandle 1 "items")) (JStr "pen") (Some (JNum 1)) ;;
        PromisedIndexedDbObjectStore_add (mkPStore (mkStoreHandle 1 "items")) (JStr "cup") (Some (JNum 1))) demo_world).

(** [items.put("pen", 1); items.delete(2); items.clear(); items.getAll()]
    through the wrapper on [Host.demo_world]: requests 3, 5, 7 and 9 with
    promises 2, 4, 6 and 8. *)
Definition items_store : PromisedIndexedDbObjectStore := mkPStore (mkStoreHandle 1 "items").

Definition demo_delete_clear : World :=
  snd ((PromisedIndexedDbObjectStore_put items_store (JStr "pen") (Some (JNum 1)) ;;
        PromisedIndexedDbObjectStore_delete items_store (QVal (JNum 2)) ;;
        PromisedIndexedDbObjectStore_clear items_store ;;
        PromisedIndexedDbObjectStore_getAll items_store None None) demo_world).

(** A store "items" with the records 1 = {name: "pen"} and
    2 = {name: "cup"} and the index "by_name" on [name]; transaction 1
    (read-only) of connection 0 on "shop"; and
    [items.index("by_name").getAllKeys(undefined, 1)] through the wrapper:
    promise 2, request 3. *)
Definition demo_indexed_store : ObjectStore :=
  mkStore None true 3 [(KNum 1, JObj [("name", JStr "pen")]); (KNum 2, JObj [("name", JStr "cup")])]
    [("by_name", mkIndex ["name"] false false)].

Definition demo_indexed_world : World :=
  mkWorld ∅ ∅
    {[1 := mkTx 0 ["items"] ReadOnly TxActive [] None false None []]}
    {[0 := mkConn "shop" 1 false []]}
    ∅
    {["shop" := mkDb 1 {["items" := demo_indexed_store]}]}
    2 [].

Definition demo_index_keys : World :=
  snd (PromisedIndexedDbIndex_getAllKeys (mkPIndex (mkIndexHandle (mkStoreHandle 1 "items") "by_name"))
         None (Some 1%Z) demo_indexed_world).

(** [items.add(pen)] without a key on [Host.demo_world] (promise 2,
    request 3), and on the same world with the key generator of "items"
    past 2^53. *)
Definition demo_add_nokey : World :=
  snd (PromisedIndexedDbObjectStore_add (mkPStore (mkStoreHandle 1 "items")) (JStr "pen") None demo_world).

Definition demo_full_world : World :=
  set_dbs (insert "shop" (mkDb 1 {["items" := mkStore None true (key_gen_max + 1) [] []]})) demo_world.

Definition demo_add_full : World :=
  snd (PromisedIndexedDbObjectStore_add (mkPStore (mkStoreHandle 1 "items")) (JStr "pen") None demo_full_world).

(** A request on a store that exists runs the store operation and
    writes the store back. *)
Lemma exec_store_request (h : StoreHandle) (op : ReqOp) (d : Database) (s : ObjectStore) :
  db_stores d !! sh_name h = Some s ->
  exec_request (SrcStore h) op d =
  (mkDb (db_version d) (<[sh_name h := (exec_store_op op s).1]> (db_stores d)), (exec_store_op op s).2).
Proof. intros Hs. cbn [exec_request]. rewrite Hs. by destruct (exec_store_op op s). Qed.

Lemma exec_add_existing (h : StoreHandle) (v : JsVal) (k : Key) (d : Database) (s : ObjectStore) :
  db_stores d !! sh_name h = Some s -> is_Some (rec_lookup k (os_records s)) ->
  (exec_request (SrcStore h) (OpAdd v (Some k)) d).2 = Failed ConstraintError.
Proof.
  intros Hs Hk. rewrite (exec_store_request h _ d s Hs). cbn [exec_store_op].
  destruct (store_record s v (Some k) true) as [s' r] eqn:E.
  by destruct (store_record_add_existing s v k s' r Hk E) as [-> _].
Qed.

Lemma exec_add_fresh (h : StoreHandle) (v : JsVal) (k : Key) (d : Database) (s : ObjectStore) :
  db_stores d !! sh_name h = Some s -> rec_lookup k (os_records s) = None ->
  index_conflict s k v = false ->
  (exec_request (SrcStore h) (OpAdd v (Some k)) d).2 = Done (key_to_val k).
Proof.
  intros Hs Hk Hic. rewrite (exec_store_request h _ d s Hs). cbn [exec_store_op].
  by destruct (store_record_add_fresh s v k Hk Hic) as (s' & -> & _).
Qed.

(** On the database, a [put] of [v] at key [k] that succeeds is seen
    by a [get] of [k] on the same store. *)
Lemma exec_put_then_get (h : StoreHandle) (v : JsVal) (k : Key) d d' res :
  exec_request (SrcStore h) (OpPut v (Some k)) d = (d', Done res) ->
  (exec_request (SrcStore h) (OpGet (range_only k)) d').2 = Done v.
Proof.
  cbn [exec_request]. destruct (db_stores d !! sh_name h) as [s|]; [|by intros [=]].
  cbn [exec_store_op]. destruct (store_record s v (Some k) false) as [s' r] eqn:E. intros [= <- Hres].
  cbn [db_stores]. rewrite lookup_insert_eq. cbn [exec_store_op snd]. rewrite store_get_only.
  destruct (store_record_put_lookup _ _ _ _ _ E) as [[_ ->] | [-> _]]; [done | discriminate].
Qed.

Lemma exec_index_request (h : IndexHandle) (op : ReqOp) (d : Database) (s : ObjectStore) (ix : IndexMeta) :
  db_stores d !! sh_name (ih_store h) = Some s -> list_to_map (M := gmap string IndexMeta) (os_indexes s) !! ih_name h = Some ix ->
  exec_request (SrcIndex h) op d = (d, exec_index_op ix op s).
Proof. intros Hs Hix. cbn [exec_request]. by rewrite Hs, Hix. Qed.


(** A request of a promisified call settles its promise to the outcome
    of its operation on the database. *)
Lemma scheduled_outcome (w : World) (t r p : nat) (l : Listener) src op name d :
  scheduled w t r src op name d -> registered w r p l -> success_listener p r l ->
  w_promises w !! p = Some Pending -> ids_fresh w ->
  w_promises (snd (run_request t r w)) !! p = Some (settlement l r (exec_request src op d).2).
Proof.
  intros (tx & cn & rq & Htx & Hcn & <- & Hd & Hr & <- & <-).
  exact (run_request_outcome w t r p l tx cn d rq Htx Hcn Hd Hr).
Qed.

(** A request that succeeds writes the database, resolves its promise,
    leaves the other requests alone, and leaves every other request of the
    transaction scheduled on the database it wrote. *)
Lemma scheduled_done (w : World) (t r p : nat) (l : Listener) src op name d d' v :
  scheduled w t r src op name d -> registered w r p l -> success_listener p r l ->
  exec_request src op d = (d', Done v) ->
  exists w', run_request t r w = (Normal tt, w') /\
    w_dbs w' = <[name := d']> (w_dbs w) /\
    (forall r', r' <> r -> w_requests w' !! r' = w_requests w !! r') /\
    w_promises w' = promise_resolve p (success_value l v) (w_promises w) /\
    forall r' src' op' d0, r' <> r -> scheduled w t r' src' op' name d0 -> scheduled w' t r' src' op' name d'.
Proof.
  intros (tx & cn & rq & Htx & Hcn & <- & Hd & Hr & <- & <-) (rq' & Hr' & Hl) Hs Hexec.
  rewrite Hr in Hr'. injection Hr' as <-.
  destruct (run_request_done w t r p l tx cn d rq d' v Htx Hcn Hd Hr Hs Hl Hexec)
    as (w' & Hrun & Hdbs & Hreqs & Hproms & Hconns & tx' & Htx' & Hconn').
  exists w'. split_and!; [done | done | done | done |].
  intros r' src' op' d0 Hne (tx2 & cn2 & rq2 & Htx2 & Hcn2 & _ & _ & Hr2 & Hsrc & Hop).
  rewrite Htx in Htx2. injection Htx2 as <-. rewrite Hcn in Hcn2. injection Hcn2 as <-.
  exists tx', cn, rq2. split_and!; [done | by rewrite Hconns, Hconn' | done |
    by rewrite Hdbs, lookup_insert_eq | by rewrite Hreqs | done | done].
Qed.

(** Two requests of one transaction run one after the other: when the
    first succeeds, the second settles to the outcome of its operation on
    the database the first left. *)
Lemma scheduled_seq (w : World) (t r1 r2 p1 p2 : nat) (l1 l2 : Listener) src1 op1 src2 op2 name d d' v1 :
  scheduled w t r1 src1 op1 name d -> scheduled w t r2 src2 op2 name d ->
  registered w r1 p1 l1 -> success_listener p1 r1 l1 ->
  registered w r2 p2 l2 -> success_listener p2 r2 l2 ->
  r1 <> r2 -> p1 <> p2 -> w_promises w !! p2 = Some Pending -> ids_fresh w ->
  exec_request src1 op1 d = (d', Done v1) ->
  w_promises (snd (run_request t r2 (snd (run_request t r1 w)))) !! p2 =
  Some (settlement l2 r2 (exec_request src2 op2 d').2).
Proof.
  intros H1 H2 Hreg1 Hs1 (rq2 & Hr2 & Hl2) Hs2 Hne Hpne Hp2 Hf Hexec.
  destruct (scheduled_done w t r1 p1 l1 src1 op1 name d d' v1 H1 Hreg1 Hs1 Hexec)
    as (w1 & Hrun & _ & Hreqs & Hproms & Hsch).
  rewrite Hrun. simpl snd.
  apply (scheduled_outcome w1 t r2 p2 l2 src2 op2 name d'); [by apply (Hsch r2 src2 op2 d) | | done | |].
  - exists rq2. by rewrite Hreqs.
  - rewrite Hproms. by rewrite promise_resolve_other.
  - exact (keeps_settled_fresh _ _ _ _ (keeps_run_request t r1) Hrun Hf).
Qed.

(** Closing one hypothesis of a theorem of this file on a concrete
    world, by the shape of the hypothesis. *)
Ltac solve_scheduled := do 3 eexists; split_and!; vm_compute; reflexivity.
Ltac witness_goal :=
  match goal with
  | |- scheduled _ _ _ _ _ _ _ => solve_scheduled
  | |- registered _ _ _ _ => solve_registered
  | |- ids_fresh _ => solve_fresh
  | |- is_Some _ => vm_compute; by eexists
  | |- @eq _ _ _ => vm_compute; reflexivity
  | |- not (@eq nat _ _) => discriminate
  end.

(** C10: read after write, end to end (spec section 8).  A transaction
    holds a promisified [put(v, k)] and a promisified [get(k)] on the same
    store; the platform runs the first and then the second.  If the put's
    promise is fulfilled, the get's promise is fulfilled with [v]. *)
Theorem put_then_get (w : World) (t r1 r2 p1 p2 : nat) (h : StoreHandle) (v : JsVal) (k : Key) name d :
  scheduled w t r1 (SrcStore h) (OpPut v (Some k)) name d ->
  scheduled w t r2 (SrcStore h) (OpGet (range_only k)) name d ->
  registered w r1 p1 (LResolveResult p1 r1) -> registered w r2 p2 (LResolveResult p2 r2) ->
  r1 <> r2 -> p1 <> p2 -> w_promises w !! p1 = Some Pending -> w_promises w !! p2 = Some Pending ->
  ids_fresh w ->
  let w1 := snd (run_request t r1 w) in
  (exists res, w_promises w1 !! p1 = Some (Fulfilled res)) ->
  w_promises (snd (run_request t r2 w1)) !! p2 = Some (Fulfilled (PJs v)).
Proof.
  intros H1 H2 Hreg1 Hreg2 Hne Hpne Hp1 Hp2 Hf w1 [res Hful].
  pose proof (scheduled_outcome w t r1 p1 _ _ _ _ _ H1 Hreg1 (or_introl eq_refl) Hp1 Hf) as Hset.
  fold w1 in Hset. rewrite Hful in Hset.
  destruct (exec_request (SrcStore h) (OpPut v (Some k)) d) as [d' [v'|e]] eqn:Hexec;
    [|by injection Hset].
  unfold w1. rewrite (scheduled_seq w t r1 r2 p1 p2 _ _ _ _ _ _ name d d' v' H1 H2 Hreg1
                        (or_introl eq_refl) Hreg2 (or_introl eq_refl) Hne Hpne Hp2 Hf Hexec).
  by rewrite (exec_put_then_get h v k d d' v' Hexec).
Qed.

(** C21: [add] at a key the store already holds rejects (spec section 8):
    when the platform runs the request, the promise is rejected with the
    request's error event. *)
Theorem add_existing_rejects (w : World) (t r p : nat) (h : StoreHandle) (v : JsVal) (k : Key) name d s :
  scheduled w t r (SrcStore h) (OpAdd v (Some k)) name d ->
  db_stores d !! sh_name h = Some s -> is_Some (rec_lookup k (os_records s)) ->
  registered w r p (LResolveResult p r) -> w_promises w !! p = Some Pending -> ids_fresh w ->
  w_promises (snd (run_request t r w)) !! p = Some (Rejected (REvent (error_event r))).
Proof.
  intros Hsch Hs Hk Hreg Hp Hf.
  rewrite (scheduled_outcome w t r p _ _ _ _ _ Hsch Hreg (or_introl eq_refl) Hp Hf).
  by rewrite (exec_add_existing h v k d s Hs Hk).
Qed.

(** C22: [add] at a key the store does not hold, with no unique index
    violated, resolves with that key (spec section 8). *)
Theorem add_fresh_resolves (w : World) (t r p : nat) (h : StoreHandle) (v : JsVal) (k : Key) name d s :
  scheduled w t r (SrcStore h) (OpAdd v (Some k)) name d ->
  db_stores d !! sh_name h = Some s -> rec_lookup k (os_records s) = None -> index_conflict s k v = false ->
  registered w r p (LResolveResult p r) -> w_promises w !! p = Some Pending -> ids_fresh w ->
  w_promises (snd (run_request t r w)) !! p = Some (Fulfilled (PJs (key_to_val k))).
Proof.
  intros Hsch Hs Hk Hic Hreg Hp Hf.
  rewrite (scheduled_outcome w t r p _ _ _ _ _ Hsch Hreg (or_introl eq_refl) Hp Hf).
  by rewrite (exec_add_fresh h v k d s Hs Hk Hic).
Qed.

(** C25: [delete(k)] resolves with [undefined], never with an error, and
    removes only the record at [k]: every other record of the store is
    untouched (spec section 8; for a key the store does not hold, the
    records are all unchanged). *)
Theorem delete_resolves_undefined (w : World) (t r p : nat) (h : StoreHandle) (k : Key) name d s :
  scheduled w t r (SrcStore h) (OpDelete (range_only k)) name d ->
  db_stores d !! sh_name h = Some s ->
  registered w r p (LResolveUndefined p) -> w_promises w !! p = Some Pending ->
  exists w' d' s', run_request t r w = (Normal tt, w') /\
    w_promises w' !! p = Some (Fulfilled (PJs JUndefined)) /\
    w_dbs w' !! name = Some d' /\ db_stores d' !! sh_name h = Some s' /\
    rec_lookup k (os_records s') = None /\
    forall k', k' <> k -> rec_lookup k' (os_records s') = rec_lookup k' (os_records s).
Proof.
  intros Hsch Hs Hreg Hp.
  pose proof (exec_store_request h (OpDelete (range_only k)) d s Hs) as Hexec.
  cbn [exec_store_op fst snd] in Hexec.
  destruct (scheduled_done w t r p _ _ _ _ _ _ _ Hsch Hreg (or_intror eq_refl) Hexec)
    as (w' & Hrun & Hdbs & _ & Hproms & _).
  exists w', (mkDb (db_version d) (<[sh_name h := store_delete (range_only k) s]> (db_stores d))),
    (store_delete (range_only k) s). split_and!; [exact Hrun | | by rewrite Hdbs, lookup_insert_eq |
    cbn [db_stores]; by rewrite lookup_insert_eq | |].
  - rewrite Hproms. by apply promise_resolve_pending.
  - rewrite store_delete_lookup. by rewrite (proj2 (range_only_includes k k) eq_refl).
  - intros k' Hne. rewrite store_delete_lookup.
    destruct (range_includes (range_only k) k') eqn:E; [|done].
    by apply range_only_includes in E.
Qed.

(** C26: [clear()] followed by [getAll()] in the same transaction: the
    getAll's promise is fulfilled with the empty array, whatever its range
    and count (spec section 8). *)
Theorem clear_then_getAll (w : World) (t r1 r2 p1 p2 : nat) (h : StoreHandle) (rg : KeyRange) (c : option Z) name d s :
  scheduled w t r1 (SrcStore h) OpClear name d -> scheduled w t r2 (SrcStore h) (OpGetAll rg c) name d ->
  db_stores d !! sh_name h = Some s ->
  registered w r1 p1 (LResolveUndefined p1) -> registered w r2 p2 (LResolveResult p2 r2) ->
  r1 <> r2 -> p1 <> p2 -> w_promises w !! p2 = Some Pending -> ids_fresh w ->
  w_promises (snd (run_request t r2 (snd (run_request t r1 w)))) !! p2 = Some (Fulfilled (PJs (JArr []))).
Proof.
  intros H1 H2 Hs Hreg1 Hreg2 Hne Hpne Hp2 Hf.
  pose proof (exec_store_request h OpClear d s Hs) as Hexec. cbn [exec_store_op fst snd] in Hexec.
  rewrite (scheduled_seq w t r1 r2 p1 p2 _ _ _ _ _ _ name d _ _ H1 H2 Hreg1
             (or_intror eq_refl) Hreg2 (or_introl eq_refl) Hne Hpne Hp2 Hf Hexec).
  rewrite (exec_store_request h _ _ (store_clear s)) by (cbn; apply lookup_insert_eq).
  cbn. unfold store_getAll, take_limit. cbn. by destruct c as [n|]; [destruct (Z.eqb n 0); [|destruct (Z.to_nat n)]|].
Qed.

(** C27: [index(name).getAllKeys(range, limit)] with [limit > 0] (spec
    section 8): when the platform runs the request, the promise is
    fulfilled with at most [limit] keys, the primary keys of entries of
    the index that satisfy the range, in the index's natural order. *)
Theorem index_getAllKeys_settles (w : World) (t r p : nat) (h : IndexHandle) (rg : KeyRange) (n : Z) name d s ix :
  scheduled w t r (SrcIndex h) (OpGetAllKeys rg (Some n)) name d ->
  db_stores d !! sh_name (ih_store h) = Some s ->
  list_to_map (M := gmap string IndexMeta) (os_indexes s) !! ih_name h = Some ix ->
  registered w r p (LResolveResult p r) -> w_promises w !! p = Some Pending -> ids_fresh w -> (0 < n)%Z ->
  exists ks, w_promises (snd (run_request t r w)) !! p = Some (Fulfilled (PJs (JArr (map key_to_val ks)))) /\
    (length ks <= Z.to_nat n)%nat /\
    exists es, ks = map (fun e => e.1.2) es /\ StronglySorted entry_le es /\
      Forall (fun e => range_includes rg e.1.1 = true /\ In e (index_entries ix (os_records s))) es.
Proof.
  intros Hsch Hs Hix Hreg Hp Hf Hn.
  rewrite (scheduled_outcome w t r p _ _ _ _ _ Hsch Hreg (or_introl eq_refl) Hp Hf).
  rewrite (exec_index_request h _ d s ix Hs Hix). cbn [exec_index_op snd settlement success_value].
  destruct (index_getAllKeys_spec ix rg n s Hn) as [Hlen Hes]. by eexists.
Qed.

(** C23: a promisified [add(value)] without a key, on an auto-increment
    store without key path whose generator is not exhausted, is fulfilled
    with the generator's current number (the key generator steps of the
    platform, spec section 8 shop scenario). *)
Theorem add_generated_key_resolves (w : World) (t r p : nat) (h : StoreHandle) (v : JsVal) name d s :
  scheduled w t r (SrcStore h) (OpAdd v None) name d ->
  db_stores d !! sh_name h = Some s -> store_wf s -> os_autoIncrement s = true -> os_keyPath s = None ->
  (os_current s <= key_gen_max)%Z ->
  index_conflict (set_current s (os_current s + 1)) (KNum (os_current s)) v = false ->
  registered w r p (LResolveResult p r) -> w_promises w !! p = Some Pending -> ids_fresh w ->
  w_promises (snd (run_request t r w)) !! p = Some (Fulfilled (PJs (JNum (os_current s)))).
Proof.
  intros Hsch Hs Hwf Ha Hkp Hle Hic Hreg Hp Hf.
  rewrite (scheduled_outcome w t r p _ _ _ _ _ Hsch Hreg (or_introl eq_refl) Hp Hf).
  rewrite (exec_store_request h _ d s Hs). cbn [exec_store_op].
  by rewrite (store_record_generated s v Hwf Ha Hkp Hle Hic).
Qed.

(** C24: once the key generator is past 2^53, a promisified [add(value)]
    without a key is rejected with the request's error event. *)
Theorem add_generator_exhausted_rejects (w : World) (t r p : nat) (h : StoreHandle) (v : JsVal) name d s :
  scheduled w t r (SrcStore h) (OpAdd v None) name d ->
  db_stores d !! sh_name h = Some s -> os_autoIncrement s = true -> (key_gen_max < os_current s)%Z ->
  registered w r p (LResolveResult p r) -> w_promises w !! p = Some Pending -> ids_fresh w ->
  w_promises (snd (run_request t r w)) !! p = Some (Rejected (REvent (error_event r))).
Proof.
  intros Hsch Hs Ha Hgt Hreg Hp Hf.
  rewrite (scheduled_outcome w t r p _ _ _ _ _ Hsch Hreg (or_introl eq_refl) Hp Hf).
  rewrite (exec_store_request h _ d s Hs). cbn [exec_store_op].
  by rewrite (store_record_generator_exhausted s v true Ha Hgt).
Qed.

Lemma put_then_get_witness :
  w_promises (snd (run_request 1 5 (snd (run_request 1 3 demo_put_get)))) !! 4 =
  Some (Fulfilled (PJs (JStr "pen"))).
Proof.
  eapply (put_then_get demo_put_get 1 3 5 2 4 (mkStoreHandle 1 "items") (JStr "pen") (KNum 1) "shop").
  1-9: witness_goal.
  eexists. vm_compute. reflexivity.
Defined.

Lemma add_fresh_resolves_witness :
  w_promises (snd (run_request 1 3 demo_add_twice)) !! 2 = Some (Fulfilled (PJs (JNum 1))).
Proof.
  eapply (add_fresh_resolves demo_add_twice 1 3 2 (mkStoreHandle 1 "items") (JStr "pen") (KNum 1) "shop").
  all: witness_goal.
Defined.

Lemma add_existing_rejects_witness :
  w_promises (snd (run_request 1 5 (snd (run_request 1 3 demo_add_twice)))) !! 4 =
  Some (Rejected (REvent (error_event 5))).
Proof.
  eapply (add_existing_rejects _ 1 5 4 (mkStoreHandle 1 "items") (JStr "cup") (KNum 1) "shop").
  all: witness_goal.
Defined.

Lemma delete_resolves_undefined_witness :
  w_promises (snd (run_request 1 5 (snd (run_request 1 3 demo_delete_clear)))) !! 4 =
  Some (Fulfilled (PJs JUndefined)).
Proof.
  edestruct (delete_resolves_undefined (snd (run_request 1 3 demo_delete_clear)) 1 5 4
               (mkStoreHandle 1 "items") (KNum 2) "shop") as (w' & d' & s' & Hrun & Hp & _).
  all: first [rewrite Hrun; exact Hp | witness_goal].
Defined.

Lemma clear_then_getAll_witness :
  w_promises (snd (run_request 1 9 (snd (run_request 1 7 demo_delete_clear)))) !! 8 =
  Some (Fulfilled (PJs (JArr []))).
Proof.
  eapply (clear_then_getAll demo_delete_clear 1 7 9 6 8 (mkStoreHandle 1 "items") range_all None "shop").
  all: witness_goal.
Defined.

(** The index orders by name: with a limit of 1, the key of "cup" (2). *)
Lemma index_getAllKeys_settles_witness :
  w_promises (snd (run_request 1 3 demo_index_keys)) !! 2 = Some (Fulfilled (PJs (JArr [JNum 2]))) /\
  exists ks, w_promises (snd (run_request 1 3 demo_index_keys)) !! 2 = Some (Fulfilled (PJs (JArr (map key_to_val ks)))) /\
    (length ks <= 1)%nat /\
    exists es, ks = map (fun e => e.1.2) es /\ StronglySorted entry_le es /\
      Forall (fun e => range_includes range_all e.1.1 = true /\
                       In e (index_entries (mkIndex ["name"] false false) (os_records demo_indexed_store))) es.
Proof.
  split; [vm_compute; reflexivity|].
  eapply (index_getAllKeys_settles demo_index_keys 1 3 2 (mkIndexHandle (mkStoreHandle 1 "items") "by_name")
            range_all 1 "shop" _ demo_indexed_store (mkIndex ["name"] false false)).
  1-6: witness_goal.
  lia.
Defined.

Lemma add_generated_key_resolves_witness :
  w_promises (snd (run_request 1 3 demo_add_nokey)) !! 2 = Some (Fulfilled (PJs (JNum 1))).
Proof.
  eapply (add_generated_key_resolves demo_add_nokey 1 3 2 (mkStoreHandle 1 "items") (JStr "pen") "shop" _
            (new_store None true)).
  1-2: witness_goal.
  - apply new_store_wf.
  - reflexivity.
  - reflexivity.
  - vm_compute. discriminate.
  - reflexivity.
  - witness_goal.
  - witness_goal.
  - witness_goal.
Defined.

Lemma add_generator_exhausted_rejects_witness :
  w_promises (snd (run_request 1 3 demo_add_full)) !! 2 = Some (Rejected (REvent (error_event 3))).
Proof.
  eapply (add_generator_exhausted_rejects demo_add_full 1 3 2 (mkStoreHandle 1 "items") (JStr "pen") "shop" _
            (mkStore None true (key_gen_max + 1) [] [])).
  1-2: witness_goal.
  - reflexivity.
  - cbn [os_current]. lia.
  - witness_goal.
  - witness_goal.
  - witness_goal.
Defined.
