(* ===== verification/IndexOrder.v ===== *)
(** * IndexOrder: the order of an index, against a reference sort

    [Store.index_entries] builds the records of an index by inserting
    each entry (index key, primary key, value) into a sorted list
    ([Store.entry_insert]).  [index_entries_ref] is a reference for the
    same order: the same entries ([index_raw]) sorted by stdpp's
    [merge_sort] for [Store.entry_le].  On a store whose primary keys
    are sorted and distinct (the first half of [Store.store_wf]) the two
    are equal: the order of an index depends on the order alone, not on
    the routine.  End to end, [index(name).getAll(range, count)] through
    the wrapper resolves with the values in the reference order. *)

From S2P Require Import Prelude Keys Store Promise World Host Wrapper Refinement EndToEnd StoreOps.
From stdpp Require Import sorting.

Local Open Scope st_scope.

(** The entries of an index, record by record, unsorted. *)
Definition index_raw (ix : IndexMeta) (rs : list (Key * JsVal)) : list IndexEntry :=
  flat_map (fun kv => map (fun ik => (ik, kv.1, kv.2)) (index_keys ix kv.2)) rs.

#[export] Instance entry_le_dec (e1 e2 : IndexEntry) : Decision (entry_le e1 e2).
Proof. unfold entry_le. apply _. Defined.

Definition index_entries_ref (ix : IndexMeta) (rs : list (Key * JsVal)) : list IndexEntry :=
  merge_sort entry_le (index_raw ix rs).

Definition index_getAll_ref (ix : IndexMeta) (r : KeyRange) (count : option Z) (s : ObjectStore) : list JsVal :=
  map snd (take_limit count (entries_in_range r (index_entries_ref ix (os_records s)))).

(** [index("by_name").getAll()] through the wrapper on
    [EndToEnd.demo_indexed_world]: promise 2, request 3. *)
Definition demo_index_values : World :=
  snd (PromisedIndexedDbIndex_getAll (mkPIndex (mkIndexHandle (mkStoreHandle 1 "items") "by_name"))
         None None demo_indexed_world).

#[export] Instance entry_le_total : Total entry_le.
Proof.
  intros e1 e2. unfold entry_le. rewrite (entry_compare_antisym e1 e2).
  destruct (entry_compare e1 e2); [by left | by left | by right].
Qed.

#[export] Instance entry_le_transitive : Transitive entry_le.
Proof. intros e1 e2 e3. apply entry_le_trans. Qed.

Lemma entry_insert_perm (e : IndexEntry) es : entry_insert e es ≡ₚ e :: es.
Proof.
  induction es as [|e' es IH]; cbn [entry_insert]; [done|].
  destruct (entry_compare e e'); [done | done |]. rewrite IH. apply perm_swap.
Qed.

Lemma index_entries_perm (ix : IndexMeta) rs : index_entries ix rs ≡ₚ index_raw ix rs.
Proof.
  unfold index_entries, index_raw. induction (flat_map _ rs) as [|e es IH]; cbn [fold_right]; [done|].
  by rewrite entry_insert_perm, IH.
Qed.

(** Two entries each below the other have the same keys. *)
Lemma entry_le_antisym_keys (e1 e2 : IndexEntry) : entry_le e1 e2 -> entry_le e2 e1 -> e1.1 = e2.1.
Proof.
  unfold entry_le. rewrite (entry_compare_antisym e1 e2). intros H1 H2.
  destruct (entry_compare e1 e2) eqn:E; [|done | done]. unfold entry_compare in E.
  destruct (key_compare e1.1.1 e2.1.1) eqn:E1; try discriminate.
  apply key_compare_eq in E1, E. destruct e1 as [[i1 k1] v1], e2 as [[i2 k2] v2]. cbn in *. congruence.
Qed.

Lemma index_raw_record (ix : IndexMeta) rs (e : IndexEntry) : e ∈ index_raw ix rs -> In (e.1.2, e.2) rs.
Proof.
  unfold index_raw. rewrite list_elem_of_In, in_flat_map. intros ([k v] & Hin & Hm).
  apply in_map_iff in Hm as (ik & <- & _). exact Hin.
Qed.

Lemma keys_sorted_value (rs : list (Key * JsVal)) (k : Key) (v1 v2 : JsVal) :
  keys_sorted rs -> In (k, v1) rs -> In (k, v2) rs -> v1 = v2.
Proof.
  unfold keys_sorted. induction rs as [|[k' v'] rs IH]; [done|]. cbn [map].
  intros [Hs Hall]%StronglySorted_inv Hin1 Hin2. rewrite List.Forall_forall in Hall.
  assert (Hnot : forall v, In (k', v) rs -> False).
  { intros v Hv. apply (key_lt_irrefl k'), Hall, in_map_iff. by exists (k', v). }
  destruct Hin1 as [E1|Hin1], Hin2 as [E2|Hin2].
  - congruence.
  - injection E1 as <- _. by destruct (Hnot v2).
  - injection E2 as <- _. by destruct (Hnot v1).
  - exact (IH Hs Hin1 Hin2).
Qed.

(** On a store with distinct primary keys, the entries of an index are
    totally ordered by [entry_le]: two entries each below the other are
    the same entry. *)
Lemma index_raw_antisym (ix : IndexMeta) rs (e1 e2 : IndexEntry) :
  keys_sorted rs -> e1 ∈ index_raw ix rs -> e2 ∈ index_raw ix rs -> entry_le e1 e2 -> entry_le e2 e1 -> e1 = e2.
Proof.
  intros Hs H1%index_raw_record H2%index_raw_record L12 L21.
  pose proof (entry_le_antisym_keys e1 e2 L12 L21) as Hk.
  destruct e1 as [[i1 k1] v1], e2 as [[i2 k2] v2]. cbn in *. injection Hk as <- <-.
  by rewrite (keys_sorted_value rs k1 v1 v2 Hs H1 H2).
Qed.

Lemma index_entries_ref_eq (ix : IndexMeta) rs : keys_sorted rs -> index_entries ix rs = index_entries_ref ix rs.
Proof.
  intros Hs. unfold index_entries_ref. apply (StronglySorted_unique_strong entry_le).
  - intros e1 e2 H1 H2. rewrite index_entries_perm in H1. rewrite merge_sort_Permutation in H2.
    exact (index_raw_antisym ix rs e1 e2 Hs H1 H2).
  - apply index_entries_sorted.
  - apply StronglySorted_merge_sort; [apply entry_le_transitive | apply entry_le_total].
  - by rewrite index_entries_perm, merge_sort_Permutation.
Qed.

(** C28: equivalence of the index order with a reference sort.  A
    promisified [index(name).getAll(range, count)], run by the platform
    on a store with sorted distinct primary keys, is fulfilled with the
    values of the index's records in the order stdpp's [merge_sort]
    gives them for the index order (index key, then primary key). *)
Theorem index_getAll_settles_ref (w : World) (t r p : nat) (h : IndexHandle) (rg : KeyRange) (c : option Z)
    name d s ix :
  scheduled w t r (SrcIndex h) (OpGetAll rg c) name d ->
  db_stores d !! sh_name (ih_store h) = Some s -> keys_sorted (os_records s) ->
  list_to_map (M := gmap string IndexMeta) (os_indexes s) !! ih_name h = Some ix ->
  registered w r p (LResolveResult p r) -> w_promises w !! p = Some Pending -> ids_fresh w ->
  w_promises (snd (run_request t r w)) !! p = Some (Fulfilled (PJs (JArr (index_getAll_ref ix rg c s)))).
Proof.
  intros Hsch Hs Hsorted Hix Hreg Hp Hf.
  rewrite (scheduled_outcome w t r p _ _ _ _ _ Hsch Hreg (or_introl eq_refl) Hp Hf).
  rewrite (exec_index_request h _ d s ix Hs Hix). cbn [exec_index_op snd settlement success_value].
  unfold index_getAll, index_getAll_ref. by rewrite (index_entries_ref_eq ix _ Hsorted).
Qed.

(** By name: "cup" (key 2) before "pen" (key 1). *)
Lemma index_getAll_settles_ref_witness :
  w_promises (snd (run_request 1 3 demo_index_values)) !! 2 =
    Some (Fulfilled (PJs (JArr [JObj [("name", JStr "cup")]; JObj [("name", JStr "pen")]]))) /\
  w_promises (snd (run_request 1 3 demo_index_values)) !! 2 =
    Some (Fulfilled (PJs (JArr (index_getAll_ref (mkIndex ["name"] false false) range_all None demo_indexed_store)))).
Proof.
  split; [vm_compute; reflexivity|].
  eapply (index_getAll_settles_ref demo_index_values 1 3 2 (mkIndexHandle (mkStoreHandle 1 "items") "by_name")
            range_all None "shop" _ demo_indexed_store).
  - solve_scheduled.
  - vm_compute. reflexivity.
  - repeat constructor.
  - vm_compute. reflexivity.
  - solve_registered.
  - vm_compute. reflexivity.
  - solve_fresh.
Defined.
