(* ===== verification/TxLifecycle.v ===== *)
(** * TxLifecycle: what happens to a transaction around the wrapper

    The wrapper forwards [abort()] and [commit()] and never touches the
    error events of its requests (it registers no listener on the
    transaction and never calls [preventDefault]).  Two consequences are
    proved here on the platform model: a failed request of a promisified
    call aborts its whole transaction, unless a listener the client added
    with [addEventListener] cancels the error event; and [abort()] puts the
    stores of the transaction's scope back as they were before its first
    request ran (spec section 8, the abort scenario).  The file also
    holds the wrapper's other transaction methods: [dispatchEvent],
    [objectStore], the listener methods, and the creation of a
    transaction by [PromisedIndexedDb.transaction], whose native
    exceptions reach the caller synchronously (spec 4.5). *)

From S2P Require Import Prelude Keys Store Promise World Host Wrapper Refinement EndToEnd StoreOps.

Local Open Scope st_scope.

(** Some listener of type [ty] among [ls] is a client callback that
    calls [preventDefault()]. *)
Definition client_cancels (ls : list (EvType * Listener)) (ty : EvType) : bool :=
  existsb (fun e => bool_decide (e.1 = ty) && match e.2 with LClient cb => cb_cancels cb | _ => false end) ls.

(** Every listener is a callback the client added. *)
Definition client_only (ls : list (EvType * Listener)) : Prop :=
  Forall (fun e => exists cb, e.2 = LClient cb) ls.

(** [w'] is [w] with more entries in the log: all a client callback does. *)
Definition only_logged (w w' : World) : Prop :=
  exists lg, w' = mkWorld (w_promises w) (w_requests w) (w_txs w) (w_conns w) (w_objects w) (w_dbs w) (w_next w) lg.

(** The stores of [d'] are those of [snap] on [scope] and those of [cur]
    elsewhere: what an abort leaves of database [cur]. *)
Definition reverted (snap cur : Database) (scope : list string) (d' : Database) : Prop :=
  forall n, db_stores d' !! n = if decide (n ∈ scope) then db_stores snap !! n else db_stores cur !! n.

(** A client asks for the same store twice in one transaction. *)
Definition objectStore_twice (t : nat) (name : string) : JS (nat * nat) :=
  a <- PromisedIndexedDbTransaction_objectStore (mkPTx t) name ;;
  b <- PromisedIndexedDbTransaction_objectStore (mkPTx t) name ;; ret (a, b).

(** A client adds a callback to a transaction and removes it again. *)
Definition listen_then_unlisten (t : nat) (ty : TransactionEventType) (cb : ClientCb) : JS unit :=
  PromisedIndexedDbTransaction_addEventListener (mkPTx t) ty cb ;;
  PromisedIndexedDbTransaction_removeEventListener (mkPTx t) ty cb.

(** [items.add("pen", 1); items.add("cup", 1)] with a client callback on
    the transaction's 'error' that does not cancel it. *)
Definition demo_add_twice_listened : World :=
  snd (PromisedIndexedDbTransaction_addEventListener (mkPTx 1) TEError (mkCb 5 false) demo_add_twice).

(** Client callbacks run in order; they only log, and the result says
    whether one of those of the event's type cancelled it. *)
Lemma dispatch_clients ls (ev : Event) (w : World) :
  client_only ls ->
  exists w', only_logged w w' /\ dispatch_listeners ls ev w = (Normal (client_cancels ls (ev_type ev), false), w').
Proof.
  intros Hc. revert w. induction Hc as [|[ty l] ls [cb Hcb] _ IH]; intros w.
  { exists w. split; [exists (w_log w); by destruct w | done]. }
  cbn [fst snd] in Hcb. subst l. cbn [dispatch_listeners client_cancels existsb fst snd].
  case_bool_decide as Hty.
  - cbv [st_catch st_bind st_ret st_modify run_listener].
    destruct (IH (log_entry (LogClient cb ev) w)) as (w' & [lg ->] & ->). exists (mkWorld (w_promises w)
      (w_requests w) (w_txs w) (w_conns w) (w_objects w) (w_dbs w) (w_next w) lg).
    split; [by eexists | reflexivity].
  - rewrite st_bind_ret_run. destruct (IH w) as (w' & Hw & Hd). rewrite (st_bind_run_normal _ _ _ _ _ Hd).
    exists w'. split; [done | reflexivity].
Qed.

(** 'error' of a request of a promisified call: the wrapper rejects the
    promise, and client callbacks on the transaction and the connection
    that do not cancel it leave the event uncancelled. *)
Lemma dispatch_error_path (W : World) (t r p c : nat) (l : Listener) rq tx cn :
  w_requests W !! r = Some rq -> rq_listeners rq = [(EvSuccess, l); (EvError, LReject p)] ->
  w_txs W !! t = Some tx -> client_only (tx_listeners tx) -> client_cancels (tx_listeners tx) EvError = false ->
  w_conns W !! c = Some cn -> client_only (conn_listeners cn) -> client_cancels (conn_listeners cn) EvError = false ->
  exists W', only_logged (set_promises (promise_reject p (REvent (error_event r))) W) W' /\
    dispatch_path [TRequest r; TTx t; TConn c] (error_event r) W = (Normal (false, false), W').
Proof.
  intros Hr Hl Htx Htc Htl Hcn Hcc Hcl. cbn [dispatch_path]. rewrite st_bind_get_run, (listeners_of_request W r rq Hr), Hl.
  rewrite (st_bind_run_normal _ _ _ _ _ (wrapper_listeners_error W r p l (error_event r) eq_refl)).
  rewrite st_bind_assoc, st_bind_get_run. cbn [listeners_of set_promises w_txs]. rewrite Htx. cbn [default fmap option_fmap option_map].
  destruct (dispatch_clients _ (error_event r) (set_promises (promise_reject p (REvent (error_event r))) W) Htc)
    as (W2 & [lg ->] & Hd2).
  cbv [id]. rewrite st_bind_assoc, (st_bind_run_normal _ _ _ _ _ Hd2), !st_bind_assoc, st_bind_get_run. cbn [listeners_of w_conns set_promises]. rewrite Hcn.
  cbn [default fmap option_fmap option_map].
  cbv [id]. rewrite st_bind_assoc. match goal with |- context [st_bind (dispatch_listeners _ _) _ ?W2] =>
    destruct (dispatch_clients _ (error_event r) W2 Hcc) as (W3 & [lg' ->] & Hd3) end.
  rewrite (st_bind_run_normal _ _ _ _ _ Hd3). cbn [ev_type error_event] in *. rewrite Htl, Hcl.
  eexists. split; [by eexists | reflexivity].
Qed.

Lemma run_request_failed (w : World) (t r p : nat) (l : Listener) tx cn d rq d' e :
  w_txs w !! t = Some tx -> w_conns w !! tx_conn tx = Some cn -> w_dbs w !! conn_name cn = Some d ->
  w_requests w !! r = Some rq -> rq_listeners rq = [(EvSuccess, l); (EvError, LReject p)] ->
  exec_request (rq_source rq) (rq_op rq) d = (d', Failed e) ->
  tx_state tx = TxInactive ->
  client_only (tx_listeners tx) -> client_cancels (tx_listeners tx) EvError = false ->
  client_only (conn_listeners cn) -> client_cancels (conn_listeners cn) EvError = false ->
  exists w' tx', run_request t r w = (Normal tt, w') /\
    w_txs w' !! t = Some tx' /\ tx_state tx' = TxAborting /\ tx_aborted tx' = true.
Proof.
  intros Htx Hcn Hd Hr Hl Hexec Hst Htc Htl Hcc Hcl. unfold run_request.
  rewrite (st_bind_run_normal _ _ _ _ _ (get_tx_run _ _ _ Htx)).
  rewrite (st_bind_run_normal _ _ _ _ _ (get_conn_run _ _ _ Hcn)).
  rewrite (st_bind_run_normal _ _ _ _ _ (get_db_run _ _ _ Hd)).
  rewrite st_bind_get_run, Hr, Hexec.
  unfold update_tx, complete_request, update_request. run_st.
  set (W3 := set_requests _ _).
  set (f := fun tx : Transaction => mkTx _ _ _ _ _ _ _ _ _) in W3.
  assert (Htx3 : w_txs W3 !! t = Some (f tx)) by (cbn; by rewrite lookup_alter_eq, Htx).
  destruct (dispatch_error_path W3 t r p (tx_conn tx) l _ (f tx) cn
             (complete_request_lookup _ _ (Failed e) _ Hr) Hl Htx3 Htc Htl Hcn Hcc Hcl) as (W4 & [lg ->] & Hd4).
  rewrite (st_bind_run_normal _ _ _ _ _ Hd4). set (W4 := mkWorld _ _ _ _ _ _ _ lg).
  assert (Hact : tx_state (f tx) = TxActive) by (cbn; by rewrite Hst, bool_decide_true).
  rewrite (st_bind_run_normal _ _ _ _ _ (get_tx_run W4 t _ Htx3)).
  unfold is_active, is_finished. rewrite Hact. cbn [fst snd orb negb andb].
  rewrite bool_decide_true by done. rewrite !bool_decide_false by done. cbn [negb orb].
  run_st. set (W5 := set_txs _ W4).
  assert (Htx5 : w_txs W5 !! t = Some (with_state TxInactive (f tx))).
  { change (alter (with_state TxInactive) t (w_txs W3) !! t = Some (with_state TxInactive (f tx))).
    by rewrite lookup_alter_eq, Htx3. }
  assert (Hcn5 : w_conns W5 !! tx_conn (with_state TxInactive (f tx)) = Some cn) by exact Hcn.
  assert (Hd5 : w_dbs W5 !! conn_name cn = Some d') by (cbn; apply lookup_insert_eq).
  unfold abort_tx.
  rewrite (st_bind_run_normal _ _ _ _ _ (get_tx_run W5 t _ Htx5)).
  rewrite (st_bind_run_normal _ _ _ _ _ (get_conn_run W5 _ _ Hcn5)).
  cbn [tx_snapshot with_state f]. rewrite st_bind_assoc.
  rewrite (st_bind_run_normal _ _ _ _ _ (get_db_run W5 _ _ Hd5)).
  run_st. eexists _, _. split; [reflexivity|].
  cbn [set_txs set_db set_dbs w_txs]. rewrite lookup_alter_eq.
  rewrite Htx5. by eexists.
Qed.

Lemma revert_scope_lookup (snap cur : Database) (scope : list string) (n : string) :
  db_stores (revert_scope snap cur scope) !! n =
  if decide (n ∈ scope) then db_stores snap !! n else db_stores cur !! n.
Proof.
  unfold revert_scope. cbn [db_stores]. induction scope as [|m scope IH]; cbn [fold_right].
  - rewrite decide_False; [done | apply not_elem_of_nil].
  - destruct (decide (n = m)) as [->|Hne].
    + rewrite decide_True by (apply elem_of_cons; by left).
      destruct (db_stores snap !! m) eqn:E; [by rewrite lookup_insert_eq | by rewrite lookup_delete_eq].
    + destruct (db_stores snap !! m);
        [rewrite lookup_insert_ne by done | rewrite lookup_delete_ne by done]; rewrite IH;
        (destruct (decide (n ∈ scope)) as [Hin|Hin];
         [rewrite decide_True by (apply elem_of_cons; by right)
         | rewrite decide_False by (rewrite elem_of_cons; intuition)]); done.
Qed.

(** C29: a failed request of a promisified call rejects the call's promise
    and, since the wrapper never cancels the error event, aborts the
    whole transaction unless a callback of the client on the transaction
    or the connection cancels it: with only client callbacks there, none
    of which calls [preventDefault()] on 'error', the transaction is
    aborting after the request ran. *)
Theorem request_error_aborts_tx (w : World) (t r p : nat) (l : Listener) tx cn d rq d' e :
  w_txs w !! t = Some tx -> w_conns w !! tx_conn tx = Some cn -> w_dbs w !! conn_name cn = Some d ->
  w_requests w !! r = Some rq -> registered w r p l -> success_listener p r l ->
  w_promises w !! p = Some Pending -> ids_fresh w ->
  exec_request (rq_source rq) (rq_op rq) d = (d', Failed e) -> tx_state tx = TxInactive ->
  client_only (tx_listeners tx) -> client_cancels (tx_listeners tx) EvError = false ->
  client_only (conn_listeners cn) -> client_cancels (conn_listeners cn) EvError = false ->
  w_promises (snd (run_request t r w)) !! p = Some (Rejected (REvent (error_event r))) /\
  exists tx', w_txs (snd (run_request t r w)) !! t = Some tx' /\ tx_state tx' = TxAborting.
Proof.
  intros Htx Hcn Hd Hr Hreg Hs Hp Hf Hexec Hst Htc Htl Hcc Hcl. split.
  - rewrite (run_request_outcome w t r p l tx cn d rq Htx Hcn Hd Hr Hreg Hs Hp Hf). by rewrite Hexec.
  - destruct Hreg as (rq' & Hr' & Hl). rewrite Hr in Hr'. injection Hr' as <-.
    destruct (run_request_failed w t r p l tx cn d rq d' e Htx Hcn Hd Hr Hl Hexec Hst Htc Htl Hcc Hcl)
      as (w' & tx' & Hrun & Htx' & Hab & _).
    rewrite Hrun. by exists tx'.
Qed.

(** The second [add] at key 1 fails; the client's callback on 'error'
    runs and does not cancel, and the transaction aborts. *)
Lemma request_error_aborts_tx_witness :
  w_promises (snd (run_request 1 5 (snd (run_request 1 3 demo_add_twice_listened)))) !! 4 =
    Some (Rejected (REvent (error_event 5))) /\
  exists tx', w_txs (snd (run_request 1 5 (snd (run_request 1 3 demo_add_twice_listened)))) !! 1 = Some tx' /\
    tx_state tx' = TxAborting.
Proof.
  eapply (request_error_aborts_tx _ 1 5 4 (LResolveResult 4 5)).
  1-4: vm_compute; reflexivity.
  - solve_registered.
  - by left.
  - vm_compute. reflexivity.
  - solve_fresh.
  - vm_compute. reflexivity.
  - vm_compute. reflexivity.
  - vm_compute. repeat constructor. by eexists.
  - vm_compute. reflexivity.
  - vm_compute. constructor.
  - vm_compute. reflexivity.
Defined.

(** C30: [abort()] through the wrapper on a read-write or read-only
    transaction that has run a request: every store of its scope is put
    back as it was before the first request ran, every other store stays,
    and the transaction is aborting (spec 4.4 and the abort scenario of
    section 8). *)
Theorem abort_reverts (w : World) (t : nat) tx cn d snap :
  w_txs w !! t = Some tx -> w_conns w !! tx_conn tx = Some cn -> w_dbs w !! conn_name cn = Some d ->
  tx_snapshot tx = Some snap -> tx_mode tx <> VersionChange ->
  tx_state tx <> TxCommitting -> tx_state tx <> TxFinished -> tx_state tx <> TxAborting ->
  exists w' d', PromisedIndexedDbTransaction_abort (mkPTx t) w = (Normal tt, w') /\
    w_dbs w' !! conn_name cn = Some d' /\ reverted snap d (tx_scope tx) d' /\
    exists tx', w_txs w' !! t = Some tx' /\ tx_state tx' = TxAborting.
Proof.
  intros Htx Hcn Hd Hsnap Hmode Hc Hfin Hab.
  unfold PromisedIndexedDbTransaction_abort. cbn [IDBTransaction_abort platform transaction].
  unfold tx_abort. rewrite (st_bind_run_normal _ _ _ _ _ (get_tx_run _ _ _ Htx)).
  unfold require, is_finished. rewrite !bool_decide_false by done. cbn [negb andb orb].
  rewrite st_bind_ret_run. unfold abort_tx.
  rewrite (st_bind_run_normal _ _ _ _ _ (get_tx_run _ _ _ Htx)).
  rewrite (st_bind_run_normal _ _ _ _ _ (get_conn_run _ _ _ Hcn)).
  rewrite Hsnap, st_bind_assoc, (st_bind_run_normal _ _ _ _ _ (get_db_run _ _ _ Hd)).
  rewrite bool_decide_false by done. unfold update_tx. run_st.
  eexists _, _. split; [reflexivity|]. split_and!.
  - cbn. apply lookup_insert_eq.
  - intros n. apply revert_scope_lookup.
  - cbn. rewrite lookup_alter_eq, Htx. by eexists.
Qed.

(** After [items.put("pen", 1)] ran, [abort()] leaves "items" empty. *)
Lemma abort_reverts_witness :
  exists w' d', PromisedIndexedDbTransaction_abort (mkPTx 1) (snd (run_request 1 3 demo_put_get)) = (Normal tt, w') /\
    w_dbs w' !! "shop" = Some d' /\ db_stores d' !! "items" = Some (new_store None true).
Proof.
  set (W := snd (run_request 1 3 demo_put_get)).
  set (tx := default (mkTx 0 [] ReadOnly TxActive [] None false None []) (w_txs W !! 1)).
  destruct (abort_reverts W 1 tx (default (mkConn "" 0 false []) (w_conns W !! 0))
              (default (mkDb 0 ∅) (w_dbs W !! "shop")) (default (mkDb 0 ∅) (tx_snapshot tx)))
    as (w' & d' & Hrun & Hd' & Hst & _); try (vm_compute; reflexivity); try (vm_compute; discriminate).
  exists w', d'. split_and!; [exact Hrun | exact Hd' |]. rewrite Hst. vm_compute. reflexivity.
Defined.



(** Wrappers are not cached (spec section 3): [objectStore(name)]
    called twice on the same transaction returns two distinct wrapper
    objects, each around the same store handle. *)
Theorem objectStore_fresh_wrappers (w : World) (t : nat) tx (name : string) :
  w_txs w !! t = Some tx -> is_finished tx = false -> name ∈ tx_scope tx ->
  exists i1 i2 w2, objectStore_twice t name w = (Normal (i1, i2), w2) /\
    i1 <> i2 /\
    w_objects w2 !! i1 = Some (OStore (mkPStore (mkStoreHandle t name))) /\
    w_objects w2 !! i2 = Some (OStore (mkPStore (mkStoreHandle t name))).
Proof.
  intros Htx Hfin Hin.
  assert (Hos : forall w', w_txs w' = w_txs w ->
            PromisedIndexedDbTransaction_objectStore (mkPTx t) name w' =
            (Normal (w_next w'), set_objects (insert (w_next w') (OStore (mkPStore (mkStoreHandle t name))))
                                    (bump_next w'))).
  { intros w' Hw'. unfold PromisedIndexedDbTransaction_objectStore. cbn [IDBTransaction_objectStore platform transaction].
    unfold tx_objectStore. rewrite st_bind_assoc, (st_bind_run_normal _ _ _ _ _ (get_tx_run w' t tx ltac:(by rewrite Hw'))).
    unfold require. rewrite Hfin, bool_decide_true by done. reflexivity. }
  eexists _, _, _. split.
  { unfold objectStore_twice. erewrite st_bind_run_normal; [|apply Hos; reflexivity].
    erewrite st_bind_run_normal; [|apply Hos; reflexivity]. reflexivity. }
  cbn. split_and!.
  - lia.
  - rewrite lookup_insert_ne by lia. apply lookup_insert_eq.
  - apply lookup_insert_eq.
Qed.

Lemma filter_none {A} (f : A -> bool) (l : list A) :
  existsb f l = false -> List.filter (fun x => negb (f x)) l = l.
Proof.
  induction l as [|x l IH]; cbn; [done|]. intros [-> Hl]%orb_false_iff. cbn. by rewrite IH.
Qed.

(** C32: [removeEventListener] undoes [addEventListener] (spec 4.4): when
    the callback was not yet registered for that event type, adding then
    removing it leaves the transaction's listeners as they were. *)
Theorem add_remove_listener_roundtrip (w : World) (t : nat) tx (ty : TransactionEventType) (cb : ClientCb) :
  w_txs w !! t = Some tx ->
  existsb (fun e => bool_decide (e.1 = event_type_of ty) && same_listener e.2 (LClient cb)) (tx_listeners tx) = false ->
  listeners_of (snd (listen_then_unlisten t ty cb w)) (TTx t) = tx_listeners tx.
Proof.
  intros Htx Hnot. unfold listen_then_unlisten, PromisedIndexedDbTransaction_addEventListener, PromisedIndexedDbTransaction_removeEventListener,
    add_listener, remove_listener. rewrite st_bind_modify_run. cbn. rewrite !lookup_alter_eq, Htx. cbn.
  rewrite Hnot, List.filter_app, (filter_none _ _ Hnot). cbn [List.filter fst snd same_listener].
  by rewrite !bool_decide_true, app_nil_r.
Qed.

Lemma objectStore_fresh_wrappers_witness :
  exists i1 i2 w2, objectStore_twice 1 "items" demo_world = (Normal (i1, i2), w2) /\
    i1 <> i2 /\
    w_objects w2 !! i1 = Some (OStore (mkPStore (mkStoreHandle 1 "items"))) /\
    w_objects w2 !! i2 = Some (OStore (mkPStore (mkStoreHandle 1 "items"))).
Proof.
  apply (objectStore_fresh_wrappers demo_world 1 (mkTx 0 ["items"] ReadWrite TxActive [] None false None [])).
  - vm_compute. reflexivity.
  - reflexivity.
  - apply (bool_decide_unpack _). vm_compute. exact I.
Defined.

Lemma add_remove_listener_roundtrip_witness :
  listeners_of (snd (listen_then_unlisten 1 TEError (mkCb 5 true) demo_world)) (TTx 1) = [].
Proof.
  apply (add_remove_listener_roundtrip demo_world 1 (mkTx 0 ["items"] ReadWrite TxActive [] None false None [])).
  - vm_compute. reflexivity.
  - reflexivity.
Defined.

(** ** [db.transaction(names, mode)] *)

Lemma elem_of_insert_name (x n : string) (ns : list string) : x ∈ insert_name n ns <-> x = n \/ x ∈ ns.
Proof.
  induction ns as [|m ns IH]; cbn [insert_name].
  - rewrite list_elem_of_singleton, elem_of_nil. tauto.
  - destruct (String.compare n m) eqn:E; rewrite ?elem_of_cons, ?IH; [|tauto|tauto].
    apply String.compare_eq_iff in E as ->. tauto.
Qed.

Lemma elem_of_sorted_names (x : string) (ns : list string) : x ∈ sorted_names ns <-> x ∈ ns.
Proof.
  unfold sorted_names. induction ns as [|n ns IH]; cbn [fold_right]; [done|].
  rewrite elem_of_insert_name, IH, elem_of_cons. tauto.
Qed.

(** C33: [db.transaction(names, mode)] through the wrapper (spec 4.5): on
    an open connection with no upgrade running, when every named store
    exists, at least one is named and the mode is not "versionchange",
    it returns a new [PromisedIndexedDbTransaction] object around a new
    transaction that is active, has no request, has the sorted distinct
    names as its scope and the given mode ("readonly" by default). *)
Theorem transaction_creates_active (w : World) (c : nat) (cn : Connection) (d : Database)
    (names : NamesArg) (mode : option TxMode) (o : IDBTransactionOptions) :
  w_conns w !! c = Some cn -> conn_closed cn = false -> upgrade_running w c = false ->
  w_dbs w !! conn_name cn = Some d ->
  Forall (fun n => is_Some (db_stores d !! n)) (names_list names) -> names_list names <> [] ->
  mode <> Some VersionChange ->
  exists obj w', PromisedIndexedDb_transaction (mkPDb c) names mode o w = (Normal obj, w') /\
    w_objects w' !! obj = Some (OTx (mkPTx (w_next w))) /\
    w_txs w' !! w_next w = Some (mkTx c (sorted_names (names_list names)) (default ReadOnly mode) TxActive [] None false None []).
Proof.
  intros Hc Hclosed Hup Hd Hall Hne Hmode.
  assert (Hf : forallb (fun n => bool_decide (is_Some (db_stores d !! n))) (sorted_names (names_list names)) = true).
  { apply forallb_forall. intros n Hn. rewrite <- list_elem_of_In, elem_of_sorted_names in Hn. apply bool_decide_eq_true.
    rewrite Forall_forall in Hall. by apply Hall. }
  assert (Hs : bool_decide (sorted_names (names_list names) = []) = false).
  { apply bool_decide_eq_false. destruct (names_list names) as [|n ns]; [done|].
    intros E. assert (Hn : n ∈ sorted_names (n :: ns)) by (rewrite elem_of_sorted_names, elem_of_cons; by left). rewrite E in Hn. by apply not_elem_of_nil in Hn. }
  unfold PromisedIndexedDb_transaction. cbn [IDBDatabase_transaction platform db].
  unfold db_transaction, get_conn, get_db, require, alloc_object, fresh.
  cbv [st_bind st_get st_ret st_modify st_throw]. rewrite Hc, Hup, Hclosed. cbn [negb]. rewrite Hd, Hf, Hs. cbn [negb].
  destruct mode as [[]|]; [| |done|]; do 2 eexists; split_and!; try reflexivity; cbn; by rewrite lookup_insert_eq.
Qed.

(** C34: the wrapper's [transaction()] is not promisified: when a named
    store does not exist, the native [NotFoundError] propagates to the
    caller synchronously, and nothing is created (no transaction, no
    wrapper object). *)
Theorem transaction_missing_store_throws (w : World) (c : nat) (cn : Connection) (d : Database)
    (names : NamesArg) (mode : option TxMode) (o : IDBTransactionOptions) (n : string) :
  w_conns w !! c = Some cn -> conn_closed cn = false -> upgrade_running w c = false ->
  w_dbs w !! conn_name cn = Some d -> n ∈ names_list names -> db_stores d !! n = None ->
  PromisedIndexedDb_transaction (mkPDb c) names mode o w = (Throw NotFoundError, w).
Proof.
  intros Hc Hclosed Hup Hd Hn Hmiss.
  assert (Hf : forallb (fun n => bool_decide (is_Some (db_stores d !! n))) (sorted_names (names_list names)) = false).
  { apply not_true_iff_false. intros Hall. apply forallb_forall with (x := n) in Hall.
    - apply bool_decide_eq_true in Hall. rewrite Hmiss in Hall. by destruct Hall.
    - by rewrite <- list_elem_of_In, elem_of_sorted_names. }
  unfold PromisedIndexedDb_transaction. cbn [IDBDatabase_transaction platform db].
  unfold db_transaction, get_conn, get_db, require.
  cbv [st_bind st_get st_ret st_modify st_throw]. rewrite Hc, Hup, Hclosed. cbn [negb]. by rewrite Hd, Hf.
Qed.

Lemma transaction_creates_active_witness :
  exists obj w', PromisedIndexedDb_transaction (mkPDb 0) (NameOne "items") None None demo_world = (Normal obj, w') /\
    w_objects w' !! obj = Some (OTx (mkPTx 2)) /\
    w_txs w' !! 2 = Some (mkTx 0 ["items"] ReadOnly TxActive [] None false None []).
Proof.
  apply (transaction_creates_active demo_world 0 (mkConn "shop" 1 false []) (mkDb 1 {["items" := new_store None true]})).
  - reflexivity.
  - reflexivity.
  - vm_compute. reflexivity.
  - reflexivity.
  - constructor; [eexists; reflexivity | constructor].
  - discriminate.
  - discriminate.
Defined.

Lemma transaction_missing_store_throws_witness :
  PromisedIndexedDb_transaction (mkPDb 0) (NameMany ["items"; "toys"]) (Some ReadWrite) None demo_world =
    (Throw NotFoundError, demo_world).
Proof.
  apply (transaction_missing_store_throws demo_world 0 (mkConn "shop" 1 false []) (mkDb 1 {["items" := new_store None true]})
           _ _ _ "toys").
  - reflexivity.
  - reflexivity.
  - vm_compute. reflexivity.
  - reflexivity.
  - right. left.
  - reflexivity.
Defined.
