(* ===== verification/Open.v ===== *)
(** * Open: the contract of [openDatabase] (spec 4.6)

    [openDatabase] is the one promisified call that is not
    [request_promise]: its executor opens the database and registers four
    listeners on the open request ('success', 'error', 'upgradeneeded',
    and 'blocked' when a blocked callback is given).  The theorems are
    about each of these listeners when the platform fires its event at
    the open request: 'success' fulfils the promise with a new
    [PromisedIndexedDb] around the opened connection; 'error' rejects it
    with the event; 'upgradeneeded' runs the migration exactly once with
    the old and new versions and settles nothing; 'blocked' calls the
    blocked callback, when there is one, and settles nothing. *)

From S2P Require Import Prelude Keys Store Promise World Host Wrapper Refinement.

Local Open Scope st_scope.

(** The listeners [openDatabase] registers on its open request. *)
Definition blocked_listener (b : option nat) : list (EvType * Listener) :=
  match b with Some b => [(EvBlocked, LBlocked b)] | None => [] end.

Definition open_listeners (p : nat) (m : Migration) (b : option nat) : list (EvType * Listener) :=
  [(EvSuccess, LOpenSuccess p); (EvError, LReject p); (EvUpgradeNeeded, LUpgrade m)] ++ blocked_listener b.

Definition open_registered (w : World) (r p : nat) (m : Migration) (b : option nat) : Prop :=
  exists rq, w_requests w !! r = Some rq /\ rq_listeners rq = open_listeners p m b.

(** A migration creating the auto-increment store "items", and the
    world after [openDatabase("shop", 1, migration, blocked)] with the
    blocked callback 9, on the empty world: promise 0, open request 1.
    [demo_open_conn] is that world once the platform has opened
    connection 2 for the request. *)
Definition demo_migration : Migration := mkMigration 7 (fun _ _ => [CreateObjectStore "items" None true]).

Definition demo_open : World := snd (openDatabase "shop" 1 demo_migration (Some 9) empty_world).

Definition demo_open_conn : World :=
  snd ((c <- new_connection "shop" 1 ;;
        update_request 1 (fun rq => mkRequest (rq_source rq) (rq_op rq) true JUndefined (Some c) None
                                      (rq_blocked rq) (rq_listeners rq))) demo_open).

Lemma run_schema_frame (c : nat) cmds (w w' : World) o :
  run_schema c cmds w = (o, w') -> w_log w' = w_log w /\ w_promises w' = w_promises w.
Proof.
  revert w. induction cmds as [|cmd cmds IH]; intros w; cbn [run_schema].
  - by intros [= _ <-].
  - rewrite st_bind_get_run. destruct (w_conns w !! c) as [cn|]; [|by intros [= _ <-]].
    destruct (w_dbs w !! conn_name cn) as [d|]; [|by intros [= _ <-]].
    destruct (schema_step d cmd) as [d'|e]; [|by intros [= _ <-]].
    rewrite st_bind_modify_run. intros Hrun. by destruct (IH _ Hrun) as [-> ->].
Qed.

Lemma run_open_success (w : World) (p c : nat) (ev : Event) :
  request_conn w (ev_target ev) = Some c ->
  run_listener (LOpenSuccess p) ev w =
  (Normal false, set_promises (promise_resolve p (PObj (w_next w)))
                   (set_objects (insert (w_next w) (ODb (mkPDb c))) (bump_next w))).
Proof. intros Hc. cbn [run_listener]. rewrite st_bind_get_run, Hc. reflexivity. Qed.

(** Dispatch at the open request is the dispatch of its listeners. *)
Lemma dispatch_open (w : World) (r p : nat) m b (ev : Event) o w' :
  open_registered w r p m b -> dispatch_path [TRequest r] ev w = (o, w') ->
  exists fl, dispatch_listeners (open_listeners p m b) ev w = (Normal fl, w') /\ o = Normal (fl.1 || false, fl.2 || false).
Proof.
  intros (rq & Hr & Hl). cbn [dispatch_path]. rewrite st_bind_get_run, (listeners_of_request w r rq Hr), Hl.
  destruct (dispatch_listeners_normal (open_listeners p m b) ev w) as (fl & w1 & Hd).
  rewrite (st_bind_run_normal _ _ _ _ _ Hd). intros [= <- <-]. by exists fl.
Qed.

Ltac types_differ := repeat constructor; cbn; congruence.

(** C17: 'success' at the open request fulfils the promise of
    [openDatabase] with a new [PromisedIndexedDb] object whose handle is
    the opened connection. *)
Theorem open_success_resolves (w w' : World) (r p c : nat) m b (ev : Event) o :
  open_registered w r p m b -> ev_type ev = EvSuccess -> ev_target ev = TRequest r ->
  request_conn w (TRequest r) = Some c -> w_promises w !! p = Some Pending ->
  dispatch_path [TRequest r] ev w = (o, w') ->
  exists obj, w_promises w' !! p = Some (Fulfilled (PObj obj)) /\ w_objects w' !! obj = Some (ODb (mkPDb c)).
Proof.
  intros Hreg Hty Htg Hc Hp Hrun. destruct (dispatch_open _ _ _ _ _ _ _ _ Hreg Hrun) as (fl & Hd & _).
  rewrite <- Htg in Hc.
  rewrite (dispatch_listeners_one [] EvSuccess (LOpenSuccess p)
             ((EvError, LReject p) :: (EvUpgradeNeeded, LUpgrade m) :: blocked_listener b) ev w _ _ (List.Forall_nil _) (eq_sym Hty)
             ltac:(destruct b; rewrite Hty; types_differ) (run_open_success w p c ev Hc)
           : dispatch_listeners (open_listeners p m b) ev w = _) in Hd.
  injection Hd as _ <-. exists (w_next w). split.
  - by apply promise_resolve_pending.
  - apply lookup_insert_eq.
Qed.

(** C18: 'error' at the open request rejects the promise of
    [openDatabase] with the error event, unmodified. *)
Theorem open_error_rejects (w w' : World) (r p : nat) m b (ev : Event) o :
  open_registered w r p m b -> ev_type ev = EvError -> w_promises w !! p = Some Pending ->
  dispatch_path [TRequest r] ev w = (o, w') ->
  w_promises w' !! p = Some (Rejected (REvent ev)).
Proof.
  intros Hreg Hty Hp Hrun. destruct (dispatch_open _ _ _ _ _ _ _ _ Hreg Hrun) as (fl & Hd & _).
  rewrite (dispatch_listeners_one [(EvSuccess, LOpenSuccess p)] EvError (LReject p)
             ((EvUpgradeNeeded, LUpgrade m) :: blocked_listener b) ev w _ (Normal false)
             ltac:(rewrite Hty; types_differ) (eq_sym Hty) ltac:(destruct b; rewrite Hty; types_differ)
             eq_refl : dispatch_listeners (open_listeners p m b) ev w = _) in Hd.
  injection Hd as _ <-. by apply promise_reject_pending.
Qed.

(** C19: 'upgradeneeded' at the open request calls the migration exactly
    once, with the connection and the event's old and new versions, and
    neither fulfils nor rejects any promise. *)
Theorem open_upgrade_runs_migration (w w' : World) (r p c : nat) m b (ev : Event) o :
  open_registered w r p m b -> ev_type ev = EvUpgradeNeeded -> ev_target ev = TRequest r ->
  request_conn w (TRequest r) = Some c ->
  dispatch_path [TRequest r] ev w = (o, w') ->
  w_log w' = w_log w ++ [LogMigration (mig_id m) c (ev_oldVersion ev) (ev_newVersion ev)] /\
  w_promises w' = w_promises w.
Proof.
  intros Hreg Hty Htg Hc Hrun. destruct (dispatch_open _ _ _ _ _ _ _ _ Hreg Hrun) as (fl & Hd & _).
  rewrite <- Htg in Hc.
  set (w1 := log_entry (LogMigration (mig_id m) c (ev_oldVersion ev) (ev_newVersion ev)) w).
  destruct (run_schema c (mig_body m (ev_oldVersion ev) (ev_newVersion ev)) w1) as [o2 w2] eqn:Hs.
  assert (Hl : run_listener (LUpgrade m) ev w = (match o2 with Normal _ => Normal false | Throw e => Throw e end, w2)).
  { cbn [run_listener]. rewrite st_bind_get_run, Hc, st_bind_modify_run. fold w1.
    unfold st_bind at 1. rewrite Hs. by destruct o2. }
  rewrite (dispatch_listeners_one [(EvSuccess, LOpenSuccess p); (EvError, LReject p)] EvUpgradeNeeded (LUpgrade m)
             (blocked_listener b) ev w _ _ ltac:(rewrite Hty; types_differ) (eq_sym Hty) ltac:(destruct b; rewrite Hty; types_differ)
             Hl : dispatch_listeners (open_listeners p m b) ev w = _) in Hd.
  injection Hd as _ <-. by destruct (run_schema_frame _ _ _ _ _ Hs) as [-> ->].
Qed.

(** C20: 'blocked' at the open request calls the blocked callback with the
    event's old and new versions when one was given, does nothing when
    none was, and in both cases neither fulfils nor rejects any promise:
    the open stays pending. *)
Theorem open_blocked_callback (w w' : World) (r p : nat) m b (ev : Event) o :
  open_registered w r p m b -> ev_type ev = EvBlocked ->
  dispatch_path [TRequest r] ev w = (o, w') ->
  w_log w' = w_log w ++ match b with
                        | Some b => [LogBlocked b (ev_oldVersion ev) (ev_newVersion ev)]
                        | None => []
                        end /\
  w_promises w' = w_promises w.
Proof.
  intros Hreg Hty Hrun. destruct (dispatch_open _ _ _ _ _ _ _ _ Hreg Hrun) as (fl & Hd & _).
  unfold open_listeners, blocked_listener in Hd. destruct b as [b|].
  - rewrite (dispatch_listeners_one [(EvSuccess, LOpenSuccess p); (EvError, LReject p); (EvUpgradeNeeded, LUpgrade m)]
               EvBlocked (LBlocked b) [] ev w _ (Normal false)
               ltac:(rewrite Hty; types_differ) (eq_sym Hty) (List.Forall_nil _) eq_refl) in Hd.
    by injection Hd as _ <-.
  - rewrite app_nil_r, dispatch_listeners_skip in Hd by (rewrite Hty; types_differ).
    injection Hd as _ <-. by rewrite app_nil_r.
Qed.

Section OpenCall.
Context `{H : IdbHost} `{HL : !IdbHostLaws H}.
Lemma openDatabase_run_normal (name : string) (version : Z) m b (w w2 : World) (r : nat) :
  IDBFactory_open name version (alloc_world w) = (Normal r, w2) ->
  openDatabase name version m b w =
  (Normal (w_next w), snd ((add_listener (TRequest r) EvSuccess (LOpenSuccess (w_next w)) ;;
                           add_listener (TRequest r) EvError (LReject (w_next w)) ;;
                           add_listener (TRequest r) EvUpgradeNeeded (LUpgrade m) ;;
                           match b with
                           | Some b => add_listener (TRequest r) EvBlocked (LBlocked b)
                           | None => ret tt
                           end) w2)).
Proof.
  intros Hcall. unfold openDatabase, new_promise. rewrite alloc_world_run.
  erewrite st_bind_run_normal; [reflexivity|].
  erewrite st_catch_run_normal; [reflexivity|]. rewrite (st_bind_run_normal _ _ _ _ _ Hcall).
  destruct b; reflexivity.
Qed.

Lemma openDatabase_run_throw (name : string) (version : Z) m b (w w2 : World) (e : ErrorName) :
  IDBFactory_open name version (alloc_world w) = (Throw e, w2) ->
  openDatabase name version m b w = (Normal (w_next w), set_promises (promise_reject (w_next w) (RThrown e)) w2).
Proof.
  intros Hcall. unfold openDatabase, new_promise. rewrite alloc_world_run.
  erewrite st_bind_run_normal; [reflexivity|].
  erewrite st_catch_run_throw; [reflexivity|]. by apply st_bind_run_throw.
Qed.

(** C11: [openDatabase] never throws: it returns a new promise in every
    case.  When the native [indexedDB.open] throws (a version outside
    [1, 2^53 - 1] gives a TypeError), that promise is rejected with the
    exception.  When the native open returns its request, the promise is
    pending, and the request, which did not exist before, carries exactly
    the 'success', 'error' and 'upgradeneeded' listeners, and the
    'blocked' listener exactly when a blocked callback was given. *)
Theorem openDatabase_registers (name : string) (version : Z) m b (w : World) :
  req_ids_fresh w ->
  exists w', openDatabase name version m b w = (Normal (w_next w), w') /\
    match IDBFactory_open name version (alloc_world w) with
    | (Normal r, _) => w_promises w' !! w_next w = Some Pending /\ w_requests w !! r = None /\
                       open_registered w' r (w_next w) m b
    | (Throw e, _) => w_promises w' !! w_next w = Some (Rejected (RThrown e))
    end.
Proof.
  intros Hf. destruct (factory_open_req name version) as [Hnat Hreq].
  destruct (IDBFactory_open name version (alloc_world w)) as [[r|e] w2] eqn:Hcall.
  2:{ destruct (Hnat _ _ _ Hcall) as [Hp _]. eexists. split; [by apply openDatabase_run_throw|].
      apply promise_reject_pending. rewrite Hp. apply alloc_world_pending. }
  destruct (Hnat _ _ _ Hcall) as [Hp _].
  destruct (Hreq _ _ _ Hcall (alloc_world_req_fresh _ Hf)) as (Hnone & rq & Hr & Hl & _).
  eexists. split; [by apply openDatabase_run_normal|]. split_and!.
  - destruct b; cbn [snd st_bind add_listener st_modify st_ret]; rewrite !update_listeners_promises, Hp;
      apply alloc_world_pending.
  - exact Hnone.
  - destruct b; (eexists; split; [cbn [snd st_bind add_listener st_modify st_ret] |]).
    + eapply update_listeners_request_eq, update_listeners_request_eq, update_listeners_request_eq,
        update_listeners_request_eq, Hr.
    + cbn. rewrite Hl. reflexivity.
    + eapply update_listeners_request_eq, update_listeners_request_eq, update_listeners_request_eq, Hr.
    + cbn. rewrite Hl. reflexivity.
Qed.
End OpenCall.

Lemma openDatabase_registers_witness :
  (exists w', openDatabase "shop" 1 demo_migration (Some 9) empty_world = (Normal 0, w') /\
    w_promises w' !! 0 = Some Pending /\ w_requests empty_world !! 1 = None /\
    open_registered w' 1 0 demo_migration (Some 9)) /\
  (exists w', openDatabase "shop" 0 demo_migration None empty_world = (Normal 0, w') /\
    w_promises w' !! 0 = Some (Rejected (RThrown TypeError))).
Proof.
  assert (Hf : req_ids_fresh empty_world)
    by (apply req_ids_fresh_of_forall; apply (bool_decide_unpack _); vm_compute; exact I).
  split.
  - pose proof (openDatabase_registers "shop" 1 demo_migration (Some 9) empty_world Hf) as H.
    assert (E : IDBFactory_open "shop" 1 (alloc_world empty_world) =
      (Normal 1, snd (IDBFactory_open "shop" 1 (alloc_world empty_world)))) by (vm_compute; reflexivity).
    rewrite E in H. exact H.
  - pose proof (openDatabase_registers "shop" 0 demo_migration None empty_world Hf) as H.
    assert (E : IDBFactory_open "shop" 0 (alloc_world empty_world) =
      (Throw TypeError, snd (IDBFactory_open "shop" 0 (alloc_world empty_world)))) by (vm_compute; reflexivity).
    rewrite E in H. exact H.
Defined.

Lemma open_success_resolves_witness :
  exists obj, w_promises (snd (dispatch_path [TRequest 1] (success_event 1) demo_open_conn)) !! 0 =
    Some (Fulfilled (PObj obj)) /\
    w_objects (snd (dispatch_path [TRequest 1] (success_event 1) demo_open_conn)) !! obj = Some (ODb (mkPDb 2)).
Proof.
  apply (open_success_resolves demo_open_conn _ 1 0 2 demo_migration (Some 9) (success_event 1)
           (fst (dispatch_path [TRequest 1] (success_event 1) demo_open_conn))).
  - eexists; split; [vm_compute; reflexivity | reflexivity].
  - reflexivity.
  - reflexivity.
  - vm_compute. reflexivity.
  - vm_compute. reflexivity.
  - apply surjective_pairing.
Defined.

Lemma open_error_rejects_witness :
  w_promises (snd (dispatch_path [TRequest 1] (error_event 1) demo_open)) !! 0 =
  Some (Rejected (REvent (error_event 1))).
Proof.
  apply (open_error_rejects demo_open _ 1 0 demo_migration (Some 9) (error_event 1)
           (fst (dispatch_path [TRequest 1] (error_event 1) demo_open))).
  - eexists; split; [vm_compute; reflexivity | reflexivity].
  - reflexivity.
  - vm_compute. reflexivity.
  - apply surjective_pairing.
Defined.

Lemma open_upgrade_runs_migration_witness :
  w_log (snd (dispatch_path [TRequest 1] (mkEvent EvUpgradeNeeded (TRequest 1) 0 (Some 1%Z)) demo_open_conn)) =
    w_log demo_open_conn ++ [LogMigration 7 2 0 (Some 1%Z)] /\
  w_promises (snd (dispatch_path [TRequest 1] (mkEvent EvUpgradeNeeded (TRequest 1) 0 (Some 1%Z)) demo_open_conn)) =
    w_promises demo_open_conn.
Proof.
  apply (open_upgrade_runs_migration demo_open_conn _ 1 0 2 demo_migration (Some 9)
           (mkEvent EvUpgradeNeeded (TRequest 1) 0 (Some 1%Z))
           (fst (dispatch_path [TRequest 1] (mkEvent EvUpgradeNeeded (TRequest 1) 0 (Some 1%Z)) demo_open_conn))).
  - eexists; split; [vm_compute; reflexivity | reflexivity].
  - reflexivity.
  - reflexivity.
  - vm_compute. reflexivity.
  - apply surjective_pairing.
Defined.

Lemma open_blocked_callback_witness :
  w_log (snd (dispatch_path [TRequest 1] (mkEvent EvBlocked (TRequest 1) 1 (Some 2%Z)) demo_open)) =
    w_log demo_open ++ [LogBlocked 9 1 (Some 2%Z)] /\
  w_promises (snd (dispatch_path [TRequest 1] (mkEvent EvBlocked (TRequest 1) 1 (Some 2%Z)) demo_open)) =
    w_promises demo_open.
Proof.
  apply (open_blocked_callback demo_open _ 1 0 demo_migration (Some 9) (mkEvent EvBlocked (TRequest 1) 1 (Some 2%Z))
           (fst (dispatch_path [TRequest 1] (mkEvent EvBlocked (TRequest 1) 1 (Some 2%Z)) demo_open))).
  - eexists; split; [vm_compute; reflexivity | reflexivity].
  - reflexivity.
  - apply surjective_pairing.
Defined.
