(* ===== verification/Scenarios.v ===== *)
(** * Scenarios: the scenarios of spec section 8, run on the model

    Each scenario is a client program written against the wrapper: a
    sequence of tasks ([Host.run_task]), each followed by the platform
    running until it has nothing left to do ([Host.run_host] with a fuel
    of 20 steps; each scenario needs fewer than 10).  Handles are the ids
    the platform allocates, in allocation order (the promise of the first
    call is 0, its open request 1, the connection 2, and so on).  The
    statements are closed and are checked by evaluation. *)

From S2P Require Import Prelude Keys Store Promise World Host Wrapper.

Local Open Scope st_scope.

Definition pen : JsVal := JObj [("name", JStr "pen")].
Definition cup : JsVal := JObj [("name", JStr "cup")].

(** [openDatabase("shop", 1, db => db.createObjectStore("items",
    {autoIncrement: true}))], and the world once the platform opened it:
    promise 0 is fulfilled with the database wrapper 4 around connection
    2. *)
Definition shop_migration : Migration := mkMigration 1 (fun _ _ => [CreateObjectStore "items" None true]).

Definition shop_opened : World :=
  snd (run_host 20 (snd (run_task (openDatabase "shop" 1 shop_migration None) empty_world))).

(** [const tx = db.transaction("items", "readwrite"); const items =
    tx.objectStore("items"); items.add(pen); items.add(cup)]: transaction
    5, promises 8 and 10. *)
Definition shop_adds : JS unit :=
  _ <- PromisedIndexedDb_transaction (mkPDb 2) (NameOne "items") (Some ReadWrite) None ;;
  _ <- PromisedIndexedDbTransaction_objectStore (mkPTx 5) "items" ;;
  _ <- PromisedIndexedDbObjectStore_add (mkPStore (mkStoreHandle 5 "items")) pen None ;;
  _ <- PromisedIndexedDbObjectStore_add (mkPStore (mkStoreHandle 5 "items")) cup None ;;
  ret tt.

(** Then, in a new read-only transaction 12, [getAll()]: promise 14. *)
Definition shop_read : JS unit :=
  _ <- PromisedIndexedDb_transaction (mkPDb 2) (NameOne "items") None None ;;
  _ <- PromisedIndexedDbObjectStore_getAll (mkPStore (mkStoreHandle 12 "items")) None None ;;
  ret tt.

Definition shop_done : World :=
  snd (run_host 20 (snd (run_task shop_read (snd (run_host 20 (snd (run_task shop_adds shop_opened))))))).

(** The abort scenario: in transaction 5, [put(pen, 1)] (promise 7,
    request 8) then [abort()]; then [get(1)] in a new transaction 9
    (promise 11). *)
Definition abort_put : JS unit :=
  _ <- PromisedIndexedDb_transaction (mkPDb 2) (NameOne "items") (Some ReadWrite) None ;;
  _ <- PromisedIndexedDbObjectStore_put (mkPStore (mkStoreHandle 5 "items")) pen (Some (JNum 1)) ;;
  PromisedIndexedDbTransaction_abort (mkPTx 5).

Definition abort_get : JS unit :=
  _ <- PromisedIndexedDb_transaction (mkPDb 2) (NameOne "items") None None ;;
  _ <- PromisedIndexedDbObjectStore_get (mkPStore (mkStoreHandle 9 "items")) (QVal (JNum 1)) ;;
  ret tt.

Definition abort_done : World :=
  snd (run_host 20 (snd (run_task abort_get (snd (run_host 20 (snd (run_task abort_put shop_opened))))))).

(** The blocked scenario: "shop" version 1 is open with a blocked
    callback 8 (connection 2 stays open); then [openDatabase("shop", 2,
    migration, blocked)] with the blocked callback 9 (promise 5).  Then
    the client closes connection 2. *)
Definition v2_migration : Migration :=
  mkMigration 2 (fun _ _ => [CreateIndex "items" "by_name" ["name"] false false]).

Definition blocked_v1 : World :=
  snd (run_host 20 (snd (run_task (openDatabase "shop" 1 shop_migration (Some 8)) empty_world))).

Definition blocked_v2 : World :=
  snd (run_host 20 (snd (run_task (openDatabase "shop" 2 v2_migration (Some 9)) blocked_v1))).

Definition blocked_closed : World :=
  snd (run_host 20 (snd (run_task (PromisedIndexedDb_close (mkPDb 2)) blocked_v2))).

(** A migration that throws: it creates "items" twice. *)
Definition bad_migration : Migration :=
  mkMigration 3 (fun _ _ => [CreateObjectStore "items" None true; CreateObjectStore "items" None true]).

Definition bad_open : World :=
  snd (run_host 20 (snd (run_task (openDatabase "shop" 1 bad_migration None) empty_world))).

(** After the shop scenario, [getAllKeys(undefined, 0)] in a new
    transaction 16 (promise 18). *)
Definition count_zero_read : JS unit :=
  _ <- PromisedIndexedDb_transaction (mkPDb 2) (NameOne "items") None None ;;
  _ <- PromisedIndexedDbObjectStore_getAllKeys (mkPStore (mkStoreHandle 16 "items")) None (Some 0%Z) ;;
  ret tt.

Definition count_zero_done : World := snd (run_host 20 (snd (run_task count_zero_read shop_done))).

(** When the platform has nothing to do, it stays idle whatever the
    fuel. *)
Lemma run_host_idle (w : World) (fuel : nat) :
  host_step w = (Normal false, w) -> run_host fuel w = (Normal tt, w).
Proof.
  intros Hidle. destruct fuel as [|fuel]; [done|]. cbn [run_host].
  by rewrite (st_bind_run_normal _ _ _ _ _ Hidle).
Qed.

(** The shop scenario of spec section 8.  The two adds resolve with
    the generated keys 1 and 2, and [getAll()] in a later transaction
    resolves with [pen] and [cup], in that order. *)
Example shop_scenario :
  w_promises shop_opened !! 0 = Some (Fulfilled (PObj 4)) /\
  w_objects shop_opened !! 4 = Some (ODb (mkPDb 2)) /\
  w_promises shop_done !! 8 = Some (Fulfilled (PJs (JNum 1))) /\
  w_promises shop_done !! 10 = Some (Fulfilled (PJs (JNum 2))) /\
  w_promises shop_done !! 14 = Some (Fulfilled (PJs (JArr [pen; cup]))).
Proof. vm_compute. repeat split. Qed.

(** The abort scenario of spec section 8.  The put's promise is
    rejected (its request is aborted), and [get(1)] in a new transaction
    resolves with [undefined]: the write never committed. *)
Example abort_scenario :
  w_promises abort_done !! 7 = Some (Rejected (REvent (mkEvent EvError (TRequest 8) 0 None))) /\
  w_promises abort_done !! 11 = Some (Fulfilled (PJs JUndefined)).
Proof. vm_compute. split; reflexivity. Qed.

(** The blocked scenario of spec section 8.  While connection 2 of
    version 1 is open, the open of version 2 gets 'blocked': the wrapper
    calls the blocked callback 9 of that open, with the versions 1 and 2,
    and not the callback 8 of the version-1 open; the migration of
    version 2 has not run, the open stays pending, and the platform is
    idle: whatever the fuel, nothing changes until the client closes the
    connection (the wrapper does not handle 'versionchange').  Once it is
    closed, the migration runs and the open resolves. *)
Example blocked_scenario :
  w_log blocked_v2 = [LogMigration 1 2 0 (Some 1%Z); LogBlocked 9 1 (Some 2%Z)] /\
  w_promises blocked_v2 !! 5 = Some Pending /\
  (forall fuel, run_host fuel blocked_v2 = (Normal tt, blocked_v2)) /\
  w_log blocked_closed = [LogMigration 1 2 0 (Some 1%Z); LogBlocked 9 1 (Some 2%Z); LogMigration 2 7 1 (Some 2%Z)] /\
  w_promises blocked_closed !! 5 = Some (Fulfilled (PObj 9)).
Proof.
  split_and!; [vm_compute; reflexivity | vm_compute; reflexivity | | vm_compute; reflexivity | vm_compute; reflexivity].
  intros fuel. apply run_host_idle. vm_compute. reflexivity.
Qed.

(** A migration that throws aborts the upgrade: the promise of
    [openDatabase] is rejected with the open request's error event, the
    database is left at version 0 with no store, and the connection is
    closed. *)
Example failed_migration_scenario :
  w_promises bad_open !! 0 = Some (Rejected (REvent (mkEvent EvError (TRequest 1) 0 None))) /\
  (db_version <$> w_dbs bad_open !! "shop") = Some 0%Z /\
  (map fst (map_to_list (default ∅ (db_stores <$> w_dbs bad_open !! "shop")))) = [] /\
  (conn_closed <$> w_conns bad_open !! 2) = Some true.
Proof. vm_compute. split_and!; reflexivity. Qed.

(** [getAllKeys(query, 0)] is not limited to 0 keys: the wrapper
    passes the count through and the platform reads 0 as no limit, so
    both keys of the store come back (spec section 8 says at most
    [limit] keys). *)
Example count_zero_scenario :
  w_promises count_zero_done !! 18 = Some (Fulfilled (PJs (JArr [JNum 1; JNum 2]))).
Proof. vm_compute. reflexivity. Qed.
