(* ===== verification/System.v ===== *)
(** * System: a client program and the platform, interleaved

    The program using the library is a sequence of tasks; each task calls
    methods of the wrapper in order ([run_calls] of a list of [Call]s, with
    their arguments; an exception ends the task), and between
    tasks the platform runs its own steps ([Host.host_step]: a request of
    a transaction, an abort, a commit, a step of an open request).  A
    client callback only logs, so its effects are in [host_step].
    [sys_step] is that interleaving; [reachable] its reflexive-transitive
    closure.  The invariant proved by induction on [reachable] is that a
    settled promise never changes: every promise the wrapper hands out
    settles at most once. *)

From S2P Require Import Prelude Keys Store Promise World Host Wrapper.

Local Open Scope st_scope.

(** One call of the wrapper's API, on the platform. *)
Inductive Call : Type :=
| CIndexName (this : PromisedIndexedDbIndex)
| CIndexObjectStore (this : PromisedIndexedDbIndex)
| CIndexKeyPath (this : PromisedIndexedDbIndex)
| CIndexMultiEntry (this : PromisedIndexedDbIndex)
| CIndexUnique (this : PromisedIndexedDbIndex)
| CIndexCount (this : PromisedIndexedDbIndex) (q : option QueryArg)
| CIndexGet (this : PromisedIndexedDbIndex) (q : QueryArg)
| CIndexGetAll (this : PromisedIndexedDbIndex) (q : option QueryArg) (c : option Z)
| CIndexGetAllKeys (this : PromisedIndexedDbIndex) (q : option QueryArg) (c : option Z)
| CIndexGetKey (this : PromisedIndexedDbIndex) (q : QueryArg)
| CStoreIndexNames (this : PromisedIndexedDbObjectStore)
| CStoreKeyPath (this : PromisedIndexedDbObjectStore)
| CStoreName (this : PromisedIndexedDbObjectStore)
| CStoreTransaction (this : PromisedIndexedDbObjectStore)
| CStoreAutoIncrement (this : PromisedIndexedDbObjectStore)
| CStoreAdd (this : PromisedIndexedDbObjectStore) (v : JsVal) (k : option JsVal)
| CStoreClear (this : PromisedIndexedDbObjectStore)
| CStoreCount (this : PromisedIndexedDbObjectStore) (q : option QueryArg)
| CStoreDelete (this : PromisedIndexedDbObjectStore) (q : QueryArg)
| CStoreGet (this : PromisedIndexedDbObjectStore) (q : QueryArg)
| CStoreGetAll (this : PromisedIndexedDbObjectStore) (q : option QueryArg) (c : option Z)
| CStoreGetAllKeys (this : PromisedIndexedDbObjectStore) (q : option QueryArg) (c : option Z)
| CStoreGetKey (this : PromisedIndexedDbObjectStore) (q : QueryArg)
| CStoreIndex (this : PromisedIndexedDbObjectStore) (name : string)
| CStorePut (this : PromisedIndexedDbObjectStore) (v : JsVal) (k : option JsVal)
| CTxDb (this : PromisedIndexedDbTransaction)
| CTxMode (this : PromisedIndexedDbTransaction)
| CTxObjectStoreNames (this : PromisedIndexedDbTransaction)
| CTxAbort (this : PromisedIndexedDbTransaction)
| CTxCommit (this : PromisedIndexedDbTransaction)
| CTxObjectStore (this : PromisedIndexedDbTransaction) (name : string)
| CTxAddEventListener (this : PromisedIndexedDbTransaction) (ty : TransactionEventType) (cb : ClientCb)
| CTxRemoveEventListener (this : PromisedIndexedDbTransaction) (ty : TransactionEventType) (cb : ClientCb)
| CTxDispatchEvent (this : PromisedIndexedDbTransaction) (ev : DomEvent)
| CDbName (this : PromisedIndexedDb)
| CDbVersion (this : PromisedIndexedDb)
| CDbObjectStoreNames (this : PromisedIndexedDb)
| CDbClose (this : PromisedIndexedDb)
| CDbTransaction (this : PromisedIndexedDb) (names : NamesArg) (mode : option TxMode)
    (options : IDBTransactionOptions)
| COpenDatabase (name : string) (version : Z) (migration : Migration) (blocked : option nat).

(** The method a call runs; its result is dropped. *)
Definition run_call (c : Call) : JS unit :=
  match c with
  | CIndexName this => PromisedIndexedDbIndex_name this ;; ret tt
  | CIndexObjectStore this => PromisedIndexedDbIndex_objectStore this ;; ret tt
  | CIndexKeyPath this => PromisedIndexedDbIndex_keyPath this ;; ret tt
  | CIndexMultiEntry this => PromisedIndexedDbIndex_multiEntry this ;; ret tt
  | CIndexUnique this => PromisedIndexedDbIndex_unique this ;; ret tt
  | CIndexCount this q => PromisedIndexedDbIndex_count this q ;; ret tt
  | CIndexGet this q => PromisedIndexedDbIndex_get this q ;; ret tt
  | CIndexGetAll this q c => PromisedIndexedDbIndex_getAll this q c ;; ret tt
  | CIndexGetAllKeys this q c => PromisedIndexedDbIndex_getAllKeys this q c ;; ret tt
  | CIndexGetKey this q => PromisedIndexedDbIndex_getKey this q ;; ret tt
  | CStoreIndexNames this => PromisedIndexedDbObjectStore_indexNames this ;; ret tt
  | CStoreKeyPath this => PromisedIndexedDbObjectStore_keyPath this ;; ret tt
  | CStoreName this => PromisedIndexedDbObjectStore_name this ;; ret tt
  | CStoreTransaction this => PromisedIndexedDbObjectStore_transaction this ;; ret tt
  | CStoreAutoIncrement this => PromisedIndexedDbObjectStore_autoIncrement this ;; ret tt
  | CStoreAdd this v k => PromisedIndexedDbObjectStore_add this v k ;; ret tt
  | CStoreClear this => PromisedIndexedDbObjectStore_clear this ;; ret tt
  | CStoreCount this q => PromisedIndexedDbObjectStore_count this q ;; ret tt
  | CStoreDelete this q => PromisedIndexedDbObjectStore_delete this q ;; ret tt
  | CStoreGet this q => PromisedIndexedDbObjectStore_get this q ;; ret tt
  | CStoreGetAll this q c => PromisedIndexedDbObjectStore_getAll this q c ;; ret tt
  | CStoreGetAllKeys this q c => PromisedIndexedDbObjectStore_getAllKeys this q c ;; ret tt
  | CStoreGetKey this q => PromisedIndexedDbObjectStore_getKey this q ;; ret tt
  | CStoreIndex this name => PromisedIndexedDbObjectStore_index this name ;; ret tt
  | CStorePut this v k => PromisedIndexedDbObjectStore_put this v k ;; ret tt
  | CTxDb this => PromisedIndexedDbTransaction_db this ;; ret tt
  | CTxMode this => PromisedIndexedDbTransaction_mode this ;; ret tt
  | CTxObjectStoreNames this => PromisedIndexedDbTransaction_objectStoreNames this ;; ret tt
  | CTxAbort this => PromisedIndexedDbTransaction_abort this
  | CTxCommit this => PromisedIndexedDbTransaction_commit this
  | CTxObjectStore this name => PromisedIndexedDbTransaction_objectStore this name ;; ret tt
  | CTxAddEventListener this ty cb => PromisedIndexedDbTransaction_addEventListener this ty cb
  | CTxRemoveEventListener this ty cb => PromisedIndexedDbTransaction_removeEventListener this ty cb
  | CTxDispatchEvent this ev => PromisedIndexedDbTransaction_dispatchEvent this ev ;; ret tt
  | CDbName this => PromisedIndexedDb_name this ;; ret tt
  | CDbVersion this => PromisedIndexedDb_version this ;; ret tt
  | CDbObjectStoreNames this => PromisedIndexedDb_objectStoreNames this ;; ret tt
  | CDbClose this => PromisedIndexedDb_close this
  | CDbTransaction this names mode options => PromisedIndexedDb_transaction this names mode options ;; ret tt
  | COpenDatabase name version migration blocked => openDatabase name version migration blocked ;; ret tt
  end.

(** The calls of one task of the client, in order: [a(); b(); ...] in
    one synchronous block, the first exception ending the block. *)
Fixpoint run_calls (cs : list Call) : JS unit :=
  match cs with
  | [] => ret tt
  | c :: cs => run_call c ;; run_calls cs
  end.

(** A task of the client (its calls, its exception reported) or a step
    of the platform. *)
Inductive sys_step : World -> World -> Prop :=
| SysCall (cs : list Call) w w' o : run_task (run_calls cs) w = (o, w') -> sys_step w w'
| SysHost w w' o : host_step w = (o, w') -> sys_step w w'.

Definition reachable : World -> World -> Prop := rtc sys_step.

(** A task of the client followed by one step of the platform. *)
Definition call_then_step (c : Call) (w : World) : World :=
  snd (host_step (snd (run_task (run_call c) w))).

(** The store "items" of [Host.demo_world], seen through the wrapper. *)
Definition demo_items : PromisedIndexedDbObjectStore := mkPStore (mkStoreHandle 1 "items").

(** [items.get(1)], run by the platform: promise 2 is fulfilled with
    [undefined]. *)
Definition demo_got : World := call_then_step (CStoreGet demo_items (QVal (JNum 1))) demo_world.

Lemma keeps_request_promise (call : JS nat) (on_success : nat -> nat -> Listener) :
  keeps_settled call -> keeps_settled (request_promise call on_success).
Proof. intros. unfold request_promise. eauto 20 with keeps. Qed.

Create HintDb wrapper.
#[export] Hint Unfold PromisedIndexedDbIndex_name PromisedIndexedDbIndex_objectStore
  PromisedIndexedDbIndex_keyPath PromisedIndexedDbIndex_multiEntry PromisedIndexedDbIndex_unique
  PromisedIndexedDbIndex_count PromisedIndexedDbIndex_get PromisedIndexedDbIndex_getAll
  PromisedIndexedDbIndex_getAllKeys PromisedIndexedDbIndex_getKey
  PromisedIndexedDbObjectStore_indexNames PromisedIndexedDbObjectStore_keyPath
  PromisedIndexedDbObjectStore_name PromisedIndexedDbObjectStore_transaction
  PromisedIndexedDbObjectStore_autoIncrement PromisedIndexedDbObjectStore_add
  PromisedIndexedDbObjectStore_clear PromisedIndexedDbObjectStore_count
  PromisedIndexedDbObjectStore_delete PromisedIndexedDbObjectStore_get
  PromisedIndexedDbObjectStore_getAll PromisedIndexedDbObjectStore_getAllKeys
  PromisedIndexedDbObjectStore_getKey PromisedIndexedDbObjectStore_index
  PromisedIndexedDbObjectStore_put PromisedIndexedDbTransaction_db PromisedIndexedDbTransaction_mode
  PromisedIndexedDbTransaction_objectStoreNames PromisedIndexedDbTransaction_abort
  PromisedIndexedDbTransaction_commit PromisedIndexedDbTransaction_objectStore
  PromisedIndexedDbTransaction_addEventListener PromisedIndexedDbTransaction_removeEventListener
  PromisedIndexedDbTransaction_dispatchEvent PromisedIndexedDb_name PromisedIndexedDb_version
  PromisedIndexedDb_objectStoreNames PromisedIndexedDb_close PromisedIndexedDb_transaction
  openDatabase : wrapper.

Lemma keeps_run_call (c : Call) : keeps_settled (run_call c).
Proof.
  destruct c; simpl; autounfold with wrapper; unfold require; simpl; eauto 20 using keeps_request_promise with keeps.
Qed.

Lemma keeps_run_calls (cs : list Call) : keeps_settled (run_calls cs).
Proof. induction cs; cbn; eauto using keeps_run_call with keeps. Qed.

Lemma run_task_ext {A} (m m' : JS A) (w : World) : (forall w1, m w1 = m' w1) -> run_task m w = run_task m' w.
Proof. intros E. unfold run_task, st_catch, st_bind. by rewrite E. Qed.

(** A task of one call is a step. *)
Lemma sys_call (c : Call) (w : World) : sys_step w (snd (run_task (run_call c) w)).
Proof.
  apply (SysCall [c] _ _ (fst (run_task (run_call c) w))). rewrite <- surjective_pairing.
  apply run_task_ext. intros w1. cbn. unfold st_bind, st_ret. by destruct (run_call c w1) as [[[]|e] w2].
Qed.

Lemma sys_step_keeps (w w' : World) :
  sys_step w w' -> ids_fresh w -> heap_extends (w_promises w) (w_promises w') /\ ids_fresh w'.
Proof.
  intros [c ? ? o Hr | ? ? o Hr] Hf;
    [exact (keeps_run_task _ (keeps_run_calls c) _ _ _ Hr Hf) | exact (keeps_host_step _ _ _ Hr Hf)].
Qed.

(** In every run of a client program against the platform, a promise
    that exists stays, and a settled promise keeps its value or reason:
    every promise the wrapper returns settles at most once. *)
Theorem reachable_promises_final (w w' : World) :
  reachable w w' -> ids_fresh w -> heap_extends (w_promises w) (w_promises w').
Proof.
  intros Hr. induction Hr as [w|w1 w2 w3 H12 H23 IH]; intros Hf; [reflexivity|].
  destruct (sys_step_keeps _ _ H12 Hf) as [He Hf2]. etransitivity; [exact He | exact (IH Hf2)].
Qed.

(** [items.put("pen")] after [demo_got]: the settled promise 2 is kept. *)
Lemma reachable_promises_final_witness :
  w_promises demo_got !! 2 = Some (Fulfilled (PJs JUndefined)) /\
  heap_extends (w_promises demo_got)
    (w_promises (call_then_step (CStorePut demo_items (JStr "pen") None) demo_got)).
Proof.
  split; [vm_compute; reflexivity|].
  apply reachable_promises_final.
  - unfold call_then_step. eapply rtc_l; [apply sys_call |].
    eapply rtc_l; [eapply SysHost, surjective_pairing | reflexivity].
  - apply ids_fresh_of_forall. apply (bool_decide_unpack _). vm_compute. exact I.
Defined.
