(* ===== verification/Frame.v ===== *)
(** * Frame: reasoning about what a computation does to the world

    Several invariants of the platform have the same shape: a relation
    [R] between the world before and the world after a step, reflexive
    and transitive, that every operation must respect.  [step_ok R m]
    says that every run of [m] relates its initial and final worlds by
    [R]; [step_from R w m] says it for the runs from [w] only, which is
    what a branch of the code can rely on after it read the world (a
    transaction, a database).  The rules below follow the structure of
    the state and exception monad of [Prelude]: return, throw, bind,
    catch, get, modify, and the reads of [Host] ([get_tx], [get_db],
    [require]) that fail without changing the world. *)

From S2P Require Import Prelude Keys Store Promise World Host Wrapper System.

Local Open Scope st_scope.

Section Frame.
Context (R : World -> World -> Prop) `{!PreOrder R}.

Definition step_from {A} (w : World) (m : JS A) : Prop := forall o w', m w = (o, w') -> R w w'.

Definition step_ok {A} (m : JS A) : Prop := forall w, step_from w m.

Context {A B : Type}.

Lemma step_ret (a : A) : step_ok (st_ret a).
Proof. intros w o w' [= <- <-]. reflexivity. Qed.

Lemma step_throw (e : ErrorName) : step_ok (A:=A) (st_throw e).
Proof. intros w o w' [= <- <-]. reflexivity. Qed.

Lemma step_bind_from (w : World) (m : JS A) (k : A -> JS B) :
  step_from w m -> (forall a w1, m w = (Normal a, w1) -> step_from w1 (k a)) -> step_from w (st_bind m k).
Proof.
  intros Hm Hk o w'. unfold st_bind. destruct (m w) as [[a|e] w1] eqn:E; intros Hrun;
    pose proof (Hm _ _ E) as R1.
  - etrans; [exact R1 | exact (Hk a w1 eq_refl _ _ Hrun)].
  - injection Hrun as <- <-. exact R1.
Qed.

Lemma step_bind (m : JS A) (k : A -> JS B) : step_ok m -> (forall a, step_ok (k a)) -> step_ok (st_bind m k).
Proof. intros Hm Hk w. apply step_bind_from; [apply Hm | intros; apply Hk]. Qed.

Lemma step_catch (m : JS A) (h : ErrorName -> JS A) :
  step_ok m -> (forall e, step_ok (h e)) -> step_ok (st_catch m h).
Proof.
  intros Hm Hh w o w'. unfold st_catch. destruct (m w) as [[a|e] w1] eqn:E; intros Hrun;
    pose proof (Hm _ _ _ E) as R1.
  - injection Hrun as <- <-. exact R1.
  - etrans; [exact R1 | exact (Hh e _ _ _ Hrun)].
Qed.

Lemma step_get (k : World -> JS A) : (forall w, step_from w (k w)) -> step_ok (st_bind st_get k).
Proof. intros Hk w o w' Hrun. exact (Hk w o w' Hrun). Qed.

Lemma step_get_from (w : World) (k : World -> JS A) : step_from w (k w) -> step_from w (st_bind st_get k).
Proof. intros Hk o w' Hrun. exact (Hk o w' Hrun). Qed.

Lemma step_get_any (k : World -> JS A) : (forall w, step_ok (k w)) -> step_ok (st_bind st_get k).
Proof. intros Hk. apply step_get. intros w. apply Hk. Qed.

Lemma step_modify_from (w : World) (f : World -> World) : R w (f w) -> step_from w (st_modify f).
Proof. intros Hf o w' [= <- <-]. exact Hf. Qed.

Lemma step_modify (f : World -> World) : (forall w, R w (f w)) -> step_ok (st_modify f).
Proof. intros Hf w. apply step_modify_from, Hf. Qed.

(** A read that fails leaves the world as it was. *)
Lemma step_read_from (w : World) {X} (read : World -> option X) (e : ErrorName) (k : X -> JS A) :
  (forall x, read w = Some x -> step_from w (k x)) ->
  step_from w (st_bind (x <- st_get ;; match read x with Some y => st_ret y | None => st_throw e end) k).
Proof.
  intros Hk o w'. rewrite st_bind_assoc, st_bind_get_run. destruct (read w) as [x|] eqn:E.
  - rewrite st_bind_ret_run. by apply Hk.
  - rewrite st_bind_throw. intros [= <- <-]. reflexivity.
Qed.

Lemma step_get_tx_from (w : World) (t : nat) (k : Transaction -> JS A) :
  (forall tx, w_txs w !! t = Some tx -> step_from w (k tx)) -> step_from w (st_bind (get_tx t) k).
Proof. apply (step_read_from w (fun w => w_txs w !! t)). Qed.

Lemma step_get_conn_from (w : World) (c : nat) (k : Connection -> JS A) :
  (forall cn, w_conns w !! c = Some cn -> step_from w (k cn)) -> step_from w (st_bind (get_conn c) k).
Proof. apply (step_read_from w (fun w => w_conns w !! c)). Qed.

Lemma step_get_db_from (w : World) (n : string) (k : Database -> JS A) :
  (forall d, w_dbs w !! n = Some d -> step_from w (k d)) -> step_from w (st_bind (get_db n) k).
Proof. apply (step_read_from w (fun w => w_dbs w !! n)). Qed.

Lemma step_require_from (w : World) (b : bool) (e : ErrorName) (k : JS A) :
  (b = true -> step_from w k) -> step_from w (require b e ;; k).
Proof.
  destruct b; intros Hk; unfold require; [rewrite st_bind_ret_l; by apply Hk|].
  intros o w'. rewrite st_bind_throw. intros [= <- <-]. reflexivity.
Qed.
(** The platform runs the first of a list of candidate tasks. *)
Lemma step_first_task {X} (f : X -> option (JS unit)) (xs : list X) (m : JS unit) ms :
  (forall x m, f x = Some m -> step_ok m) -> omap f xs = m :: ms -> step_ok m.
Proof.
  intros Hf E. assert (Hm : m ∈ omap f xs) by (rewrite E; left).
  apply list_elem_of_omap in Hm as (x & _ & Hx). eauto.
Qed.

End Frame.

(** A task of several calls, from the rule for one call. *)
Lemma step_run_calls (R : World -> World -> Prop) `{!PreOrder R} (cs : list Call) :
  (forall c, step_ok R (run_call c)) -> step_ok R (run_calls cs).
Proof.
  intros Hc. induction cs as [|c cs IH]; cbn; [apply (step_ret R)|].
  apply (step_bind R); [apply Hc | intros; exact IH].
Qed.

(** A computation that respects a finer relation respects a coarser one. *)
Lemma step_ok_mono (R1 R2 : World -> World -> Prop) {A} (m : JS A) :
  (forall w w', R1 w w' -> R2 w w') -> step_ok R1 m -> step_ok R2 m.
Proof. intros H12 Hm w o w' Hrun. exact (H12 _ _ (Hm w o w' Hrun)). Qed.

(** The rules as hints: a goal [step_ok R m] is taken apart by the
    structure of [m]. *)
Create HintDb frame.
#[export] Hint Extern 1 (step_ok ?R (st_ret _)) => apply (step_ret R) : frame.
#[export] Hint Extern 1 (step_ok ?R (st_throw _)) => apply (step_throw R) : frame.
#[export] Hint Extern 1 (step_ok ?R (st_bind st_get _)) => apply (step_get_any R); intros : frame.
#[export] Hint Extern 2 (step_ok ?R (st_bind _ _)) => apply (step_bind R); [|intros] : frame.
#[export] Hint Extern 1 (step_ok ?R (st_catch _ _)) => apply (step_catch R); [|intros] : frame.
#[export] Hint Extern 1 (step_ok ?R (st_modify _)) => apply (step_modify R); intros : frame.
#[export] Hint Extern 2 (step_ok _ (match ?x with _ => _ end)) => destruct x : frame.
#[export] Hint Extern 2 (step_ok _ (if ?x then _ else _)) => destruct x : frame.
#[export] Hint Extern 1 (step_ok _ _) => progress cbv beta zeta : frame.

(** One step of a proof of [step_ok R m] that follows the structure of
    [m]: binds, branches and handlers are taken apart, and [leaf] is
    called on the computations that are not (the operations). *)
Ltac frame_step leaf :=
  match goal with
  | |- step_ok ?R (st_bind st_get _) => apply (step_get_any R); intros
  | |- step_ok ?R (st_bind (st_bind _ _) _) => apply (step_bind R); intros
  | |- step_ok ?R (st_bind (match _ with _ => _ end) _) => apply (step_bind R); intros
  | |- step_ok ?R (st_bind (if _ then _ else _) _) => apply (step_bind R); intros
  | |- step_ok ?R (st_bind (st_catch _ _) _) => apply (step_bind R); intros
  | |- step_ok ?R (st_bind _ _) => apply (step_bind R); [leaf | intros]
  | |- step_ok ?R (st_catch _ _) => apply (step_catch R); intros
  | |- step_ok _ (match ?x with _ => _ end) => destruct x
  | |- step_ok _ (if ?x then _ else _) => destruct x
  | |- step_ok _ _ => progress cbv beta zeta
  | |- step_ok _ _ => leaf
  end.
