(* ===== verification/TxMachine.v ===== *)
(** * TxMachine: the life cycle of a transaction

    The platform's transactions ([World.Transaction], field [tx_state])
    change state in a few places of [Host]: [db_transaction] and
    [run_open] create them active; [run_request] activates one for the
    events of its request and deactivates it afterwards, as [end_task]
    does at the end of every task; [tx_commit] marks an active one
    committing; [abort_tx] (from [tx_abort], a failed request or a
    migration that threw) marks one aborting; [finish_commit] and
    [deliver_abort] finish them.  [tx_trans] is that state machine, as a
    relation on [TxState], and [lifecycle] its reflexive-transitive
    closure.

    [advances m] says that [m] moves every transaction that exists along
    [lifecycle] and loses none, and keeps transaction ids below the
    allocation counter.  Every step of the interleaving of [System]
    advances, so along every run of a client program a finished
    transaction stays finished and an aborting one only finishes. *)

From S2P Require Import Prelude Keys Store Promise World Host Wrapper System Frame.

Local Open Scope st_scope.

(** One change of state of a transaction. *)
Inductive tx_trans : TxState -> TxState -> Prop :=
| TrActivate : tx_trans TxInactive TxActive
| TrDeactivate : tx_trans TxActive TxInactive
| TrCommit : tx_trans TxActive TxCommitting
| TrAbort (s : TxState) : s <> TxAborting -> s <> TxFinished -> tx_trans s TxAborting
| TrAutoCommit : tx_trans TxInactive TxFinished
| TrCommitted : tx_trans TxCommitting TxFinished
| TrAborted : tx_trans TxAborting TxFinished.

Definition lifecycle : TxState -> TxState -> Prop := rtc tx_trans.

(** The same relation as a boolean function. *)
Definition tx_transb (s s' : TxState) : bool :=
  match s, s' with
  | TxInactive, TxActive | TxActive, TxInactive | TxActive, TxCommitting => true
  | TxActive, TxAborting | TxInactive, TxAborting | TxCommitting, TxAborting => true
  | TxInactive, TxFinished | TxCommitting, TxFinished | TxAborting, TxFinished => true
  | _, _ => false
  end.

(** How far a transaction is from the end: active and inactive 0,
    committing 1, aborting 2, finished 3. *)
Definition tx_rank (s : TxState) : nat :=
  match s with
  | TxActive | TxInactive => 0
  | TxCommitting => 1
  | TxAborting => 2
  | TxFinished => 3
  end.

(** Transaction ids are below the allocation counter. *)
Definition txs_fresh (w : World) : Prop := forall t, is_Some (w_txs w !! t) -> t < w_next w.

(** Every transaction of [w] is still in [w'], further along its life. *)
Definition evolves (w w' : World) : Prop :=
  forall t tx, w_txs w !! t = Some tx -> exists tx', w_txs w' !! t = Some tx' /\ lifecycle (tx_state tx) (tx_state tx').

(** A step moves the transactions along their life and keeps their ids
    below the counter. *)
Definition tx_rel (w w' : World) : Prop := txs_fresh w -> txs_fresh w' /\ evolves w w'.

(** A step leaves the transactions alone. *)
Definition txs_rel (w w' : World) : Prop := w_txs w' = w_txs w /\ w_next w <= w_next w'.

Abbreviation advances_from := (step_from tx_rel).
Abbreviation advances := (step_ok tx_rel).
Abbreviation txs_same := (step_ok txs_rel).

(** The state of transaction [t], if it exists. *)
Definition tx_state_of (w : World) (t : nat) : option TxState := tx_state <$> w_txs w !! t.

(** [commit()] on transaction 1 of [Host.demo_world], then a platform
    step that finishes it; a [get] through the wrapper afterwards.  And
    [abort()] on it, then one platform step. *)
Definition committed_world : World := call_then_step (CTxCommit (mkPTx 1)) demo_world.

Definition after_late_get : World :=
  call_then_step (CStoreGet (mkPStore (mkStoreHandle 1 "items")) (QVal (JNum 1))) committed_world.

Definition aborted_world : World := snd (run_task (run_call (CTxAbort (mkPTx 1))) demo_world).

(** ** The state machine *)

Lemma tx_transb_spec (s s' : TxState) : reflect (tx_trans s s') (tx_transb s s').
Proof.
  destruct s, s'; cbn; first [by repeat constructor | constructor; intros H; inversion H; congruence].
Qed.

#[export] Instance tx_trans_dec (s s' : TxState) : Decision (tx_trans s s').
Proof. destruct (tx_transb_spec s s'); [left | right]; done. Defined.

Lemma tx_trans_rank (s s' : TxState) :
  tx_trans s s' -> tx_rank s <= tx_rank s' /\ (tx_rank s = tx_rank s' -> tx_rank s = 0).
Proof. destruct 1 as [| | |s Ha Hf| | |]; cbn; try (destruct s; cbn); try congruence; split; lia. Qed.

Lemma lifecycle_rank (s s' : TxState) : lifecycle s s' -> tx_rank s <= tx_rank s'.
Proof. induction 1 as [|s1 s2 s3 H12 _ IH]; [done|]. pose proof (tx_trans_rank _ _ H12). lia. Qed.

Lemma lifecycle_one (s s' : TxState) : tx_trans s s' -> lifecycle s s'.
Proof. apply rtc_once. Qed.

(** ** Computations that leave the transactions alone *)

#[export] Instance txs_rel_preorder : PreOrder txs_rel.
Proof.
  split; [intros w; split; [done | lia]|].
  intros w1 w2 w3 [E12 N12] [E23 N23]. split; [congruence | lia].
Qed.

Lemma kept_requests f w : txs_rel w (set_requests f w).
Proof. done. Qed.
Lemma kept_conns f w : txs_rel w (set_conns f w).
Proof. done. Qed.
Lemma kept_objects f w : txs_rel w (set_objects f w).
Proof. done. Qed.
Lemma kept_dbs f w : txs_rel w (set_dbs f w).
Proof. done. Qed.
Lemma kept_set_db n d w : txs_rel w (set_db n d w).
Proof. done. Qed.
Lemma kept_promises f w : txs_rel w (set_promises f w).
Proof. done. Qed.
Lemma kept_log e w : txs_rel w (log_entry e w).
Proof. done. Qed.
Lemma kept_bump w : txs_rel w (bump_next w).
Proof. split; [done | cbn; lia]. Qed.

Create HintDb same.
#[export] Hint Resolve kept_requests kept_conns kept_objects kept_dbs kept_set_db kept_promises kept_log kept_bump : same.
#[export] Hint Unfold fresh alloc_promise alloc_object resolve reject get_tx get_conn get_db
  update_request complete_request close_conn db_close new_connection : same.

Lemma same_run_schema (c : nat) cmds : txs_same (run_schema c cmds).
Proof. induction cmds; cbn; eauto 10 with frame same. Qed.

Lemma same_run_listener (l : Listener) (ev : Event) : txs_same (run_listener l ev).
Proof. destruct l; cbn; autounfold with same; eauto 20 using same_run_schema with frame same. Qed.

Lemma same_dispatch_listeners ls (ev : Event) : txs_same (dispatch_listeners ls ev).
Proof. induction ls as [|[ty l] ls IH]; cbn; eauto 10 using same_run_listener with frame same. Qed.

Lemma same_dispatch_path path (ev : Event) : txs_same (dispatch_path path ev).
Proof. induction path; cbn; eauto 10 using same_dispatch_listeners with frame same. Qed.

#[export] Hint Resolve same_run_schema same_run_listener same_dispatch_listeners same_dispatch_path : same.

(** ** Computations that move the transactions along their life *)

#[export] Instance evolves_preorder : PreOrder evolves.
Proof.
  split.
  - intros w t tx H. exists tx. split; [done | apply rtc_refl].
  - intros w1 w2 w3 H12 H23 t tx H. destruct (H12 t tx H) as (tx2 & H2 & L2).
    destruct (H23 t tx2 H2) as (tx3 & H3 & L3). exists tx3. split; [done | by etrans].
Qed.

Lemma evolves_same (w w' : World) : w_txs w' = w_txs w -> evolves w w'.
Proof. intros E t tx H. exists tx. rewrite E. split; [done | apply rtc_refl]. Qed.

Lemma not_finished (tx : Transaction) :
  is_finished tx = false -> tx_state tx <> TxAborting /\ tx_state tx <> TxFinished.
Proof. unfold is_finished. intros [H1 H2]%orb_false_iff. split; by apply bool_decide_eq_false in H1, H2. Qed.

#[export] Instance tx_rel_preorder : PreOrder tx_rel.
Proof.
  split; [intros w Hf; split; [done | reflexivity]|].
  intros w1 w2 w3 H12 H23 Hf1. destruct (H12 Hf1) as [Hf2 E12]. destruct (H23 Hf2) as [Hf3 E23].
  split; [done | by etrans].
Qed.

Lemma adv_of_same {A} (m : JS A) : txs_same m -> advances m.
Proof.
  apply step_ok_mono. intros w w' [E N] Hf. split; [|by apply evolves_same].
  intros t Ht. rewrite E in Ht. specialize (Hf t Ht). lia.
Qed.

(** Bind, where the continuation also knows that the ids were fresh
    before the first computation ran. *)
Lemma adv_bind_from {A B} (w : World) (m : JS A) (k : A -> JS B) :
  advances_from w m -> (forall a w1, m w = (Normal a, w1) -> txs_fresh w -> advances_from w1 (k a)) ->
  advances_from w (st_bind m k).
Proof.
  intros Hm Hk o w'. unfold st_bind. destruct (m w) as [[a|e] w1] eqn:E; intros Hrun Hf;
    destruct (Hm _ _ E Hf) as [Hf1 E1].
  - destruct (Hk a w1 eq_refl Hf _ _ Hrun Hf1) as [Hf2 E2]. split; [done | by etrans].
  - injection Hrun as <- <-. done.
Qed.

Lemma adv_same_bind {A B} (w : World) (m : JS A) (k : A -> JS B) :
  txs_same m -> (forall a w1, w_txs w1 = w_txs w -> advances_from w1 (k a)) -> advances_from w (st_bind m k).
Proof.
  intros Hm Hk. apply adv_bind_from; [by apply adv_of_same|]. intros a w1 E _. apply Hk. exact (proj1 (Hm _ _ _ E)).
Qed.

Lemma adv_alter_from (w : World) (t : nat) (f : Transaction -> Transaction) :
  (forall tx, w_txs w !! t = Some tx -> lifecycle (tx_state tx) (tx_state (f tx))) ->
  advances_from w (st_modify (set_txs (alter f t))).
Proof.
  intros Hf o w' [= <- <-] Hfr. split.
  - intros t' Ht'. apply Hfr. cbn in Ht'. by rewrite lookup_alter_is_Some in Ht'.
  - intros t' tx Ht'. cbn. destruct (decide (t = t')) as [<-|Hne].
    + exists (f tx). rewrite lookup_alter_eq, Ht'. split; [done | by apply Hf].
    + exists tx. rewrite lookup_alter_ne by done. split; [done | apply rtc_refl].
Qed.

Lemma adv_alter (t : nat) (f : Transaction -> Transaction) :
  (forall tx, lifecycle (tx_state tx) (tx_state (f tx))) -> advances (st_modify (set_txs (alter f t))).
Proof. intros Hf w. apply adv_alter_from. intros tx _. apply Hf. Qed.

Lemma adv_fmap (f : Transaction -> Transaction) :
  (forall tx, lifecycle (tx_state tx) (tx_state (f tx))) -> advances (st_modify (set_txs (fmap f))).
Proof.
  intros Hf w o w' [= <- <-] Hfr. split.
  - intros t Ht. apply Hfr. cbn in Ht. rewrite lookup_fmap in Ht. by apply fmap_is_Some in Ht.
  - intros t tx Ht. exists (f tx). cbn. rewrite lookup_fmap, Ht. split; [done | apply Hf].
Qed.

Lemma adv_insert_from (w : World) (t : nat) (tx0 : Transaction) :
  w_txs w !! t = None -> t < w_next w -> advances_from w (st_modify (set_txs (insert t tx0))).
Proof.
  intros Hn Hlt o w' [= <- <-] Hf. split.
  - intros t' Ht'. cbn in Ht' |- *. destruct (decide (t = t')) as [<-|Hne]; [done|].
    rewrite lookup_insert_ne in Ht' by done. by apply Hf.
  - intros t' tx Ht'. exists tx. cbn. rewrite lookup_insert_ne by congruence. split; [done | apply rtc_refl].
Qed.

Lemma fresh_run (w : World) : fresh w = (Normal (w_next w), bump_next w).
Proof. reflexivity. Qed.

Lemma txs_fresh_next (w : World) : txs_fresh w -> w_txs w !! w_next w = None.
Proof. intros Hf. destruct (w_txs w !! w_next w) eqn:E; [|done]. specialize (Hf _ (mk_is_Some _ _ E)). lia. Qed.

(** A transaction created at a fresh id. *)
Lemma adv_insert_fresh {A} (tx0 : Transaction) (k : nat -> JS A) :
  (forall t, advances (k t)) -> advances (t <- fresh ;; st_modify (set_txs (insert t tx0)) ;; k t).
Proof.
  intros Hk w. apply adv_bind_from; [apply adv_of_same; unfold fresh; eauto with frame same|].
  intros t w1 Hrun Hf. rewrite fresh_run in Hrun. injection Hrun as <- <-.
  apply adv_bind_from; [|intros; apply Hk]. apply adv_insert_from; [exact (txs_fresh_next _ Hf) | cbn; lia].
Qed.

Ltac same_auto := autounfold with same; eauto 20 with frame same.

(** ** The platform's steps *)

Lemma lifecycle_activate (tx : Transaction) :
  lifecycle (tx_state tx) (if bool_decide (tx_state tx = TxInactive) then TxActive else tx_state tx).
Proof. case_bool_decide as H; [rewrite H; apply lifecycle_one, TrActivate | apply rtc_refl]. Qed.

Lemma lifecycle_deactivate (tx : Transaction) :
  lifecycle (tx_state tx) (tx_state (if bool_decide (tx_state tx = TxActive) then with_state TxInactive tx else tx)).
Proof. case_bool_decide as H; [rewrite H; apply lifecycle_one, TrDeactivate | apply rtc_refl]. Qed.

(** [abort_tx] on a transaction that is not finished nor aborting. *)
Lemma adv_abort_tx (w : World) (t : nat) :
  (forall tx, w_txs w !! t = Some tx -> is_finished tx = false) -> advances_from w (abort_tx t).
Proof.
  intros Hnf. unfold abort_tx. apply (step_get_tx_from tx_rel). intros tx Htx.
  apply adv_same_bind; [same_auto|]. intros cn w1 E1.
  apply adv_same_bind; [destruct (tx_snapshot tx); same_auto|]. intros _ w2 E2.
  apply adv_alter_from. intros tx2 Htx2. rewrite E2, E1, Htx in Htx2. injection Htx2 as <-.
  destruct (not_finished tx (Hnf tx Htx)). by apply lifecycle_one, TrAbort.
Qed.

Lemma adv_tx_abort (t : nat) : advances (tx_abort t).
Proof.
  intros w. unfold tx_abort. apply (step_get_tx_from tx_rel). intros tx Htx. apply (step_require_from tx_rel).
  intros [_ Hnf]%andb_true_iff. apply adv_abort_tx. intros tx' Htx'. rewrite Htx in Htx'. injection Htx' as <-.
  by apply negb_true_iff.
Qed.

Lemma adv_tx_commit (t : nat) : advances (tx_commit t).
Proof.
  intros w. unfold tx_commit. apply (step_get_tx_from tx_rel). intros tx Htx. apply (step_require_from tx_rel). intros Ha.
  apply adv_alter_from. intros tx' Htx'. rewrite Htx in Htx'. injection Htx' as <-.
  apply bool_decide_eq_true in Ha. cbn. rewrite Ha. apply lifecycle_one, TrCommit.
Qed.

(** The end of an event's dispatch: the transaction becomes inactive if
    it is active, then is aborted when [b] says so. *)
Lemma adv_deactivate_then (w : World) (t : nat) (b : Transaction -> bool) :
  (forall tx, w_txs w !! t = Some tx -> b tx = true -> is_finished tx = false) ->
  advances_from w (tx' <- get_tx t ;; (if is_active tx' then update_tx t (with_state TxInactive) else ret tt) ;;
                   if b tx' then abort_tx t else ret tt).
Proof.
  intros Hb. apply (step_get_tx_from tx_rel). intros tx Htx. apply adv_bind_from.
  - destruct (is_active tx) eqn:Ha; [|apply adv_of_same; same_auto].
    apply adv_alter_from. intros tx2 H2. rewrite Htx in H2. injection H2 as <-.
    apply bool_decide_eq_true in Ha. cbn. rewrite Ha. apply lifecycle_one, TrDeactivate.
  - intros [] w1 Hrun _. destruct (b tx) eqn:Eb; [|apply adv_of_same; same_auto].
    apply adv_abort_tx. intros tx1 Htx1. destruct (is_active tx); injection Hrun as <-.
    + cbn in Htx1. rewrite lookup_alter_eq, Htx in Htx1. by injection Htx1 as <-.
    + rewrite Htx in Htx1. injection Htx1 as <-. exact (Hb tx Htx Eb).
Qed.

Lemma adv_run_request (t r : nat) : advances (run_request t r).
Proof.
  unfold run_request. apply (step_bind tx_rel); [apply adv_of_same; same_auto|]. intros tx.
  apply (step_bind tx_rel); [apply adv_of_same; same_auto|]. intros cn.
  apply (step_bind tx_rel); [apply adv_of_same; same_auto|]. intros d.
  apply (step_get tx_rel). intros w. destruct (w_requests w !! r) as [rq|]; [|apply adv_of_same; same_auto].
  destruct (exec_request (rq_source rq) (rq_op rq) d) as [d' res]. revert w.
  apply (step_bind tx_rel); [apply adv_of_same; same_auto|]. intros [].
  apply (step_bind tx_rel); [apply adv_alter; intros; apply lifecycle_activate|]. intros [].
  apply (step_bind tx_rel); [apply adv_of_same; same_auto|]. intros [].
  apply (step_bind tx_rel); [apply adv_of_same; destruct res; same_auto|]. intros fl w1.
  apply (adv_deactivate_then w1 t (fun tx' => _ && negb (is_finished tx'))).
  intros tx' _ [_ H]%andb_true_iff. by apply negb_true_iff.
Qed.

Lemma adv_deliver_abort (w : World) (t : nat) :
  (forall tx, w_txs w !! t = Some tx -> tx_state tx = TxAborting) -> advances_from w (deliver_abort t).
Proof.
  intros Hab. unfold deliver_abort. apply (step_get_tx_from tx_rel). intros tx Htx. destruct (tx_requests tx) as [|r rs].
  - apply adv_bind_from; [|intros; apply adv_of_same; destruct (tx_openreq tx); same_auto].
    apply adv_alter_from. intros tx' Htx'. rewrite Htx in Htx'. injection Htx' as <-.
    cbn. rewrite (Hab tx Htx). apply lifecycle_one, TrAborted.
  - apply adv_bind_from; [apply adv_alter; intros; apply rtc_refl | intros; apply adv_of_same; same_auto].
Qed.

Lemma adv_finish_commit (w : World) (t : nat) :
  (forall tx, w_txs w !! t = Some tx -> tx_state tx = TxInactive \/ tx_state tx = TxCommitting) ->
  advances_from w (finish_commit t).
Proof.
  intros Hst. unfold finish_commit. apply (step_get_tx_from tx_rel). intros tx Htx.
  apply adv_bind_from; [|intros; apply adv_of_same; destruct (tx_openreq tx); same_auto].
  apply adv_alter_from. intros tx' Htx'. rewrite Htx in Htx'. injection Htx' as <-.
  cbn. destruct (Hst tx Htx) as [-> | ->]; apply lifecycle_one; constructor.
Qed.

(** A step of an open request; an upgrade creates its transaction at a
    fresh id, active, and aborts it when the migration threw. *)
Lemma adv_run_open (r : nat) (name : string) (version : Z) (rq : Request) : advances (run_open r name version rq).
Proof.
  unfold run_open. apply (step_get tx_rel). intros w. cbv zeta.
  apply adv_bind_from; [apply adv_of_same; same_auto|]. intros [] w1 _ _.
  destruct (version <? _)%Z; [apply adv_of_same; same_auto|]. destruct (version =? _)%Z; [apply adv_of_same; same_auto|].
  case_bool_decide; [apply adv_of_same; same_auto|].
  apply adv_bind_from; [apply adv_of_same; same_auto|]. intros c w2 _ _.
  apply adv_bind_from; [apply adv_of_same; same_auto|]. intros t w3 Hrun Hf.
  rewrite fresh_run in Hrun. injection Hrun as <- <-.
  apply adv_bind_from; [apply adv_insert_from; [exact (txs_fresh_next _ Hf) | cbn; lia]|]. intros [] w4 Hrun4 _.
  injection Hrun4 as <-.
  do 3 (apply adv_same_bind; [same_auto|]; intros [] ? ?).
  apply adv_same_bind; [same_auto|]. intros fl ? ?.
  apply (adv_deactivate_then _ (w_next w2) (fun _ => fl.2)). intros tx Htx _.
  repeat match goal with H : w_txs _ = w_txs _ |- _ => rewrite H in Htx; clear H end.
  cbn in Htx. rewrite lookup_insert_eq in Htx. by injection Htx as <-.
Qed.

Lemma adv_tx_task (w : World) (t : nat) (tx : Transaction) (m : JS unit) :
  w_txs w !! t = Some tx -> tx_task w t tx = Some m -> advances_from w m.
Proof.
  intros Htx. unfold tx_task. destruct (tx_state tx) eqn:Hs; try discriminate.
  3: intros [= <-]; apply adv_deliver_abort; intros tx' Htx'; congruence.
  all: destruct (tx_requests tx) as [|r rs];
    [intros [= <-]; apply adv_finish_commit; intros tx' Htx'; rewrite Htx in Htx'; injection Htx' as <-; rewrite Hs; auto
    | destruct (runnable w t tx); intros [= <-]; apply adv_run_request].
Qed.

Lemma adv_host_step : advances host_step.
Proof.
  unfold host_step. apply (step_get tx_rel). intros w.
  destruct (omap _ (map_to_list (w_txs w))) as [|m ms] eqn:E1.
  - destruct (omap _ (map_to_list (w_requests w))) as [|m ms] eqn:E2; [apply adv_of_same; same_auto|].
    apply adv_bind_from; [|intros; apply adv_of_same; same_auto].
    assert (Hm : m ∈ omap (fun rrq => open_task w rrq.1 rrq.2) (map_to_list (w_requests w))) by (rewrite E2; left).
    apply list_elem_of_omap in Hm as ([r rq] & _ & Hx). unfold open_task in Hx.
    apply fmap_Some in Hx as (nv & _ & ->). apply adv_run_open.
  - apply adv_bind_from; [|intros; apply adv_of_same; same_auto].
    assert (Hm : m ∈ omap (fun ttx => tx_task w ttx.1 ttx.2) (map_to_list (w_txs w))) by (rewrite E1; left).
    apply list_elem_of_omap in Hm as ([t tx] & Hin & Hx). apply elem_of_map_to_list in Hin.
    exact (adv_tx_task w t tx m Hin Hx).
Qed.

Lemma adv_run_task {A} (m : JS A) : advances m -> advances (run_task m).
Proof.
  intros Hm. unfold run_task, end_task.
  apply (step_bind tx_rel); [apply (step_catch tx_rel); [apply (step_bind tx_rel); [done | intros; apply (step_ret tx_rel)] |
    intros; apply adv_of_same; same_auto] |].
  intros r. apply (step_bind tx_rel); [apply adv_fmap, lifecycle_deactivate | intros; apply (step_ret tx_rel)].
Qed.

(** ** The wrapper's calls *)


Lemma adv_update_listeners (tg : Target) f : advances (st_modify (update_listeners tg f)).
Proof.
  destruct tg as [r|t|c]; cbn [update_listeners];
    [apply adv_of_same; same_auto | apply adv_alter; intros; apply rtc_refl | apply adv_of_same; same_auto].
Qed.

Lemma adv_add_listener (tg : Target) (ty : EvType) (l : Listener) : advances (add_listener tg ty l).
Proof. apply adv_update_listeners. Qed.

Lemma adv_remove_listener (tg : Target) (ty : EvType) (l : Listener) : advances (remove_listener tg ty l).
Proof. apply adv_update_listeners. Qed.

Lemma same_fresh : txs_same fresh.
Proof. same_auto. Qed.
Lemma same_alloc_promise : txs_same alloc_promise.
Proof. same_auto. Qed.
Lemma same_alloc_object (o : WrapperObj) : txs_same (alloc_object o).
Proof. same_auto. Qed.
Lemma same_reject (p : nat) (r : Reason) : txs_same (reject p r).
Proof. same_auto. Qed.
Lemma same_get_conn (c : nat) : txs_same (get_conn c).
Proof. same_auto. Qed.
Lemma same_get_db (n : string) : txs_same (get_db n).
Proof. same_auto. Qed.
Lemma same_get_tx (t : nat) : txs_same (get_tx t).
Proof. same_auto. Qed.

Lemma adv_new_promise (ex : nat -> JS unit) : (forall p, advances (ex p)) -> advances (new_promise ex).
Proof.
  intros Hex. unfold new_promise. apply (step_bind tx_rel); [apply adv_of_same, same_alloc_promise|]. intros p.
  apply (step_bind tx_rel); [apply (step_catch tx_rel); [apply Hex | intros; apply adv_of_same, same_reject] | intros; apply (step_ret tx_rel)].
Qed.

Lemma adv_request_promise (call : JS nat) (on_success : nat -> nat -> Listener) :
  advances call -> advances (request_promise call on_success).
Proof.
  intros Hc. apply adv_new_promise. intros p.
  apply (step_bind tx_rel); [done|]. intros r. apply (step_bind tx_rel); [apply adv_add_listener | intros; apply adv_add_listener].
Qed.

Lemma adv_place_request (t : nat) (src : Source) (op : ReqOp) : advances (place_request t src op).
Proof.
  unfold place_request. apply (step_bind tx_rel); [apply adv_of_same, same_fresh|]. intros r.
  apply (step_bind tx_rel); [apply adv_of_same; same_auto|]. intros [].
  apply (step_bind tx_rel); [apply adv_alter; intros; apply rtc_refl | intros; apply (step_ret tx_rel)].
Qed.

Create HintDb adv.
#[export] Hint Unfold store_index tx_objectStore factory_open db_store_names db_close conn_of_tx
  get_store get_index count_arg key_range_of require : adv.

(** One step of a computation built from binds, branches, the
    operations above and computations that leave transactions alone: the
    [leaf] tactic is called on the atoms only. *)
Ltac adv_leaf :=
  idtac; match goal with
  | |- advances (place_request _ _ _) => apply adv_place_request
  | |- advances (tx_abort _) => apply adv_tx_abort
  | |- advances (tx_commit _) => apply adv_tx_commit
  | |- advances (add_listener _ _ _) => apply adv_add_listener
  | |- advances (remove_listener _ _ _) => apply adv_remove_listener
  | |- advances (request_promise _ _) => apply adv_request_promise
  | |- advances (new_promise _) => apply adv_new_promise; intros
  | |- advances _ => solve [eassumption | apply adv_of_same; autounfold with adv same; eauto 20 with frame same]
  end.
Ltac adv_step leaf :=
  first [ match goal with
          | |- advances (st_bind fresh (fun t => st_bind (st_modify (set_txs (insert t _))) _)) =>
              apply adv_insert_fresh; intros
          end
        | frame_step leaf ].

Lemma adv_store_read h nd q op : advances (store_read h nd q op).
Proof. unfold store_read, require, key_range_of. repeat adv_step adv_leaf. Qed.
Lemma adv_store_write h nd q op : advances (store_write h nd q op).
Proof. unfold store_write, require, key_range_of. repeat adv_step adv_leaf. Qed.
Lemma adv_store_add_or_put h v k b : advances (store_add_or_put h v k b).
Proof. unfold store_add_or_put, require. repeat adv_step adv_leaf. Qed.
Lemma adv_index_read h nd q op : advances (index_read h nd q op).
Proof. unfold index_read, require, key_range_of. repeat adv_step adv_leaf. Qed.
Lemma adv_db_transaction c ns m o : advances (db_transaction c ns m o).
Proof. unfold db_transaction, require. repeat adv_step adv_leaf. Qed.

Ltac adv_method :=
  idtac; match goal with
  | |- advances (store_read _ _ _ _) => apply adv_store_read
  | |- advances (store_write _ _ _ _) => apply adv_store_write
  | |- advances (store_add_or_put _ _ _ _) => apply adv_store_add_or_put
  | |- advances (index_read _ _ _ _) => apply adv_index_read
  | |- advances (db_transaction _ _ _ _) => apply adv_db_transaction
  | |- _ => adv_leaf
  end.

Lemma adv_run_call (c : Call) : advances (run_call c).
Proof. destruct c; cbn; autounfold with wrapper; cbn; unfold count_arg; repeat adv_step adv_method. Qed.

Lemma sys_step_advances (w w' : World) : sys_step w w' -> txs_fresh w -> txs_fresh w' /\ evolves w w'.
Proof.
  destruct 1 as [c w0 w1 o Hr | w0 w1 o Hr]; intros Hf;
    [exact (adv_run_task _ (step_run_calls tx_rel c adv_run_call) w0 o w1 Hr Hf) | exact (adv_host_step w0 o w1 Hr Hf)].
Qed.

Lemma reachable_advances (w w' : World) : reachable w w' -> txs_fresh w -> txs_fresh w' /\ evolves w w'.
Proof.
  induction 1 as [w|w1 w2 w3 H12 _ IH]; intros Hf; [split; [done | reflexivity]|].
  destruct (sys_step_advances _ _ H12 Hf) as [Hf2 E12]. destruct (IH Hf2) as [Hf3 E23].
  split; [done | by etrans].
Qed.

Lemma evolves_state_of (w w' : World) (t : nat) (s : TxState) :
  evolves w w' -> tx_state_of w t = Some s -> exists s', tx_state_of w' t = Some s' /\ lifecycle s s'.
Proof.
  unfold tx_state_of. intros E (tx & Htx & ->)%fmap_Some. destruct (E t tx Htx) as (tx' & Htx' & L).
  exists (tx_state tx'). by rewrite Htx'.
Qed.

Lemma lifecycle_finished (s : TxState) : lifecycle TxFinished s -> s = TxFinished.
Proof. intros L. remember TxFinished as f eqn:Ef. induction L as [|s1 s2 s3 H12 _ IH]; subst; [done | inversion H12; congruence]. Qed.

Lemma lifecycle_aborting (s : TxState) : lifecycle TxAborting s -> s = TxAborting \/ s = TxFinished.
Proof.
  intros L. remember TxAborting as a eqn:Ea. induction L as [|s1 s2 s3 H12 L23 IH]; subst; [by left|].
  inversion H12 as [| | |s Ha Hf| | |]; subst; [congruence|]. right. exact (lifecycle_finished _ L23).
Qed.

Lemma txs_fresh_of_forall (w : World) : map_Forall (fun t _ => t < w_next w) (w_txs w) -> txs_fresh w.
Proof. intros Hall t [tx Ht]. exact (Hall t tx Ht). Qed.

(** C12: every run of a client program against the platform moves each
    transaction along the state machine [tx_trans]: a transaction never
    disappears, and its state only changes by the transitions of the
    platform's code (activation for a request's events, deactivation,
    commit, abort, finishing). *)
Theorem reachable_tx_lifecycle (w w' : World) (t : nat) (s : TxState) :
  reachable w w' -> txs_fresh w -> tx_state_of w t = Some s ->
  exists s', tx_state_of w' t = Some s' /\ lifecycle s s'.
Proof. intros Hr Hf. apply evolves_state_of. exact (proj2 (reachable_advances w w' Hr Hf)). Qed.

(** A finished transaction stays finished in every run: whatever the
    client calls afterwards ([commit()], [abort()], a request) and
    whatever the platform runs. *)
Theorem finished_stays_finished (w w' : World) (t : nat) :
  reachable w w' -> txs_fresh w -> tx_state_of w t = Some TxFinished -> tx_state_of w' t = Some TxFinished.
Proof.
  intros Hr Hf Hs. destruct (evolves_state_of w w' t _ (proj2 (reachable_advances w w' Hr Hf)) Hs) as (s' & Hs' & L).
  by rewrite Hs', (lifecycle_finished _ L).
Qed.

(** An aborting transaction can only finish: it is never activated,
    committed or revived by a later call or platform step. *)
Theorem aborting_only_finishes (w w' : World) (t : nat) :
  reachable w w' -> txs_fresh w -> tx_state_of w t = Some TxAborting ->
  tx_state_of w' t = Some TxAborting \/ tx_state_of w' t = Some TxFinished.
Proof.
  intros Hr Hf Hs. destruct (evolves_state_of w w' t _ (proj2 (reachable_advances w w' Hr Hf)) Hs) as (s' & Hs' & L).
  rewrite Hs'. destruct (lifecycle_aborting _ L) as [-> | ->]; [by left | by right].
Qed.

(** C13: [commit()] through the wrapper (spec 4.4) on an active
    transaction marks it committing; on a transaction that is not active
    it throws [InvalidStateError] and changes nothing. *)
Theorem commit_requires_active (w : World) (t : nat) (tx : Transaction) :
  w_txs w !! t = Some tx ->
  (is_active tx = true -> exists w', PromisedIndexedDbTransaction_commit (mkPTx t) w = (Normal tt, w') /\
                                     tx_state_of w' t = Some TxCommitting) /\
  (is_active tx = false -> PromisedIndexedDbTransaction_commit (mkPTx t) w = (Throw InvalidStateError, w)).
Proof.
  intros Htx. unfold PromisedIndexedDbTransaction_commit. cbn [IDBTransaction_commit platform transaction].
  unfold tx_commit. rewrite (st_bind_run_normal _ _ _ _ _ (get_tx_run _ _ _ Htx)). unfold require.
  split; intros ->; [|by rewrite st_bind_throw].
  rewrite st_bind_ret_l. eexists. split; [reflexivity|].
  unfold tx_state_of. cbn. by rewrite lookup_alter_eq, Htx.
Qed.

Lemma reachable_tx_lifecycle_witness :
  tx_state_of demo_world 1 = Some TxActive /\
  exists s', tx_state_of committed_world 1 = Some s' /\ lifecycle TxActive s'.
Proof.
  split; [vm_compute; reflexivity|].
  apply (reachable_tx_lifecycle demo_world committed_world 1 TxActive).
  - unfold committed_world, call_then_step. eapply rtc_l; [apply sys_call|].
    eapply rtc_l; [eapply SysHost, surjective_pairing | reflexivity].
  - apply txs_fresh_of_forall, (bool_decide_unpack _). vm_compute. exact I.
  - vm_compute. reflexivity.
Defined.

(** A [get] on the finished transaction 1 leaves it finished. *)
Lemma finished_stays_finished_witness :
  tx_state_of committed_world 1 = Some TxFinished /\ tx_state_of after_late_get 1 = Some TxFinished.
Proof.
  split; [vm_compute; reflexivity|].
  apply (finished_stays_finished committed_world after_late_get 1).
  - unfold after_late_get, call_then_step. eapply rtc_l; [apply sys_call|].
    eapply rtc_l; [eapply SysHost, surjective_pairing | reflexivity].
  - apply txs_fresh_of_forall, (bool_decide_unpack _). vm_compute. exact I.
  - vm_compute. reflexivity.
Defined.

Lemma aborting_only_finishes_witness :
  tx_state_of aborted_world 1 = Some TxAborting /\
  (tx_state_of (snd (host_step aborted_world)) 1 = Some TxAborting \/
   tx_state_of (snd (host_step aborted_world)) 1 = Some TxFinished).
Proof.
  split; [vm_compute; reflexivity|].
  apply (aborting_only_finishes aborted_world (snd (host_step aborted_world)) 1).
  - eapply rtc_l; [eapply SysHost, surjective_pairing | reflexivity].
  - apply txs_fresh_of_forall, (bool_decide_unpack _). vm_compute. exact I.
  - vm_compute. reflexivity.
Defined.

(** Transaction 1 of [Host.demo_world] is active: [commit()] marks it
    committing; once it finished, [commit()] throws. *)
Lemma commit_requires_active_witness :
  (exists w', PromisedIndexedDbTransaction_commit (mkPTx 1) demo_world = (Normal tt, w') /\
              tx_state_of w' 1 = Some TxCommitting) /\
  PromisedIndexedDbTransaction_commit (mkPTx 1) committed_world = (Throw InvalidStateError, committed_world).
Proof.
  split.
  - apply (commit_requires_active demo_world 1 (mkTx 0 ["items"] ReadWrite TxActive [] None false None []));
      vm_compute; reflexivity.
  - apply (commit_requires_active committed_world 1
             (default (mkTx 0 [] ReadOnly TxActive [] None false None []) (w_txs committed_world !! 1)));
      vm_compute; reflexivity.
Defined.
