(* ===== verification/StoreWf.v ===== *)
(** * StoreWf: every object store stays well formed

    [Store.store_wf] is the invariant of one object store: records
    strictly sorted by key (so no two records share a key) and the key
    generator above every numeric key it could still produce.  A
    database is well formed when all its stores are; a world when all its
    databases are, and every snapshot a transaction keeps for an abort.
    Every operation that writes a database preserves this: a request's
    store operation ([Host.exec_request], through
    [Host.exec_store_op_wf]), an upgrade's schema changes
    ([World.schema_step]), an abort that restores the snapshot or the
    stores of the scope ([Host.revert_scope]), and the creation of a
    database by [Host.run_open].  With [Frame], every wrapper call and
    every platform step preserves it, so it holds in every world a client
    program can reach. *)

From S2P Require Import Prelude Keys Store Promise World Host Wrapper System Frame.

Local Open Scope st_scope.

Definition db_wf (d : Database) : Prop := map_Forall (fun _ s => store_wf s) (db_stores d).

Definition world_wf (w : World) : Prop :=
  (forall name d, w_dbs w !! name = Some d -> db_wf d) /\
  (forall t tx snap, w_txs w !! t = Some tx -> tx_snapshot tx = Some snap -> db_wf snap).

Definition wf_rel (w w' : World) : Prop := world_wf w -> world_wf w'.

Abbreviation wf_ok := (step_ok wf_rel).
Abbreviation wf_from := (step_from wf_rel).

(** [items.put("pen", 5)] through the wrapper on [Host.demo_world], then
    one platform step, which runs the request. *)
Definition demo_put_ran : World :=
  call_then_step (CStorePut (mkPStore (mkStoreHandle 1 "items")) (JStr "pen") (Some (JNum 5))) demo_world.

#[export] Instance wf_rel_preorder : PreOrder wf_rel.
Proof. split; [intros w Hw; exact Hw | intros w1 w2 w3 H12 H23 H1; auto]. Qed.

(** A run from a world that is not well formed has nothing to preserve. *)
Lemma wf_assume {A} (w : World) (m : JS A) : (world_wf w -> wf_from w m) -> wf_from w m.
Proof. intros H o w' Hrun Hw. exact (H Hw o w' Hrun Hw). Qed.

(** ** Databases *)

Lemma store_wf_set_indexes (s : ObjectStore) ixs : store_wf s -> store_wf (set_indexes s ixs).
Proof. done. Qed.

Lemma exec_request_wf (src : Source) (op : ReqOp) (d : Database) : db_wf d -> db_wf (exec_request src op d).1.
Proof.
  intros Hd. destruct src as [h|h|]; cbn [exec_request]; repeat case_match; cbn [fst]; try done.
  match goal with H : exec_store_op ?op ?s = (?s', _) |- _ =>
    pose proof (exec_store_op_wf op s) as Hs; rewrite H in Hs end.
  apply map_Forall_insert_2; [|done]. apply Hs, (Hd _ _ ltac:(eassumption)).
Qed.

Lemma schema_step_wf (d : Database) (cmd : SchemaCmd) (d' : Database) :
  db_wf d -> schema_step d cmd = Done d' -> db_wf d'.
Proof.
  intros Hd. destruct cmd; cbn [schema_step]; repeat case_match; intros [=<-]; unfold db_wf; cbn [db_stores].
  - apply map_Forall_insert_2; [apply new_store_wf | done].
  - by apply map_Forall_delete.
  - apply map_Forall_insert_2; [apply store_wf_set_indexes, (Hd _ _ ltac:(eassumption)) | done].
  - apply map_Forall_insert_2; [apply store_wf_set_indexes, (Hd _ _ ltac:(eassumption)) | done].
Qed.

Lemma revert_scope_wf (snap cur : Database) (scope : list string) :
  db_wf snap -> db_wf cur -> db_wf (revert_scope snap cur scope).
Proof.
  intros Hs Hc. unfold revert_scope, db_wf. cbn [db_stores].
  induction scope as [|n scope IH]; cbn [fold_right]; [done|].
  destruct (db_stores snap !! n) eqn:E; [apply map_Forall_insert_2; [exact (Hs _ _ E) | done] | by apply map_Forall_delete].
Qed.

(** ** Updates of the world *)

Lemma wf_keep (f : World -> World) :
  (forall w, w_dbs (f w) = w_dbs w /\ w_txs (f w) = w_txs w) -> wf_ok (st_modify f).
Proof. intros Hf. apply (step_modify wf_rel). intros w Hw. destruct (Hf w) as [Ed Et]. unfold world_wf. by rewrite Ed, Et. Qed.

(** A transaction update that keeps the snapshot, or takes one that is
    well formed. *)
Lemma wf_alter_tx (t : nat) (f : Transaction -> Transaction) :
  (forall tx snap, tx_snapshot (f tx) = Some snap -> tx_snapshot tx = Some snap \/ db_wf snap) ->
  wf_ok (st_modify (set_txs (alter f t))).
Proof.
  intros Hf. apply (step_modify wf_rel). intros w [Hd Hs]. split; [done|]. intros t' tx snap Ht' Hsnap.
  cbn in Ht'. destruct (decide (t = t')) as [<-|Hne].
  - rewrite lookup_alter_eq in Ht'. destruct (w_txs w !! t) as [tx0|] eqn:E; [|done]. injection Ht' as <-.
    destruct (Hf tx0 snap Hsnap) as [H|H]; [exact (Hs _ _ _ E H) | exact H].
  - rewrite lookup_alter_ne in Ht' by done. exact (Hs _ _ _ Ht' Hsnap).
Qed.

Lemma wf_fmap_tx (f : Transaction -> Transaction) :
  (forall tx, tx_snapshot (f tx) = tx_snapshot tx) -> wf_ok (st_modify (set_txs (fmap f))).
Proof.
  intros Hf. apply (step_modify wf_rel). intros w [Hd Hs]. split; [done|]. intros t tx snap Ht Hsnap.
  cbn in Ht. rewrite lookup_fmap in Ht. apply fmap_Some in Ht as (tx0 & Ht & ->). rewrite Hf in Hsnap.
  exact (Hs _ _ _ Ht Hsnap).
Qed.

Lemma wf_insert_tx (t : nat) (tx0 : Transaction) :
  (forall snap, tx_snapshot tx0 = Some snap -> db_wf snap) -> wf_ok (st_modify (set_txs (insert t tx0))).
Proof.
  intros H0. apply (step_modify wf_rel). intros w [Hd Hs]. split; [done|]. intros t' tx snap Ht Hsnap.
  cbn in Ht. destruct (decide (t = t')) as [<-|Hne].
  - rewrite lookup_insert_eq in Ht. injection Ht as <-. exact (H0 _ Hsnap).
  - rewrite lookup_insert_ne in Ht by done. exact (Hs _ _ _ Ht Hsnap).
Qed.

Lemma wf_set_db (n : string) (d : Database) : db_wf d -> wf_ok (st_modify (set_db n d)).
Proof.
  intros H. apply (step_modify wf_rel). intros w [Hd Hs]. split; [|done]. intros n' d' Hn. cbn in Hn.
  destruct (decide (n = n')) as [<-|Hne]; [rewrite lookup_insert_eq in Hn; by injection Hn as <-|].
  rewrite lookup_insert_ne in Hn by done. exact (Hd _ _ Hn).
Qed.

Lemma wf_update_listeners (tg : Target) f : wf_ok (st_modify (update_listeners tg f)).
Proof. destruct tg; cbn [update_listeners]; [apply wf_keep; done | apply wf_alter_tx; auto | apply wf_keep; done]. Qed.

(** ** The operations *)

Create HintDb wfu.
#[export] Hint Unfold fresh alloc_promise alloc_object resolve reject get_tx get_conn get_db update_tx
  update_request complete_request close_conn db_close new_connection new_promise request_promise
  place_request store_read store_write store_add_or_put index_read get_store get_index count_arg
  key_range_of require tx_objectStore store_index db_store_names factory_open db_transaction
  tx_commit tx_abort add_listener remove_listener with_state : wfu.

(** The atoms of a computation: the updates above, the operations proved
    below, or a definition to unfold. *)
Ltac wf_leaf :=
  idtac; match goal with
  | |- wf_ok (st_ret _) => apply (step_ret wf_rel)
  | |- wf_ok (st_throw _) => apply (step_throw wf_rel)
  | |- wf_ok (st_modify (set_txs (alter _ _))) => apply wf_alter_tx; intros ? ? ?; left; assumption
  | |- wf_ok (st_modify (set_txs (insert _ _))) => apply wf_insert_tx; intros ? [=]
  | |- wf_ok (st_modify (update_listeners _ _)) => apply wf_update_listeners
  | |- wf_ok (st_modify _) => apply wf_keep; intros; split; reflexivity
  | |- wf_ok ?m => solve [eauto with wfops]
  | |- wf_ok _ => progress autounfold with wfu
  end.

Create HintDb wfops.

Lemma wf_run_schema (c : nat) cmds : wf_ok (run_schema c cmds).
Proof.
  induction cmds as [|cmd cmds IH]; cbn [run_schema]; [apply (step_ret wf_rel)|].
  intros w. apply (step_get_from wf_rel). apply wf_assume. intros [Hd _].
  destruct (w_conns w !! c) as [cn|]; [|apply (step_throw wf_rel)].
  destruct (w_dbs w !! conn_name cn) as [d|] eqn:Ed; [|apply (step_throw wf_rel)].
  destruct (schema_step d cmd) as [d'|e] eqn:Es; [|apply (step_throw wf_rel)].
  apply (step_bind wf_rel); [apply wf_set_db, (schema_step_wf d cmd d' (Hd _ _ Ed) Es) | intros; apply IH].
Qed.
#[export] Hint Resolve wf_run_schema : wfops.

Lemma wf_run_listener (l : Listener) (ev : Event) : wf_ok (run_listener l ev).
Proof. destruct l; cbn [run_listener]; repeat frame_step wf_leaf. Qed.
#[export] Hint Resolve wf_run_listener : wfops.

Lemma wf_dispatch_listeners ls (ev : Event) : wf_ok (dispatch_listeners ls ev).
Proof. induction ls as [|[ty l] ls IH]; cbn [dispatch_listeners]; repeat frame_step wf_leaf. Qed.
#[export] Hint Resolve wf_dispatch_listeners : wfops.

Lemma wf_dispatch_path path (ev : Event) : wf_ok (dispatch_path path ev).
Proof. induction path as [|tg path IH]; cbn [dispatch_path]; repeat frame_step wf_leaf. Qed.
#[export] Hint Resolve wf_dispatch_path : wfops.

Lemma wf_abort_tx (t : nat) : wf_ok (abort_tx t).
Proof.
  intros w. apply wf_assume. intros [Hd Hs]. unfold abort_tx. apply (step_get_tx_from wf_rel). intros tx Htx.
  apply (step_get_conn_from wf_rel). intros cn Hcn. apply (step_bind_from wf_rel).
  - destruct (tx_snapshot tx) as [snap|] eqn:Esnap; [|apply (step_ret wf_rel)].
    apply (step_get_db_from wf_rel). intros d Ed. apply wf_set_db.
    case_bool_decide; [exact (Hs _ _ _ Htx Esnap) | apply revert_scope_wf; eauto].
  - intros [] w1 _. unfold update_tx. apply wf_alter_tx. intros ? ? ?. by left.
Qed.
#[export] Hint Resolve wf_abort_tx : wfops.

Lemma wf_run_request (t r : nat) : wf_ok (run_request t r).
Proof.
  intros w. apply wf_assume. intros [Hd Hs]. unfold run_request.
  apply (step_get_tx_from wf_rel). intros tx Htx. apply (step_get_conn_from wf_rel). intros cn Hcn.
  apply (step_get_db_from wf_rel). intros d Ed. apply (step_get_from wf_rel).
  destruct (w_requests w !! r) as [rq|]; [|apply (step_ret wf_rel)].
  destruct (exec_request (rq_source rq) (rq_op rq) d) as [d' res] eqn:Ex.
  apply (step_bind wf_rel); [apply wf_set_db;
    replace d' with (exec_request (rq_source rq) (rq_op rq) d).1 by (by rewrite Ex); exact (exec_request_wf _ _ _ (Hd _ _ Ed))|].
  intros []. apply (step_bind wf_rel); [|intros; repeat frame_step wf_leaf].
  apply wf_alter_tx. intros tx' snap. cbn [tx_snapshot]. destruct (tx_snapshot tx'); intros [=<-]; [by left | right].
  exact (Hd _ _ Ed).
Qed.

Lemma wf_run_open (r : nat) (name : string) (version : Z) (rq : Request) : wf_ok (run_open r name version rq).
Proof.
  unfold run_open. apply (step_get wf_rel). intros w. apply wf_assume. intros [Hd _]. cbv zeta.
  assert (Hdw : db_wf (default (mkDb 0 ∅) (w_dbs w !! name))).
  { destruct (w_dbs w !! name) eqn:E; [exact (Hd _ _ E) | apply map_Forall_empty]. }
  apply (step_bind wf_rel); [by apply wf_set_db|]. intros [].
  repeat case_match; repeat frame_step wf_leaf.
  - match goal with H : _ = snap |- _ => rewrite <- H end. exact Hdw.
  - apply (step_bind wf_rel); [by apply wf_set_db | intros; repeat frame_step wf_leaf].
Qed.

#[export] Hint Resolve wf_run_request wf_run_open : wfops.

Lemma wf_host_step : wf_ok host_step.
Proof.
  unfold host_step. apply (step_get_any wf_rel). intros w.
  destruct (omap _ (map_to_list (w_txs w))) as [|m ms] eqn:E1;
    [destruct (omap _ (map_to_list (w_requests w))) as [|m ms] eqn:E2; [apply (step_ret wf_rel)|] |];
    (apply (step_bind wf_rel); [|intros; apply (step_ret wf_rel)]);
    (eapply (step_first_task wf_rel); [|eassumption]).
  - intros [r rq] m' Hm. unfold open_task in Hm. apply fmap_Some in Hm as (nv & _ & ->). apply wf_run_open.
  - intros [t tx] m' Hm. unfold tx_task in Hm. repeat case_match; try discriminate; injection Hm as <-; eauto with wfops.
    all: unfold deliver_abort, finish_commit; repeat frame_step wf_leaf.
Qed.

Lemma wf_run_task {A} (m : JS A) : wf_ok m -> wf_ok (run_task m).
Proof.
  intros Hm. unfold run_task, end_task. repeat frame_step wf_leaf.
  apply wf_fmap_tx. intros tx. by case_bool_decide.
Qed.

Lemma wf_run_call (c : Call) : wf_ok (run_call c).
Proof. destruct c; cbn; autounfold with wrapper; cbn; repeat frame_step wf_leaf. Qed.

Lemma reachable_world_wf (w w' : World) : reachable w w' -> world_wf w -> world_wf w'.
Proof.
  induction 1 as [w|w1 w2 w3 H12 _ IH]; intros Hw; [done|]. apply IH.
  destruct H12 as [c w1 w2 o Hr | w1 w2 o Hr];
    [exact (wf_run_task _ (step_run_calls _ c wf_run_call) w1 o w2 Hr Hw) | exact (wf_host_step w1 o w2 Hr Hw)].
Qed.

Lemma demo_world_wf : world_wf demo_world.
Proof.
  split.
  - intros name d Hd. cbn [demo_world w_dbs] in Hd. apply lookup_singleton_Some in Hd as [_ <-].
    intros n s Hs. cbn [db_stores] in Hs. apply lookup_singleton_Some in Hs as [_ <-]. apply new_store_wf.
  - intros t tx snap Ht. cbn [demo_world w_txs] in Ht. apply lookup_singleton_Some in Ht as [_ <-]. discriminate.
Qed.

(** C14: in every world a client program can reach from a well-formed one
    (any interleaving of wrapper calls and platform steps: requests,
    aborts that restore snapshots, upgrades that run migrations), every
    object store of every database is well formed: its records are
    strictly sorted by key, so keys are unique, and its key generator is
    above every numeric key it could still generate. *)
Theorem reachable_stores_wf (w w' : World) (name : string) (d : Database) (n : string) (s : ObjectStore) :
  reachable w w' -> world_wf w -> w_dbs w' !! name = Some d -> db_stores d !! n = Some s -> store_wf s.
Proof. intros Hr Hw Hd Hs. exact (proj1 (reachable_world_wf w w' Hr Hw) name d Hd n s Hs). Qed.

(** After [put("pen", 5)] ran, the store holds key 5 and its key
    generator has moved to 6. *)
Lemma reachable_stores_wf_witness :
  (exists d s, w_dbs demo_put_ran !! "shop" = Some d /\ db_stores d !! "items" = Some s /\
               os_records s = [(KNum 5, JStr "pen")] /\ os_current s = 6%Z /\ store_wf s).
Proof.
  do 2 eexists. split_and!; [vm_compute; reflexivity .. |].
  eapply (reachable_stores_wf demo_world demo_put_ran "shop" _ "items").
  - unfold demo_put_ran, call_then_step. eapply rtc_l; [apply sys_call|].
    eapply rtc_l; [eapply SysHost, surjective_pairing | reflexivity].
  - exact demo_world_wf.
  - vm_compute. reflexivity.
  - vm_compute. reflexivity.
Defined.
