(* ===== verification/Termination.v ===== *)
(** * Termination: the platform always finishes its work

    [Host.run_host fuel] runs [Host.host_step] until it reports that
    nothing is left to do, or the fuel runs out.  This file shows that
    the fuel never matters: every step the platform takes retires part of
    a finite amount of pending work, so a fuel above that amount always
    ends with the platform idle, and normally (no step throws).

    The pending work of a world is [host_measure]: for each transaction,
    two units per queued request and two for its commit while it runs,
    one per request and one for the abort event while it is aborting,
    nothing once finished ([tx_weight]); for each open request not yet
    done, four units, three once it reported 'blocked' ([open_weight]).
    Running a request, delivering an abort, committing and a step of an
    open request each lower it.  The proofs hold in every world where the
    requests queued by a transaction exist and the connection and
    database of every transaction exist ([host_ok]); every platform step
    and every wrapper call preserves it, so it holds in every world a
    client program reaches from the empty world ([System.reachable]).

    The steps are reasoned about with a weakest precondition [wp] for the
    state-and-exception monad of [Prelude]: [wp m Q w] says that [m] run
    from [w] returns normally with a result and a world satisfying [Q]. *)

From S2P Require Import Prelude Keys Store Promise World Host Wrapper Scenarios System Frame.

Local Open Scope st_scope.

(** ** Definitions *)

(** [wp m Q s]: [m] run from [s] returns normally, with a result and a
    state satisfying [Q]. *)
Definition wp {E S A} (m : st E S A) (Q : A -> S -> Prop) (s : S) : Prop :=
  match m s with
  | (Normal a, s') => Q a s'
  | (Throw _, _) => False
  end.

(** The sum of [g] over the values of a finite map. *)
Definition msum {K V} `{Countable K} (g : V -> nat) (m : gmap K V) : nat := map_fold (fun _ v n => g v + n) 0 m.

Definition tx_weight (tx : Transaction) : nat :=
  match tx_state tx with
  | TxFinished => 0
  | TxAborting => S (length (tx_requests tx))
  | _ => 2 * length (tx_requests tx) + 2
  end.

Definition open_weight (rq : Request) : nat :=
  match rq_op rq with
  | OpOpen _ _ => if rq_done rq then 0 else if rq_blocked rq then 3 else 4
  | _ => 0
  end.

Definition host_measure (w : World) : nat := msum tx_weight (w_txs w) + msum open_weight (w_requests w).

(** The requests a transaction queued exist, and so do its connection
    and the connection's database. *)
Definition tx_ok (w : World) (tx : Transaction) : Prop :=
  Forall (fun r => is_Some (w_requests w !! r)) (tx_requests tx) /\
  match w_conns w !! tx_conn tx with Some cn => is_Some (w_dbs w !! conn_name cn) | None => False end.

#[export] Instance tx_ok_dec (w : World) (tx : Transaction) : Decision (tx_ok w tx).
Proof. unfold tx_ok. destruct (w_conns w !! tx_conn tx); apply _. Defined.

Definition host_ok (w : World) : Prop := map_Forall (fun _ tx => tx_ok w tx) (w_txs w).

#[export] Instance host_ok_dec (w : World) : Decision (host_ok w).
Proof. unfold host_ok. apply _. Defined.

(** A step of the platform that made progress. *)
Definition host_moves (w w' : World) : Prop := host_step w = (Normal true, w').

(** Dispatch runs the listeners: it resolves promises, allocates
    wrapper objects, logs, and runs a migration's schema changes, which
    write databases but never remove one. *)
Definition quiet (w w' : World) : Prop :=
  w_txs w' = w_txs w /\ w_requests w' = w_requests w /\ w_conns w' = w_conns w /\
  forall n, is_Some (w_dbs w !! n) -> is_Some (w_dbs w' !! n).

(** [w'] has every request of [w], and a connection with an existing
    database wherever [w] has one. *)
Definition supports (w w' : World) : Prop :=
  (forall r, is_Some (w_requests w !! r) -> is_Some (w_requests w' !! r)) /\
  (forall c cn, w_conns w !! c = Some cn -> is_Some (w_dbs w !! conn_name cn) ->
     exists cn', w_conns w' !! c = Some cn' /\ is_Some (w_dbs w' !! conn_name cn')).

(** A computation that adds no work and keeps [host_ok]. *)
Definition calm (w w' : World) : Prop := (host_ok w -> host_ok w') /\ host_measure w' <= host_measure w.

(** A computation that retired some work and keeps [host_ok]. *)
Definition progress (w w' : World) : Prop := host_ok w' /\ host_measure w' < host_measure w.

(** A computation that keeps [host_ok]. *)
Definition hrel (w w' : World) : Prop := host_ok w -> host_ok w'.

Abbreviation hok := (step_ok hrel).

(** The world after the two adds of the shop scenario, before the
    platform runs them: transaction 5 holds two requests. *)
Definition adds_pending : World := snd (run_task shop_adds shop_opened).

(** ** A weakest precondition for the monad *)

Section Wp.
Context {E S : Type}.

Context {A B : Type}.

Lemma wp_run (m : st E S A) Q s : wp m Q s -> exists a s', m s = (Normal a, s') /\ Q a s'.
Proof. unfold wp. destruct (m s) as [[a|e] s']; [eauto | done]. Qed.

Lemma wp_mono (m : st E S A) (Q Q' : A -> S -> Prop) s :
  wp m Q s -> (forall a s', Q a s' -> Q' a s') -> wp m Q' s.
Proof. unfold wp. destruct (m s) as [[a|e] s']; auto. Qed.

Lemma wp_ret (a : A) (Q : A -> S -> Prop) s : Q a s -> wp (E:=E) (st_ret a) Q s.
Proof. done. Qed.

Lemma wp_bind (m : st E S A) (k : A -> st E S B) Q s :
  wp m (fun a s1 => wp (k a) Q s1) s -> wp (st_bind m k) Q s.
Proof. unfold wp, st_bind. by destruct (m s) as [[a|e] s']. Qed.

Lemma wp_modify (f : S -> S) (Q : unit -> S -> Prop) s : Q tt (f s) -> wp (E:=E) (st_modify f) Q s.
Proof. done. Qed.

Lemma wp_get (k : S -> st E S A) Q s : wp (k s) Q s -> wp (st_bind st_get k) Q s.
Proof. done. Qed.
End Wp.

(** A handler that returns normally makes any computation return normally. *)
Lemma wp_catch_from (R : World -> World -> Prop) {A} (w : World) (m : JS A) (h : ErrorName -> JS A) Q :
  step_from R w m -> (forall a w1, R w w1 -> Q a w1) -> (forall e w1, R w w1 -> wp (h e) Q w1) ->
  wp (st_catch m h) Q w.
Proof.
  intros Hm Hn Ht. unfold wp, st_catch. destruct (m w) as [[a|e] w1] eqn:E;
    pose proof (Hm _ _ E) as R1; [exact (Hn a w1 R1) | exact (Ht e w1 R1)].
Qed.

Lemma wp_get_tx {A} (t : nat) (tx : Transaction) (k : Transaction -> JS A) Q w :
  w_txs w !! t = Some tx -> wp (k tx) Q w -> wp (st_bind (get_tx t) k) Q w.
Proof. intros E Hk. unfold wp, get_tx, get_conn, get_db. rewrite st_bind_assoc, st_bind_get_run, E. exact Hk. Qed.

Lemma wp_get_conn {A} (c : nat) (cn : Connection) (k : Connection -> JS A) Q w :
  w_conns w !! c = Some cn -> wp (k cn) Q w -> wp (st_bind (get_conn c) k) Q w.
Proof. intros E Hk. unfold wp, get_tx, get_conn, get_db. rewrite st_bind_assoc, st_bind_get_run, E. exact Hk. Qed.

Lemma wp_get_db {A} (n : string) (d : Database) (k : Database -> JS A) Q w :
  w_dbs w !! n = Some d -> wp (k d) Q w -> wp (st_bind (get_db n) k) Q w.
Proof. intros E Hk. unfold wp, get_tx, get_conn, get_db. rewrite st_bind_assoc, st_bind_get_run, E. exact Hk. Qed.

(** ** Sums over finite maps *)

Section MapSum.
Context {K V : Type} `{Countable K}.

Context (g : V -> nat).

Lemma msum_insert_fresh (m : gmap K V) (i : K) (x : V) :
  m !! i = None -> msum g (<[i:=x]> m) = g x + msum g m.
Proof. intros Hi. unfold msum. rewrite map_fold_insert_L; [done | intros; lia | done]. Qed.

Lemma msum_lookup (m : gmap K V) (i : K) (x : V) :
  m !! i = Some x -> msum g m = g x + msum g (delete i m).
Proof. intros Hi. unfold msum. rewrite (map_fold_delete_L _ _ i x m); [done | intros; lia | done]. Qed.

Lemma msum_insert (m : gmap K V) (i : K) (x : V) :
  msum g (<[i:=x]> m) = g x + msum g (delete i m).
Proof. rewrite <- insert_delete_eq. apply msum_insert_fresh, lookup_delete_eq. Qed.

Lemma msum_insert_le (m : gmap K V) (i : K) (x : V) : msum g (<[i:=x]> m) <= g x + msum g m.
Proof.
  rewrite msum_insert. destruct (m !! i) as [y|] eqn:Hi.
  - rewrite (msum_lookup m i y Hi). lia.
  - by rewrite delete_id.
Qed.

Lemma msum_alter (m : gmap K V) (f : V -> V) (i : K) (x : V) :
  m !! i = Some x -> msum g (alter f i m) + g x = g (f x) + msum g m.
Proof.
  intros Hi. rewrite <- (insert_id m i x Hi) at 1. rewrite alter_insert_eq, msum_insert.
  rewrite (msum_lookup m i x Hi). lia.
Qed.

Lemma msum_alter_le (m : gmap K V) (f : V -> V) (i : K) :
  (forall x, m !! i = Some x -> g (f x) <= g x) -> msum g (alter f i m) <= msum g m.
Proof.
  intros Hf. destruct (m !! i) as [x|] eqn:Hi.
  - pose proof (msum_alter m f i x Hi). specialize (Hf x eq_refl). lia.
  - by rewrite (alter_id' f m i Hi).
Qed.

Lemma msum_alter_lt (m : gmap K V) (f : V -> V) (i : K) (x : V) :
  m !! i = Some x -> g (f x) < g x -> msum g (alter f i m) < msum g m.
Proof. intros Hi Hlt. pose proof (msum_alter m f i x Hi). lia. Qed.
End MapSum.

(** ** Event dispatch leaves the platform's work alone *)

#[export] Instance quiet_preorder : PreOrder quiet.
Proof.
  split; [intros w; by split_and!|].
  intros w1 w2 w3 (T12 & R12 & C12 & D12) (T23 & R23 & C23 & D23). split_and!; [congruence..| auto].
Qed.

Lemma quiet_set_db n d w : quiet w (set_db n d w).
Proof. split_and!; [done..|]. intros n' Hn. cbn. destruct (decide (n = n')) as [->|]; simplify_map_eq; auto. Qed.
Lemma quiet_promises f w : quiet w (set_promises f w).
Proof. by split_and!. Qed.
Lemma quiet_objects f w : quiet w (set_objects f w).
Proof. by split_and!. Qed.
Lemma quiet_log e w : quiet w (log_entry e w).
Proof. by split_and!. Qed.
Lemma quiet_bump w : quiet w (bump_next w).
Proof. by split_and!. Qed.

Create HintDb quiet.
#[export] Hint Resolve quiet_set_db quiet_promises quiet_objects quiet_log quiet_bump : quiet.
#[export] Hint Unfold fresh alloc_object resolve reject : quiet.

Lemma quiet_run_schema (c : nat) cmds : step_ok quiet (run_schema c cmds).
Proof. induction cmds; cbn; eauto 10 with frame quiet. Qed.

Lemma quiet_run_listener (l : Listener) (ev : Event) : step_ok quiet (run_listener l ev).
Proof. destruct l; cbn; autounfold with quiet; eauto 20 using quiet_run_schema with frame quiet. Qed.

Lemma wp_dispatch_listeners ls (ev : Event) (w0 w : World) :
  quiet w0 w -> wp (dispatch_listeners ls ev) (fun _ w' => quiet w0 w') w.
Proof.
  revert w. induction ls as [|[ty l] ls IH]; intros w Hw; cbn; [done|].
  apply wp_bind. case_bool_decide.
  - apply (wp_catch_from quiet w).
    + apply (step_bind quiet); [apply quiet_run_listener | intros; apply (step_ret quiet)].
    + intros a w1 H1. apply wp_bind, IH. by etrans.
    + intros e w1 H1. apply wp_bind, IH. by etrans.
  - apply wp_bind, IH, Hw.
Qed.

(** Dispatch returns normally and leaves the transactions, requests and
    connections as they were. *)
Lemma wp_dispatch_path path (ev : Event) (w : World) :
  wp (dispatch_path path ev) (fun _ w' => quiet w w') w.
Proof.
  enough (forall w0, quiet w0 w -> wp (dispatch_path path ev) (fun _ w' => quiet w0 w') w) by (apply H; done).
  revert w. induction path as [|tg path IH]; intros w w0 Hw; cbn; [done|].
  apply wp_get, wp_bind. eapply wp_mono; [by apply wp_dispatch_listeners|].
  intros r w1 H1. apply wp_bind. eapply wp_mono; [exact (IH w1 w0 H1)|]. intros; by apply wp_ret.
Qed.

(** ** What the platform's writes do to [host_ok] and to the measure *)

Lemma tx_ok_supports (w w' : World) (tx : Transaction) : supports w w' -> tx_ok w tx -> tx_ok w' tx.
Proof.
  intros [Hr Hc] [Hq Hd]. split; [by eapply Forall_impl|].
  destruct (w_conns w !! tx_conn tx) as [cn|] eqn:E; [|done].
  destruct (Hc _ _ E Hd) as (cn' & -> & Hd'). exact Hd'.
Qed.

Lemma ok_supports (w w' : World) : supports w w' -> w_txs w' = w_txs w -> host_ok w -> host_ok w'.
Proof. intros Hs Ht Hok. unfold host_ok. rewrite Ht. intros t tx Htx. eapply tx_ok_supports, Hok; eauto. Qed.

Lemma supports_quiet (w w' : World) : quiet w w' -> supports w w'.
Proof. intros (_ & Hr & Hc & Hd). unfold supports. rewrite Hr, Hc. split; [done|]. intros c cn E H. exists cn. auto. Qed.

Lemma supports_set_db (n : string) (d : Database) (w : World) : supports w (set_db n d w).
Proof. apply supports_quiet, quiet_set_db. Qed.

Lemma supports_requests (f : Request -> Request) (r : nat) (w : World) : supports w (set_requests (alter f r) w).
Proof.
  split; [|intros c cn Hc Hd; exists cn; auto]. intros r' Hr. cbn. rewrite lookup_alter.
  destruct (decide (r = r')); subst; [by apply fmap_is_Some | done].
Qed.

(** A connection whose name is kept (closing it). *)
Lemma supports_conns_alter (f : Connection -> Connection) (c : nat) (w : World) :
  (forall cn, conn_name (f cn) = conn_name cn) -> supports w (set_conns (alter f c) w).
Proof.
  intros Hf. split; [done|]. intros c' cn Hc Hd. cbn. rewrite lookup_alter.
  destruct (decide (c = c')); subst; rewrite Hc; eexists; split; [done | by rewrite Hf | done | done].
Qed.

(** A new connection on a database that exists. *)
Lemma supports_conns_insert (c : nat) (cn : Connection) (w : World) :
  is_Some (w_dbs w !! conn_name cn) -> supports w (set_conns (<[c:=cn]>) w).
Proof.
  intros Hd. split; [done|]. intros c' cn' Hc Hd'. cbn.
  destruct (decide (c = c')) as [->|]; simplify_map_eq; eauto.
Qed.

Lemma ok_alter_tx (f : Transaction -> Transaction) (t : nat) (w : World) :
  (forall tx, w_txs w !! t = Some tx ->
     tx_conn (f tx) = tx_conn tx /\ forall r, r ∈ tx_requests (f tx) -> r ∈ tx_requests tx) ->
  host_ok w -> host_ok (set_txs (alter f t) w).
Proof.
  intros Hf Hok t' tx'. cbn. rewrite lookup_alter. intros Ht'.
  destruct (decide (t = t')) as [->|]; [|exact (Hok _ _ Ht')].
  apply fmap_Some in Ht' as (tx & Htx & ->). destruct (Hok _ _ Htx) as [Hq Hc]. destruct (Hf tx Htx) as [Hcn Hr].
  split; cbn; [|by rewrite Hcn]. rewrite Forall_forall in Hq |- *. intros r Hin. apply Hq, Hr, Hin.
Qed.

Lemma ok_insert_tx (t : nat) (tx : Transaction) (w : World) :
  tx_ok w tx -> host_ok w -> host_ok (set_txs (<[t:=tx]>) w).
Proof. intros Htx Hok. apply map_Forall_insert_2; [exact Htx | exact Hok]. Qed.

(** ** Steps that do not add work *)

#[export] Instance calm_preorder : PreOrder calm.
Proof.
  split; [intros w; split; [done | lia]|].
  intros w1 w2 w3 [O12 M12] [O23 M23]. split; [tauto | lia].
Qed.

Lemma calm_quiet (w w' : World) : quiet w w' -> calm w w'.
Proof.
  intros Hq. pose proof Hq as (Ht & Hr & _). split; [apply ok_supports; [by apply supports_quiet | done]|].
  unfold host_measure. rewrite Ht, Hr. lia.
Qed.

Lemma calm_set_db (n : string) (d : Database) (w : World) : calm w (set_db n d w).
Proof. apply calm_quiet, quiet_set_db. Qed.

Lemma calm_requests (f : Request -> Request) (r : nat) (w : World) :
  (forall rq, open_weight (f rq) <= open_weight rq) -> calm w (set_requests (alter f r) w).
Proof.
  intros Hf. split; [by apply ok_supports; [apply supports_requests|]|].
  unfold host_measure. cbn. pose proof (msum_alter_le open_weight (w_requests w) f r (fun rq _ => Hf rq)). lia.
Qed.

Lemma calm_alter_tx (f : Transaction -> Transaction) (t : nat) (w : World) :
  (forall tx, w_txs w !! t = Some tx ->
     tx_conn (f tx) = tx_conn tx /\ forall r, r ∈ tx_requests (f tx) -> r ∈ tx_requests tx) ->
  (forall tx, w_txs w !! t = Some tx -> tx_weight (f tx) <= tx_weight tx) ->
  calm w (set_txs (alter f t) w).
Proof.
  intros Hf Hw. split; [by apply ok_alter_tx|].
  unfold host_measure. cbn. pose proof (msum_alter_le tx_weight (w_txs w) f t Hw). lia.
Qed.

Lemma wp_close_conn (c : nat) (w0 w : World) : calm w0 w -> wp (close_conn c) (fun _ w' => calm w0 w') w.
Proof.
  intros H. apply wp_modify. etrans; [exact H|].
  split; [apply ok_supports; [by apply supports_conns_alter | done] | done].
Qed.

(** A request that is done has no work left. *)
Lemma open_weight_done (rq : Request) : rq_done rq = true -> open_weight rq = 0.
Proof. unfold open_weight. intros ->. by destruct (rq_op rq). Qed.

Lemma wp_complete_request (r : nat) (res : op_result JsVal) (w0 w : World) :
  calm w0 w -> wp (complete_request r res) (fun _ w' => calm w0 w') w.
Proof.
  intros H. apply wp_modify. etrans; [exact H|]. apply calm_requests. intros rq. rewrite open_weight_done; [lia | done].
Qed.

Lemma wp_dispatch_calm path (ev : Event) (w0 w : World) :
  calm w0 w -> wp (dispatch_path path ev) (fun _ w' => calm w0 w') w.
Proof. intros H. eapply wp_mono; [apply wp_dispatch_path|]. intros a w' Hq. etrans; [exact H | by apply calm_quiet]. Qed.

Lemma weight_aborting (tx : Transaction) : tx_state tx <> TxFinished -> S (length (tx_requests tx)) <= tx_weight tx.
Proof. unfold tx_weight. destruct (tx_state tx); [lia..|done]. Qed.

Lemma weight_deactivate (tx : Transaction) : is_active tx = true -> tx_weight (with_state TxInactive tx) = tx_weight tx.
Proof. unfold is_active, tx_weight. case_bool_decide as E; [|done]. intros _. cbn. by rewrite E. Qed.

Lemma not_finished_state (tx : Transaction) : is_finished tx = false -> tx_state tx <> TxFinished.
Proof. unfold is_finished. intros E. apply orb_false_iff in E as [E _]. by apply bool_decide_eq_false in E. Qed.

(** [abort()] on a transaction that is not finished: it keeps its
    requests, and an aborting transaction weighs no more than a running
    one. *)
Lemma wp_abort_tx (t : nat) (tx : Transaction) (w0 w : World) :
  calm w0 w -> host_ok w -> w_txs w !! t = Some tx -> tx_state tx <> TxFinished ->
  wp (abort_tx t) (fun _ w' => calm w0 w') w.
Proof.
  intros Hc Hok Htx Hs. destruct (Hok _ _ Htx) as [_ Hconn].
  destruct (w_conns w !! tx_conn tx) as [cn|] eqn:Ec; [|done]. destruct Hconn as [d Ed].
  unfold abort_tx. apply (wp_get_tx _ tx); [done|]. apply (wp_get_conn _ cn); [done|]. apply wp_bind.
  assert (Hw : forall w1, w_txs w1 = w_txs w -> calm w w1 ->
            calm w0 (set_txs (alter (fun tx => mkTx (tx_conn tx) (tx_scope tx) (tx_mode tx) TxAborting
               (tx_requests tx) (tx_snapshot tx) true (tx_openreq tx) (tx_listeners tx)) t) w1)).
  { intros w1 Ht1 Hc1. etrans; [exact Hc|]. etrans; [exact Hc1|].
    apply calm_alter_tx; [by intros|]. rewrite Ht1, Htx. intros tx' [= <-]. unfold tx_weight at 1. cbn.
    by apply weight_aborting. }
  destruct (tx_snapshot tx) as [snap|].
  - apply (wp_get_db _ d); [done|]. apply wp_modify, wp_modify. apply Hw; [done | apply calm_set_db].
  - apply wp_ret, wp_modify. apply Hw; [done | reflexivity].
Qed.

(** After the events of a request: the transaction is made inactive
    again, and aborted if the events asked for it. *)
Lemma wp_request_tail (t : nat) (tx : Transaction) (c : Transaction -> bool) (w0 w : World) :
  calm w0 w -> host_ok w -> w_txs w !! t = Some tx -> (c tx = true -> tx_state tx <> TxFinished) ->
  wp (tx' <- get_tx t ;; (if is_active tx' then update_tx t (with_state TxInactive) else ret tt) ;;
      if c tx' then abort_tx t else ret tt) (fun _ w' => calm w0 w') w.
Proof.
  intros Hc Hok Htx Hct. apply (wp_get_tx _ tx); [done|]. apply wp_bind.
  destruct (c tx) eqn:Eb.
  - specialize (Hct eq_refl) as Hs.
    destruct (is_active tx) eqn:Ea; apply wp_mono with (Q := fun _ w1 => calm w0 w1 /\ host_ok w1 /\
        exists tx1, w_txs w1 !! t = Some tx1 /\ tx_state tx1 <> TxFinished).
    + apply wp_modify. assert (Hc1 : calm w (set_txs (alter (with_state TxInactive) t) w)).
      { apply calm_alter_tx; [by intros | rewrite Htx; intros ? [= <-]; by rewrite weight_deactivate]. }
      split_and!; [etrans; eassumption | apply Hc1, Hok | exists (with_state TxInactive tx)].
      cbn. rewrite lookup_alter_eq, Htx. split; [done | discriminate].
    + intros _ w1 (Hc1 & Hok1 & tx1 & Ht1 & Hs1). by apply (wp_abort_tx t tx1).
    + apply wp_ret. eauto.
    + intros _ w1 (Hc1 & Hok1 & tx1 & Ht1 & Hs1). by apply (wp_abort_tx t tx1).
  - apply wp_mono with (Q := fun _ w1 => calm w0 w1); [|intros; by apply wp_ret].
    destruct (is_active tx) eqn:Ea; [|by apply wp_ret].
    apply wp_modify. etrans; [exact Hc|].
    apply calm_alter_tx; [by intros | rewrite Htx; intros ? [= <-]; by rewrite weight_deactivate].
Qed.

(** ** Every task of the platform makes progress *)

Lemma elem_of_tail {A} (l : list A) (x : A) : x ∈ tail l -> x ∈ l.
Proof. destruct l; cbn; set_solver. Qed.

Lemma progress_calm (w w1 w' : World) : host_ok w1 -> host_measure w1 < host_measure w -> calm w1 w' -> progress w w'.
Proof. intros H1 L [O M]. split; [auto | lia]. Qed.

(** Running a request retires it: the transaction loses one queued
    request, whatever its events do afterwards. *)
Lemma wp_run_request (t r : nat) (tx : Transaction) rs (w : World) :
  host_ok w -> w_txs w !! t = Some tx -> tx_requests tx = r :: rs ->
  tx_state tx <> TxFinished -> tx_state tx <> TxAborting ->
  wp (run_request t r) (fun _ w' => progress w w') w.
Proof.
  intros Hok Htx Hrs Hs1 Hs2. pose proof (Hok _ _ Htx) as [Hq Hconn].
  destruct (w_conns w !! tx_conn tx) as [cn|] eqn:Ec; [|done]. destruct Hconn as [d Ed].
  rewrite Hrs in Hq. apply Forall_cons in Hq as [[rq Er] _].
  unfold run_request. apply (wp_get_tx _ tx); [done|]. apply (wp_get_conn _ cn); [done|].
  apply (wp_get_db _ d); [done|]. apply wp_get. rewrite Er.
  destruct (exec_request (rq_source rq) (rq_op rq) d) as [d' res].
  apply wp_bind, wp_modify, wp_bind, wp_modify.
  match goal with |- wp _ _ (set_txs (alter ?g t) ?w1) => set (g' := g); set (w2 := set_txs (alter g t) w1) end.
  assert (Ht2 : w_txs w2 !! t = Some (g' tx)) by (cbn; by rewrite lookup_alter_eq, Htx).
  assert (Hok2 : host_ok w2).
  { apply ok_alter_tx; [intros tx' _; split; [done|]; cbn; apply elem_of_tail|].
    apply (ok_supports w); [apply supports_set_db | done | done]. }
  assert (Hlt : host_measure w2 < host_measure w).
  { unfold host_measure. cbn. apply Nat.add_lt_le_mono; [|done].
    apply (msum_alter_lt tx_weight _ g' t tx Htx). unfold g', tx_weight. cbn. rewrite Hrs. cbn.
    destruct (tx_state tx); try done; case_bool_decide; try discriminate; cbn; lia. }
  apply wp_bind. unfold complete_request, update_request. apply wp_modify.
  match goal with |- wp _ _ ?w3 => assert (Hc3 : calm w2 w3) by (apply calm_requests; intros rq1; rewrite open_weight_done; [lia | done]) end.
  apply wp_bind. match goal with |- wp _ _ ?w3 => apply wp_mono with (Q := fun _ w4 => quiet w3 w4); [destruct res; apply wp_dispatch_path|] end.
  intros fl w4 Hq4. eapply wp_mono; [eapply (wp_request_tail t (g' tx))|].
  - etrans; [exact Hc3 | by apply calm_quiet].
  - apply (calm_quiet _ _ Hq4), Hc3, Hok2.
  - destruct Hq4 as [-> _]. exact Ht2.
  - intros [_ Ef%negb_true_iff]%andb_prop. by apply not_finished_state.
  - intros u w' Hc'. exact (progress_calm w w2 w' Hok2 Hlt Hc').
Qed.

(** A computation that adds no work, then another. *)
Lemma wp_calm_seq {A B} (m : JS A) (k : A -> JS B) (w0 w : World) :
  wp m (fun _ w1 => calm w0 w1) w -> (forall a w1, calm w0 w1 -> wp (k a) (fun _ w' => calm w0 w') w1) ->
  wp (st_bind m k) (fun _ w' => calm w0 w') w.
Proof. intros Hm Hk. apply wp_bind. eapply wp_mono; [exact Hm|]. intros a w1 H1. by apply Hk. Qed.

(** A first write to a transaction that lowers its weight, then
    computations that add no work. *)
Lemma wp_update_progress {A} (t : nat) (f : Transaction -> Transaction) (tx : Transaction) (k : JS A) (w : World) :
  host_ok w -> w_txs w !! t = Some tx ->
  tx_conn (f tx) = tx_conn tx -> (forall r, r ∈ tx_requests (f tx) -> r ∈ tx_requests tx) ->
  tx_weight (f tx) < tx_weight tx ->
  wp k (fun _ w' => calm (set_txs (alter f t) w) w') (set_txs (alter f t) w) ->
  wp (update_tx t f ;; k) (fun _ w' => progress w w') w.
Proof.
  intros Hok Htx Hcn Hr Hlt Hk. apply wp_bind, wp_modify. eapply wp_mono; [exact Hk|].
  intros u w' Hc. apply (progress_calm w (set_txs (alter f t) w) w'); [|  | done].
  { apply ok_alter_tx; [rewrite Htx; by intros ? [= <-] | done]. }
  unfold host_measure. cbn. pose proof (msum_alter_lt tx_weight _ f t tx Htx Hlt). lia.
Qed.

(** The plain steps of a computation: reads, writes, returns. *)
Ltac wp_simp :=
  repeat match goal with
  | |- wp (st_bind st_get _) _ _ => apply wp_get
  | |- wp (st_bind (st_modify _) _) _ _ => apply wp_bind, wp_modify
  | |- wp (st_bind (st_ret _) _) _ _ => apply wp_bind, wp_ret
  | |- wp (st_bind (st_bind _ _) _) _ _ => apply wp_bind
  | |- wp (st_bind (update_request _ _) _) _ _ => apply wp_bind, wp_modify
  | |- wp (st_ret _) _ _ => apply wp_ret
  | |- wp (st_modify _) _ _ => apply wp_modify
  | |- wp (st_bind _ _) _ (st_modify _ _).2 => cbn [snd]
  end; cbv beta.

Ltac calm_run :=
  repeat match goal with
  | |- wp (st_ret _) _ _ => apply wp_ret; done
  | |- wp (st_bind (complete_request _ _) _) _ _ => apply wp_calm_seq; [apply wp_complete_request; done | intros ? ? ?]
  | |- wp (st_bind (dispatch_path _ _) _) _ _ => apply wp_calm_seq; [apply wp_dispatch_calm; done | intros ? ? ?]
  | |- wp (st_bind (close_conn _) _) _ _ => apply wp_calm_seq; [apply wp_close_conn; done | intros ? ? ?]
  | |- wp (match ?x with _ => _ end) _ _ => destruct x
  end.

(** An aborting transaction delivers one error event per request left,
    then its abort event. *)
Lemma wp_deliver_abort (t : nat) (tx : Transaction) (w : World) :
  host_ok w -> w_txs w !! t = Some tx -> tx_state tx = TxAborting ->
  wp (deliver_abort t) (fun _ w' => progress w w') w.
Proof.
  intros Hok Htx Hs. unfold deliver_abort. apply (wp_get_tx _ tx); [done|].
  destruct (tx_requests tx) as [|r rs] eqn:Hrs; apply (wp_update_progress t _ tx); try done.
  - unfold tx_weight. cbn. rewrite Hs. lia.
  - calm_run.
  - cbn. rewrite Hrs. set_solver.
  - unfold tx_weight. cbn. rewrite Hs, Hrs. cbn. lia.
  - calm_run.
Qed.

(** A transaction with no request left commits. *)
Lemma wp_finish_commit (t : nat) (tx : Transaction) (w : World) :
  host_ok w -> w_txs w !! t = Some tx -> tx_requests tx = [] ->
  tx_state tx <> TxFinished -> tx_state tx <> TxAborting ->
  wp (finish_commit t) (fun _ w' => progress w w') w.
Proof.
  intros Hok Htx Hrs Hs1 Hs2. unfold finish_commit. apply (wp_get_tx _ tx); [done|].
  apply (wp_update_progress t _ tx); [done | done | done | done | |].
  - unfold tx_weight. cbn. destruct (tx_state tx); [lia..|done|done].
  - calm_run.
Qed.

Lemma progress_calm_after (w w1 w' : World) : progress w w1 -> calm w1 w' -> progress w w'.
Proof. intros [O1 L1] [O M]. split; [auto | lia]. Qed.

Lemma wp_progress_seq {A B} (m : JS A) (k : A -> JS B) (w0 w : World) :
  wp m (fun _ w1 => progress w0 w1) w ->
  (forall a w1, m w = (Normal a, w1) -> progress w0 w1 -> wp (k a) (fun _ w' => calm w1 w') w1) ->
  wp (st_bind m k) (fun _ w' => progress w0 w') w.
Proof.
  intros (a & w1 & E & H1)%wp_run Hk. apply wp_bind. unfold wp at 1. rewrite E.
  eapply wp_mono; [exact (Hk a w1 E H1)|]. intros b w' Hc. exact (progress_calm_after _ _ _ H1 Hc).
Qed.

Lemma ok_new_connection (c : nat) (cn : Connection) (w : World) :
  host_ok w -> is_Some (w_dbs w !! conn_name cn) -> host_ok (set_conns (<[c:=cn]>) (bump_next w)).
Proof.
  intros Hok Hd. apply (ok_supports (bump_next w)); [by apply supports_conns_insert | done |].
  apply (ok_supports w); [apply supports_quiet, quiet_bump | done | done].
Qed.

(** A write to a request that keeps its weight (its connection). *)
Lemma measure_requests_same (f : Request -> Request) (r : nat) (w : World) :
  (forall rq, open_weight (f rq) = open_weight rq) -> host_measure (set_requests (alter f r) w) = host_measure w.
Proof.
  intros Hf. unfold host_measure. cbn. destruct (w_requests w !! r) as [rq|] eqn:Hr.
  - pose proof (msum_alter open_weight _ f r rq Hr). rewrite Hf in H. lia.
  - by rewrite (alter_id' f _ r Hr).
Qed.

(** A write to a request that lowers its weight. *)
Lemma progress_requests (f : Request -> Request) (r : nat) (rq : Request) (w0 w : World) :
  host_ok w -> w_requests w !! r = Some rq ->
  host_measure w + open_weight (f rq) < host_measure w0 + open_weight rq ->
  progress w0 (set_requests (alter f r) w).
Proof.
  intros Hok Hr Hlt. split; [apply (ok_supports w); [apply supports_requests | done | done]|].
  unfold host_measure in *. cbn. pose proof (msum_alter open_weight _ f r rq Hr). lia.
Qed.

Lemma progress_complete (f : Request -> Request) (r : nat) (rq : Request) (w0 w : World) :
  host_ok w -> w_requests w !! r = Some rq -> rq_done (f rq) = true ->
  host_measure w < host_measure w0 + open_weight rq -> progress w0 (set_requests (alter f r) w).
Proof. intros Hok Hr Hd Hlt. apply (progress_requests _ _ rq); [done | done | rewrite (open_weight_done (f rq) Hd); lia]. Qed.

Lemma open_ready_Some (w : World) (r : nat) (rq : Request) (name : string) (version : Z) :
  open_ready w r rq = Some (name, version) ->
  rq_op rq = OpOpen name version /\ rq_done rq = false /\ (rq_blocked rq = true -> open_conns w name = []).
Proof.
  unfold open_ready. destruct (rq_op rq); try done. destruct (rq_done rq); [done|].
  destruct (open_queued_before _ _ _); [done|].
  destruct (rq_blocked rq); cbn; [case_bool_decide as E; [done|]|]; intros [= -> ->]; split_and!; try done.
Qed.

(** A step of an open request: an error, a success, 'blocked', or an
    upgrade, which creates a transaction (at most two units of work) and
    completes the request (at least three). *)
Lemma wp_run_open (r : nat) (rq : Request) (name : string) (version : Z) (w : World) :
  host_ok w -> w_requests w !! r = Some rq -> open_ready w r rq = Some (name, version) ->
  wp (run_open r name version rq) (fun _ w' => progress w w') w.
Proof.
  intros Hok Hr (Hop & Hdone & Hblk)%open_ready_Some.
  assert (Hw : 3 <= open_weight rq) by (unfold open_weight; rewrite Hop, Hdone; destruct (rq_blocked rq); lia).
  unfold run_open. apply wp_get. apply wp_bind, wp_modify.
  set (d := default (mkDb 0 ∅) (w_dbs w !! name)). set (w1 := set_db name d w).
  assert (Hok1 : host_ok w1) by (apply (ok_supports w); [apply supports_set_db | done | done]).
  assert (Hm1 : host_measure w1 = host_measure w) by done.
  assert (Hd1 : is_Some (w_dbs w1 !! name)) by (cbn; by rewrite lookup_insert_eq).
  destruct (version <? db_version d)%Z.
  { apply wp_progress_seq; [apply wp_modify, (progress_complete _ _ rq); [done | done | done | lia]|intros; calm_run]. }
  destruct (version =? db_version d)%Z.
  { unfold new_connection, fresh. wp_simp.
    apply wp_progress_seq; [|intros; calm_run]. apply wp_modify. eapply progress_complete.
    - apply (ok_supports _ _ (supports_requests _ _ _)); [done|]. by apply ok_new_connection.
    - cbn. rewrite lookup_alter_eq, Hr. reflexivity.
    - done.
    - rewrite measure_requests_same by done.
      match goal with |- _ < _ + open_weight ?x => change (open_weight x) with (open_weight rq) end. unfold host_measure in *. cbn in *. lia. }
  case_bool_decide as Hconns.
  { assert (Hb : rq_blocked rq = false) by (destruct (rq_blocked rq); [by destruct Hconns; apply Hblk | done]).
    apply wp_progress_seq; [apply wp_modify, (progress_requests _ _ rq); [done | done |] | intros; calm_run].
    unfold open_weight. cbn. rewrite Hop, Hdone, Hb. lia. }
  unfold new_connection, fresh. wp_simp.
  set (c := w_next w1). set (t := w_next (set_conns _ (bump_next w1))).
  set (cn := mkConn name version false []).
  set (tx := mkTx c _ VersionChange TxActive [] (Some d) false (Some r) []).
  assert (Hok3 : host_ok (bump_next (set_conns (<[c:=cn]>) (bump_next w1)))).
  { apply (ok_supports (set_conns (<[c:=cn]>) (bump_next w1))); [apply supports_quiet, quiet_bump | done |].
    by apply ok_new_connection. }
  assert (Htx : tx_ok (bump_next (set_conns (<[c:=cn]>) (bump_next w1))) tx).
  { split; [constructor|]. cbn. by rewrite lookup_insert_eq. }
  apply wp_progress_seq.
  - apply wp_modify. eapply progress_complete.
    + apply (ok_supports _ _ (supports_requests _ _ _)); [done|].
      apply (ok_supports _ _ (supports_set_db _ _ _)); [done|]. by apply ok_insert_tx.
    + cbn. rewrite lookup_alter_eq, Hr. reflexivity.
    + done.
    + rewrite measure_requests_same by done.
      match goal with |- _ < _ + open_weight ?x => change (open_weight x) with (open_weight rq) end.
      pose proof (msum_insert_le tx_weight (w_txs w1) t tx). unfold host_measure in *. cbn in *. lia.
  - intros u w7 [= <- <-] [Hok7 _]. apply wp_bind.
    match goal with |- wp _ _ ?w7 => apply wp_mono with (Q := fun _ w' => quiet w7 w'); [apply wp_dispatch_path|] end.
    intros fl w8 Hq8. eapply wp_request_tail.
    + by apply calm_quiet.
    + exact (proj1 (calm_quiet _ _ Hq8) Hok7).
    + destruct Hq8 as [-> _]. cbn. apply lookup_insert_eq.
    + by intros _.
Qed.

Lemma omap_first {X Y} (f : X -> option Y) (xs : list X) (y : Y) ys :
  omap f xs = y :: ys -> exists x, x ∈ xs /\ f x = Some y.
Proof. intros E. assert (Hy : y ∈ omap f xs) by (rewrite E; left). apply list_elem_of_omap in Hy as (x & ? & ?). eauto. Qed.

Lemma wp_tx_task (w : World) (t : nat) (tx : Transaction) (m : JS unit) :
  host_ok w -> w_txs w !! t = Some tx -> tx_task w t tx = Some m -> wp m (fun _ w' => progress w w') w.
Proof.
  intros Hok Htx. unfold tx_task. destruct (tx_state tx) eqn:Hs; try discriminate.
  1, 2: destruct (tx_requests tx) as [|r rs] eqn:Hrs;
    [intros [= <-]; apply (wp_finish_commit t tx); by rewrite ?Hs
    | destruct (runnable w t tx); [intros [= <-]; apply (wp_run_request t r tx rs); by rewrite ?Hs | done]].
  intros [= <-]. by apply (wp_deliver_abort t tx).
Qed.

Lemma wp_open_task (w : World) (r : nat) (rq : Request) (m : JS unit) :
  host_ok w -> w_requests w !! r = Some rq -> open_task w r rq = Some m -> wp m (fun _ w' => progress w w') w.
Proof.
  intros Hok Hr. unfold open_task. destruct (open_ready w r rq) as [[name version]|] eqn:E; [|done].
  intros [= <-]. by apply wp_run_open.
Qed.

(** One step of the platform: either it reports that nothing is left to
    do and changes nothing, or it returns normally having retired some
    work, in a world where [host_ok] still holds. *)
Lemma wp_host_step (w : World) :
  host_ok w -> wp host_step (fun b w' => if b then progress w w' else w' = w) w.
Proof.
  intros Hok. unfold host_step. apply wp_get.
  destruct (omap _ (map_to_list (w_txs w))) as [|m ms] eqn:E.
  - destruct (omap _ (map_to_list (w_requests w))) as [|m ms] eqn:E2; [by apply wp_ret|].
    apply omap_first in E2 as ([r rq] & Hin%elem_of_map_to_list & Hm).
    apply wp_bind. eapply wp_mono; [exact (wp_open_task w r rq m Hok Hin Hm)|]. intros; by apply wp_ret.
  - apply omap_first in E as ([t tx] & Hin%elem_of_map_to_list & Hm).
    apply wp_bind. eapply wp_mono; [exact (wp_tx_task w t tx m Hok Hin Hm)|]. intros; by apply wp_ret.
Qed.

(** ** [host_ok] holds in every reachable world *)

#[export] Instance hrel_preorder : PreOrder hrel.
Proof. split; [intros w H; exact H|]. intros w1 w2 w3 H12 H23 H. auto. Qed.

Lemma ok_alter_tx_ok (f : Transaction -> Transaction) (t : nat) (w : World) :
  (forall tx, w_txs w !! t = Some tx -> tx_ok w tx -> tx_ok w (f tx)) ->
  host_ok w -> host_ok (set_txs (alter f t) w).
Proof.
  intros Hf Hok t' tx'. cbn. rewrite lookup_alter. intros Ht'.
  destruct (decide (t = t')) as [->|]; [|exact (Hok _ _ Ht')].
  apply fmap_Some in Ht' as (tx & Htx & ->). exact (Hf tx Htx (Hok _ _ Htx)).
Qed.

Lemma hok_modify (f : World -> World) : (forall w, supports w (f w) /\ w_txs (f w) = w_txs w) -> hok (st_modify f).
Proof. intros Hf. apply (step_modify hrel). intros w Hok. destruct (Hf w) as [Hs Ht]. exact (ok_supports w _ Hs Ht Hok). Qed.

Lemma hok_alter_tx (f : Transaction -> Transaction) (t : nat) :
  (forall tx, tx_conn (f tx) = tx_conn tx /\ tx_requests (f tx) = tx_requests tx) -> hok (st_modify (set_txs (alter f t))).
Proof.
  intros Hf. apply (step_modify hrel). intros w Hok. apply ok_alter_tx; [|exact Hok].
  intros tx _. destruct (Hf tx) as [-> ->]. by split.
Qed.

Lemma hok_fmap_tx (f : Transaction -> Transaction) :
  (forall tx, tx_conn (f tx) = tx_conn tx /\ tx_requests (f tx) = tx_requests tx) -> hok (st_modify (set_txs (fmap f))).
Proof.
  intros Hf. apply (step_modify hrel). intros w Hok t tx'. cbn. rewrite lookup_fmap.
  intros (tx & Htx & ->)%fmap_Some. destruct (Hok _ _ Htx) as [Hq Hc]. destruct (Hf tx) as [Hc' Hr'].
  split; cbn; [by rewrite Hr' | by rewrite Hc'].
Qed.

Lemma supports_requests_insert (r : nat) (rq : Request) (w : World) : supports w (set_requests (<[r:=rq]>) w).
Proof.
  split; [|intros c cn Hc Hd; exists cn; auto]. intros r' Hr. cbn.
  destruct (decide (r = r')) as [->|]; simplify_map_eq; auto.
Qed.

Lemma hok_update_listeners (tg : Target) f : hok (st_modify (update_listeners tg f)).
Proof.
  destruct tg; cbn [update_listeners].
  - apply hok_modify. intros w. split; [apply supports_requests | done].
  - by apply hok_alter_tx.
  - apply hok_modify. intros w. split; [by apply supports_conns_alter | done].
Qed.

(** A request is queued on a transaction after it is created. *)
Lemma hok_place_request (t : nat) (src : Source) (op : ReqOp) : hok (place_request t src op).
Proof.
  intros w o w' Hrun Hok. unfold place_request, fresh in Hrun. cbv [st_bind st_get st_modify st_ret] in Hrun.
  injection Hrun as <- <-. apply ok_alter_tx_ok.
  - intros tx _ [Hq Hc]. split; [|exact Hc]. cbn. apply Forall_app; split; [exact Hq|].
    repeat constructor. cbn. by rewrite lookup_insert_eq.
  - apply (ok_supports _ _ (supports_requests_insert _ _ _)); [done|].
    apply (ok_supports w); [apply supports_quiet, quiet_bump | done | done].
Qed.

(** A new transaction is created on a connection and a database that
    exist. *)
Lemma hok_db_transaction (c : nat) (names : NamesArg) (mode : option TxMode) (o : IDBTransactionOptions) :
  hok (db_transaction c names mode o).
Proof.
  unfold db_transaction. apply (step_get hrel). intros w.
  apply (step_get_conn_from hrel). intros cn Hcn.
  do 2 (apply (step_require_from hrel); intros _).
  apply (step_get_db_from hrel). intros d Hd. cbv zeta.
  do 2 (apply (step_require_from hrel); intros _).
  intros o' w' Hrun Hok. destruct mode as [[]|]; cbv [st_bind st_get st_modify st_ret st_throw fresh] in Hrun;
    injection Hrun as <- <-; try done;
    (apply ok_insert_tx; [split; [constructor | cbn; rewrite Hcn; by exists d] |
      apply (ok_supports w); [apply supports_quiet, quiet_bump | done | done]]).
Qed.

Lemma hok_host_step : hok host_step.
Proof.
  intros w o w' Hrun Hok. destruct (wp_run _ _ _ (wp_host_step w Hok)) as (b & w1 & E & H1).
  rewrite E in Hrun. injection Hrun as <- <-. destruct b; [apply H1 | by subst].
Qed.

Lemma hok_of_quiet {A} (m : JS A) : step_ok quiet m -> hok m.
Proof. apply step_ok_mono. intros w w' Hq. exact (proj1 (calm_quiet _ _ Hq)). Qed.

Lemma quiet_dispatch_listeners ls (ev : Event) : step_ok quiet (dispatch_listeners ls ev).
Proof. induction ls as [|[ty l] ls IH]; cbn; eauto 10 using quiet_run_listener with frame. Qed.

Lemma quiet_dispatch_path path (ev : Event) : step_ok quiet (dispatch_path path ev).
Proof. induction path as [|t path IH]; cbn; eauto 10 using quiet_dispatch_listeners with frame. Qed.

(** The platform's methods, taken apart down to the atoms above; the
    two that need what they read ([place_request], [db_transaction]) are
    kept whole. *)
Create HintDb hoku.
#[export] Hint Unfold fresh alloc_promise alloc_object resolve reject get_tx get_conn get_db update_tx
  update_request complete_request close_conn db_close new_connection new_promise request_promise
  store_read store_write store_add_or_put index_read get_store get_index count_arg key_range_of require
  tx_objectStore store_index db_store_names factory_open tx_commit tx_abort abort_tx add_listener
  remove_listener with_state : hoku.

Ltac hok_leaf :=
  idtac; match goal with
  | |- hok (st_ret _) => apply (step_ret hrel)
  | |- hok (st_throw _) => apply (step_throw hrel)
  | |- hok (place_request _ _ _) => apply hok_place_request
  | |- hok (db_transaction _ _ _ _) => apply hok_db_transaction
  | |- hok (st_modify (set_txs (alter _ _))) => apply hok_alter_tx; intros; by split
  | |- hok (st_modify (set_txs (fmap _))) => apply hok_fmap_tx; intros; by case_bool_decide
  | |- hok (st_modify (update_listeners _ _)) => apply hok_update_listeners
  | |- hok (st_modify (set_db _ _)) => apply hok_modify; intros; split; [apply supports_set_db | done]
  | |- hok (st_modify (set_conns (alter _ _))) => apply hok_modify; intros; split; [by apply supports_conns_alter | done]
  | |- hok (st_modify (set_requests (alter _ _))) => apply hok_modify; intros; split; [apply supports_requests | done]
  | |- hok (st_modify (set_requests (insert _ _))) => apply hok_modify; intros; split; [apply supports_requests_insert | done]
  | |- hok (st_modify _) => apply hok_modify; intros; split; [apply supports_quiet; by split_and! | done]
  | |- hok (dispatch_listeners _ _) => apply hok_of_quiet, quiet_dispatch_listeners
  | |- hok (dispatch_path _ _) => apply hok_of_quiet, quiet_dispatch_path
  | |- hok _ => assumption
  | |- hok _ => progress autounfold with hoku
  end.

Lemma hok_run_task {A} (m : JS A) : hok m -> hok (run_task m).
Proof. intros Hm. unfold run_task, end_task. repeat frame_step hok_leaf. Qed.

Lemma hok_run_call (c : Call) : hok (run_call c).
Proof. destruct c; cbn; autounfold with wrapper; cbn; repeat frame_step hok_leaf. Qed.

Lemma sys_step_ok (w w' : World) : sys_step w w' -> hrel w w'.
Proof.
  destruct 1 as [c w w' o Hr | w w' o Hr];
    [exact (hok_run_task _ (step_run_calls hrel c hok_run_call) w o w' Hr) | exact (hok_host_step w o w' Hr)].
Qed.

Lemma reachable_host_ok (w w' : World) : reachable w w' -> host_ok w -> host_ok w'.
Proof. induction 1 as [w|w1 w2 w3 H12 _ IH]; [done|]. intros H. apply IH, (sys_step_ok _ _ H12), H. Qed.

Lemma host_ok_empty : host_ok empty_world.
Proof. apply map_Forall_empty. Qed.

(** The variant: a step that made progress keeps [host_ok] and lowers
    the pending work. *)
Lemma host_moves_progress (w w' : World) : host_ok w -> host_moves w w' -> progress w w'.
Proof.
  intros Hok Hm. destruct (wp_run _ _ _ (wp_host_step w Hok)) as (b & w1 & E & H1).
  unfold host_moves in Hm. rewrite Hm in E. by injection E as <- <-.
Qed.

Lemma run_host_quiescent (fuel : nat) (w : World) :
  host_ok w -> host_measure w < fuel ->
  exists w', run_host fuel w = (Normal tt, w') /\ host_step w' = (Normal false, w').
Proof.
  revert w. induction fuel as [|n IH]; intros w Hok Hlt; [lia|].
  destruct (wp_run _ _ _ (wp_host_step w Hok)) as ([] & w1 & E & H1); cbn [run_host];
    rewrite (st_bind_run_normal _ _ _ _ _ E).
  - destruct H1 as [Hok1 L1]. apply IH; [done | lia].
  - subst w1. by exists w.
Qed.

(** ** The termination theorems *)

(** C15: the variant of the platform.  In a world whose transactions'
    requests, connections and databases exist, every step of the
    platform that reports work done returns normally, keeps that
    property, and strictly lowers [host_measure], the platform's pending
    work. *)
Theorem host_step_decreases (w w' : World) :
  host_ok w -> host_step w = (Normal true, w') -> host_ok w' /\ host_measure w' < host_measure w.
Proof. intros Hok Hm. exact (host_moves_progress w w' Hok Hm). Qed.

(** C16: termination of the platform.  In every world a client program can
    reach from one where [host_ok] holds (the empty world, for one),
    [run_host] with a fuel above the pending work returns normally, and
    the platform has nothing left to do in the world it returns: the
    platform's loop ends on its own, the fuel is never what stops it. *)
Theorem run_host_terminates (w0 w : World) (fuel : nat) :
  reachable w0 w -> host_ok w0 -> host_measure w < fuel ->
  exists w', run_host fuel w = (Normal tt, w') /\ host_step w' = (Normal false, w').
Proof. intros Hr Hok Hlt. exact (run_host_quiescent fuel w (reachable_host_ok w0 w Hr Hok) Hlt). Qed.

(** No infinite run of the platform.  From every world reachable
    from one where [host_ok] holds, there is no infinite sequence of
    platform steps that each report work done. *)
Theorem host_moves_wf (w0 w : World) :
  reachable w0 w -> host_ok w0 -> Acc (fun w2 w1 => host_moves w1 w2) w.
Proof.
  intros Hr Hok. pose proof (reachable_host_ok w0 w Hr Hok) as Hw. clear Hr Hok w0.
  remember (host_measure w) as n eqn:En. revert w Hw En.
  induction n as [n IH] using lt_wf_ind. intros w Hw ->. constructor. intros w' Hm.
  destruct (host_moves_progress w w' Hw Hm) as [Hw' Hlt]. exact (IH _ Hlt w' Hw' eq_refl).
Qed.

Lemma host_step_decreases_witness :
  host_ok adds_pending /\ host_step adds_pending = (Normal true, snd (host_step adds_pending)) /\
  host_measure (snd (host_step adds_pending)) < host_measure adds_pending.
Proof.
  assert (Hok : host_ok adds_pending) by (apply (bool_decide_unpack _); vm_compute; exact I).
  assert (Hm : host_step adds_pending = (Normal true, snd (host_step adds_pending))) by (vm_compute; reflexivity).
  split_and!; [exact Hok | exact Hm | exact (proj2 (host_step_decreases _ _ Hok Hm))].
Defined.

Lemma run_host_terminates_witness :
  host_ok adds_pending /\ host_measure adds_pending = 6 /\
  exists w', run_host 7 adds_pending = (Normal tt, w') /\ host_step w' = (Normal false, w').
Proof.
  assert (Hok : host_ok adds_pending) by (apply (bool_decide_unpack _); vm_compute; exact I).
  split_and!; [exact Hok | vm_compute; reflexivity |].
  apply (run_host_terminates adds_pending adds_pending 7); [apply rtc_refl | exact Hok | vm_compute; lia].
Defined.

Lemma host_moves_wf_witness : Acc (fun w2 w1 => host_moves w1 w2) adds_pending.
Proof.
  apply (host_moves_wf adds_pending adds_pending); [apply rtc_refl | apply (bool_decide_unpack _); vm_compute; exact I].
Defined.
