(* ===== verification/Await.v ===== *)
(** * Await: what every pending promise is waiting for

    A promise the wrapper hands out settles when an event fires at the
    request it listens to.  [awaited w p] says what a pending promise [p]
    waits for in [w]: a request [r] that carries the wrapper's listeners
    for [p] (['error'] rejects it; ['success'] resolves it) and that the
    platform will still fire an event at:
    - a request of a promisified call, queued in a transaction that has
      not finished ([queued]); it fires 'success' or 'error' when the
      platform runs it, or 'error' when the transaction aborts;
    - the open request of [openDatabase], not done yet, or done and in
      the middle of its upgrade ([upgrading]); 'success' comes when the
      upgrade transaction commits, 'error' when it aborts.

    [settle_inv] is the invariant that every pending promise is awaited,
    together with the bookkeeping it needs ([sound]: ids below the
    allocation counter, queued requests exist and are not open
    requests).  [grows] is the relation between worlds that keeps it:
    no promise becomes pending, no wait is lost, no listener of the
    wrapper is removed.  Every native method the wrapper calls respects
    it, a request method also queues its request ([req_call]), and
    [new_promise] establishes the wait of the promise it creates, so
    every wrapper call keeps the invariant ([srel_run_call]).  The
    platform's steps, which retire waits by firing their events, are in
    [Settle]. *)

From S2P Require Import Prelude Keys Store Promise World Host Wrapper System Frame Termination.

Local Open Scope st_scope.

(** ** Definitions *)

Definition pending (w : World) (p : nat) : Prop := w_promises w !! p = Some Pending.

Definition open_op (op : ReqOp) : bool := match op with OpOpen _ _ => true | _ => false end.
Definition is_open (rq : Request) : bool := open_op (rq_op rq).

(** The 'success' listener of a promisified call for promise [p]. *)
Definition resolves (p : nat) (l : Listener) : bool :=
  match l with
  | LResolveResult q _ | LResolveUndefined q => bool_decide (q = p)
  | _ => false
  end.

(** Request [r] waits in a transaction that has not finished. *)
Definition queued (w : World) (r : nat) : Prop :=
  exists t tx, w_txs w !! t = Some tx /\ r ∈ tx_requests tx /\ tx_state tx <> TxFinished.

(** Request [r] is the open request of an upgrade that has not finished. *)
Definition upgrading (w : World) (r : nat) : Prop :=
  exists t tx, w_txs w !! t = Some tx /\ tx_openreq tx = Some r /\ tx_state tx <> TxFinished.

Definition awaits (w : World) (p r : nat) (rq : Request) : Prop :=
  (EvError, LReject p) ∈ rq_listeners rq /\
  (((exists l, (EvSuccess, l) ∈ rq_listeners rq /\ resolves p l = true) /\ queued w r) \/
   ((EvSuccess, LOpenSuccess p) ∈ rq_listeners rq /\ is_open rq = true /\
     (rq_done rq = false \/ (is_Some (rq_conn rq) /\ upgrading w r)))).

Definition awaited (w : World) (p : nat) : Prop :=
  exists r rq, w_requests w !! r = Some rq /\ awaits w p r rq.

(** An event of type [ty] fired now at request [r] settles [p]. *)
Definition fires (w : World) (ty : EvType) (r p : nat) : Prop :=
  exists rq, w_requests w !! r = Some rq /\
  match ty with
  | EvError => (EvError, LReject p) ∈ rq_listeners rq
  | EvSuccess => exists l, (EvSuccess, l) ∈ rq_listeners rq /\
                   (resolves p l = true \/ (l = LOpenSuccess p /\ is_Some (rq_conn rq)))
  | _ => False
  end.

Definition is_client (l : Listener) : bool := match l with LClient _ => true | _ => false end.

(** A request update that keeps what the events read: the wrapper's
    listeners, the operation and the connection once it is set. *)
Definition keeps_rq (rq rq' : Request) : Prop :=
  (forall e, e ∈ rq_listeners rq -> is_client (snd e) = false -> e ∈ rq_listeners rq') /\
  rq_op rq' = rq_op rq /\ (is_Some (rq_conn rq) -> is_Some (rq_conn rq')).

(** A transaction update that keeps its queue and open request and does
    not finish it. *)
Definition keeps_tx (tx tx' : Transaction) : Prop :=
  tx_requests tx' = tx_requests tx /\ tx_openreq tx' = tx_openreq tx /\
  (tx_state tx' = TxFinished -> tx_state tx = TxFinished).

(** A transaction update after which the requests it queued and the
    open request of its upgrade are still waited for. *)
Definition grows_tx (tx tx' : Transaction) : Prop :=
  (forall r, r ∈ tx_requests tx -> tx_state tx <> TxFinished ->
     r ∈ tx_requests tx' /\ tx_state tx' <> TxFinished) /\
  (forall r, tx_openreq tx = Some r -> tx_state tx <> TxFinished ->
     tx_openreq tx' = Some r /\ tx_state tx' <> TxFinished).

Definition sound (w : World) : Prop :=
  (forall p, is_Some (w_promises w !! p) -> p < w_next w) /\
  (forall r, is_Some (w_requests w !! r) -> r < w_next w) /\
  (forall t, is_Some (w_txs w !! t) -> t < w_next w) /\
  (forall t tx r, w_txs w !! t = Some tx -> r ∈ tx_requests tx ->
     exists rq, w_requests w !! r = Some rq /\ is_open rq = false).

(** Every pending promise is awaited, or is excused by [X]. *)
Definition inv_but (X : World -> nat -> Prop) (w : World) : Prop :=
  sound w /\ forall p, pending w p -> X w p \/ awaited w p.

Definition settle_inv (w : World) : Prop := inv_but (fun _ _ => False) w.

(** [w'] keeps what [w] has: no new pending promise, no wait lost, no
    event lost. *)
Definition grows (w w' : World) : Prop :=
  (sound w -> sound w') /\ (forall p, pending w' p -> pending w p) /\
  (sound w -> forall p, awaited w p -> awaited w' p) /\
  (sound w -> forall r rq, w_requests w !! r = Some rq -> exists rq', w_requests w' !! r = Some rq' /\ keeps_rq rq rq').

Abbreviation grows_ok := (step_ok grows).

(** A step that keeps the invariant. *)
Definition srel (w w' : World) : Prop := settle_inv w -> settle_inv w'.

(** A native method that places a request: it respects [grows], and a
    normal return is a request, not an open request, queued on a
    transaction that has not finished. *)
Definition req_call (m : JS nat) : Prop :=
  grows_ok m /\ forall w r w', m w = (Normal r, w') ->
    queued w' r /\ exists rq, w_requests w' !! r = Some rq /\ is_open rq = false.

(** ** [grows] is a preorder and keeps the invariant *)

Lemma keeps_rq_refl (rq : Request) : keeps_rq rq rq.
Proof. split_and!; auto. Qed.

Lemma keeps_rq_trans (rq1 rq2 rq3 : Request) : keeps_rq rq1 rq2 -> keeps_rq rq2 rq3 -> keeps_rq rq1 rq3.
Proof.
  unfold keeps_rq. intros (L12 & O12 & C12) (L23 & O23 & C23). rewrite O23, O12. split_and!; auto.
Qed.

#[export] Instance grows_preorder : PreOrder grows.
Proof.
  split.
  - intros w. split_and!; eauto using keeps_rq_refl.
  - intros w1 w2 w3 (S12 & P12 & A12 & F12) (S23 & P23 & A23 & F23).
    split_and!; auto. intros Hs r rq Hr. destruct (F12 Hs r rq Hr) as (rq2 & Hr2 & K2).
    destruct (F23 (S12 Hs) r rq2 Hr2) as (rq3 & Hr3 & K3). eauto using keeps_rq_trans.
Qed.

Lemma inv_but_grows (X : World -> nat -> Prop) (w w' : World) :
  grows w w' -> (sound w -> forall p, X w p -> X w' p) -> inv_but X w -> inv_but X w'.
Proof.
  intros (Hs & Hp & Ha & _) HX [Hsw Hall]. split; [auto|].
  intros p Hp'. destruct (Hall p (Hp p Hp')) as [H|H]; [left; auto | right; auto].
Qed.

Lemma settle_inv_grows (w w' : World) : grows w w' -> settle_inv w -> settle_inv w'.
Proof. intros H. by apply inv_but_grows. Qed.

(** ** Updates that leave requests, transactions and promises alone *)

Lemma grows_same (w w' : World) :
  w_promises w' = w_promises w -> w_requests w' = w_requests w -> w_txs w' = w_txs w -> w_next w <= w_next w' ->
  grows w w'.
Proof.
  intros Hp Hr Ht Hn. unfold grows, sound, pending, awaited, awaits, queued, upgrading, fires.
  rewrite Hp, Hr, Ht. split_and!; eauto using keeps_rq_refl.
  intros (H1 & H2 & H3 & H4). split_and!; auto; intros; (eapply Nat.lt_le_trans; [|exact Hn]); auto.
Qed.

Lemma grows_modify_same (f : World -> World) :
  (forall w, w_promises (f w) = w_promises w /\ w_requests (f w) = w_requests w /\ w_txs (f w) = w_txs w /\
     w_next w <= w_next (f w)) -> grows_ok (st_modify f).
Proof. intros Hf. apply (step_modify grows). intros w. destruct (Hf w) as (? & ? & ? & ?). by apply grows_same. Qed.

(** ** Settling a promise *)

Lemma pending_resolve (p q : nat) (v : PVal) (w : World) :
  pending (set_promises (promise_resolve p v) w) q -> pending w q.
Proof.
  unfold pending, promise_resolve. cbn. destruct (w_promises w !! p) as [[]|] eqn:E; try done.
  destruct (decide (p = q)) as [<-|]; [by rewrite lookup_insert_eq | by rewrite lookup_insert_ne].
Qed.

Lemma pending_reject (p q : nat) (r : Reason) (w : World) :
  pending (set_promises (promise_reject p r) w) q -> pending w q.
Proof.
  unfold pending, promise_reject. cbn. destruct (w_promises w !! p) as [[]|] eqn:E; try done.
  destruct (decide (p = q)) as [<-|]; [by rewrite lookup_insert_eq | by rewrite lookup_insert_ne].
Qed.

Lemma resolve_dom (p q : nat) (v : PVal) (w : World) :
  is_Some (w_promises (set_promises (promise_resolve p v) w) !! q) -> is_Some (w_promises w !! q).
Proof. apply promise_resolve_dom. Qed.

Lemma reject_dom (p q : nat) (r : Reason) (w : World) :
  is_Some (w_promises (set_promises (promise_reject p r) w) !! q) -> is_Some (w_promises w !! q).
Proof. apply promise_reject_dom. Qed.

Lemma grows_resolve (p : nat) (v : PVal) : grows_ok (resolve p v).
Proof.
  apply (step_modify grows). intros w. split_and!.
  - intros (H1 & H2 & H3 & H4). split_and!; auto. intros q Hq. apply H1, (resolve_dom p q v w Hq).
  - intros q. apply pending_resolve.
  - intros _ q H. exact H.
  - intros _ r rq H. eauto using keeps_rq_refl.
Qed.

Lemma grows_reject (p : nat) (r : Reason) : grows_ok (reject p r).
Proof.
  apply (step_modify grows). intros w. split_and!.
  - intros (H1 & H2 & H3 & H4). split_and!; auto. intros q Hq. apply H1, (reject_dom p q r w Hq).
  - intros q. apply pending_reject.
  - intros _ q H. exact H.
  - intros _ r' rq H. eauto using keeps_rq_refl.
Qed.

(** ** Updates of requests *)

Lemma awaits_keep (w w' : World) (p r : nat) (rq rq' : Request) :
  (queued w r -> queued w' r) -> (upgrading w r -> upgrading w' r) -> keeps_rq rq rq' ->
  (is_open rq = true -> rq_done rq' = rq_done rq) -> awaits w p r rq -> awaits w' p r rq'.
Proof.
  intros Hq Hu (Hl & Ho & Hc) Hd [He Hw]. unfold awaits, is_open in *. split; [by apply Hl|].
  destruct Hw as [[(l & Hl1 & Hr) Hq1] | (Hs & Hop & Hdc)].
  - left. split; [|auto]. exists l. split; [|done]. apply Hl; [done|]. by destruct l.
  - right. rewrite Ho, (Hd Hop). split_and!; [by apply Hl | done |]. destruct Hdc as [?|[? ?]]; auto.
Qed.

Lemma fires_keep (ty : EvType) (rq rq' : Request) (p : nat) :
  keeps_rq rq rq' ->
  match ty with
  | EvError => (EvError, LReject p) ∈ rq_listeners rq
  | EvSuccess => exists l, (EvSuccess, l) ∈ rq_listeners rq /\ (resolves p l = true \/ (l = LOpenSuccess p /\ is_Some (rq_conn rq)))
  | _ => False
  end ->
  match ty with
  | EvError => (EvError, LReject p) ∈ rq_listeners rq'
  | EvSuccess => exists l, (EvSuccess, l) ∈ rq_listeners rq' /\ (resolves p l = true \/ (l = LOpenSuccess p /\ is_Some (rq_conn rq')))
  | _ => False
  end.
Proof.
  intros (Hl & _ & Hc). destruct ty; try done.
  - intros (l & Hl1 & Hr). exists l. split; [apply Hl; [done|]; destruct Hr as [Hr|[-> _]]; [by destruct l | done]|].
    destruct Hr as [?|[? ?]]; auto.
  - intros H. by apply Hl.
Qed.

Lemma fires_grows (ty : EvType) (r : nat) (w w' : World) :
  grows w w' -> sound w -> forall p, fires w ty r p -> fires w' ty r p.
Proof.
  intros (_ & _ & _ & HF) Hs p (rq & Hr & H). destruct (HF Hs r rq Hr) as (rq' & Hr' & Hk).
  exists rq'. split; [done|]. exact (fires_keep ty rq rq' p Hk H).
Qed.

Lemma grows_requests_alter (f : Request -> Request) (r : nat) :
  (forall rq, keeps_rq rq (f rq) /\ rq_done (f rq) = rq_done rq) -> grows_ok (st_modify (set_requests (alter f r))).
Proof.
  intros Hf. apply (step_modify grows). intros w.
  assert (Hlk : forall r' rq, w_requests w !! r' = Some rq -> exists rq',
            alter f r (w_requests w) !! r' = Some rq' /\ keeps_rq rq rq' /\ rq_done rq' = rq_done rq).
  { intros r' rq Hr'. rewrite lookup_alter. destruct (decide (r = r')) as [<-|]; rewrite Hr'; cbn;
      [eexists; split; [done | apply Hf] | eauto using keeps_rq_refl]. }
  split_and!.
  - intros (H1 & H2 & H3 & H4). split_and!; auto.
    + intros r' Hr'. apply H2. cbn in Hr'. by apply lookup_alter_is_Some in Hr'.
    + intros t tx r' Ht Hin. destruct (H4 t tx r' Ht Hin) as (rq & Hr' & Ho).
      destruct (Hlk r' rq Hr') as (rq' & Hr'' & (_ & Hop & _) & _). exists rq'. unfold is_open in *. by rewrite Hop.
  - done.
  - intros _ p (r' & rq & Hr' & Ha). destruct (Hlk r' rq Hr') as (rq' & Hr'' & Hk & Hd).
    exists r', rq'. split; [done|]. eapply awaits_keep; [done | done | exact Hk | by rewrite Hd | exact Ha].
  - intros _ r' rq Hr'. destruct (Hlk r' rq Hr') as (rq' & ? & ? & _). eauto.
Qed.

(** ** Updates of transactions *)

Lemma keeps_tx_refl (tx : Transaction) : keeps_tx tx tx.
Proof. split_and!; auto. Qed.

Lemma keeps_grows_tx (tx tx' : Transaction) : keeps_tx tx tx' -> grows_tx tx tx'.
Proof.
  intros (Hr & Ho & Hf). unfold grows_tx. rewrite Hr, Ho. split; intros; (split; [done | intros ?; auto]).
Qed.

Lemma grows_txs (w w' : World) :
  w_promises w' = w_promises w -> w_requests w' = w_requests w -> w_next w <= w_next w' ->
  (forall t, is_Some (w_txs w' !! t) -> is_Some (w_txs w !! t)) ->
  (sound w -> forall t tx' r, w_txs w' !! t = Some tx' -> r ∈ tx_requests tx' ->
     exists rq, w_requests w !! r = Some rq /\ is_open rq = false) ->
  (forall t tx, w_txs w !! t = Some tx -> exists tx', w_txs w' !! t = Some tx' /\ grows_tx tx tx') ->
  grows w w'.
Proof.
  intros Hp Hr Hn Hdom Hback Hfwd.
  assert (Hq : forall r, queued w r -> queued w' r).
  { intros r (t & tx & Ht & Hin & Hs). destruct (Hfwd t tx Ht) as (tx' & Ht' & Hrq & _).
    destruct (Hrq r Hin Hs). by exists t, tx'. }
  assert (Hu : forall r, upgrading w r -> upgrading w' r).
  { intros r (t & tx & Ht & Ho & Hs). destruct (Hfwd t tx Ht) as (tx' & Ht' & _ & Hu).
    destruct (Hu r Ho Hs). by exists t, tx'. }
  unfold grows, pending. rewrite Hp, Hr. split_and!; eauto using keeps_rq_refl.
  - intros Hs. pose proof Hs as (H1 & H2 & H3 & H4). unfold sound. rewrite Hp, Hr. split_and!.
    + intros; eapply Nat.lt_le_trans; [|exact Hn]; auto.
    + intros; eapply Nat.lt_le_trans; [|exact Hn]; auto.
    + intros t Ht'. eapply Nat.lt_le_trans; [|exact Hn]. auto.
    + intros t tx' r Ht' Hin. eauto.
  - intros _ p (r & rq & Hr' & Ha). exists r, rq. rewrite Hr. split; [done|].
    eapply awaits_keep; [apply Hq | apply Hu | apply keeps_rq_refl | done | exact Ha].
Qed.

(** A pointwise update of the transactions that keeps each of them. *)
Lemma grows_txs_keep (w w' : World) :
  w_promises w' = w_promises w -> w_requests w' = w_requests w -> w_next w <= w_next w' ->
  (forall t tx', w_txs w' !! t = Some tx' -> exists tx, w_txs w !! t = Some tx /\ keeps_tx tx tx') ->
  (forall t tx, w_txs w !! t = Some tx -> exists tx', w_txs w' !! t = Some tx' /\ keeps_tx tx tx') ->
  grows w w'.
Proof.
  intros Hp Hr Hn Hback Hfwd. apply grows_txs; [done..| | |].
  - intros t [tx' Ht']. destruct (Hback t tx' Ht') as (tx & Ht & _). by exists tx.
  - intros (_ & _ & _ & H4) t tx' r Ht' Hin. destruct (Hback t tx' Ht') as (tx & Ht & Hrq & _).
    rewrite Hrq in Hin. eauto.
  - intros t tx Ht. destruct (Hfwd t tx Ht) as (tx' & Ht' & Hk). eauto using keeps_grows_tx.
Qed.

Lemma grows_txs_alter (f : Transaction -> Transaction) (t : nat) :
  (forall tx, keeps_tx tx (f tx)) -> grows_ok (st_modify (set_txs (alter f t))).
Proof.
  intros Hf. apply (step_modify grows). intros w. apply grows_txs_keep; [done..| |].
  - intros t' tx'. cbn. rewrite lookup_alter. case_decide; [|eauto using keeps_tx_refl].
    intros (tx & Ht & ->)%fmap_Some. subst. exists tx. split; [done|]. apply Hf.
  - intros t' tx Ht. cbn. rewrite lookup_alter. case_decide; subst; rewrite Ht; [|eauto using keeps_tx_refl]. eexists; split; [done | apply Hf].
Qed.

Lemma grows_txs_fmap (f : Transaction -> Transaction) :
  (forall tx, keeps_tx tx (f tx)) -> grows_ok (st_modify (set_txs (fmap f))).
Proof.
  intros Hf. apply (step_modify grows). intros w. apply grows_txs_keep; [done..| |].
  - intros t' tx'. cbn. rewrite lookup_fmap. intros (tx & Ht & ->)%fmap_Some. exists tx. split; [done|]. apply Hf.
  - intros t' tx Ht. cbn. rewrite lookup_fmap, Ht. eexists; split; [done | apply Hf].
Qed.

Lemma grows_update_listeners (tg : Target) (f : list (EvType * Listener) -> list (EvType * Listener)) :
  (forall ls e, e ∈ ls -> is_client (snd e) = false -> e ∈ f ls) -> grows_ok (st_modify (update_listeners tg f)).
Proof.
  intros Hf. destruct tg; cbn [update_listeners].
  - apply grows_requests_alter. intros rq. split; [split_and!; cbn; auto | done].
  - apply grows_txs_alter. intros tx. by split_and!.
  - apply grows_modify_same. intros w. split_and!; done.
Qed.

(** ** Registering a listener *)

Lemma same_listener_nonclient (a l : Listener) : is_client l = false -> same_listener a l = false.
Proof. destruct a, l; done. Qed.

Lemma add_listener_grows_ls (ty : EvType) (l : Listener) (ls : list (EvType * Listener)) (e : EvType * Listener) :
  e ∈ ls -> e ∈ (if existsb (fun e => bool_decide (e.1 = ty) && same_listener e.2 l) ls then ls else ls ++ [(ty, l)]).
Proof. intros H. case_match; [done|]. apply elem_of_app. by left. Qed.

Lemma add_listener_has (ty : EvType) (l : Listener) (ls : list (EvType * Listener)) :
  is_client l = false ->
  (ty, l) ∈ (if existsb (fun e => bool_decide (e.1 = ty) && same_listener e.2 l) ls then ls else ls ++ [(ty, l)]).
Proof.
  intros Hl. replace (existsb _ ls) with false.
  - apply elem_of_app. right. by left.
  - induction ls as [|e ls IH]; cbn; [done|]. by rewrite same_listener_nonclient, andb_false_r.
Qed.

Lemma grows_add_listener (tg : Target) (ty : EvType) (l : Listener) : grows_ok (add_listener tg ty l).
Proof. apply grows_update_listeners. intros ls e H _. by apply add_listener_grows_ls. Qed.

Lemma grows_remove_listener (tg : Target) (ty : EvType) (l : Listener) : grows_ok (remove_listener tg ty l).
Proof.
  apply grows_update_listeners. intros ls [ty' l'] H Hc. apply list_elem_of_In, filter_In.
  split; [by apply list_elem_of_In|]. destruct l'; cbn in *; by rewrite ?andb_false_r.
Qed.

(** A listener that is not the client's is registered on a request. *)
Lemma add_listener_request (r : nat) (ty : EvType) (l : Listener) (rq : Request) (w w' : World) (o : outcome ErrorName unit) :
  add_listener (TRequest r) ty l w = (o, w') -> w_requests w !! r = Some rq -> is_client l = false ->
  w_txs w' = w_txs w /\ exists rq', w_requests w' !! r = Some rq' /\ (ty, l) ∈ rq_listeners rq' /\
    (forall e, e ∈ rq_listeners rq -> e ∈ rq_listeners rq') /\ rq_op rq' = rq_op rq /\ rq_done rq' = rq_done rq.
Proof.
  unfold add_listener, st_modify. intros [= <- <-] Hr Hl. cbn. split; [done|].
  rewrite lookup_alter_eq, Hr. eexists; split_and!; [done | cbn; by apply add_listener_has | | done | done].
  intros e He. by apply add_listener_grows_ls.
Qed.

(** ** Listener bodies and dispatch *)

Create HintDb grows.
#[export] Hint Extern 3 (grows _ _) => apply grows_same; [reflexivity..| cbn; lia] : grows.
#[export] Hint Resolve grows_resolve grows_reject : grows.
#[export] Hint Unfold fresh alloc_object : grows.

Lemma grows_run_schema (c : nat) cmds : grows_ok (run_schema c cmds).
Proof. induction cmds; cbn; eauto 10 with frame grows. Qed.

Lemma grows_run_listener (l : Listener) (ev : Event) : grows_ok (run_listener l ev).
Proof. destruct l; cbn; autounfold with grows; eauto 20 using grows_run_schema with frame grows. Qed.

Lemma grows_dispatch_listeners ls (ev : Event) : grows_ok (dispatch_listeners ls ev).
Proof. induction ls as [|[ty l] ls IH]; cbn; eauto 10 using grows_run_listener with frame. Qed.

Lemma grows_dispatch_path path (ev : Event) : grows_ok (dispatch_path path ev).
Proof. induction path as [|t path IH]; cbn; eauto 10 using grows_dispatch_listeners with frame. Qed.

(** ** Placing a request *)

Lemma sound_req_lt (w : World) (r : nat) (rq : Request) :
  sound w -> w_requests w !! r = Some rq -> r < w_next w.
Proof. intros (_ & H2 & _) Hr. apply H2. by exists rq. Qed.

Lemma grows_new_request (w : World) (rq : Request) :
  grows w (set_requests (insert (w_next w) rq) (bump_next w)).
Proof.
  assert (Hne : forall r rq', sound w -> w_requests w !! r = Some rq' -> w_next w <> r).
  { intros r rq' Hs Hr. pose proof (sound_req_lt w r rq' Hs Hr). lia. }
  split_and!.
  - intros Hs. pose proof Hs as (H1 & H2 & H3 & H4). split_and!; cbn.
    + intros p Hp. specialize (H1 p Hp). lia.
    + intros r [->|Hr]%lookup_insert_is_Some'; [lia|]. specialize (H2 r Hr). lia.
    + intros t Ht. specialize (H3 t Ht). lia.
    + intros t tx r Ht Hin. destruct (H4 t tx r Ht Hin) as (rq' & Hr & Ho).
      exists rq'. by rewrite lookup_insert_ne by eauto.
  - done.
  - intros Hs p (r & rq' & Hr & Ha). exists r, rq'. cbn. rewrite lookup_insert_ne by eauto.
    split; [done|]. eapply awaits_keep; [done | done | apply keeps_rq_refl | done | exact Ha].
  - intros Hs r rq' Hr. exists rq'. cbn. rewrite lookup_insert_ne by eauto. split; [done | apply keeps_rq_refl].
Qed.

Lemma grows_place_request (t : nat) (src : Source) (op : ReqOp) :
  open_op op = false -> grows_ok (place_request t src op).
Proof.
  intros Hop w o w' Hrun. unfold place_request, fresh in Hrun. autorewrite with st_simpl in Hrun. unfold st_ret in Hrun.
  injection Hrun as <- <-. transitivity (set_requests (insert (w_next w) (mkRequest src op false JUndefined None None false [])) (bump_next w));
    [apply grows_new_request|]. apply grows_txs; cbn; [done..| | |].
  - intros t'. by rewrite lookup_alter_is_Some.
  - intros (_ & _ & _ & H4) t' tx' r Ht' Hin. cbn in H4. rewrite lookup_alter in Ht'. case_decide; subst.
    + apply fmap_Some in Ht' as (tx & Ht & ->). cbn in Hin. apply elem_of_app in Hin as [Hin| ->%list_elem_of_singleton]; eauto.
      exists (mkRequest src op false JUndefined None None false []). by rewrite lookup_insert_eq.
    + eauto.
  - intros t' tx Ht. rewrite lookup_alter. case_decide; subst; rewrite Ht; eexists; (split; [done|]).
    + split; intros; cbn; (split; [|done]); [apply elem_of_app; by left | done].
    + apply keeps_grows_tx, keeps_tx_refl.
Qed.

(** What a placed request is: the counter's value, a fresh request with no
    listener, queued last on its transaction. *)
Lemma place_request_post (t : nat) (src : Source) (op : ReqOp) (w w' : World) (r : nat) :
  place_request t src op w = (Normal r, w') ->
  r = w_next w /\ w_requests w' !! r = Some (mkRequest src op false JUndefined None None false []) /\
  forall tx, w_txs w !! t = Some tx -> exists tx', w_txs w' !! t = Some tx' /\ r ∈ tx_requests tx' /\ tx_state tx' = tx_state tx.
Proof.
  intros Hrun. unfold place_request, fresh in Hrun. autorewrite with st_simpl in Hrun. unfold st_ret in Hrun.
  injection Hrun as <- <-. cbn. split_and!; [done | by rewrite lookup_insert_eq |].
  intros tx Ht. rewrite lookup_alter_eq, Ht. eexists; split_and!; [done | cbn; apply elem_of_app; right; by left | done].
Qed.

Lemma place_request_queued (t : nat) (src : Source) (op : ReqOp) (tx : Transaction) (w w' : World) (r : nat) :
  w_txs w !! t = Some tx -> tx_state tx = TxActive -> open_op op = false ->
  place_request t src op w = (Normal r, w') ->
  queued w' r /\ exists rq, w_requests w' !! r = Some rq /\ is_open rq = false.
Proof.
  intros Ht Ha Hop (_ & Hr & Htx)%place_request_post. destruct (Htx tx Ht) as (tx' & Ht' & Hin & Hs).
  split; [exists t, tx'; rewrite Hs, Ha; by split_and! | eexists; split; [exact Hr | exact Hop]].
Qed.

(** ** Reads before the request *)

Lemma st_bind_normal_inv {A B} (m : JS A) (k : A -> JS B) (w w' : World) (b : B) :
  st_bind m k w = (Normal b, w') -> exists a w1, m w = (Normal a, w1) /\ k a w1 = (Normal b, w').
Proof. unfold st_bind. destruct (m w) as [[a|e] w1]; [eauto | done]. Qed.

Tactic Notation "run_normal" hyp(H) "as" ident(a) ident(w1) ident(H1) :=
  apply st_bind_normal_inv in H as (a & w1 & H1 & H).

Lemma read_normal {X} (read : World -> option X) (e : ErrorName) (w w' : World) (y : X) :
  (x <- st_get ;; match read x with Some y => st_ret y | None => st_throw e end) w = (Normal y, w') ->
  w' = w /\ read w = Some y.
Proof. rewrite st_bind_get_run. destruct (read w); unfold st_ret, st_throw; intros; simplify_eq; auto. Qed.

Lemma get_store_normal (h : StoreHandle) (w w' : World) (x : Transaction * ObjectStore) :
  get_store h w = (Normal x, w') -> w' = w /\ w_txs w !! sh_tx h = Some x.1.
Proof.
  unfold get_store. intros H. run_normal H as tx w1 H1.
  destruct (read_normal (fun w => w_txs w !! sh_tx h) _ _ _ _ H1) as [-> Ht].
  run_normal H as cn w2 H2. destruct (read_normal (fun w => w_conns w !! tx_conn tx) _ _ _ _ H2) as [-> _].
  run_normal H as d w3 H3. destruct (read_normal (fun w => w_dbs w !! conn_name cn) _ _ _ _ H3) as [-> _].
  revert H. case_match; unfold st_ret, st_throw; intros; simplify_eq; auto.
Qed.

Lemma get_index_normal (h : IndexHandle) (w w' : World) (x : Transaction * ObjectStore * IndexMeta) :
  get_index h w = (Normal x, w') -> w' = w /\ w_txs w !! sh_tx (ih_store h) = Some x.1.1.
Proof.
  unfold get_index. intros H. run_normal H as ts w1 H1. apply get_store_normal in H1 as [-> Ht].
  destruct ts as [tx s]. revert H. case_match; unfold st_ret, st_throw; intros; simplify_eq; auto.
Qed.

Lemma require_normal (b : bool) (e : ErrorName) (w w' : World) (u : unit) :
  require b e w = (Normal u, w') -> b = true /\ w' = w.
Proof. destruct b; unfold require, st_ret, st_throw; intros; simplify_eq; auto. Qed.

(** A computation that does not touch the world. *)
Lemma reads_only {A} (m : JS A) (w w' : World) (o : outcome ErrorName A) :
  step_ok eq m -> m w = (o, w') -> w' = w.
Proof. intros Hm Hrun. symmetry. exact (Hm w o w' Hrun). Qed.

#[export] Hint Unfold key_range_of count_arg require get_store get_index get_tx get_conn get_db : grows.

(** Take a computation apart down to its leaves: returns, throws and the
    placing of a request. *)
Ltac grows_run :=
  autounfold with grows; repeat frame_step ltac:(idtac);
  try apply (step_ret grows); try apply (step_throw grows); try (apply grows_place_request; auto).

Lemma call_store_read (h : StoreHandle) (nd : bool) (q : option QueryArg) (op : KeyRange -> ReqOp) :
  (forall r, open_op (op r) = false) -> req_call (store_read h nd q op).
Proof.
  intros Hop. split.
  - unfold store_read. grows_run.
  - intros w r w' H. unfold store_read in H. run_normal H as ts w1 H1. apply get_store_normal in H1 as [-> Ht].
    run_normal H as u w2 H2. apply require_normal in H2 as [Ha ->]. run_normal H as kr w3 H3.
    apply reads_only in H3 as ->; [|unfold key_range_of; eauto with frame].
    apply bool_decide_eq_true in Ha. eauto using place_request_queued.
Qed.

Lemma call_store_write (h : StoreHandle) (nd : bool) (q : option QueryArg) (op : KeyRange -> ReqOp) :
  (forall r, open_op (op r) = false) -> req_call (store_write h nd q op).
Proof.
  intros Hop. split.
  - unfold store_write. grows_run.
  - intros w r w' H. unfold store_write in H. run_normal H as ts w1 H1. apply get_store_normal in H1 as [-> Ht].
    run_normal H as u w2 H2. apply require_normal in H2 as [Ha ->].
    run_normal H as u' w3 H3. apply require_normal in H3 as [_ ->]. run_normal H as kr w4 H4.
    apply reads_only in H4 as ->; [|unfold key_range_of; eauto with frame].
    apply bool_decide_eq_true in Ha. eauto using place_request_queued.
Qed.

Lemma call_store_add_or_put (h : StoreHandle) (v : JsVal) (k : option JsVal) (no_overwrite : bool) :
  req_call (store_add_or_put h v k no_overwrite).
Proof.
  assert (Hop : forall k, open_op (if no_overwrite then OpAdd v k else OpPut v k) = false) by (by destruct no_overwrite).
  split.
  - unfold store_add_or_put. grows_run.
  - intros w r w' H. unfold store_add_or_put in H. run_normal H as ts w1 H1. apply get_store_normal in H1 as [-> Ht].
    destruct ts as [tx s]. cbn in Ht.
    run_normal H as u w2 H2. apply require_normal in H2 as [Ha ->].
    do 3 (let u' := fresh "u" in let w3 := fresh "w" in let H3 := fresh "H" in
          run_normal H as u' w3 H3; apply require_normal in H3 as [_ ->]).
    run_normal H as kk w4 H4. apply reads_only in H4 as ->; [|autounfold with grows; eauto 20 with frame].
    apply bool_decide_eq_true in Ha. eapply place_request_queued; [exact Ht | exact Ha | apply Hop | exact H].
Qed.

Lemma call_index_read (h : IndexHandle) (nd : bool) (q : option QueryArg) (op : KeyRange -> ReqOp) :
  (forall r, open_op (op r) = false) -> req_call (index_read h nd q op).
Proof.
  intros Hop. split.
  - unfold index_read. grows_run.
  - intros w r w' H. unfold index_read in H. run_normal H as ts w1 H1. apply get_index_normal in H1 as [-> Ht].
    run_normal H as u w2 H2. apply require_normal in H2 as [Ha ->]. run_normal H as kr w3 H3.
    apply reads_only in H3 as ->; [|unfold key_range_of; eauto with frame].
    apply bool_decide_eq_true in Ha. eauto using place_request_queued.
Qed.

(** The [count] argument is converted before the request is placed. *)
Lemma call_count_arg (c : option Z) (k : option Z -> JS nat) :
  (forall c', req_call (k c')) -> req_call (c' <- count_arg c ;; k c').
Proof.
  intros Hk. split.
  - apply (step_bind grows); [unfold count_arg; eauto with frame | intros c'; apply Hk].
  - intros w r w' H. run_normal H as c' w1 H1. apply reads_only in H1 as ->; [|unfold count_arg; eauto with frame].
    by apply Hk in H.
Qed.

(** ** A promise of the wrapper: allocated, then awaited or rejected *)

#[export] Instance srel_preorder : PreOrder srel.
Proof. split; [intros w H; exact H | intros w1 w2 w3 H12 H23 H; auto]. Qed.

Lemma srel_of_grows {A} (m : JS A) : grows_ok m -> step_ok srel m.
Proof. apply step_ok_mono. intros w w' H. exact (settle_inv_grows w w' H). Qed.

Lemma awaited_same (w w' : World) (p : nat) :
  w_requests w' = w_requests w -> w_txs w' = w_txs w -> awaited w p -> awaited w' p.
Proof. intros Hr Ht. unfold awaited, awaits, queued, upgrading. by rewrite Hr, Ht. Qed.

Lemma inv_alloc (w : World) :
  settle_inv w -> inv_but (fun _ q => q = w_next w) (set_promises (promise_alloc (w_next w)) (bump_next w)).
Proof.
  intros [(H1 & H2 & H3 & H4) Hall]. split.
  - split_and!; cbn.
    + unfold promise_alloc. intros q [->|Hq]%lookup_insert_is_Some'; [lia|]. specialize (H1 q Hq). lia.
    + intros r Hr. specialize (H2 r Hr). lia.
    + intros t Ht. specialize (H3 t Ht). lia.
    + exact H4.
  - intros q Hq. unfold pending in Hq. cbn in Hq. unfold promise_alloc in Hq.
    destruct (decide (w_next w = q)) as [<-|Hne]; [by left|right].
    rewrite lookup_insert_ne in Hq by done. destruct (Hall q Hq) as [[]|Ha]. by eapply awaited_same.
Qed.

Lemma not_pending_reject (p : nat) (r : Reason) (w : World) : ~ pending (set_promises (promise_reject p r) w) p.
Proof.
  unfold pending, promise_reject. cbn. destruct (w_promises w !! p) as [[]|] eqn:E; rewrite ?E; try done.
  by rewrite lookup_insert_eq.
Qed.

(** The executor failed: the promise is rejected and the invariant is back. *)
Lemma inv_reject (p : nat) (r : Reason) (w : World) :
  inv_but (fun _ q => q = p) w -> settle_inv (set_promises (promise_reject p r) w).
Proof.
  intros Hi. assert (Hg : grows w (set_promises (promise_reject p r) w)) by (apply (grows_reject p r w _ _ eq_refl)).
  destruct (inv_but_grows (fun _ q => q = p) _ _ Hg (fun _ q H => H) Hi) as [Hs Hall]. split; [done|].
  intros q Hq. destruct (Hall q Hq) as [->|]; [|by right]. by apply not_pending_reject in Hq.
Qed.

(** The executor registered its listeners: the promise is awaited. *)
Lemma inv_awaited (p : nat) (w : World) : inv_but (fun _ q => q = p) w -> awaited w p -> settle_inv w.
Proof. intros [Hs Hall] Ha. split; [done|]. intros q Hq. destruct (Hall q Hq) as [->|]; by right. Qed.

Lemma inv_grows_ok {A} (p : nat) (m : JS A) (w : World) (o : outcome ErrorName A) (w' : World) :
  grows_ok m -> m w = (o, w') -> inv_but (fun _ q => q = p) w -> inv_but (fun _ q => q = p) w'.
Proof. intros Hm Hrun. apply inv_but_grows; [exact (Hm w o w' Hrun) | done]. Qed.

(** [new Promise(executor)] keeps the invariant when the executor respects
    [grows] and, when it returns, leaves the promise awaited. *)
Lemma srel_new_promise (exec : nat -> JS unit) :
  (forall p, grows_ok (exec p)) ->
  (forall p w w', inv_but (fun _ q => q = p) w -> exec p w = (Normal tt, w') -> awaited w' p) ->
  step_ok srel (new_promise exec).
Proof.
  intros Hg Hn w o w' Hrun Hinv. pose proof (inv_alloc w Hinv) as Hi.
  unfold new_promise, alloc_promise, fresh in Hrun. autorewrite with st_simpl in Hrun.
  unfold st_bind, st_catch in Hrun.
  destruct (exec (w_next w) _) as [[[]|e] w2] eqn:E; unfold st_ret in Hrun.
  - injection Hrun as <- <-. pose proof (inv_grows_ok _ _ _ _ _ (Hg _) E Hi) as Hi2.
    exact (inv_awaited _ _ Hi2 (Hn _ _ _ Hi E)).
  - unfold reject, st_modify in Hrun. injection Hrun as <- <-.
    apply inv_reject, (inv_grows_ok _ _ _ _ _ (Hg _) E Hi).
Qed.

Lemma srel_request_promise (call : JS nat) (on_success : nat -> nat -> Listener) :
  req_call call -> (forall p r, resolves p (on_success p r) = true) ->
  step_ok srel (request_promise call on_success).
Proof.
  intros [Hg Hpost] Hos. apply srel_new_promise.
  - intros p. apply (step_bind grows); [exact Hg|]. intros r.
    apply (step_bind grows); [apply grows_add_listener | intros; apply grows_add_listener].
  - intros p w w' Hi Hrun. run_normal Hrun as r w1 H1. destruct (Hpost _ _ _ H1) as (Hq & rq & Hr & Ho).
    run_normal Hrun as u w2 H2.
    assert (Hc : is_client (on_success p r) = false) by (specialize (Hos p r); by destruct (on_success p r)).
    destruct (add_listener_request _ _ _ _ _ _ _ H2 Hr Hc) as (Ht2 & rq2 & Hr2 & Hs2 & Hk2 & Ho2 & _).
    destruct (add_listener_request _ _ _ _ _ _ _ Hrun Hr2 eq_refl) as (Ht3 & rq3 & Hr3 & He3 & Hk3 & Ho3 & _).
    exists r, rq3. split; [done|]. split; [done|]. left. split.
    + exists (on_success p r). auto.
    + destruct Hq as (t & tx & Ht & Hin & Hs). exists t, tx. by rewrite Ht3, Ht2.
Qed.

(** ** [openDatabase] *)

Lemma factory_open_post (name : string) (version : Z) (w w' : World) (r : nat) :
  factory_open name version w = (Normal r, w') ->
  w_requests w' !! r = Some (mkRequest SrcFactory (OpOpen name version) false JUndefined None None false []).
Proof.
  unfold factory_open. intros H. run_normal H as u w1 H1. apply require_normal in H1 as [_ ->].
  unfold fresh in H. autorewrite with st_simpl in H. unfold st_ret in H. injection H as <- <-.
  cbn. by rewrite lookup_insert_eq.
Qed.

Lemma grows_factory_open (name : string) (version : Z) : grows_ok (factory_open name version).
Proof.
  unfold factory_open, require. apply (step_bind grows); [case_match; eauto with frame | intros _].
  intros w o w' H. unfold fresh in H. autorewrite with st_simpl in H. unfold st_ret in H.
  injection H as <- <-. apply grows_new_request.
Qed.

Lemma srel_openDatabase (name : string) (version : Z) (m : Migration) (blocked : option nat) :
  step_ok srel (openDatabase name version m blocked).
Proof.
  apply srel_new_promise.
  - intros p. apply (step_bind grows); [apply grows_factory_open|]. intros r.
    repeat (apply (step_bind grows); [apply grows_add_listener | intros]).
    destruct blocked; [apply grows_add_listener | apply (step_ret grows)].
  - intros p w w' Hi Hrun. cbn in Hrun. run_normal Hrun as r w1 H1. apply factory_open_post in H1.
    run_normal Hrun as u w2 H2.
    destruct (add_listener_request _ _ _ _ _ _ _ H2 H1 eq_refl) as (_ & rq2 & Hr2 & Hs2 & _ & Ho2 & Hd2).
    run_normal Hrun as u' w3 H3.
    destruct (add_listener_request _ _ _ _ _ _ _ H3 Hr2 eq_refl) as (_ & rq3 & Hr3 & He3 & Hk3 & Ho3 & Hd3).
    run_normal Hrun as u'' w4 H4.
    destruct (add_listener_request _ _ _ _ _ _ _ H4 Hr3 eq_refl) as (_ & rq4 & Hr4 & _ & Hk4 & Ho4 & Hd4).
    assert (Hlast : exists rq5, w_requests w' !! r = Some rq5 /\ (forall e, e ∈ rq_listeners rq4 -> e ∈ rq_listeners rq5) /\
                      rq_op rq5 = rq_op rq4 /\ rq_done rq5 = rq_done rq4).
    { destruct blocked as [b|].
      - destruct (add_listener_request _ _ _ _ _ _ _ Hrun Hr4 eq_refl) as (_ & rq5 & Hr5 & _ & Hk5 & Ho5 & Hd5). eauto.
      - unfold st_ret in Hrun. injection Hrun as <-. eauto. }
    destruct Hlast as (rq5 & Hr5 & Hk5 & Ho5 & Hd5). exists r, rq5. split; [done|]. split; [auto|].
    right. unfold is_open, open_op. rewrite Ho5, Ho4, Ho3, Ho2, Hd5, Hd4, Hd3, Hd2. cbn. auto 10.
Qed.

(** ** The other methods of the platform *)

Lemma grows_new_tx (w : World) (tx : Transaction) :
  tx_requests tx = [] -> grows w (set_txs (insert (w_next w) tx) (bump_next w)).
Proof.
  intros Hrq. assert (Hne : forall t tx', sound w -> w_txs w !! t = Some tx' -> w_next w <> t).
  { intros t tx' (_ & _ & H3 & _) Ht. assert (t < w_next w) by (apply H3; by exists tx'). lia. }
  split_and!.
  - intros Hs. pose proof Hs as (H1 & H2 & H3 & H4). split_and!; cbn.
    + intros p Hp. specialize (H1 p Hp). lia.
    + intros r Hr. specialize (H2 r Hr). lia.
    + intros t [->|Ht]%lookup_insert_is_Some'; [lia|]. specialize (H3 t Ht). lia.
    + intros t tx' r Ht Hin. destruct (decide (w_next w = t)) as [<-|].
      * rewrite lookup_insert_eq in Ht. injection Ht as <-. rewrite Hrq in Hin. by apply not_elem_of_nil in Hin.
      * rewrite lookup_insert_ne in Ht by done. eauto.
  - done.
  - intros Hs p (r & rq & Hr & Hw & Ha). exists r, rq. split; [done|]. split; [done|].
    destruct Ha as [[Hl (t & tx' & Ht & Hin & Hf)] | (Hl & Ho & Hd)]; [left | right].
    + split; [done|]. exists t, tx'. cbn. rewrite lookup_insert_ne by eauto. auto.
    + split_and!; [done..|]. destruct Hd as [|[Hc (t & tx' & Ht & Hor & Hf)]]; [by left | right].
      split; [done|]. exists t, tx'. cbn. rewrite lookup_insert_ne by eauto. auto.
  - intros _ r rq Hr. eauto using keeps_rq_refl.
Qed.

Lemma grows_db_transaction (c : nat) (names : NamesArg) (mode : option TxMode) (o : IDBTransactionOptions) :
  grows_ok (db_transaction c names mode o).
Proof.
  unfold db_transaction. apply (step_get grows). intros w.
  apply (step_get_conn_from grows). intros cn Hcn.
  do 2 (apply (step_require_from grows); intros _).
  apply (step_get_db_from grows). intros d Hd. cbv zeta.
  do 2 (apply (step_require_from grows); intros _).
  intros o' w' Hrun. destruct mode as [[]|]; cbv [st_bind st_get st_modify st_ret st_throw fresh] in Hrun;
    injection Hrun as <- <-; try reflexivity; by apply grows_new_tx.
Qed.

Ltac grows_leaf :=
  idtac; match goal with
  | |- grows_ok (st_ret _) => apply (step_ret grows)
  | |- grows_ok (st_throw _) => apply (step_throw grows)
  | |- grows_ok (place_request _ _ _) => apply grows_place_request; auto
  | |- grows_ok (db_transaction _ _ _ _) => apply grows_db_transaction
  | |- grows_ok (add_listener _ _ _) => apply grows_add_listener
  | |- grows_ok (remove_listener _ _ _) => apply grows_remove_listener
  | |- grows_ok (dispatch_path _ _) => apply grows_dispatch_path
  | |- grows_ok (dispatch_listeners _ _) => apply grows_dispatch_listeners
  | |- grows_ok (st_modify (set_txs (alter _ _))) =>
      apply grows_txs_alter; intros; split_and!; cbn; [done | done | try discriminate; done]
  | |- grows_ok (st_modify (set_txs (fmap _))) =>
      apply grows_txs_fmap; intros; case_bool_decide; split_and!; cbn; [done | done | try discriminate; done..]
  | |- grows_ok (st_modify (set_requests (alter _ _))) =>
      apply grows_requests_alter; intros; split; [split_and!; cbn; auto | done]
  | |- grows_ok (st_modify _) => apply grows_modify_same; intros; split_and!; cbn; [done.. | lia]
  | |- grows_ok _ => progress autounfold with grows
  end.

#[export] Hint Unfold tx_abort abort_tx update_tx tx_commit tx_objectStore store_index db_store_names db_close : grows.

(** The wrapper's calls that place requests. *)
Ltac req_call_tac :=
  cbn; first [ apply call_index_read | apply call_store_read | apply call_store_write | apply call_store_add_or_put
             | apply call_count_arg; intros; first [apply call_index_read | apply call_store_read] ];
  intros; reflexivity.

Lemma srel_run_call (c : Call) : step_ok srel (run_call c).
Proof.
  destruct c; cbn [run_call]; autounfold with wrapper;
    (apply (step_bind srel); [|intros; apply (step_ret srel)]) || idtac;
    lazymatch goal with
    | |- step_ok srel (request_promise _ _) =>
        apply srel_request_promise; [req_call_tac | intros; cbn; by case_bool_decide]
    | |- step_ok srel (new_promise _) => refine (srel_openDatabase _ _ _ _)
    | |- _ => apply srel_of_grows; cbn; repeat frame_step grows_leaf
    end.
Qed.

Lemma srel_run_task {A} (m : JS A) : step_ok srel m -> step_ok srel (run_task m).
Proof.
  intros Hm. unfold run_task, end_task. apply (step_bind srel).
  - apply (step_catch srel); [apply (step_bind srel); [exact Hm | intros; apply (step_ret srel)] | intros; apply (step_ret srel)].
  - intros r. apply (step_bind srel); [apply srel_of_grows; grows_leaf | intros; apply (step_ret srel)].
Qed.
