(* ===== verification/Settle.v ===== *)
(** * Settle: the platform's steps retire the waits they fire

    Every step of the platform keeps [Await.settle_inv]: a step that
    dequeues a request, completes an open request or finishes a
    transaction breaks the waits on that request, and the event it fires
    next at the request runs the wrapper's listeners, which settle exactly
    those promises ([inv_dispatch]). *)

From S2P Require Import Prelude Keys Store Promise World Host Wrapper System Frame Termination Await.

Local Open Scope st_scope.

(** ** Definitions *)

(** A listener that settles [p] when its event reaches request [rq]. *)
Definition settler (p : nat) (rq : Request) (l : Listener) : Prop :=
  resolves p l = true \/ l = LReject p \/ (l = LOpenSuccess p /\ is_Some (rq_conn rq)).

(** A step that may break waits on request [r], each of them turning into
    an event of type [ty] at [r] that settles the promise. *)
Definition breaks (ty : EvType) (r : nat) (w w' : World) : Prop :=
  (sound w -> sound w') /\ (forall p, pending w' p -> pending w p) /\
  (sound w -> forall p, awaited w p -> awaited w' p \/ fires w' ty r p) /\
  (sound w -> forall p, fires w ty r p -> fires w' ty r p).

(** What happens to a transaction: its requests and its open request stay
    waited for, except [r]. *)
Definition tx_moves (r : nat) (tx tx' : Transaction) : Prop :=
  (forall r', r' ∈ tx_requests tx -> tx_state tx <> TxFinished ->
     (r' ∈ tx_requests tx' /\ tx_state tx' <> TxFinished) \/ r' = r) /\
  (forall r', tx_openreq tx = Some r' -> tx_state tx <> TxFinished ->
     (tx_openreq tx' = Some r' /\ tx_state tx' <> TxFinished) \/ r' = r).

(** [K], run from a world where every pending promise is awaited or
    settled by [X], ends with every pending promise awaited. *)
Definition after_inv {B} (X : World -> nat -> Prop) (w : World) (K : JS B) : Prop :=
  forall o w', K w = (o, w') -> inv_but X w -> settle_inv w'.

(** ** Running a settling listener *)

Lemma not_pending_resolve (p : nat) (v : PVal) (w : World) : ~ pending (set_promises (promise_resolve p v) w) p.
Proof.
  unfold pending, promise_resolve. cbn. destruct (w_promises w !! p) as [[]|] eqn:E; rewrite ?E; try done.
  by rewrite lookup_insert_eq.
Qed.

Lemma grows_not_pending {A} (m : JS A) (w w' : World) (o : outcome ErrorName A) (p : nat) :
  grows_ok m -> m w = (o, w') -> ~ pending w p -> ~ pending w' p.
Proof. intros Hm Hrun Hp Hp'. destruct (Hm w o w' Hrun) as (_ & HP & _). auto. Qed.

Lemma settler_keep (p : nat) (rq rq' : Request) (l : Listener) : keeps_rq rq rq' -> settler p rq l -> settler p rq' l.
Proof. intros (_ & _ & Hc) [H|[H|[H1 H2]]]; unfold settler; auto. Qed.

Lemma run_listener_settles (l : Listener) (ev : Event) (p r : nat) (rq : Request) (w w' : World) (o : outcome ErrorName bool) :
  w_requests w !! r = Some rq -> ev_target ev = TRequest r -> settler p rq l ->
  run_listener l ev w = (o, w') -> ~ pending w' p.
Proof.
  intros Hr Ht Hs Hrun. destruct Hs as [Hs|[->|[-> [c Hc]]]].
  - destruct l; try done; cbn in Hs; case_bool_decide; try done; subst;
      cbn in Hrun; unfold resolve, st_modify, st_bind, st_get, st_ret in Hrun; injection Hrun as <- <-;
      apply not_pending_resolve.
  - cbn in Hrun. unfold reject, st_modify, st_bind, st_ret in Hrun. injection Hrun as <- <-. apply not_pending_reject.
  - unfold run_listener in Hrun. rewrite st_bind_get_run in Hrun. unfold request_conn in Hrun.
    rewrite Ht, Hr in Hrun. cbn [mbind option_bind] in Hrun. rewrite Hc in Hrun.
    unfold alloc_object, fresh, resolve in Hrun. autorewrite with st_simpl in Hrun. unfold st_ret in Hrun.
    injection Hrun as <- <-. apply not_pending_resolve.
Qed.

(** ** Dispatch at a request settles the promises its listeners settle *)

(** Once a promise is not pending, the rest of a computation that respects
    [grows] keeps it so. *)
Lemma bind_not_pending {A B} (m : JS A) (k : A -> JS B) (w w' : World) (o : outcome ErrorName B) (p : nat) :
  (forall o1 w1, m w = (o1, w1) -> ~ pending w1 p) -> (forall a, grows_ok (k a)) ->
  st_bind m k w = (o, w') -> ~ pending w' p.
Proof.
  intros Hm Hk. unfold st_bind. destruct (m w) as [[a|e] w1] eqn:E; intros Hrun.
  - exact (grows_not_pending _ _ _ _ _ (Hk a) Hrun (Hm _ _ eq_refl)).
  - injection Hrun as _ <-. exact (Hm _ _ eq_refl).
Qed.

Lemma catch_not_pending {A} (m : JS A) (h : ErrorName -> JS A) (w w' : World) (o : outcome ErrorName A) (p : nat) :
  (forall o1 w1, m w = (o1, w1) -> ~ pending w1 p) -> (forall e, grows_ok (h e)) ->
  st_catch m h w = (o, w') -> ~ pending w' p.
Proof.
  intros Hm Hh. unfold st_catch. destruct (m w) as [[a|e] w1] eqn:E; intros Hrun.
  - injection Hrun as _ <-. exact (Hm _ _ eq_refl).
  - exact (grows_not_pending _ _ _ _ _ (Hh e) Hrun (Hm _ _ eq_refl)).
Qed.

Lemma dispatch_listeners_settles ls (ev : Event) (p r : nat) (rq0 : Request) (l : Listener) (w w' : World) o :
  sound w -> (exists rq, w_requests w !! r = Some rq /\ keeps_rq rq0 rq) -> ev_target ev = TRequest r ->
  (ev_type ev, l) ∈ ls -> settler p rq0 l -> dispatch_listeners ls ev w = (o, w') -> ~ pending w' p.
Proof.
  revert w o. induction ls as [|[ty l1] ls IH]; intros w o Hs (rq & Hr & Hk) Ht Hin Hsl Hrun;
    [by apply not_elem_of_nil in Hin|].
  cbn [dispatch_listeners] in Hrun. apply elem_of_cons in Hin as [Heq|Hin].
  - injection Heq as <- <-. rewrite bool_decide_true in Hrun by done.
    refine (bind_not_pending _ _ _ _ _ _ _ _ Hrun); [|intros; eauto 10 using grows_dispatch_listeners with frame].
    intros o1 w1 H1. refine (catch_not_pending _ _ _ _ _ _ _ _ H1); [|intros; apply (step_ret grows)].
    intros o2 w2 H2. refine (bind_not_pending _ _ _ _ _ _ _ _ H2); [|intros; apply (step_ret grows)].
    intros o3 w3 H3. exact (run_listener_settles _ _ _ _ _ _ _ _ Hr Ht (settler_keep _ _ _ _ Hk Hsl) H3).
  - set (hd := if bool_decide (ty = ev_type ev) then _ else _) in Hrun.
    assert (Hg : grows_ok hd) by (subst hd; case_bool_decide; eauto 10 using grows_run_listener with frame).
    unfold st_bind at 1 in Hrun. destruct (hd w) as [[a|e] w1] eqn:E;
      [|exfalso; subst hd; revert E; case_bool_decide; unfold st_catch, st_bind, st_ret; repeat case_match; congruence].
    pose proof (Hg w _ w1 E) as (Hs1 & _ & _ & Hq1). destruct (Hq1 Hs r rq Hr) as (rq1 & Hr1 & Hk1).
    unfold st_bind in Hrun. destruct (dispatch_listeners ls ev w1) as [o2 w2] eqn:E2.
    assert (w' = w2) as -> by (destruct o2; unfold st_ret in Hrun; congruence).
    refine (IH _ _ (Hs1 Hs) _ Ht Hin Hsl E2). eauto using keeps_rq_trans.
Qed.

Lemma fires_settler (w : World) (ty : EvType) (r p : nat) :
  fires w ty r p -> exists rq l, w_requests w !! r = Some rq /\ (ty, l) ∈ rq_listeners rq /\ settler p rq l.
Proof.
  intros (rq & Hr & H). exists rq. destruct ty; try done.
  - destruct H as (l & Hin & Hs). exists l. split_and!; [done | done |]. destruct Hs as [?|[-> ?]]; unfold settler; auto.
  - exists (LReject p). split_and!; [done | done |]. unfold settler. auto.
Qed.

Lemma dispatch_path_settles path (ev : Event) (r p : nat) (w w' : World) o :
  sound w -> ev_target ev = TRequest r -> fires w (ev_type ev) r p ->
  dispatch_path (TRequest r :: path) ev w = (o, w') -> ~ pending w' p.
Proof.
  intros Hs Ht (rq & l & Hr & Hin & Hsl)%fires_settler Hrun. cbn [dispatch_path] in Hrun.
  rewrite st_bind_get_run in Hrun. refine (bind_not_pending _ _ _ _ _ _ _ _ Hrun).
  - intros o1 w1 H1. cbn in H1. rewrite Hr in H1. cbn in H1.
    refine (dispatch_listeners_settles _ _ _ _ rq _ _ _ _ Hs _ Ht Hin Hsl H1). eauto using keeps_rq_refl.
  - intros. eauto 10 using grows_dispatch_path with frame.
Qed.

(** The event fired at [r] retires the waits that a step broke, provided
    each of them fires there. *)
Lemma inv_dispatch path (ev : Event) (r : nat) (w w' : World) o :
  inv_but (fun w q => fires w (ev_type ev) r q) w -> ev_target ev = TRequest r ->
  dispatch_path (TRequest r :: path) ev w = (o, w') -> settle_inv w'.
Proof.
  intros [Hs Hall] Ht Hrun. destruct (grows_dispatch_path _ ev w o w' Hrun) as (HS & HP & HA & _). split; [auto|].
  intros q Hq. destruct (Hall q (HP q Hq)) as [Hf|Ha]; [|right; auto].
  exfalso. exact (dispatch_path_settles _ _ _ _ _ _ _ Hs Ht Hf Hrun Hq).
Qed.

(** ** Steps that break waits *)

Lemma breaks_of_grows (ty : EvType) (r : nat) (w w' : World) : grows w w' -> breaks ty r w w'.
Proof.
  intros Hg. pose proof Hg as (HS & HP & HA & _). split_and!; auto.
  intros Hs p. by apply fires_grows.
Qed.

#[export] Instance breaks_preorder (ty : EvType) (r : nat) : PreOrder (breaks ty r).
Proof.
  split; [intros w; apply breaks_of_grows; reflexivity|].
  intros w1 w2 w3 (S12 & P12 & A12 & F12) (S23 & P23 & A23 & F23). split_and!; auto.
  intros Hs p Ha. destruct (A12 Hs p Ha) as [H|H]; [apply A23; auto | right; auto].
Qed.

Lemma inv_breaks (ty : EvType) (r : nat) (w w' : World) :
  breaks ty r w w' -> inv_but (fun w q => fires w ty r q) w -> inv_but (fun w q => fires w ty r q) w'.
Proof.
  intros (HS & HP & HA & HF) [Hs Hall]. split; [auto|]. intros q Hq.
  destruct (Hall q (HP q Hq)) as [H|H]; [left; auto|]. destruct (HA Hs q H); auto.
Qed.

Lemma settle_inv_but (X : World -> nat -> Prop) (w : World) : settle_inv w -> inv_but X w.
Proof. intros [Hs Hall]. split; [done|]. intros q Hq. destruct (Hall q Hq) as [[]|]; auto. Qed.

(** A wait through a queue or an upgrade, broken at [r], fires there. *)
Lemma awaits_fires_queued (ty : EvType) (w : World) (p r : nat) (rq : Request) :
  ty = EvError \/ ty = EvSuccess -> w_requests w !! r = Some rq -> (EvError, LReject p) ∈ rq_listeners rq ->
  ((exists l, (EvSuccess, l) ∈ rq_listeners rq /\ resolves p l = true) \/
   ((EvSuccess, LOpenSuccess p) ∈ rq_listeners rq /\ is_Some (rq_conn rq))) ->
  fires w ty r p.
Proof.
  intros [-> | ->] Hr He Hs; exists rq; (split; [done|]); cbn; [exact He|].
  destruct Hs as [(l & Hl & Hres) | [Hl Hc]]; eauto.
Qed.

Lemma breaks_txs (ty : EvType) (r : nat) (w w' : World) :
  ty = EvError \/ ty = EvSuccess ->
  w_promises w' = w_promises w -> w_requests w' = w_requests w -> w_next w <= w_next w' ->
  (forall t, is_Some (w_txs w' !! t) -> is_Some (w_txs w !! t)) ->
  (sound w -> forall t tx' r', w_txs w' !! t = Some tx' -> r' ∈ tx_requests tx' ->
     exists rq, w_requests w !! r' = Some rq /\ is_open rq = false) ->
  (forall t tx, w_txs w !! t = Some tx -> exists tx', w_txs w' !! t = Some tx' /\ tx_moves r tx tx') ->
  breaks ty r w w'.
Proof.
  intros Hty Hp Hr Hn Hdom Hback Hfwd. unfold breaks, pending, fires. rewrite Hp, Hr. split_and!; auto.
  - intros Hs. pose proof Hs as (H1 & H2 & H3 & H4). unfold sound. rewrite Hp, Hr. split_and!.
    + intros; eapply Nat.lt_le_trans; [|exact Hn]; auto.
    + intros; eapply Nat.lt_le_trans; [|exact Hn]; auto.
    + intros t Ht'. eapply Nat.lt_le_trans; [|exact Hn]. auto.
    + intros t tx' r' Ht' Hin. eauto.
  - intros Hs p (r' & rq & Hr' & He & Hw).
    destruct Hw as [[Hl (t & tx & Ht & Hin & Hf)] | (Hl & Ho & [Hd | [Hc (t & tx & Ht & Hor & Hf)]])].
    + destruct (Hfwd t tx Ht) as (tx' & Ht' & Hq & _). destruct (Hq r' Hin Hf) as [[Hin' Hf']| ->].
      * left. exists r', rq. rewrite Hr. split; [done|]. split; [done|]. left. split; [done|]. by exists t, tx'.
      * right. apply (awaits_fires_queued ty w p r rq Hty Hr' He). by left.
    + left. exists r', rq. rewrite Hr. split; [done|]. split; [done|]. right. auto.
    + destruct (Hfwd t tx Ht) as (tx' & Ht' & _ & Hu). destruct (Hu r' Hor Hf) as [[Hor' Hf']| ->].
      * left. exists r', rq. rewrite Hr. split; [done|]. split; [done|]. right. split_and!; [done | done |].
        right. split; [done|]. by exists t, tx'.
      * right. apply (awaits_fires_queued ty w p r rq Hty Hr' He). by right.
Qed.

Lemma fires_same_listeners (w w' : World) (ty : EvType) (r p : nat) (rq rq' : Request) :
  w_requests w !! r = Some rq -> w_requests w' !! r = Some rq' ->
  rq_listeners rq' = rq_listeners rq -> rq_conn rq' = rq_conn rq -> fires w ty r p -> fires w' ty r p.
Proof. intros Hr Hr' Hl Hc (rq0 & Hr0 & H). rewrite Hr in Hr0. injection Hr0 as <-. exists rq'. by rewrite Hl, Hc. Qed.

(** Completing request [r]: its listeners, operation and connection stay;
    a wait on it turns into the event fired next at it. *)
Lemma breaks_request_alter (ty : EvType) (r : nat) (f : Request -> Request) (w : World) :
  (forall rq, w_requests w !! r = Some rq ->
     rq_listeners (f rq) = rq_listeners rq /\ rq_op (f rq) = rq_op rq /\ rq_conn (f rq) = rq_conn rq) ->
  (ty = EvError \/ (ty = EvSuccess /\ forall rq, w_requests w !! r = Some rq -> is_Some (rq_conn rq))) ->
  breaks ty r w (set_requests (alter f r) w).
Proof.
  intros Hf Hty.
  assert (Hlk : forall rq, w_requests w !! r = Some rq -> w_requests (set_requests (alter f r) w) !! r = Some (f rq)).
  { intros rq Hr. cbn. by rewrite lookup_alter_eq, Hr. }
  assert (Hne : forall r', r' <> r -> w_requests (set_requests (alter f r) w) !! r' = w_requests w !! r').
  { intros r' Hne. cbn. by rewrite lookup_alter_ne. }
  split_and!.
  - intros (H1 & H2 & H3 & H4). split_and!; auto.
    + intros r' Hr'. apply H2. cbn in Hr'. by apply lookup_alter_is_Some in Hr'.
    + intros t tx r' Ht Hin. destruct (H4 t tx r' Ht Hin) as (rq & Hr' & Ho).
      destruct (decide (r' = r)) as [->|Hn]; [|rewrite Hne; eauto].
      exists (f rq). rewrite (Hlk rq Hr'). unfold is_open in *. destruct (Hf rq Hr') as (_ & -> & _). done.
  - done.
  - intros Hs p (r' & rq & Hr' & Ha). destruct (decide (r' = r)) as [->|Hn].
    + right. destruct (Hf rq Hr') as (Hl & _ & Hc). exists (f rq). split; [by apply Hlk|].
      rewrite Hl, Hc. destruct Ha as [He Hw]. destruct Hty as [-> | [-> Hcs]]; [done|].
      destruct Hw as [[(l & Hl1 & Hres) _] | (Hl1 & _)]; [eauto|].
      exists (LOpenSuccess p). split; [done | right; split; [done | by apply Hcs]].
    + left. exists r', rq. rewrite Hne by done. split; [done|].
      eapply awaits_keep; [done | done | apply keeps_rq_refl | done | exact Ha].
  - intros Hs p (rq & Hr & H). destruct (Hf rq Hr) as (Hl & _ & Hc).
    apply (fires_same_listeners w _ ty r p rq (f rq)); [done | by apply Hlk | done | done | by exists rq].
Qed.

Lemma tx_moves_refl (r : nat) (tx : Transaction) : tx_moves r tx tx.
Proof. split; intros; left; auto. Qed.

(** The transactions after [alter f t]: [t] moves as [f] says, the others
    stay. *)
Lemma breaks_txs_alter (ty : EvType) (r t : nat) (tx : Transaction) (f : Transaction -> Transaction) (w : World) :
  ty = EvError \/ ty = EvSuccess -> w_txs w !! t = Some tx ->
  (forall r', r' ∈ tx_requests (f tx) -> r' ∈ tx_requests tx) -> tx_moves r tx (f tx) ->
  breaks ty r w (set_txs (alter f t) w).
Proof.
  intros Hty Ht Hsub Hm. apply breaks_txs; cbn; [done..| | |].
  - intros t'. by rewrite lookup_alter_is_Some.
  - intros (_ & _ & _ & H4) t' tx' r' Ht' Hin. rewrite lookup_alter in Ht'. case_decide; subst; [|eauto].
    rewrite Ht in Ht'. injection Ht' as <-. eauto.
  - intros t' tx' Ht'. rewrite lookup_alter. case_decide; subst; rewrite Ht'; eexists; (split; [done|]).
    + rewrite Ht in Ht'. by injection Ht' as <-.
    + apply tx_moves_refl.
Qed.

(** Dequeuing the head request [r] of transaction [t]. *)
Lemma breaks_dequeue (ty : EvType) (t r : nat) (rs : list nat) (tx : Transaction) (f : Transaction -> Transaction) (w : World) :
  ty = EvError \/ ty = EvSuccess -> w_txs w !! t = Some tx -> tx_requests tx = r :: rs ->
  tx_requests (f tx) = rs -> tx_openreq (f tx) = tx_openreq tx ->
  (tx_state (f tx) = TxFinished -> tx_state tx = TxFinished) ->
  breaks ty r w (set_txs (alter f t) w).
Proof.
  intros Hty Ht Hq Hq' Ho Hs. apply (breaks_txs_alter ty r t tx); [done | done | | split].
  - intros r' Hin. rewrite Hq. rewrite Hq' in Hin. by apply elem_of_cons; right.
  - intros r' Hin Hf. rewrite Hq in Hin. apply elem_of_cons in Hin as [->|Hin]; [by right|].
    left. rewrite Hq'. split; [done | intros ?; auto].
  - intros r' Hor Hf. left. rewrite Ho. split; [done | intros ?; auto].
Qed.

(** Finishing an upgrade transaction with no request left. *)
Lemma breaks_finish (ty : EvType) (t r : nat) (tx : Transaction) (w : World) :
  ty = EvError \/ ty = EvSuccess -> w_txs w !! t = Some tx -> tx_requests tx = [] -> tx_openreq tx = Some r ->
  breaks ty r w (set_txs (alter (with_state TxFinished) t) w).
Proof.
  intros Hty Ht Hq Ho. apply (breaks_txs_alter ty r t tx); [done | done | | split].
  - intros r'. cbn. by rewrite Hq.
  - intros r' Hin. rewrite Hq in Hin. by apply not_elem_of_nil in Hin.
  - intros r' Hor _. rewrite Ho in Hor. injection Hor as ->. by right.
Qed.

(** Finishing a transaction with no request left and no upgrade loses
    no wait. *)
Lemma grows_finish (t : nat) (tx : Transaction) (w : World) :
  w_txs w !! t = Some tx -> tx_requests tx = [] -> tx_openreq tx = None ->
  grows w (set_txs (alter (with_state TxFinished) t) w).
Proof.
  intros Ht Hq Ho. apply grows_txs; cbn; [done..| | |].
  - intros t'. by rewrite lookup_alter_is_Some.
  - intros (_ & _ & _ & H4) t' tx' r' Ht' Hin. rewrite lookup_alter in Ht'. case_decide; subst; [|eauto].
    rewrite Ht in Ht'. injection Ht' as <-. cbn in Hin. rewrite Hq in Hin. by apply not_elem_of_nil in Hin.
  - intros t' tx' Ht'. rewrite lookup_alter. case_decide; subst; rewrite Ht'; eexists; (split; [done|]).
    + rewrite Ht in Ht'. injection Ht' as <-. split; intros r'; [rewrite Hq; intros Hin; by apply not_elem_of_nil in Hin|].
      by rewrite Ho.
    + split; intros; auto.
Qed.

(** A change of requests alone, each request kept and each wait on it kept. *)
Lemma grows_requests (w w' : World) :
  w_promises w' = w_promises w -> w_txs w' = w_txs w -> w_next w <= w_next w' ->
  (forall r, is_Some (w_requests w' !! r) -> is_Some (w_requests w !! r)) ->
  (forall r rq, w_requests w !! r = Some rq -> exists rq', w_requests w' !! r = Some rq' /\ keeps_rq rq rq' /\
     forall p, awaits w p r rq -> awaits w' p r rq') ->
  grows w w'.
Proof.
  intros Hp Ht Hn Hdom Hk. unfold grows, pending. rewrite Hp. split_and!.
  - intros (H1 & H2 & H3 & H4). unfold sound. rewrite Hp, Ht. split_and!.
    + intros; eapply Nat.lt_le_trans; [|exact Hn]; auto.
    + intros r Hr. eapply Nat.lt_le_trans; [|exact Hn]. auto.
    + intros; eapply Nat.lt_le_trans; [|exact Hn]; auto.
    + intros t tx r Htx Hin. destruct (H4 t tx r Htx Hin) as (rq & Hr & Ho).
      destruct (Hk r rq Hr) as (rq' & Hr' & (_ & Hop & _) & _). exists rq'. unfold is_open in *. by rewrite Hop.
  - done.
  - intros _ p (r & rq & Hr & Ha). destruct (Hk r rq Hr) as (rq' & Hr' & _ & Hw). exists r, rq'. auto.
  - intros _ r rq Hr. destruct (Hk r rq Hr) as (rq' & Hr' & Hkk & _). eauto.
Qed.

(** Completing the open request of a running upgrade: its waits move from
    "not done" to "upgrading". *)
Lemma grows_complete_upgrading (r : nat) (rq : Request) (f : Request -> Request) (w : World) :
  w_requests w !! r = Some rq -> upgrading w r -> is_Some (rq_conn rq) ->
  rq_listeners (f rq) = rq_listeners rq -> rq_op (f rq) = rq_op rq -> rq_conn (f rq) = rq_conn rq ->
  grows w (set_requests (alter f r) w).
Proof.
  intros Hr Hu Hc Hl Ho Hcn. apply grows_requests; cbn; [done..| |].
  - intros r'. by rewrite lookup_alter_is_Some.
  - intros r' rq' Hr'. rewrite lookup_alter. case_decide; subst; rewrite Hr'; cbn; eexists; (split; [done|]).
    + rewrite Hr in Hr'. injection Hr' as <-. split; [split_and!; [rewrite Hl; auto | done | rewrite Hcn; auto]|].
      intros p [He Hw]. unfold awaits, queued, upgrading, is_open in *. cbn. rewrite Hl, Ho, Hcn.
      split; [done|]. destruct Hw as [?|(? & ? & _)]; [by left | right; auto].
    + split; [apply keeps_rq_refl|]. intros p Ha. eapply awaits_keep; [done | done | apply keeps_rq_refl | done | exact Ha].
Qed.

(** ** Completing a request that is not an open request *)

Lemma grows_complete_plain (r : nat) (rq : Request) (f : Request -> Request) (w : World) :
  w_requests w !! r = Some rq -> is_open rq = false ->
  rq_listeners (f rq) = rq_listeners rq -> rq_op (f rq) = rq_op rq -> rq_conn (f rq) = rq_conn rq ->
  grows w (set_requests (alter f r) w).
Proof.
  intros Hr Hop Hl Ho Hcn. apply grows_requests; cbn; [done..| |].
  - intros r'. by rewrite lookup_alter_is_Some.
  - intros r' rq' Hr'. rewrite lookup_alter. case_decide; subst; rewrite Hr'; cbn; eexists; (split; [done|]).
    + rewrite Hr in Hr'. injection Hr' as <-. split; [split_and!; [rewrite Hl; auto | done | rewrite Hcn; auto]|].
      intros p Ha. eapply awaits_keep; [done | done | | | exact Ha].
      * split_and!; [rewrite Hl; auto | done | rewrite Hcn; auto].
      * by rewrite Hop.
    + split; [apply keeps_rq_refl|]. intros p Ha. eapply awaits_keep; [done | done | apply keeps_rq_refl | done | exact Ha].
Qed.

(** ** Composing a task: modifications, then the event that settles *)

Lemma after_modify {B} (X X' : World -> nat -> Prop) (f : World -> World) (K : JS B) (w : World) :
  (inv_but X w -> inv_but X' (f w)) -> after_inv X' (f w) K -> after_inv X w (st_modify f ;; K).
Proof. intros Hf HK o w' Hrun Hi. rewrite st_bind_modify_run in Hrun. exact (HK o w' Hrun (Hf Hi)). Qed.

Lemma after_dispatch {B} (r : nat) path (ev : Event) (k : bool * bool -> JS B) (w : World) :
  ev_target ev = TRequest r -> (forall fl, step_ok srel (k fl)) ->
  after_inv (fun w q => fires w (ev_type ev) r q) w (fl <- dispatch_path (TRequest r :: path) ev ;; k fl).
Proof.
  intros Ht Hk o w' Hrun Hi. unfold st_bind in Hrun. destruct (dispatch_path _ ev w) as [[fl|e] w1] eqn:E.
  - exact (Hk fl w1 o w' Hrun (inv_dispatch _ _ _ _ _ _ Hi Ht E)).
  - injection Hrun as _ <-. exact (inv_dispatch _ _ _ _ _ _ Hi Ht E).
Qed.

Lemma srel_of_after {B} (K : JS B) (w : World) : (settle_inv w -> after_inv (fun _ _ => False) w K) -> step_from srel w K.
Proof. intros H o w' Hrun Hi. exact (H Hi o w' Hrun Hi). Qed.

Lemma inv_grows_step (X : World -> nat -> Prop) (w w' : World) : grows w w' -> settle_inv w -> inv_but X w'.
Proof. intros Hg Hi. apply settle_inv_but, (settle_inv_grows w w' Hg Hi). Qed.

(** ** The platform's tasks *)

Lemma settle_inv_req_closed (w : World) (t : nat) (tx : Transaction) (r : nat) (rq : Request) :
  settle_inv w -> w_txs w !! t = Some tx -> r ∈ tx_requests tx -> w_requests w !! r = Some rq -> is_open rq = false.
Proof.
  intros [(_ & _ & _ & H4) _] Ht Hin Hr. destruct (H4 t tx r Ht Hin) as (rq' & Hr' & Ho). congruence.
Qed.

Lemma srel_run_request (t r : nat) (rs : list nat) (tx : Transaction) (w : World) :
  w_txs w !! t = Some tx -> tx_requests tx = r :: rs -> step_from srel w (run_request t r).
Proof.
  intros Ht Hq. unfold run_request. apply (step_get_tx_from srel). intros tx' Ht'. rewrite Ht in Ht'. injection Ht' as <-.
  apply (step_get_conn_from srel). intros cn Hcn. apply (step_get_db_from srel). intros d Hd.
  apply (step_get_from srel). destruct (w_requests w !! r) as [rq|] eqn:Hr; [|apply (step_ret srel)].
  destruct (exec_request _ _ _) as [d' res]. apply srel_of_after. intros Hinv.
  assert (Hop : is_open rq = false) by (eapply settle_inv_req_closed; [done | done | rewrite Hq; left | done]).
  apply (after_modify _ (fun _ _ => False)); [apply settle_inv_grows, grows_same; [done..| apply le_n]|].
  unfold update_tx, complete_request, update_request.
  set (ty := match res with Done _ => EvSuccess | Failed _ => EvError end).
  apply (after_modify _ (fun w q => fires w ty r q)).
  { intros Hi. eapply inv_breaks; [|apply settle_inv_but, Hi]. eapply breaks_dequeue; [| exact Ht | exact Hq | cbn; by rewrite Hq | done |].
    - subst ty; destruct res; auto.
    - cbn. by case_bool_decide. }
  apply (after_modify _ (fun w q => fires w ty r q)).
  { apply inv_breaks, breaks_of_grows. eapply grows_complete_plain; [cbn; exact Hr | exact Hop | done..]. }
  destruct res; apply after_dispatch; [done| |done|]; intros fl; apply srel_of_grows; repeat frame_step grows_leaf.
Qed.

Lemma after_grows {A B} (X : World -> nat -> Prop) (m : JS A) (k : A -> JS B) (w : World) :
  (forall w1, grows w w1 -> sound w -> forall q, X w q -> X w1 q) ->
  grows_ok m -> (forall o w1, m w = (o, w1) -> exists a, o = Normal a) ->
  (forall a w1, m w = (Normal a, w1) -> after_inv X w1 (k a)) ->
  after_inv X w (st_bind m k).
Proof.
  intros HX Hg Hn Hk o w' Hrun Hi. unfold st_bind in Hrun. destruct (m w) as [o1 w1] eqn:E.
  destruct (Hn o1 w1 eq_refl) as [a ->]. apply (Hk a w1 eq_refl o w' Hrun).
  apply (inv_but_grows _ w); [exact (Hg w _ w1 E) | | exact Hi]. by apply HX, (Hg w _ w1 E).
Qed.

Lemma after_grows_fires {A B} (ty : EvType) (r : nat) (m : JS A) (k : A -> JS B) (w : World) :
  grows_ok m -> (forall o w1, m w = (o, w1) -> exists a, o = Normal a) ->
  (forall a w1, m w = (Normal a, w1) -> after_inv (fun w q => fires w ty r q) w1 (k a)) ->
  after_inv (fun w q => fires w ty r q) w (st_bind m k).
Proof. apply after_grows. intros w1 Hg Hs q. exact (fires_grows _ _ _ _ Hg Hs q). Qed.

Lemma dispatch_path_normal_any path (ev : Event) (w : World) o (w1 : World) :
  dispatch_path path ev w = (o, w1) -> exists a, o = Normal a.
Proof. destruct (dispatch_path_normal path ev w) as (fl & w2 & E). rewrite E. intros [= <- _]. eauto. Qed.

Lemma srel_deliver_abort (t : nat) (w : World) : step_from srel w (deliver_abort t).
Proof.
  unfold deliver_abort. apply (step_get_tx_from srel). intros tx Ht.
  destruct (tx_requests tx) as [|r rs] eqn:Hq.
  - destruct (tx_openreq tx) as [r|] eqn:Ho.
    + apply srel_of_after. intros Hinv. unfold update_tx.
      apply (after_modify _ (fun w q => fires w EvError r q)).
      { intros Hi. eapply inv_breaks; [apply (breaks_finish _ t r tx); auto | by apply settle_inv_but]. }
      apply after_grows_fires; [apply grows_dispatch_path | apply dispatch_path_normal_any |]. intros fl w1 _.
      unfold close_conn, db_close. apply (after_modify _ (fun w q => fires w EvError r q)).
      { apply inv_breaks, breaks_of_grows, grows_same; [done..| apply le_n]. }
      unfold complete_request, update_request. apply (after_modify _ (fun w q => fires w EvError r q)).
      { apply inv_breaks, breaks_request_alter; [intros rq _; done | by left]. }
      apply after_dispatch; [done | intros; apply (step_ret srel)].
    + apply (step_bind_from srel).
      { apply (step_modify_from srel). exact (settle_inv_grows _ _ (grows_finish t tx w Ht Hq Ho)). }
      intros _ w1 _. apply srel_of_grows. repeat frame_step grows_leaf.
  - apply srel_of_after. intros Hinv.
    assert (Hop : forall rq, w_requests w !! r = Some rq -> is_open rq = false).
    { intros rq Hr. eapply settle_inv_req_closed; [done | done | rewrite Hq; left | done]. }
    unfold update_tx, complete_request, update_request.
    apply (after_modify _ (fun w q => fires w EvError r q)).
    { intros Hi. eapply inv_breaks; [|apply settle_inv_but, Hi]. eapply breaks_dequeue; [| exact Ht | exact Hq | done..]. auto. }
    apply (after_modify _ (fun w q => fires w EvError r q)).
    { apply inv_breaks, breaks_request_alter; [intros rq _; done | by left]. }
    apply after_dispatch; [done | intros; apply (step_ret srel)].
Qed.

Lemma srel_finish_commit (t : nat) (tx : Transaction) (w : World) :
  w_txs w !! t = Some tx -> tx_requests tx = [] -> step_from srel w (finish_commit t).
Proof.
  intros Ht Hq. unfold finish_commit. apply (step_get_tx_from srel). intros tx' Ht'. rewrite Ht in Ht'. injection Ht' as <-.
  destruct (tx_openreq tx) as [r|] eqn:Ho.
  - apply srel_of_after. intros Hinv. unfold update_tx.
    apply (after_modify _ (fun w q => fires w EvSuccess r q)).
    { intros Hi. eapply inv_breaks; [apply (breaks_finish _ t r tx); auto | by apply settle_inv_but]. }
    apply after_grows_fires; [apply grows_dispatch_path | apply dispatch_path_normal_any |]. intros fl w1 _.
    apply after_dispatch; [done | intros; apply (step_ret srel)].
  - apply (step_bind_from srel).
    { apply (step_modify_from srel). exact (settle_inv_grows _ _ (grows_finish t tx w Ht Hq Ho)). }
    intros _ w1 _. apply srel_of_grows. repeat frame_step grows_leaf.
Qed.

(** ** Opening a database *)

Lemma grows_requests_alter_at (f : Request -> Request) (r : nat) (w : World) :
  (forall rq, keeps_rq rq (f rq) /\ rq_done (f rq) = rq_done rq) -> grows w (set_requests (alter f r) w).
Proof. intros Hf. exact (grows_requests_alter f r Hf w (Normal tt) _ eq_refl). Qed.

Lemma after_of_grows {B} (K : JS B) (w : World) : grows_ok K -> after_inv (fun _ _ => False) w K.
Proof. intros Hg o w' Hrun Hi. exact (settle_inv_grows _ _ (Hg w o w' Hrun) Hi). Qed.

Lemma after_settle_modify {B} (f : World -> World) (K : JS B) (w : World) :
  grows w (f w) -> after_inv (fun _ _ => False) (f w) K -> after_inv (fun _ _ => False) w (st_modify f ;; K).
Proof. intros Hg. apply after_modify. exact (settle_inv_grows _ _ Hg). Qed.

Lemma new_connection_run (name : string) (version : Z) (w : World) :
  new_connection name version w =
  (Normal (w_next w), set_conns (insert (w_next w) (mkConn name version false [])) (bump_next w)).
Proof. unfold new_connection, fresh. by autorewrite with st_simpl. Qed.

Lemma after_new_connection {B} (name : string) (version : Z) (K : nat -> JS B) (w : World) :
  after_inv (fun _ _ => False) (set_conns (insert (w_next w) (mkConn name version false [])) (bump_next w)) (K (w_next w)) ->
  after_inv (fun _ _ => False) w (c <- new_connection name version ;; K c).
Proof.
  intros H o w' Hrun Hi. rewrite (st_bind_run_normal _ _ _ _ _ (new_connection_run name version w)) in Hrun.
  apply (H o w' Hrun). refine (settle_inv_grows _ _ _ Hi). apply grows_same; cbn; [done..| lia].
Qed.

Lemma after_new_tx {B} (tx : Transaction) (K : nat -> JS B) (w : World) :
  tx_requests tx = [] ->
  after_inv (fun _ _ => False) (set_txs (insert (w_next w) tx) (bump_next w)) (K (w_next w)) ->
  after_inv (fun _ _ => False) w (t <- fresh ;; st_modify (set_txs (insert t tx)) ;; K t).
Proof.
  intros Hq H o w' Hrun Hi. unfold fresh in Hrun. autorewrite with st_simpl in Hrun.
  apply (H o w' Hrun). exact (settle_inv_grows _ _ (grows_new_tx w tx Hq) Hi).
Qed.

Lemma srel_run_open (r : nat) (name : string) (version : Z) (rq : Request) (w : World) :
  w_requests w !! r = Some rq -> step_from srel w (run_open r name version rq).
Proof.
  intros Hr. unfold run_open. apply (step_get_from srel). cbv zeta. apply srel_of_after. intros _.
  apply after_settle_modify; [apply grows_same; [done..| apply le_n]|].
  unfold complete_request, update_request.
  destruct (version <? _)%Z.
  - apply (after_modify _ (fun w q => fires w EvError r q)).
    { intros Hi. eapply inv_breaks; [|by apply settle_inv_but]. apply breaks_request_alter; [done | by left]. }
    apply after_dispatch; [done | intros; apply (step_ret srel)].
  - destruct (version =? _)%Z.
    + apply after_new_connection.
      apply after_settle_modify; [apply grows_requests_alter_at; intros; split; [split_and!; auto | done]|].
      apply (after_modify _ (fun w q => fires w EvSuccess r q)).
      { intros Hi. eapply inv_breaks; [|by apply settle_inv_but]. apply breaks_request_alter; [done|].
        right. split; [done|]. intros rq'. cbn. rewrite lookup_alter_eq. intros (rq0 & _ & ->)%fmap_Some. cbn. eauto. }
      apply after_dispatch; [done | intros; apply (step_ret srel)].
    + case_bool_decide.
      * apply after_of_grows. repeat frame_step grows_leaf.
      * apply after_new_connection. apply after_new_tx; [done|].
        apply after_settle_modify; [apply grows_same; [done..| apply le_n]|].
        apply after_settle_modify; [apply grows_requests_alter_at; intros; split; [split_and!; auto | done]|].
        apply after_settle_modify.
        { eapply grows_complete_upgrading; [cbn; rewrite lookup_alter_eq, Hr; reflexivity | | by eexists | done..].
          eexists _, _. cbn. rewrite lookup_insert_eq. split_and!; [reflexivity | done | done]. }
        apply after_of_grows. repeat frame_step grows_leaf.
Qed.

(** ** Every step keeps the invariant *)

Lemma srel_tx_task (w : World) (t : nat) (tx : Transaction) (m : JS unit) :
  w_txs w !! t = Some tx -> tx_task w t tx = Some m -> step_from srel w m.
Proof.
  intros Ht. unfold tx_task. destruct (tx_state tx); try done; [| |intros [= <-]; apply srel_deliver_abort];
    destruct (tx_requests tx) as [|r rs] eqn:Hq; [intros [= <-]; by eapply srel_finish_commit| |
      intros [= <-]; by eapply srel_finish_commit|];
    (case_match; [intros [= <-]; by eapply srel_run_request | done]).
Qed.

Lemma srel_open_task (w : World) (r : nat) (rq : Request) (m : JS unit) :
  w_requests w !! r = Some rq -> open_task w r rq = Some m -> step_from srel w m.
Proof. intros Hr. unfold open_task. intros (nv & _ & ->)%fmap_Some. by apply srel_run_open. Qed.

Lemma srel_host_step : step_ok srel host_step.
Proof.
  intros w. unfold host_step. apply (step_get_from srel).
  destruct (omap _ (map_to_list (w_txs w))) as [|m ms] eqn:E.
  - destruct (omap _ (map_to_list (w_requests w))) as [|m ms] eqn:E2; [apply (step_ret srel)|].
    apply omap_first in E2 as ([r rq] & Hin%elem_of_map_to_list & Hm).
    apply (step_bind_from srel); [exact (srel_open_task w r rq m Hin Hm) | intros; apply (step_ret srel)].
  - apply omap_first in E as ([t tx] & Hin%elem_of_map_to_list & Hm).
    apply (step_bind_from srel); [exact (srel_tx_task w t tx m Hin Hm) | intros; apply (step_ret srel)].
Qed.

Lemma settle_inv_step (w w' : World) : sys_step w w' -> settle_inv w -> settle_inv w'.
Proof.
  destruct 1 as [c w w' o Hr | w w' o Hr].
  - exact (srel_run_task _ (step_run_calls srel c srel_run_call) w o w' Hr).
  - exact (srel_host_step w o w' Hr).
Qed.

Lemma settle_inv_empty : settle_inv empty_world.
Proof. split; [split_and!; cbn; intros *; rewrite ?lookup_empty; inversion 1; done|]. intros p Hp. done. Qed.
