(* ===== verification/Liveness.v ===== *)
(** * Liveness: when the platform is idle, every promise has settled

    The platform is idle when [host_step] finds no task.  Between two
    tasks no transaction is active ([no_active]: [run_task] ends every
    task by deactivating them, and the platform deactivates the
    transaction it ran a request or an upgrade on).  At an idle point with
    no active transaction every transaction has finished: the earliest
    unfinished one would have a task ([idle_all_finished]).  What is left
    pending is then an open request that is not done: the earliest such
    request of its database heads the connection queue, so it can only
    wait because it reported 'blocked' while other connections stay open
    ([idle_open_blocked]), and every later one waits behind it. *)

From S2P Require Import Prelude Keys Store Promise World Host Wrapper Scenarios System Frame Termination Await Settle.

Local Open Scope st_scope.

(** ** Definitions *)

Definition no_active (w : World) : Prop :=
  forall t tx, w_txs w !! t = Some tx -> tx_state tx <> TxActive.

(** No active transaction except possibly [t]. *)
Definition na_but (t : nat) (w : World) : Prop :=
  forall t' tx, t' <> t -> w_txs w !! t' = Some tx -> tx_state tx <> TxActive.

Definition narel (w w' : World) : Prop := no_active w -> no_active w'.

Definition nbrel (t : nat) (w w' : World) : Prop := (na_but t w -> na_but t w') /\ narel w w'.

(** [K], run from a world where only [t] may be active, ends with none. *)
Definition after_na {B} (t : nat) (w : World) (K : JS B) : Prop :=
  forall o w', K w = (o, w') -> na_but t w -> no_active w'.

(** [openDatabase("shop", 1, ...)] called in the empty world: promise 0
    is pending until the platform opens the database. *)
Definition shop_called : World :=
  snd (run_task (run_call (COpenDatabase "shop" 1 shop_migration None)) empty_world).

(** After [shop_called] has run: version 1 of "shop" is open.  Then one
    task calls [openDatabase("shop", 2, ..., blocked)] and
    [openDatabase("shop", 1, ...)]: request 6 (promise 5) and request 8
    (promise 7). *)
Definition two_opens : World :=
  snd (run_task (run_calls [COpenDatabase "shop" 2 shop_migration (Some 9); COpenDatabase "shop" 1 shop_migration None])
    (snd (run_host 20 shop_called))).

(** ** Relations *)

#[export] Instance narel_preorder : PreOrder narel.
Proof. split; [intros w H; exact H | intros w1 w2 w3 H12 H23 H; auto]. Qed.

#[export] Instance nbrel_preorder (t : nat) : PreOrder (nbrel t).
Proof.
  split; [intros w; split; intros H; exact H|].
  intros w1 w2 w3 [A12 B12] [A23 B23]. split; intros H; auto.
Qed.

Lemma nbrel_txs_eq (t : nat) (w w' : World) : w_txs w' = w_txs w -> nbrel t w w'.
Proof. intros E. unfold nbrel, narel, na_but, no_active. rewrite E. split; auto. Qed.

Lemma nbrel_alter (t : nat) (f : Transaction -> Transaction) (w : World) :
  (forall tx, tx_state tx <> TxActive -> tx_state (f tx) <> TxActive) -> nbrel t w (set_txs (alter f t) w).
Proof.
  intros Hf. split.
  - intros H t' tx Hne. cbn. rewrite lookup_alter_ne by done. apply H, Hne.
  - intros H t' tx. cbn. rewrite lookup_alter. case_decide; [|apply H].
    intros (tx0 & Ht & ->)%fmap_Some. apply Hf, (H _ _ Ht).
Qed.

Lemma nbrel_of_quiet {A} (t : nat) (m : JS A) : step_ok quiet m -> step_ok (nbrel t) m.
Proof. apply step_ok_mono. intros w w' (E & _). by apply nbrel_txs_eq. Qed.

Lemma narel_of_nbrel {A} (t : nat) (m : JS A) : step_ok (nbrel t) m -> step_ok narel m.
Proof. apply step_ok_mono. intros w w' [_ H]. exact H. Qed.

Lemma narel_txs_eq (w w' : World) : w_txs w' = w_txs w -> narel w w'.
Proof. intros E. exact (proj2 (nbrel_txs_eq 0 w w' E)). Qed.

Create HintDb na.
#[export] Hint Unfold update_tx update_request complete_request close_conn db_close abort_tx get_tx get_conn get_db
  fresh alloc_object new_connection : na.

Ltac na_leaf :=
  idtac; match goal with
  | |- step_ok ?R (st_ret _) => apply (step_ret R)
  | |- step_ok ?R (st_throw _) => apply (step_throw R)
  | |- step_ok (nbrel ?t) (dispatch_path _ _) => apply nbrel_of_quiet, quiet_dispatch_path
  | |- step_ok narel (dispatch_path _ _) => apply (narel_of_nbrel 0), nbrel_of_quiet, quiet_dispatch_path
  | |- step_ok (nbrel ?t) (st_modify (set_txs (alter _ ?t))) =>
      apply (step_modify (nbrel t)); intros; apply nbrel_alter; intros ? Hna; cbn; first [exact Hna | discriminate]
  | |- step_ok (nbrel ?t) (st_modify _) => apply (step_modify (nbrel t)); intros; by apply nbrel_txs_eq
  | |- step_ok narel (st_modify _) => apply (step_modify narel); intros; by apply narel_txs_eq
  | |- step_ok _ _ => progress autounfold with na
  end.

(** A goal about the runs from one world, proved for all runs. *)
Ltac from_ok :=
  match goal with |- step_from ?R ?w ?m => let H := fresh "Hm" in assert (H : step_ok R m); [|exact (H w)] end.

(** ** Composing a task that activates one transaction *)

Lemma narel_of_after_na {B} (t : nat) (K : JS B) (w : World) : (no_active w -> after_na t w K) -> step_from narel w K.
Proof. intros H o w' Hrun Hna. apply (H Hna o w' Hrun). intros t' tx _. apply Hna. Qed.

Lemma after_na_modify {B} (t : nat) (f : World -> World) (K : JS B) (w : World) :
  (na_but t w -> na_but t (f w)) -> after_na t (f w) K -> after_na t w (st_modify f ;; K).
Proof. intros Hf HK o w' Hrun Hi. rewrite st_bind_modify_run in Hrun. exact (HK o w' Hrun (Hf Hi)). Qed.

Lemma after_na_quiet {A B} (t : nat) (m : JS A) (k : A -> JS B) (w : World) :
  step_ok quiet m -> (forall o w1, m w = (o, w1) -> exists a, o = Normal a) ->
  (forall a w1, m w = (Normal a, w1) -> after_na t w1 (k a)) -> after_na t w (st_bind m k).
Proof.
  intros Hq Hn Hk o w' Hrun Hi. unfold st_bind in Hrun. destruct (m w) as [o1 w1] eqn:E.
  destruct (Hn o1 w1 eq_refl) as [a ->]. apply (Hk a w1 eq_refl o w' Hrun).
  destruct (Hq w _ w1 E) as (Et & _). unfold na_but. rewrite Et. exact Hi.
Qed.

(** The platform deactivates the transaction it worked on. *)
Lemma after_na_deactivate {B} (t : nat) (K : Transaction -> JS B) (w : World) :
  (forall tx, step_ok (nbrel t) (K tx)) ->
  after_na t w (tx' <- get_tx t ;; (if is_active tx' then update_tx t (with_state TxInactive) else ret tt) ;; K tx').
Proof.
  intros HK o w' Hrun Hi. unfold get_tx in Hrun. rewrite st_bind_assoc, st_bind_get_run in Hrun.
  destruct (w_txs w !! t) as [tx|] eqn:Ht.
  - rewrite st_bind_ret_run in Hrun. unfold st_bind at 1 in Hrun.
    destruct (is_active tx) eqn:Ha; unfold update_tx, st_modify, st_ret in Hrun; apply (proj2 (HK tx _ o w' Hrun)).
    + intros t' tx'. cbn. rewrite lookup_alter. case_decide; [|by apply Hi].
      subst. rewrite Ht. intros [= <-]. cbn. discriminate.
    + intros t' tx'. destruct (decide (t' = t)) as [->|]; [|by apply Hi].
      rewrite Ht. intros [= <-]. unfold is_active in Ha. by case_bool_decide.
  - unfold st_bind, st_throw in Hrun. injection Hrun as _ <-.
    intros t' tx'. destruct (decide (t' = t)) as [->|]; [by rewrite Ht|]. by apply Hi.
Qed.

(** ** The platform's tasks leave no transaction active *)

Lemma narel_run_request (t r : nat) : step_ok narel (run_request t r).
Proof.
  intros w. unfold run_request. apply (step_get_tx_from narel). intros tx Ht.
  apply (step_get_conn_from narel). intros cn Hcn. apply (step_get_db_from narel). intros d Hd.
  apply (step_get_from narel). destruct (w_requests w !! r) as [rq|]; [|apply (step_ret narel)].
  destruct (exec_request _ _ _) as [d' res]. apply (narel_of_after_na t). intros _.
  apply after_na_modify; [intros H; exact H|]. unfold update_tx.
  apply after_na_modify; [intros H t' tx' Hne; cbn; rewrite lookup_alter_ne by done; apply H, Hne|].
  unfold complete_request, update_request. apply after_na_modify; [intros H; exact H|].
  destruct res; (apply after_na_quiet; [apply quiet_dispatch_path | apply dispatch_path_normal_any |]);
    intros fl w1 _; apply after_na_deactivate; intros tx'; repeat frame_step na_leaf.
Qed.

Lemma narel_run_open (r : nat) (name : string) (version : Z) (rq : Request) : step_ok narel (run_open r name version rq).
Proof.
  intros w. unfold run_open. apply (step_get_from narel). cbv zeta.
  apply (step_bind_from narel); [apply (step_modify_from narel); by apply narel_txs_eq|]. intros _ w1 _.
  cbv beta. destruct (version <? _)%Z; [from_ok; repeat frame_step na_leaf|].
  destruct (version =? _)%Z; [from_ok; repeat frame_step na_leaf|].
  case_bool_decide; [from_ok; repeat frame_step na_leaf|].
  apply (step_bind_from narel).
  { intros o w2 Hc. rewrite new_connection_run in Hc. injection Hc as _ <-. by apply narel_txs_eq. }
  intros c w2 Hc. rewrite new_connection_run in Hc. injection Hc as <- <-.
  apply (step_bind_from narel).
  { intros o w3 Ht. unfold fresh in Ht. autorewrite with st_simpl in Ht. injection Ht as _ <-. by apply narel_txs_eq. }
  intros t w3 Ht. unfold fresh in Ht. autorewrite with st_simpl in Ht. injection Ht as <- <-.
  match goal with |- step_from _ _ (st_bind (st_modify (set_txs (insert ?t _))) _) => apply (narel_of_after_na t) end.
  intros _.
  apply after_na_modify; [intros Hb t' tx' Hne; cbn; rewrite lookup_insert_ne by done; apply Hb, Hne|].
  apply after_na_modify; [intros Hb; exact Hb|].
  unfold update_request, complete_request.
  apply after_na_modify; [intros Hb; exact Hb|]. apply after_na_modify; [intros Hb; exact Hb|].
  apply after_na_quiet; [apply quiet_dispatch_path | apply dispatch_path_normal_any |].
  intros fl w4 _. apply after_na_deactivate. intros tx'. repeat frame_step na_leaf.
Qed.

Lemma narel_deliver_abort (t : nat) : step_ok narel (deliver_abort t).
Proof. apply (narel_of_nbrel t). unfold deliver_abort. repeat frame_step na_leaf. Qed.

Lemma narel_finish_commit (t : nat) : step_ok narel (finish_commit t).
Proof. apply (narel_of_nbrel t). unfold finish_commit. repeat frame_step na_leaf. Qed.

Lemma narel_host_step : step_ok narel host_step.
Proof.
  intros w. unfold host_step. apply (step_get_from narel).
  destruct (omap _ (map_to_list (w_txs w))) as [|m ms] eqn:E.
  - destruct (omap _ (map_to_list (w_requests w))) as [|m ms] eqn:E2; [apply (step_ret narel)|].
    apply omap_first in E2 as ([r rq] & _ & Hm). unfold open_task in Hm. apply fmap_Some in Hm as (nv & _ & ->).
    apply (step_bind_from narel); [apply narel_run_open | intros; apply (step_ret narel)].
  - apply omap_first in E as ([t tx] & _ & Hm). cbn in Hm. unfold tx_task in Hm.
    apply (step_bind_from narel); [|intros; apply (step_ret narel)].
    repeat case_match; simplify_eq; first [apply narel_run_request | apply narel_deliver_abort | apply narel_finish_commit].
Qed.

(** A task of the caller ends by deactivating every transaction. *)
Lemma end_task_no_active (w : World) : no_active (set_txs (fmap (fun tx =>
    if bool_decide (tx_state tx = TxActive) then with_state TxInactive tx else tx)) w).
Proof. intros t tx. cbn. rewrite lookup_fmap. intros (tx0 & _ & ->)%fmap_Some. by case_bool_decide. Qed.

Lemma run_task_no_active {A} (m : JS A) (w w' : World) o : run_task m w = (o, w') -> no_active w'.
Proof.
  unfold run_task, end_task. intros H. unfold st_bind at 1 in H.
  destruct (st_catch _ _ w) as [[r1|e] w1] eqn:E.
  - rewrite st_bind_modify_run in H. unfold st_ret in H. injection H as _ <-. apply end_task_no_active.
  - exfalso. revert E. unfold st_catch. destruct (st_bind m _ w) as [[]] ; unfold st_ret; congruence.
Qed.

Lemma no_active_step (w w' : World) : sys_step w w' -> no_active w -> no_active w'.
Proof.
  destruct 1 as [c w w' o Hr | w w' o Hr]; intros Hna; [exact (run_task_no_active _ _ _ _ Hr) | exact (narel_host_step w o w' Hr Hna)].
Qed.

Lemma no_active_empty : no_active empty_world.
Proof. intros t tx. cbn. by rewrite lookup_empty. Qed.

(** ** The idle platform *)

Lemma omap_nil_none {X Y} (f : X -> option Y) (xs : list X) : omap f xs = [] -> forall x, x ∈ xs -> f x = None.
Proof.
  induction xs as [|x xs IH]; cbn; [intros _ x Hx; by apply not_elem_of_nil in Hx|].
  destruct (f x) eqn:E; [done|]. intros H y [->|Hy]%elem_of_cons; auto.
Qed.

Lemma idle_tasks (w w' : World) :
  host_step w = (Normal false, w') ->
  (forall t tx, w_txs w !! t = Some tx -> tx_task w t tx = None) /\
  (forall r rq, w_requests w !! r = Some rq -> open_task w r rq = None).
Proof.
  unfold host_step. rewrite st_bind_get_run.
  destruct (omap _ (map_to_list (w_txs w))) as [|m ms] eqn:E1;
    [destruct (omap _ (map_to_list (w_requests w))) as [|m ms] eqn:E2|].
  - intros _. split.
    + intros t tx Ht. exact (omap_nil_none _ _ E1 (t, tx) (proj2 (elem_of_map_to_list _ _ _) Ht)).
    + intros r rq Hr. exact (omap_nil_none _ _ E2 (r, rq) (proj2 (elem_of_map_to_list _ _ _) Hr)).
  - unfold st_bind. destruct (m w) as [[]] ; unfold st_ret; congruence.
  - unfold st_bind. destruct (m w) as [[]] ; unfold st_ret; congruence.
Qed.

(** When no transaction has finished before [t], [t] may run. *)
Lemma runnable_first (w : World) (t : nat) (tx : Transaction) :
  (forall t' tx', t' < t -> w_txs w !! t' = Some tx' -> tx_state tx' = TxFinished) -> runnable w t tx = true.
Proof.
  intros Hfin. unfold runnable. apply forallb_forall. intros [t' tx'] Hin%list_elem_of_In%elem_of_map_to_list. cbn.
  case_bool_decide as Hlt; [|done]. by rewrite (Hfin t' tx' Hlt Hin), bool_decide_eq_true_2.
Qed.

Lemma idle_all_finished (w w' : World) :
  no_active w -> host_step w = (Normal false, w') ->
  forall t tx, w_txs w !! t = Some tx -> tx_state tx = TxFinished.
Proof.
  intros Hna Hidle. destruct (idle_tasks w w' Hidle) as [Htx _].
  intros t. induction t as [t IH] using (well_founded_induction lt_wf). intros tx Ht.
  pose proof (Htx t tx Ht) as Hnone. unfold tx_task in Hnone.
  destruct (tx_state tx) eqn:Hs; cbn in Hnone; try done.
  - exfalso. exact (Hna t tx Ht Hs).
  - destruct (tx_requests tx); [done|]. rewrite runnable_first in Hnone; [done|]. intros; eapply IH; eauto.
  - destruct (tx_requests tx); [done|]. rewrite runnable_first in Hnone; [done|]. intros; eapply IH; eauto.
Qed.

(** At an idle point every upgrade has finished, so an open request has
    been processed exactly when it is done. *)
Lemma idle_processed (w w' : World) (r : nat) (rq : Request) :
  no_active w -> host_step w = (Normal false, w') -> open_processed w r rq = rq_done rq.
Proof.
  intros Hna Hidle. unfold open_processed. destruct (rq_done rq); [cbn|done].
  apply forallb_forall. intros [t tx] Hin%list_elem_of_In%elem_of_map_to_list. cbn.
  rewrite (idle_all_finished w w' Hna Hidle t tx Hin), (bool_decide_eq_true_2 (TxFinished = TxFinished)) by reflexivity.
  apply orb_true_r.
Qed.

(** At an idle point, an open request that is not done waits behind (or
    is) an open request of the same database that reported 'blocked'
    while other connections stay open: the earliest one not done in the
    database's queue. *)
Lemma idle_open_blocked (w w' : World) (name : string) :
  no_active w -> host_step w = (Normal false, w') ->
  forall r rq version, w_requests w !! r = Some rq -> rq_op rq = OpOpen name version -> rq_done rq = false ->
  exists r0 rq0 v0, r0 <= r /\ w_requests w !! r0 = Some rq0 /\ rq_op rq0 = OpOpen name v0 /\
    rq_done rq0 = false /\ rq_blocked rq0 = true /\ open_conns w name <> [].
Proof.
  intros Hna Hidle r. induction r as [r IH] using (well_founded_induction lt_wf). intros rq version Hr Hop Hd.
  pose proof (proj2 (idle_tasks w w' Hidle) r rq Hr) as Hnone. unfold open_task, open_ready in Hnone.
  rewrite Hop, Hd in Hnone. destruct (open_queued_before w r name) eqn:Hq.
  - unfold open_queued_before in Hq. apply existsb_exists in Hq as ([r1 rq1] & Hin%list_elem_of_In%elem_of_map_to_list & Hq). cbn in Hq.
    apply andb_true_iff in Hq as [Hlt%bool_decide_eq_true Hq].
    destruct (rq_op rq1) as [| | | | | | | | |n v1] eqn:Hop1; try done.
    apply andb_true_iff in Hq as [->%String.eqb_eq Hp%negb_true_iff].
    rewrite (idle_processed w w' r1 rq1 Hna Hidle) in Hp.
    destruct (IH r1 Hlt rq1 v1 Hin Hop1 Hp) as (r0 & rq0 & v0 & Hle & H0). exists r0, rq0, v0. split; [lia | exact H0].
  - destruct (rq_blocked rq) eqn:Hb; cbn in Hnone; [|done].
    case_bool_decide as Hc; [|done]. exists r, rq, version. by split_and!.
Qed.

Lemma idle_pending (w w' : World) (p : nat) :
  settle_inv w -> no_active w -> host_step w = (Normal false, w') -> pending w p ->
  exists r rq name version, w_requests w !! r = Some rq /\ rq_op rq = OpOpen name version /\ rq_done rq = false /\
    (EvError, LReject p) ∈ rq_listeners rq /\ (EvSuccess, LOpenSuccess p) ∈ rq_listeners rq /\
    exists r0 rq0 v0, r0 <= r /\ w_requests w !! r0 = Some rq0 /\ rq_op rq0 = OpOpen name v0 /\
      rq_done rq0 = false /\ rq_blocked rq0 = true /\ open_conns w name <> [].
Proof.
  intros [_ Hall] Hna Hidle Hp. pose proof (idle_all_finished w w' Hna Hidle) as Hfin.
  destruct (Hall p Hp) as [[]|(r & rq & Hr & He & Hw)].
  destruct Hw as [[_ (t & tx & Ht & _ & Hs)] | (Hl & Ho & [Hd | [_ (t & tx & Ht & _ & Hs)]])];
    [by apply Hfin in Ht | | by apply Hfin in Ht].
  unfold is_open, open_op in Ho. destruct (rq_op rq) as [| | | | | | | | |name version] eqn:Hop; try done.
  exists r, rq, name, version. split_and!; try done.
  exact (idle_open_blocked w w' name Hna Hidle r rq version Hr Hop Hd).
Qed.

Lemma run_host_reachable (fuel : nat) (w w' : World) o : run_host fuel w = (o, w') -> reachable w w'.
Proof.
  revert w. induction fuel as [|n IH]; intros w; cbn; [intros [= _ <-]; apply rtc_refl|].
  unfold st_bind. destruct (host_step w) as [[b|e] w1] eqn:E; intros Hrun.
  - eapply rtc_l; [exact (SysHost w w1 _ E)|]. destruct b; [exact (IH w1 Hrun)|].
    injection Hrun as _ <-. apply rtc_refl.
  - injection Hrun as _ <-. eapply rtc_l; [exact (SysHost w w1 _ E) | apply rtc_refl].
Qed.

Lemma reachable_invariants (w0 w : World) :
  reachable w0 w -> settle_inv w0 -> no_active w0 -> settle_inv w /\ no_active w.
Proof.
  induction 1 as [w|w1 w2 w3 H12 _ IH]; [done|]. intros Hs Hn.
  apply IH; [exact (settle_inv_step _ _ H12 Hs) | exact (no_active_step _ _ H12 Hn)].
Qed.

(** C7: every promise the wrapper hands out is awaited.  In every world a
    client program reaches from the empty world, each pending promise has
    a request that carries its 'error' listener and either its 'success'
    listener while the request waits in an unfinished transaction, or the
    'success' listener of [openDatabase] while the open request is not
    done or its upgrade transaction has not finished. *)
Theorem promises_awaited (w : World) (p : nat) :
  reachable empty_world w -> w_promises w !! p = Some Pending -> awaited w p.
Proof.
  intros Hr Hp. destruct (reachable_invariants _ _ Hr settle_inv_empty no_active_empty) as [[_ Hall] _].
  by destruct (Hall p Hp) as [[]|].
Qed.

(** C6: liveness of the wrapper's promises.  From every world a client
    program reaches, the platform runs to an idle point within
    [host_measure w + 1] steps, and there every promise still pending is
    that of an [openDatabase] whose open request is not done and waits
    in its database's connection queue behind (or is itself) an open
    request that reported 'blocked' and waits for the other connections
    to the database to close: every promise of a promisified call, and
    every other [openDatabase] promise, has settled. *)
Theorem promises_settle (w : World) :
  reachable empty_world w ->
  exists w', run_host (S (host_measure w)) w = (Normal tt, w') /\
    forall p, w_promises w' !! p = Some Pending ->
      exists r rq name version, w_requests w' !! r = Some rq /\ rq_op rq = OpOpen name version /\
        rq_done rq = false /\ (EvError, LReject p) ∈ rq_listeners rq /\ (EvSuccess, LOpenSuccess p) ∈ rq_listeners rq /\
        exists r0 rq0 v0, r0 <= r /\ w_requests w' !! r0 = Some rq0 /\ rq_op rq0 = OpOpen name v0 /\
          rq_done rq0 = false /\ rq_blocked rq0 = true /\ open_conns w' name <> [].
Proof.
  intros Hr. destruct (run_host_terminates empty_world w (S (host_measure w)) Hr host_ok_empty (Nat.lt_succ_diag_r _))
    as (w' & Hrun & Hidle).
  exists w'. split; [done|]. intros p Hp.
  destruct (reachable_invariants empty_world w' (rtc_trans _ _ _ Hr (run_host_reachable _ _ _ _ Hrun))
              settle_inv_empty no_active_empty) as [Hs Hn].
  exact (idle_pending w' w' p Hs Hn Hidle Hp).
Qed.

Lemma reachable_shop_called : reachable empty_world shop_called.
Proof. eapply rtc_l; [apply sys_call | apply rtc_refl]. Qed.

Lemma promises_awaited_witness :
  reachable empty_world shop_called /\ w_promises shop_called !! 0 = Some Pending /\ awaited shop_called 0.
Proof.
  split_and!; [apply reachable_shop_called | vm_compute; reflexivity |].
  apply (promises_awaited shop_called 0); [apply reachable_shop_called | vm_compute; reflexivity].
Defined.

Lemma reachable_two_opens : reachable empty_world two_opens.
Proof.
  eapply rtc_trans; [apply reachable_shop_called|].
  eapply rtc_trans; [apply (run_host_reachable 20 shop_called _ (fst (run_host 20 shop_called))), surjective_pairing|].
  eapply rtc_l; [|apply rtc_refl]. unfold two_opens. eapply SysCall, surjective_pairing.
Qed.

(** The open of version 2 reports 'blocked' (connection 2 stays open);
    the later open of version 1 waits behind it in the queue of "shop":
    at the idle point promise 7 is pending, and it is covered by the
    blocked request 6. *)
Lemma promises_settle_witness :
  w_promises (snd (run_host (S (host_measure two_opens)) two_opens)) !! 7 = Some Pending /\
  exists w', run_host (S (host_measure two_opens)) two_opens = (Normal tt, w') /\
    forall p, w_promises w' !! p = Some Pending ->
      exists r rq name version, w_requests w' !! r = Some rq /\ rq_op rq = OpOpen name version /\
        rq_done rq = false /\ (EvError, LReject p) ∈ rq_listeners rq /\ (EvSuccess, LOpenSuccess p) ∈ rq_listeners rq /\
        exists r0 rq0 v0, r0 <= r /\ w_requests w' !! r0 = Some rq0 /\ rq_op rq0 = OpOpen name v0 /\
          rq_done rq0 = false /\ rq_blocked rq0 = true /\ open_conns w' name <> [].
Proof. split; [vm_compute; reflexivity | apply (promises_settle two_opens), reachable_two_opens]. Defined.
