(* ===== verification/Fifo.v ===== *)
(** * Fifo: a transaction runs its requests in the order they were placed

    [Host.place_request] appends a fresh id at the end of the
    transaction's queue ([tx_requests]), and the platform runs the head
    of the queue ([Host.tx_task], [Host.run_request], which dequeues
    with [tail]) or fails it when the transaction aborts
    ([Host.deliver_abort]).  Ids come from one counter ([w_next]) that
    only grows.  The invariant [fifo]: every queue is strictly increasing
    and below the counter.  Every task of the client and every step of
    the platform keeps it ([qrel_run_call], [qrel_host_step]), so in every
    reachable world a queue lists its requests in the order the wrapper
    placed them, a new request goes behind every one waiting, and the
    head of a queue, the request the platform runs next ([tx_task]), is
    the earliest placed one still waiting. *)

From S2P Require Import Prelude Keys Store Promise World Host Wrapper Scenarios System Frame Termination Liveness.
From Stdlib Require Import Sorted.

Local Open Scope st_scope.

(** ** Definitions *)

(** A queue in placement order, every id already handed out. *)
Definition queue_ok (w : World) (q : list nat) : Prop :=
  StronglySorted lt q /\ Forall (fun r => r < w_next w) q.

Definition fifo (w : World) : Prop :=
  forall t tx, w_txs w !! t = Some tx -> queue_ok w (tx_requests tx).

(** A step that keeps [fifo] and does not lower the counter. *)
Definition qrel (w w' : World) : Prop := w_next w <= w_next w' /\ (fifo w -> fifo w').

(** A step that changes no transaction, request or connection, and does
    not lower the counter (what an event dispatch does). *)
Definition qquiet (w w' : World) : Prop := quiet w w' /\ w_next w <= w_next w'.

(** [openDatabase("shop", 1, ...)] run by the platform to the end: the
    connection 2 is open on "shop" and its store "items" exists. *)
Definition fifo_opened : World := snd (run_host 20 shop_called).

(** One task of the client: [const tx = db.transaction("items",
    "readwrite"); tx.objectStore("items").add(pen); ....add(cup)]:
    transaction 5 holds requests 8 and 10, in that order. *)
Definition fifo_queued : World :=
  snd (run_task (run_calls [CDbTransaction (mkPDb 2) (NameOne "items") (Some ReadWrite) None;
    CStoreAdd (mkPStore (mkStoreHandle 5 "items")) pen None;
    CStoreAdd (mkPStore (mkStoreHandle 5 "items")) cup None]) fifo_opened).

(** ** Queues *)

Lemma queue_ok_grow (w w' : World) q : w_next w <= w_next w' -> queue_ok w q -> queue_ok w' q.
Proof. intros Hn [Hs Hf]. split; [exact Hs|]. eapply Forall_impl; [exact Hf | cbn; lia]. Qed.

Lemma queue_ok_nil (w : World) : queue_ok w [].
Proof. split; constructor. Qed.

Lemma queue_ok_cons (w : World) r q : queue_ok w (r :: q) -> queue_ok w q.
Proof. intros [Hs Hf]. apply StronglySorted_inv in Hs. inversion Hf; subst. split; tauto. Qed.

Lemma queue_ok_tail (w : World) q : queue_ok w q -> queue_ok w (tail q).
Proof. destruct q; [done | apply queue_ok_cons]. Qed.

Lemma StronglySorted_snoc (q : list nat) (n : nat) :
  StronglySorted lt q -> Forall (fun r => r < n) q -> StronglySorted lt (q ++ [n]).
Proof.
  induction q as [|r q IH]; cbn; intros Hs Hf; [repeat constructor|].
  apply StronglySorted_inv in Hs as [Hs Hr]. inversion Hf; subst.
  constructor; [by apply IH|]. apply Forall_app; split; [exact Hr | by constructor].
Qed.

(** Appending the counter's value, then raising the counter. *)
Lemma queue_ok_snoc (w w' : World) q :
  w_next w' = S (w_next w) -> queue_ok w q -> queue_ok w' (q ++ [w_next w]).
Proof.
  intros Hn [Hs Hf]. split; [by apply StronglySorted_snoc|].
  apply Forall_app; split; [eapply Forall_impl; [exact Hf | cbn; lia] | constructor; [lia | done]].
Qed.

(** ** The relations *)

#[export] Instance qrel_preorder : PreOrder qrel.
Proof. split; [intros w; split; auto | intros w1 w2 w3 [N12 F12] [N23 F23]; split; [lia | auto]]. Qed.

#[export] Instance qquiet_preorder : PreOrder qquiet.
Proof. split; [intros w; split; [reflexivity | lia] | intros w1 w2 w3 [Q12 N12] [Q23 N23]; split; [by etrans | lia]]. Qed.

Lemma qrel_same (w w' : World) : w_txs w' = w_txs w -> w_next w <= w_next w' -> qrel w w'.
Proof.
  intros E Hn. split; [exact Hn|]. intros Hf t tx Ht. rewrite E in Ht.
  exact (queue_ok_grow w w' _ Hn (Hf t tx Ht)).
Qed.

Lemma qrel_of_qquiet {A} (m : JS A) : step_ok qquiet m -> step_ok qrel m.
Proof. apply step_ok_mono. intros w w' [[E _] Hn]. by apply qrel_same. Qed.

Lemma qrel_alter_from (w : World) (t : nat) (f : Transaction -> Transaction) :
  (fifo w -> forall tx, w_txs w !! t = Some tx -> queue_ok w (tx_requests (f tx))) ->
  qrel w (set_txs (alter f t) w).
Proof.
  intros Hf. split; [cbn; lia|]. intros Hw t' tx'. cbn. rewrite lookup_alter.
  case_decide; [subst t' | apply Hw]. intros (tx & Ht & ->)%fmap_Some. exact (Hf Hw tx Ht).
Qed.

Lemma qrel_alter (w : World) (t : nat) (f : Transaction -> Transaction) :
  (forall tx, queue_ok w (tx_requests tx) -> queue_ok w (tx_requests (f tx))) ->
  qrel w (set_txs (alter f t) w).
Proof. intros Hf. apply qrel_alter_from. intros Hw tx Ht. apply Hf, (Hw t tx Ht). Qed.

Lemma qrel_fmap (w : World) (f : Transaction -> Transaction) :
  (forall tx, tx_requests (f tx) = tx_requests tx) -> qrel w (set_txs (fmap f) w).
Proof.
  intros Hf. split; [cbn; lia|]. intros Hw t tx. cbn. rewrite lookup_fmap.
  intros (tx0 & Ht & ->)%fmap_Some. rewrite Hf. exact (Hw t tx0 Ht).
Qed.

(** A new transaction starts with no request. *)
Lemma qrel_insert_empty (w : World) (t : nat) (tx : Transaction) :
  tx_requests tx = [] -> qrel w (set_txs (insert t tx) w).
Proof.
  intros Hq. split; [cbn; lia|]. intros Hw t' tx'. cbn. destruct (decide (t' = t)) as [->|].
  - rewrite lookup_insert_eq. intros [= <-]. rewrite Hq. apply queue_ok_nil.
  - rewrite lookup_insert_ne by done. apply Hw.
Qed.

Lemma qrel_update_listeners (w : World) (tg : Target) f : qrel w (update_listeners tg f w).
Proof. destruct tg; cbn; [apply qrel_same; cbn; auto | apply qrel_alter; auto | apply qrel_same; cbn; auto]. Qed.

(** ** Event dispatch keeps the queues *)

Lemma qquiet_modify (f : World -> World) :
  (forall w, quiet w (f w)) -> (forall w, w_next w <= w_next (f w)) -> step_ok qquiet (st_modify f).
Proof. intros Hq Hn. apply (step_modify qquiet). intros w. split; [apply Hq | apply Hn]. Qed.

Create HintDb fifo.
#[export] Hint Extern 1 (step_ok qquiet (st_modify _)) =>
  apply qquiet_modify; intros; [eauto with quiet | cbn; lia] : fifo.

Lemma qquiet_run_schema (c : nat) cmds : step_ok qquiet (run_schema c cmds).
Proof. induction cmds; cbn; eauto 10 with frame fifo. Qed.

Lemma qquiet_run_listener (l : Listener) (ev : Event) : step_ok qquiet (run_listener l ev).
Proof. destruct l; cbn; autounfold with quiet; eauto 20 using qquiet_run_schema with frame fifo. Qed.

Lemma qquiet_dispatch_listeners ls (ev : Event) : step_ok qquiet (dispatch_listeners ls ev).
Proof. induction ls as [|[ty l] ls IH]; cbn; eauto 10 using qquiet_run_listener with frame. Qed.

Lemma qquiet_dispatch_path path (ev : Event) : step_ok qquiet (dispatch_path path ev).
Proof. induction path as [|t path IH]; cbn; eauto 10 using qquiet_dispatch_listeners with frame. Qed.

(** ** Placing a request appends it *)

Lemma place_request_run (t : nat) (src : Source) (op : ReqOp) (w : World) :
  place_request t src op w =
  (Normal (w_next w), set_txs (alter (fun tx =>
     mkTx (tx_conn tx) (tx_scope tx) (tx_mode tx) (tx_state tx) (tx_requests tx ++ [w_next w])
       (tx_snapshot tx) (tx_aborted tx) (tx_openreq tx) (tx_listeners tx)) t)
     (set_requests (insert (w_next w) (mkRequest src op false JUndefined None None false [])) (bump_next w))).
Proof. unfold place_request, fresh. by autorewrite with st_simpl. Qed.

Lemma qrel_place_request (t : nat) (src : Source) (op : ReqOp) : step_ok qrel (place_request t src op).
Proof.
  intros w o w'. rewrite place_request_run. intros [= _ <-]. split; [cbn; lia|].
  intros Hw t' tx'. cbn. rewrite lookup_alter. case_decide as Ht'.
  - subst t'. intros (tx & Ht & ->)%fmap_Some. apply queue_ok_snoc; [done | exact (Hw t tx Ht)].
  - intros Ht. apply (queue_ok_grow w); [cbn; lia | exact (Hw t' tx' Ht)].
Qed.

(** ** Every wrapper call and every task of the platform keeps [fifo] *)

Ltac q_leaf :=
  idtac; match goal with
  | |- step_ok qrel (st_ret _) => apply (step_ret qrel)
  | |- step_ok qrel (st_throw _) => apply (step_throw qrel)
  | |- step_ok qrel (place_request _ _ _) => apply qrel_place_request
  | |- step_ok qrel (db_transaction _ _ _ _) => unfold db_transaction
  | |- step_ok qrel (dispatch_path _ _) => apply qrel_of_qquiet, qquiet_dispatch_path
  | |- step_ok qrel (dispatch_listeners _ _) => apply qrel_of_qquiet, qquiet_dispatch_listeners
  | |- step_ok qrel (st_modify (set_txs (alter _ _))) =>
      apply (step_modify qrel); intros; apply qrel_alter; intros ?; cbn; first [exact id | apply queue_ok_tail]
  | |- step_ok qrel (st_modify (set_txs (fmap _))) =>
      apply (step_modify qrel); intros; apply qrel_fmap; intros ?; by case_bool_decide
  | |- step_ok qrel (st_modify (set_txs (insert _ _))) =>
      apply (step_modify qrel); intros; by apply qrel_insert_empty
  | |- step_ok qrel (st_modify (update_listeners _ _)) =>
      apply (step_modify qrel); intros; apply qrel_update_listeners
  | |- step_ok qrel (st_modify _) => apply (step_modify qrel); intros; apply qrel_same; cbn; [done | lia]
  | |- step_ok qrel _ => assumption
  | |- step_ok qrel _ => progress autounfold with hoku
  end.

Lemma qrel_run_call (c : Call) : step_ok qrel (run_call c).
Proof. destruct c; cbn; autounfold with wrapper; cbn; repeat frame_step q_leaf. Qed.

Lemma qrel_run_task {A} (m : JS A) : step_ok qrel m -> step_ok qrel (run_task m).
Proof. intros Hm. unfold run_task, end_task. repeat frame_step q_leaf. Qed.

Lemma qrel_run_request (t r : nat) : step_ok qrel (run_request t r).
Proof. unfold run_request. repeat frame_step q_leaf. Qed.

Lemma qrel_finish_commit (t : nat) : step_ok qrel (finish_commit t).
Proof. unfold finish_commit. repeat frame_step q_leaf. Qed.

Lemma qrel_run_open (r : nat) (name : string) (version : Z) (rq : Request) : step_ok qrel (run_open r name version rq).
Proof. unfold run_open, new_connection. repeat frame_step q_leaf. Qed.

(** An abort fails the head of the queue and keeps the rest. *)
Lemma qrel_deliver_abort (t : nat) : step_ok qrel (deliver_abort t).
Proof.
  intros w. unfold deliver_abort. apply (step_get_tx_from qrel). intros tx Ht.
  destruct (tx_requests tx) as [|r rs] eqn:Hq; [from_ok; repeat frame_step q_leaf|].
  apply (step_bind_from qrel); [|intros; from_ok; repeat frame_step q_leaf].
  apply (step_modify_from qrel), qrel_alter_from. intros Hw tx0 Ht0. rewrite Ht in Ht0. injection Ht0 as <-.
  cbn. apply (queue_ok_cons w r). rewrite <- Hq. exact (Hw t tx Ht).
Qed.

Lemma qrel_host_step : step_ok qrel host_step.
Proof.
  intros w. unfold host_step. apply (step_get_from qrel).
  destruct (omap _ (map_to_list (w_txs w))) as [|m ms] eqn:E.
  - destruct (omap _ (map_to_list (w_requests w))) as [|m ms] eqn:E2; [apply (step_ret qrel)|].
    apply omap_first in E2 as ([r rq] & _ & Hm). unfold open_task in Hm. apply fmap_Some in Hm as (nv & _ & ->).
    apply (step_bind_from qrel); [apply qrel_run_open | intros; apply (step_ret qrel)].
  - apply omap_first in E as ([t tx] & _ & Hm). cbn in Hm. unfold tx_task in Hm.
    apply (step_bind_from qrel); [|intros; apply (step_ret qrel)].
    repeat case_match; simplify_eq; first [apply qrel_run_request | apply qrel_deliver_abort | apply qrel_finish_commit].
Qed.

Lemma fifo_step (w w' : World) : sys_step w w' -> fifo w -> fifo w'.
Proof.
  destruct 1 as [cs w w' o Hr | w w' o Hr].
  - exact (proj2 (qrel_run_task _ (step_run_calls qrel cs qrel_run_call) w o w' Hr)).
  - exact (proj2 (qrel_host_step w o w' Hr)).
Qed.

Lemma fifo_reachable (w0 w : World) : reachable w0 w -> fifo w0 -> fifo w.
Proof. induction 1 as [w|w1 w2 w3 H12 _ IH]; [done|]. intros H. exact (IH (fifo_step _ _ H12 H)). Qed.

Lemma fifo_empty : fifo empty_world.
Proof. intros t tx. cbn. by rewrite lookup_empty. Qed.

(** ** Requests run in the order they were placed *)

Lemma reachable_fifo_queued : reachable empty_world fifo_queued.
Proof.
  eapply rtc_trans; [apply reachable_shop_called|].
  eapply rtc_trans; [apply (run_host_reachable 20 shop_called _ (fst (run_host 20 shop_called))), surjective_pairing|].
  eapply rtc_l; [|apply rtc_refl]. unfold fifo_queued. eapply SysCall, surjective_pairing.
Qed.

(** C8: FIFO queues.  In every world a client program reaches from the
    empty one (tasks of wrapper calls and platform steps, interleaved),
    the queue of every transaction is [queue_ok]: it lists its request
    ids in strictly increasing order, all below the allocation counter,
    so the wrapper's calls on one transaction are queued in the order
    they were made. *)
Theorem queues_fifo (w : World) (t : nat) (tx : Transaction) :
  reachable empty_world w -> w_txs w !! t = Some tx -> queue_ok w (tx_requests tx).
Proof. intros Hr Ht. exact (fifo_reachable _ _ Hr fifo_empty t tx Ht). Qed.

(** A request placed by a wrapper call goes at the end of its
    transaction's queue: in every reachable world, [place_request] on a
    transaction appends the new id, which is larger than every id already
    waiting there. *)
Theorem place_request_last (w w' : World) (t : nat) (src : Source) (op : ReqOp) (r : nat) (tx : Transaction) :
  reachable empty_world w -> place_request t src op w = (Normal r, w') -> w_txs w !! t = Some tx ->
  exists tx', w_txs w' !! t = Some tx' /\ tx_requests tx' = tx_requests tx ++ [r] /\
    Forall (fun r' => r' < r) (tx_requests tx).
Proof.
  intros Hr Hp Ht. rewrite place_request_run in Hp. injection Hp as <- <-. cbn.
  rewrite lookup_alter_eq, Ht. eexists. split_and!; [reflexivity | reflexivity |].
  exact (proj2 (fifo_reachable _ _ Hr fifo_empty t tx Ht)).
Qed.

Lemma queues_fifo_witness :
  w_txs fifo_queued !! 5 = Some (mkTx 2 ["items"] ReadWrite TxInactive [8; 10] None false None []) /\
  StronglySorted lt [8; 10] /\ Forall (fun r => r < w_next fifo_queued) [8; 10].
Proof.
  assert (Ht : w_txs fifo_queued !! 5 = Some (mkTx 2 ["items"] ReadWrite TxInactive [8; 10] None false None []))
    by (vm_compute; reflexivity).
  split; [exact Ht | exact (queues_fifo _ _ _ reachable_fifo_queued Ht)].
Defined.

(** A third [add] on transaction 5 goes after requests 8 and 10. *)
Lemma place_request_last_witness :
  exists tx', w_txs (snd (place_request 5 (SrcStore (mkStoreHandle 5 "items")) OpClear fifo_queued)) !! 5 = Some tx' /\
    tx_requests tx' = [8; 10; 11] /\ Forall (fun r' => r' < 11) [8; 10].
Proof.
  assert (Ht : w_txs fifo_queued !! 5 = Some (mkTx 2 ["items"] ReadWrite TxInactive [8; 10] None false None []))
    by (vm_compute; reflexivity).
  assert (Hp : place_request 5 (SrcStore (mkStoreHandle 5 "items")) OpClear fifo_queued =
    (Normal 11, snd (place_request 5 (SrcStore (mkStoreHandle 5 "items")) OpClear fifo_queued)))
    by (vm_compute; reflexivity).
  exact (place_request_last _ _ _ _ _ _ _ reachable_fifo_queued Hp Ht).
Defined.

