(* ===== verification/Completion.v ===== *)
(** * Completion: the requests of a transaction complete in placement order

    A request placed by a store or index method belongs to the
    transaction of its handle ([rq_tx]); an open request belongs to none.
    The invariant [ordered] ties the requests to the queues of [Fifo]: a
    request of transaction [t] that is not done waits in [t]'s queue, a
    queued id is a request of that transaction, ids are fresh, and
    requests of one transaction are done in the order of their ids.  The
    platform completes a request of a transaction only at the head of its
    queue ([run_request], [deliver_abort]), and the head is the smallest
    id waiting there, so the last conjunct is kept.  Open requests
    ([run_open], and the open request of an aborted upgrade) belong to no
    transaction, so completing them orders nothing. *)

From S2P Require Import Prelude Keys Store Promise World Host Wrapper Scenarios System Frame Termination Await Liveness Fifo.
From Stdlib Require Import Sorted.

Local Open Scope st_scope.

(** ** Definitions *)

(** The transaction a request belongs to: the one of its handle. *)
Definition src_tx (src : Source) : option nat :=
  match src with
  | SrcStore h => Some (sh_tx h)
  | SrcIndex h => Some (sh_tx (ih_store h))
  | SrcFactory => None
  end.

Definition rq_tx (rq : Request) : option nat := src_tx (rq_source rq).

Record ordered (w : World) : Prop := mkOrdered {
  ord_fifo : fifo w;
  ord_txs_fresh : forall t, is_Some (w_txs w !! t) -> t < w_next w;
  ord_reqs_fresh : forall r, is_Some (w_requests w !! r) -> r < w_next w;
  ord_waiting : forall r rq t, w_requests w !! r = Some rq -> rq_tx rq = Some t -> rq_done rq = false ->
    exists tx, w_txs w !! t = Some tx /\ r ∈ tx_requests tx;
  ord_queued : forall t tx r, w_txs w !! t = Some tx -> r ∈ tx_requests tx ->
    exists rq, w_requests w !! r = Some rq /\ rq_tx rq = Some t;
  ord_done : forall r1 rq1 r2 rq2 t, w_requests w !! r1 = Some rq1 -> w_requests w !! r2 = Some rq2 ->
    rq_tx rq1 = Some t -> rq_tx rq2 = Some t -> r1 < r2 -> rq_done rq2 = true -> rq_done rq1 = true;
  ord_open : forall r rq, w_requests w !! r = Some rq -> is_open rq = true -> rq_tx rq = None;
  ord_openreq : forall t tx r, w_txs w !! t = Some tx -> tx_openreq tx = Some r ->
    exists rq, w_requests w !! r = Some rq /\ rq_tx rq = None
}.

(** [r] is a request that belongs to no transaction. *)
Definition src_none (w : World) (r : nat) : Prop := exists rq, w_requests w !! r = Some rq /\ rq_tx rq = None.

Definition ordrel (w w' : World) : Prop := w_next w <= w_next w' /\ (ordered w -> ordered w').

(** [ordrel], keeping track of the open request [r] a task completes. *)
Definition ordr (r : nat) (w w' : World) : Prop :=
  w_next w <= w_next w' /\ (ordered w -> src_none w r -> ordered w' /\ src_none w' r).

(** What [ordered] reads of a transaction and of a request. *)
Definition qsig (tx : Transaction) : list nat * option nat := (tx_requests tx, tx_openreq tx).
Definition rsig (rq : Request) : Source * ReqOp * bool := (rq_source rq, rq_op rq, rq_done rq).

(** An update of a request that completes it and keeps its source and operation. *)
Definition completes (f : Request -> Request) : Prop :=
  forall rq, rq_source (f rq) = rq_source rq /\ rq_op (f rq) = rq_op rq /\ rq_done (f rq) = true.

(** [fifo_queued] after two steps of the platform: requests 8 and 10 of
    transaction 5 have run. *)
Definition fifo_ran : World := snd (run_host 2 fifo_queued).

(** ** Maps seen through a projection *)

Lemma sig_lookup {A B} (g : A -> B) (m m' : gmap nat A) (k : nat) (x' : A) :
  g <$> m' = g <$> m -> m' !! k = Some x' -> exists x, m !! k = Some x /\ g x' = g x.
Proof.
  intros E Hk. assert (H : (g <$> m') !! k = Some (g x')) by (by rewrite lookup_fmap, Hk).
  rewrite E, lookup_fmap in H. apply fmap_Some in H as (x & Hx & Hg). eauto.
Qed.

Lemma sig_is_Some {A B} (g : A -> B) (m m' : gmap nat A) (k : nat) :
  g <$> m' = g <$> m -> is_Some (m' !! k) -> is_Some (m !! k).
Proof. intros E [x' Hk]. destruct (sig_lookup g m m' k x' E Hk) as (x & Hx & _). by exists x. Qed.

Lemma sig_alter {A B} (g : A -> B) (f : A -> A) (k : nat) (m : gmap nat A) :
  (forall x, g (f x) = g x) -> g <$> alter f k m = g <$> m.
Proof.
  intros Hf. apply map_eq. intros i. rewrite !lookup_fmap, lookup_alter.
  case_decide as Hki; [subst i; destruct (m !! k); cbn; [by rewrite Hf | done] | done].
Qed.

Lemma sig_fmap {A B} (g : A -> B) (f : A -> A) (m : gmap nat A) :
  (forall x, g (f x) = g x) -> g <$> (f <$> m) = g <$> m.
Proof. intros Hf. apply map_eq. intros i. rewrite !lookup_fmap. destruct (m !! i); cbn; [by rewrite Hf | done]. Qed.

(** ** [ordered] reads only the signatures and a bound on the ids *)

Lemma qsig_lookup (m m' : gmap nat Transaction) (t : nat) (tx' : Transaction) :
  qsig <$> m' = qsig <$> m -> m' !! t = Some tx' ->
  exists tx, m !! t = Some tx /\ tx_requests tx' = tx_requests tx /\ tx_openreq tx' = tx_openreq tx.
Proof. intros E H. destruct (sig_lookup _ _ _ _ _ E H) as (tx & Ht & Hs). injection Hs. eauto. Qed.

Lemma rsig_lookup (m m' : gmap nat Request) (r : nat) (rq' : Request) :
  rsig <$> m' = rsig <$> m -> m' !! r = Some rq' ->
  exists rq, m !! r = Some rq /\ rq_tx rq' = rq_tx rq /\ rq_done rq' = rq_done rq /\ is_open rq' = is_open rq.
Proof.
  intros E H. destruct (sig_lookup _ _ _ _ _ E H) as (rq & Hr & Hs). injection Hs as H1 H2 H3.
  unfold rq_tx, is_open. rewrite H1, H2, H3. eauto.
Qed.

Lemma ordered_sig (w w' : World) :
  qsig <$> w_txs w' = qsig <$> w_txs w -> rsig <$> w_requests w' = rsig <$> w_requests w ->
  w_next w <= w_next w' -> ordered w -> ordered w'.
Proof.
  intros Et Er Hn [F TF RF Wt Qu Dn Op Oq]. pose proof (eq_sym Et) as Et'. pose proof (eq_sym Er) as Er'. split.
  - intros t tx' (tx & Ht & -> & _)%(qsig_lookup _ _ _ _ Et). exact (queue_ok_grow w w' _ Hn (F t tx Ht)).
  - intros t Ht. apply (sig_is_Some qsig _ _ _ Et), TF in Ht. lia.
  - intros r Hr. apply (sig_is_Some rsig _ _ _ Er), RF in Hr. lia.
  - intros r rq' t (rq & Hr & -> & -> & _)%(rsig_lookup _ _ _ _ Er) Ht Hd.
    destruct (Wt r rq t Hr Ht Hd) as (tx & (tx' & Htx & Hq & _)%(qsig_lookup _ _ _ _ Et') & Hin).
    exists tx'. by rewrite <- Hq.
  - intros t tx' r (tx & Ht & -> & _)%(qsig_lookup _ _ _ _ Et) Hin. destruct (Qu t tx r Ht Hin) as (rq & Hr & Hrt).
    destruct (rsig_lookup _ _ _ _ Er' Hr) as (rq' & Hr' & Ht' & _). exists rq'. by rewrite <- Ht'.
  - intros r1 rq1' r2 rq2' t (rq1 & H1 & -> & -> & _)%(rsig_lookup _ _ _ _ Er)
      (rq2 & H2 & -> & -> & _)%(rsig_lookup _ _ _ _ Er). eauto.
  - intros r rq' (rq & Hr & -> & _ & ->)%(rsig_lookup _ _ _ _ Er). eauto.
  - intros t tx' r (tx & Ht & _ & ->)%(qsig_lookup _ _ _ _ Et) Ho. destruct (Oq t tx r Ht Ho) as (rq & Hr & Hn').
    destruct (rsig_lookup _ _ _ _ Er' Hr) as (rq' & Hr' & Ht' & _). exists rq'. by rewrite <- Ht'.
Qed.

(** ** Lookups after an update *)

Lemma alter_lookup_Some {A} (f : A -> A) (m : gmap nat A) (k i : nat) (x : A) :
  alter f k m !! i = Some x -> exists y, m !! i = Some y /\ ((i = k /\ x = f y) \/ (i <> k /\ x = y)).
Proof.
  destruct (decide (i = k)) as [->|Hne].
  - rewrite lookup_alter_eq. intros (y & Hy & ->)%fmap_Some. eauto.
  - rewrite lookup_alter_ne by done. intros Hx. eauto.
Qed.

(** A request updated without touching its source keeps its transaction. *)
Lemma alter_keeps_tx (f : Request -> Request) (m : gmap nat Request) (k i : nat) (y : Request) :
  (forall rq, rq_source (f rq) = rq_source rq) -> m !! i = Some y ->
  exists x, alter f k m !! i = Some x /\ rq_tx x = rq_tx y.
Proof.
  intros Hf Hy. destruct (decide (i = k)) as [->|Hne].
  - rewrite lookup_alter_eq, Hy. eexists; split; [reflexivity | unfold rq_tx; by rewrite Hf].
  - rewrite lookup_alter_ne, Hy by done. eauto.
Qed.

Lemma completes_tx (f : Request -> Request) rq : completes f -> rq_tx (f rq) = rq_tx rq.
Proof. intros Hf. unfold rq_tx. by rewrite (proj1 (Hf rq)). Qed.

Lemma completes_open (f : Request -> Request) rq : completes f -> is_open (f rq) = is_open rq.
Proof. intros Hf. unfold is_open. by rewrite (proj1 (proj2 (Hf rq))). Qed.

Lemma completes_complete_request (res : op_result JsVal) :
  completes (fun rq => mkRequest (rq_source rq) (rq_op rq) true
    (match res with Done v => v | Failed _ => JUndefined end) (rq_conn rq)
    (match res with Done _ => None | Failed e => Some e end) (rq_blocked rq) (rq_listeners rq)).
Proof. done. Qed.

(** ** Completing a request *)

(** A request of no transaction: nothing is ordered by it. *)
Lemma ordered_complete_none (w : World) (r : nat) (f : Request -> Request) :
  completes f -> src_none w r -> ordered w -> ordered (set_requests (alter f r) w).
Proof.
  intros Hf (rq0 & Hr0 & Hn0) [F TF RF Wt Qu Dn Op Oq].
  assert (Hs : forall rq, rq_source (f rq) = rq_source rq) by apply Hf.
  split; cbn; [exact F | exact TF | |..].
  - intros i Hi. apply RF. by rewrite lookup_alter_is_Some in Hi.
  - intros i x t (y & Hy & [[-> ->] | [_ ->]])%alter_lookup_Some Ht Hd; [|eauto].
    rewrite completes_tx in Ht by done. rewrite Hr0 in Hy. injection Hy as <-. congruence.
  - intros t tx i Ht Hin. destruct (Qu t tx i Ht Hin) as (y & Hy & Ety).
    destruct (alter_keeps_tx f _ r i y Hs Hy) as (x & Hx & Ex). exists x. by rewrite Ex.
  - intros r1 x1 r2 x2 t (y1 & H1 & [[-> ->] | [_ ->]])%alter_lookup_Some
      (y2 & H2 & [[-> ->] | [_ ->]])%alter_lookup_Some T1 T2 Hlt Hd; [apply Hf | apply Hf | | eauto].
    rewrite completes_tx in T2 by done. rewrite Hr0 in H2. injection H2 as <-. congruence.
  - intros i x (y & Hy & [[-> ->] | [_ ->]])%alter_lookup_Some; rewrite ?completes_tx, ?completes_open by done; eauto.
  - intros t tx i Ht Ho. destruct (Oq t tx i Ht Ho) as (y & Hy & Hn).
    destruct (alter_keeps_tx f _ r i y Hs Hy) as (x & Hx & Ex). exists x. by rewrite Ex.
Qed.

(** The head [r] of [t]'s queue, dequeued by [g] and completed by [f]:
    every earlier request of [t] is already done, since one that is not
    would wait in the queue, behind [r], with a smaller id. *)
Lemma ordered_complete_head (w : World) (t : nat) (tx : Transaction) (r : nat) (rs : list nat)
    (g : Transaction -> Transaction) (f : Request -> Request) :
  w_txs w !! t = Some tx -> tx_requests tx = r :: rs ->
  tx_requests (g tx) = rs -> tx_openreq (g tx) = tx_openreq tx -> completes f ->
  ordered w -> ordered (set_requests (alter f r) (set_txs (alter g t) w)).
Proof.
  intros Ht Hq Hg Ho Hf [F TF RF Wt Qu Dn Op Oq].
  assert (Hs : forall rq, rq_source (f rq) = rq_source rq) by apply Hf.
  destruct (Qu t tx r Ht) as (rqr & Hr & Hrt); [rewrite Hq; left|].
  pose proof (F t tx Ht) as [Hsort _]. rewrite Hq in Hsort. apply StronglySorted_inv in Hsort as [_ Hlow].
  split; cbn.
  - intros t' tx' (tx0 & Ht0 & [[-> ->] | [_ ->]])%alter_lookup_Some; [|exact (F t' tx0 Ht0)].
    rewrite Ht in Ht0. injection Ht0 as <-. rewrite Hg. apply (queue_ok_cons _ r). rewrite <- Hq. exact (F t tx Ht).
  - intros t' Ht'. apply TF. by rewrite lookup_alter_is_Some in Ht'.
  - intros i Hi. apply RF. by rewrite lookup_alter_is_Some in Hi.
  - intros i x t' (y & Hy & [[-> ->] | [Hir ->]])%alter_lookup_Some Ht' Hd; [by rewrite (proj2 (proj2 (Hf y))) in Hd|].
    destruct (Wt i y t' Hy Ht' Hd) as (tx0 & Ht0 & Hin). destruct (decide (t' = t)) as [->|Hne].
    + rewrite Ht in Ht0. injection Ht0 as <-. rewrite lookup_alter_eq, Ht. eexists; split; [reflexivity|].
      rewrite Hg. rewrite Hq in Hin. by apply elem_of_cons in Hin as [->|].
    + rewrite lookup_alter_ne by done. eauto.
  - intros t' tx' i (tx0 & Ht0 & [[-> ->] | [_ ->]])%alter_lookup_Some Hin.
    + rewrite Ht in Ht0. injection Ht0 as <-. rewrite Hg in Hin.
      destruct (Qu t tx i Ht) as (y & Hy & Ety); [rewrite Hq; by right|].
      destruct (alter_keeps_tx f _ r i y Hs Hy) as (x & Hx & Ex). exists x. by rewrite Ex.
    + destruct (Qu t' tx0 i Ht0 Hin) as (y & Hy & Ety).
      destruct (alter_keeps_tx f _ r i y Hs Hy) as (x & Hx & Ex). exists x. by rewrite Ex.
  - intros r1 x1 r2 x2 t' (y1 & H1 & [[-> ->] | [Hne1 ->]])%alter_lookup_Some
      (y2 & H2 & [[-> ->] | [_ ->]])%alter_lookup_Some T1 T2 Hlt Hd; [apply Hf | apply Hf | | eauto].
    rewrite completes_tx in T2 by done. rewrite Hr in H2. injection H2 as <-. rewrite Hrt in T2. injection T2 as <-.
    destruct (rq_done y1) eqn:D; [done|]. destruct (Wt r1 y1 t H1 T1 D) as (tx0 & Ht0 & Hin).
    rewrite Ht in Ht0. injection Ht0 as <-. rewrite Hq in Hin. apply elem_of_cons in Hin as [->|Hin]; [lia|].
    rewrite Forall_forall in Hlow. specialize (Hlow r1 Hin). lia.
  - intros i x (y & Hy & [[-> ->] | [_ ->]])%alter_lookup_Some; rewrite ?completes_tx, ?completes_open by done; eauto.
  - intros t' tx' i (tx0 & Ht0 & Hor)%alter_lookup_Some Hi.
    assert (Hi0 : tx_openreq tx0 = Some i).
    { destruct Hor as [[-> ->] | [_ ->]]; [|done]. rewrite Ht in Ht0. injection Ht0 as <-. by rewrite <- Ho. }
    destruct (Oq t' tx0 i Ht0 Hi0) as (y & Hy & Hn).
    destruct (alter_keeps_tx f _ r i y Hs Hy) as (x & Hx & Ex). exists x. by rewrite Ex.
Qed.

(** ** Creating requests and transactions *)

(** [place_request] on an existing transaction [t], for a request of [t]
    that is not an open request. *)
Lemma ordered_place (w w' : World) (t : nat) (src : Source) (op : ReqOp) o :
  src_tx src = Some t -> is_Some (w_txs w !! t) -> open_op op = false ->
  place_request t src op w = (o, w') -> ordered w -> ordered w'.
Proof.
  intros Hsrc [tx Ht] Hop Hrun Hw. pose proof (proj2 (qrel_place_request t src op w o w' Hrun) (ord_fifo w Hw)) as F'.
  rewrite place_request_run in Hrun. injection Hrun as _ <-. destruct Hw as [F TF RF Wt Qu Dn Op Oq].
  assert (Hne : forall i y, w_requests w !! i = Some y -> i <> w_next w).
  { intros i y Hy. pose proof (RF i (mk_is_Some _ _ Hy)). lia. }
  split; cbn; [exact F' | ..].
  - intros t' Ht'. rewrite lookup_alter_is_Some in Ht'. cbn in Ht'. apply TF in Ht'. lia.
  - intros i [x Hx]. apply lookup_insert_Some in Hx as [[<- _] | [_ Hx]]; [lia|]. pose proof (RF i (mk_is_Some _ _ Hx)). lia.
  - intros i x t' Hx Ht' Hd. apply lookup_insert_Some in Hx as [[<- <-] | [Hin Hx]].
    + unfold rq_tx in Ht'. cbn in Ht'. rewrite Hsrc in Ht'. injection Ht' as <-.
      rewrite lookup_alter_eq. cbn. rewrite Ht. eexists; split; [reflexivity|]. cbn. apply elem_of_app. right. by left.
    + destruct (Wt i x t' Hx Ht' Hd) as (tx0 & Ht0 & Hin0). destruct (decide (t' = t)) as [->|].
      * rewrite lookup_alter_eq. cbn. rewrite Ht0. eexists; split; [reflexivity|]. cbn. apply elem_of_app. by left.
      * rewrite lookup_alter_ne by done. cbn. eauto.
  - intros t' tx' i (tx0 & Ht0 & Hor)%alter_lookup_Some Hin. cbn in Ht0.
    assert (Hin' : i ∈ tx_requests tx0 \/ (t' = t /\ i = w_next w)).
    { destruct Hor as [[-> ->] | [_ ->]]; [cbn in Hin|by left]. apply elem_of_app in Hin as [|Hin]; [by left|].
      apply list_elem_of_singleton in Hin. by right. }
    destruct Hin' as [Hin' | [-> ->]].
    + destruct (Qu t' tx0 i Ht0 Hin') as (y & Hy & Ety). exists y. rewrite lookup_insert_ne by (symmetry; eauto). done.
    + rewrite lookup_insert_eq. eexists; split; [reflexivity | exact Hsrc].
  - intros r1 x1 r2 x2 t' H1 H2 T1 T2 Hlt Hd.
    apply lookup_insert_Some in H2 as [[<- <-] | [Hne2 H2]]; [discriminate|].
    apply lookup_insert_Some in H1 as [[<- <-] | [Hne1 H1]]; [pose proof (RF r2 (mk_is_Some _ _ H2)); lia|]. eauto.
  - intros i x Hx Ho. apply lookup_insert_Some in Hx as [[<- <-] | [_ Hx]]; [unfold is_open in Ho; cbn in Ho; congruence | eauto].
  - intros t' tx' i (tx0 & Ht0 & Hor)%alter_lookup_Some Ho. cbn in Ht0.
    assert (Ho0 : tx_openreq tx0 = Some i) by (destruct Hor as [[-> ->] | [_ ->]]; done).
    destruct (Oq t' tx0 i Ht0 Ho0) as (y & Hy & Hn). exists y. rewrite lookup_insert_ne by (symmetry; eauto). done.
Qed.

(** A new request of no transaction, at a fresh id (an open request). *)
Lemma ordered_new_request (w : World) (rq0 : Request) :
  rq_tx rq0 = None -> ordered w -> ordered (set_requests (insert (w_next w) rq0) (bump_next w)).
Proof.
  intros H0 [F TF RF Wt Qu Dn Op Oq].
  assert (Hne : forall i y, w_requests w !! i = Some y -> w_next w <> i).
  { intros i y Hy. pose proof (RF i (mk_is_Some _ _ Hy)). lia. }
  split; cbn.
  - intros t tx Ht. apply (queue_ok_grow w); [cbn; lia | exact (F t tx Ht)].
  - intros t Ht. apply TF in Ht. lia.
  - intros i [x Hx]. apply lookup_insert_Some in Hx as [[<- _] | [_ Hx]]; [lia|]. pose proof (RF i (mk_is_Some _ _ Hx)). lia.
  - intros i x t Hx Ht Hd. apply lookup_insert_Some in Hx as [[<- <-] | [_ Hx]]; [congruence | eauto].
  - intros t tx i Ht Hin. destruct (Qu t tx i Ht Hin) as (y & Hy & Ety). exists y. by rewrite lookup_insert_ne by eauto.
  - intros r1 x1 r2 x2 t H1 H2 T1 T2 Hlt Hd.
    apply lookup_insert_Some in H1 as [[<- <-] | [_ H1]]; [congruence|].
    apply lookup_insert_Some in H2 as [[<- <-] | [_ H2]]; [congruence | eauto].
  - intros i x Hx Ho. apply lookup_insert_Some in Hx as [[<- <-] | [_ Hx]]; eauto.
  - intros t tx i Ht Ho. destruct (Oq t tx i Ht Ho) as (y & Hy & Hn). exists y. by rewrite lookup_insert_ne by eauto.
Qed.

(** A new transaction at a fresh id, with no request; its open request,
    if any, is a request of no transaction. *)
Lemma ordered_new_tx (w : World) (tx0 : Transaction) :
  tx_requests tx0 = [] -> (forall r, tx_openreq tx0 = Some r -> src_none w r) ->
  ordered w -> ordered (set_txs (insert (w_next w) tx0) (bump_next w)).
Proof.
  intros Hq Ho [F TF RF Wt Qu Dn Op Oq].
  assert (Hne : forall t tx, w_txs w !! t = Some tx -> w_next w <> t).
  { intros t tx Ht. pose proof (TF t (mk_is_Some _ _ Ht)). lia. }
  split; cbn.
  - intros t tx Ht. cbn in Ht. apply lookup_insert_Some in Ht as [[<- <-] | [_ Ht]]; [rewrite Hq; apply queue_ok_nil|].
    apply (queue_ok_grow w); [cbn; lia | exact (F t tx Ht)].
  - intros t [x Ht]. cbn in Ht. apply lookup_insert_Some in Ht as [[<- _] | [_ Ht]]; [lia|]. pose proof (TF t (mk_is_Some _ _ Ht)). lia.
  - intros i Hi. apply RF in Hi. lia.
  - intros i x t Hx Ht Hd. destruct (Wt i x t Hx Ht Hd) as (tx & Htx & Hin). exists tx. by rewrite lookup_insert_ne by eauto.
  - intros t tx i Ht Hin. cbn in Ht. apply lookup_insert_Some in Ht as [[<- <-] | [_ Ht]]; [rewrite Hq in Hin; by apply not_elem_of_nil in Hin | eauto].
  - exact Dn.
  - exact Op.
  - intros t tx i Ht Hi. cbn in Ht. apply lookup_insert_Some in Ht as [[<- <-] | [_ Ht]]; [exact (Ho i Hi) | eauto].
Qed.

(** ** The relations *)

#[export] Instance ordrel_preorder : PreOrder ordrel.
Proof. split; [intros w; split; auto | intros w1 w2 w3 [N12 F12] [N23 F23]; split; [lia | auto]]. Qed.

#[export] Instance ordr_preorder (r : nat) : PreOrder (ordr r).
Proof.
  split; [intros w; split; auto|].
  intros w1 w2 w3 [N12 F12] [N23 F23]. split; [lia|]. intros H1 S1. destruct (F12 H1 S1). auto.
Qed.

Lemma src_none_sig (w w' : World) (r : nat) :
  rsig <$> w_requests w' = rsig <$> w_requests w -> src_none w r -> src_none w' r.
Proof.
  intros Er (rq & Hr & Hn). destruct (rsig_lookup _ _ _ _ (eq_sym Er) Hr) as (rq' & Hr' & Ht & _).
  exists rq'. by rewrite <- Ht.
Qed.

Lemma ordrel_sig (w w' : World) :
  qsig <$> w_txs w' = qsig <$> w_txs w -> rsig <$> w_requests w' = rsig <$> w_requests w ->
  w_next w <= w_next w' -> ordrel w w'.
Proof. intros Et Er Hn. split; [done|]. by apply ordered_sig. Qed.

Lemma ordr_sig (r : nat) (w w' : World) :
  qsig <$> w_txs w' = qsig <$> w_txs w -> rsig <$> w_requests w' = rsig <$> w_requests w ->
  w_next w <= w_next w' -> ordr r w w'.
Proof. intros Et Er Hn. split; [done|]. intros Hw Hs. split; [by apply (ordered_sig w) | by apply (src_none_sig w)]. Qed.

Lemma ordrel_of_qquiet {A} (m : JS A) : step_ok qquiet m -> step_ok ordrel m.
Proof. apply step_ok_mono. intros w w' [(Et & Er & _) Hn]. apply ordrel_sig; [by rewrite Et | by rewrite Er | done]. Qed.

Lemma ordr_of_qquiet {A} (r : nat) (m : JS A) : step_ok qquiet m -> step_ok (ordr r) m.
Proof. apply step_ok_mono. intros w w' [(Et & Er & _) Hn]. apply ordr_sig; [by rewrite Et | by rewrite Er | done]. Qed.

Lemma sig_update_listeners (tg : Target) f (w : World) :
  qsig <$> w_txs (update_listeners tg f w) = qsig <$> w_txs w /\
  rsig <$> w_requests (update_listeners tg f w) = rsig <$> w_requests w.
Proof. destruct tg; cbn; split; try reflexivity; by apply sig_alter. Qed.

(** Completing the open request a task is about. *)
Lemma ordr_complete (r : nat) (f : Request -> Request) (w : World) :
  completes f -> ordr r w (set_requests (alter f r) w).
Proof.
  intros Hf. split; [cbn; lia|]. intros Hw Hs. split; [exact (ordered_complete_none w r f Hf Hs Hw)|].
  destruct Hs as (rq & Hr & Hn). destruct (alter_keeps_tx f _ r r rq (fun rq => proj1 (Hf rq)) Hr) as (x & Hx & Ex).
  exists x. by rewrite Ex.
Qed.

(** ** Creating at a fresh id *)

Lemma fresh_run_eq (w : World) : fresh w = (Normal (w_next w), bump_next w).
Proof. reflexivity. Qed.

Ltac run_fresh H := rewrite (st_bind_run_normal _ _ _ _ _ (fresh_run_eq _)) in H; cbv beta in H;
  rewrite st_bind_modify_run in H.

Lemma ordrel_fresh : step_ok ordrel fresh.
Proof. intros w o w'. rewrite fresh_run_eq. intros [= _ <-]. apply ordrel_sig; [done | done | cbn; lia]. Qed.

Lemma ordr_fresh (r : nat) : step_ok (ordr r) fresh.
Proof. intros w o w'. rewrite fresh_run_eq. intros [= _ <-]. apply ordr_sig; [done | done | cbn; lia]. Qed.

Lemma ordr_fresh_tx {B} (r : nat) (X : Transaction) (k : nat -> JS B) :
  tx_requests X = [] -> tx_openreq X = None \/ tx_openreq X = Some r -> (forall t, step_ok (ordr r) (k t)) ->
  step_ok (ordr r) (t <- fresh ;; st_modify (set_txs (insert t X)) ;; k t).
Proof.
  intros Hq Ho Hk w o w' Hrun. run_fresh Hrun.
  transitivity (set_txs (insert (w_next w) X) (bump_next w)); [|exact (Hk _ _ _ _ Hrun)].
  split; [cbn; lia|]. intros Hw Hs. split; [|exact Hs].
  apply ordered_new_tx; [done | | done]. intros r' Hr'. destruct Ho as [Ho|Ho]; rewrite Ho in Hr'; congruence.
Qed.

Lemma ordrel_fresh_tx {B} (X : Transaction) (k : nat -> JS B) :
  tx_requests X = [] -> tx_openreq X = None -> (forall t, step_ok ordrel (k t)) ->
  step_ok ordrel (t <- fresh ;; st_modify (set_txs (insert t X)) ;; k t).
Proof.
  intros Hq Ho Hk w o w' Hrun. run_fresh Hrun.
  transitivity (set_txs (insert (w_next w) X) (bump_next w)); [|exact (Hk _ _ _ _ Hrun)].
  split; [cbn; lia|]. intros Hw. apply ordered_new_tx; [done | | done]. intros r' Hr'. congruence.
Qed.

Lemma ordrel_fresh_request {B} (RQ : Request) (k : nat -> JS B) :
  rq_tx RQ = None -> (forall r, step_ok ordrel (k r)) ->
  step_ok ordrel (r <- fresh ;; st_modify (set_requests (insert r RQ)) ;; k r).
Proof.
  intros Hn Hk w o w' Hrun. run_fresh Hrun.
  transitivity (set_requests (insert (w_next w) RQ) (bump_next w)); [|exact (Hk _ _ _ _ Hrun)].
  split; [cbn; lia|]. intros Hw. by apply ordered_new_request.
Qed.

(** ** The methods that place a request *)

(** A computation that only reads, then [k]. *)
Lemma step_pure_from (R : World -> World -> Prop) `{!PreOrder R} {A B} (w : World) (m : JS A) (k : A -> JS B) :
  step_ok eq m -> (forall a, m w = (Normal a, w) -> step_from R w (k a)) -> step_from R w (st_bind m k).
Proof.
  intros Hm Hk. apply (step_bind_from R); [intros o w' H; rewrite <- (Hm w o w' H); reflexivity|].
  intros a w1 H. pose proof (Hm w _ w1 H) as <-. exact (Hk a H).
Qed.

Lemma ordrel_place_from (w : World) (t : nat) (src : Source) (op : ReqOp) :
  src_tx src = Some t -> is_Some (w_txs w !! t) -> open_op op = false -> step_from ordrel w (place_request t src op).
Proof.
  intros Hs Ht Hop o w' Hrun. split; [|by apply (ordered_place w w' t src op o)].
  rewrite place_request_run in Hrun. injection Hrun as _ <-. cbn. lia.
Qed.

Ltac reads_tac := autounfold with grows; eauto 20 with frame.

Ltac reads_then_place Ht :=
  repeat (cbv beta zeta; lazymatch goal with
          | |- step_from _ _ (place_request _ _ _) => fail
          | |- _ => apply (step_pure_from ordrel); [reads_tac | intros ? _]
          end);
  apply ordrel_place_from; [reflexivity | eexists; exact Ht | auto].

Lemma ordrel_store_read (h : StoreHandle) (nd : bool) (q : option QueryArg) (op : KeyRange -> ReqOp) :
  (forall x, open_op (op x) = false) -> step_ok ordrel (store_read h nd q op).
Proof.
  intros Hop w. unfold store_read. apply (step_pure_from ordrel); [reads_tac|].
  intros [tx s] [_ Ht]%get_store_normal. cbn in Ht |- *. reads_then_place Ht.
Qed.

Lemma ordrel_store_write (h : StoreHandle) (nd : bool) (q : option QueryArg) (op : KeyRange -> ReqOp) :
  (forall x, open_op (op x) = false) -> step_ok ordrel (store_write h nd q op).
Proof.
  intros Hop w. unfold store_write. apply (step_pure_from ordrel); [reads_tac|].
  intros [tx s] [_ Ht]%get_store_normal. cbn in Ht |- *. reads_then_place Ht.
Qed.

Lemma ordrel_store_add_or_put (h : StoreHandle) (v : JsVal) (k : option JsVal) (no_overwrite : bool) :
  step_ok ordrel (store_add_or_put h v k no_overwrite).
Proof.
  intros w. unfold store_add_or_put. apply (step_pure_from ordrel); [reads_tac|].
  intros [tx s] [_ Ht]%get_store_normal. cbn in Ht |- *. reads_then_place Ht. by destruct no_overwrite.
Qed.

Lemma ordrel_index_read (h : IndexHandle) (nd : bool) (q : option QueryArg) (op : KeyRange -> ReqOp) :
  (forall x, open_op (op x) = false) -> step_ok ordrel (index_read h nd q op).
Proof.
  intros Hop w. unfold index_read. apply (step_pure_from ordrel); [reads_tac|].
  intros [[tx s] ix] [_ Ht]%get_index_normal. cbn in Ht |- *. reads_then_place Ht.
Qed.

(** ** Every wrapper call keeps [ordered] *)

Create HintDb ordu.
#[export] Hint Unfold alloc_promise alloc_object resolve reject get_tx get_conn get_db update_tx update_request
  complete_request close_conn db_close new_connection new_promise request_promise get_store get_index count_arg
  key_range_of require tx_objectStore store_index db_store_names factory_open tx_commit tx_abort abort_tx
  add_listener remove_listener with_state db_transaction : ordu.

Ltac sig_eq := first [reflexivity | apply sig_alter; intros; reflexivity | apply sig_fmap; intros; by case_bool_decide].

Ltac o_sig := first [apply ordrel_sig | apply ordr_sig].

Ltac o_leaf :=
  idtac; match goal with
  | |- step_ok ?R (st_ret _) => apply (step_ret R)
  | |- step_ok ?R (st_throw _) => apply (step_throw R)
  | |- step_ok ordrel fresh => apply ordrel_fresh
  | |- step_ok (ordr _) fresh => apply ordr_fresh
  | |- step_ok ordrel (store_read _ _ _ _) => apply ordrel_store_read; intros; reflexivity
  | |- step_ok ordrel (store_write _ _ _ _) => apply ordrel_store_write; intros; reflexivity
  | |- step_ok ordrel (index_read _ _ _ _) => apply ordrel_index_read; intros; reflexivity
  | |- step_ok ordrel (store_add_or_put _ _ _ _) => apply ordrel_store_add_or_put
  | |- step_ok ordrel (dispatch_path _ _) => apply ordrel_of_qquiet, qquiet_dispatch_path
  | |- step_ok (ordr _) (dispatch_path _ _) => apply ordr_of_qquiet, qquiet_dispatch_path
  | |- step_ok ordrel (dispatch_listeners _ _) => apply ordrel_of_qquiet, qquiet_dispatch_listeners
  | |- step_ok (ordr _) (dispatch_listeners _ _) => apply ordr_of_qquiet, qquiet_dispatch_listeners
  | |- step_ok ?R (st_modify (update_listeners ?tg ?f)) =>
      apply (step_modify R); intros w; destruct (sig_update_listeners tg f w); o_sig; [done | done | cbn; lia]
  | |- step_ok (ordr ?r) (st_modify (set_requests (alter _ ?r))) =>
      apply (step_modify (ordr r)); intros; first [o_sig; [sig_eq | sig_eq | cbn; lia] | apply ordr_complete; done]
  | |- step_ok ?R (st_modify _) => apply (step_modify R); intros; o_sig; [sig_eq | sig_eq | cbn; lia]
  | |- step_ok _ _ => assumption
  | |- step_ok _ _ => progress autounfold with ordu
  end.

Ltac o_step :=
  first [ lazymatch goal with
          | |- step_ok ordrel (st_bind fresh (fun t => st_bind (st_modify (set_txs (insert t _))) _)) =>
              apply ordrel_fresh_tx; [reflexivity | reflexivity | intros]
          | |- step_ok (ordr _) (st_bind fresh (fun t => st_bind (st_modify (set_txs (insert t _))) _)) =>
              apply ordr_fresh_tx; [reflexivity | (left; reflexivity) || (right; reflexivity) | intros]
          | |- step_ok ordrel (st_bind fresh (fun r => st_bind (st_modify (set_requests (insert r _))) _)) =>
              apply ordrel_fresh_request; [reflexivity | intros]
          end
        | frame_step o_leaf ].

Lemma ordrel_run_call (c : Call) : step_ok ordrel (run_call c).
Proof. destruct c; cbn; autounfold with wrapper; cbn; repeat o_step. Qed.

Lemma ordrel_run_task {A} (m : JS A) : step_ok ordrel m -> step_ok ordrel (run_task m).
Proof. intros Hm. unfold run_task, end_task. repeat o_step. Qed.

(** ** The platform's tasks keep [ordered] *)

Lemma ordrel_finish_commit (t : nat) : step_ok ordrel (finish_commit t).
Proof. unfold finish_commit. repeat o_step. Qed.

Lemma ordr_run_open (r : nat) (name : string) (version : Z) (rq : Request) : step_ok (ordr r) (run_open r name version rq).
Proof. unfold run_open. repeat o_step. Qed.

Lemma ordrel_of_ordr_from {A} (w : World) (r : nat) (m : JS A) :
  (ordered w -> src_none w r) -> step_from (ordr r) w m -> step_from ordrel w m.
Proof. intros Hs Hm o w' Hrun. destruct (Hm o w' Hrun) as [Hn H]. split; [done|]. intros Hw. exact (proj1 (H Hw (Hs Hw))). Qed.

(** Two updates in a row, then [K]. *)
Lemma step_modify2_from (R : World -> World -> Prop) `{!PreOrder R} {B} (w : World) (f g : World -> World) (K : JS B) :
  R w (g (f w)) -> step_ok R K -> step_from R w (st_modify f ;; st_modify g ;; K).
Proof. intros H HK o w' Hrun. rewrite !st_bind_modify_run in Hrun. transitivity (g (f w)); [exact H | exact (HK _ _ _ Hrun)]. Qed.

(** Dequeue the head [r] of [t]'s queue and complete it. *)
Lemma ordrel_dequeue_complete (w : World) (t : nat) (tx : Transaction) (r : nat) (rs : list nat)
    (g : Transaction -> Transaction) (f : Request -> Request) :
  w_txs w !! t = Some tx -> tx_requests tx = r :: rs ->
  tx_requests (g tx) = rs -> tx_openreq (g tx) = tx_openreq tx -> completes f ->
  ordrel w (set_requests (alter f r) (set_txs (alter g t) w)).
Proof. intros. split; [done|]. by eapply ordered_complete_head. Qed.

Lemma ordrel_run_request_from (w : World) (t r : nat) (tx : Transaction) (rs : list nat) :
  w_txs w !! t = Some tx -> tx_requests tx = r :: rs -> step_from ordrel w (run_request t r).
Proof.
  intros Ht Hq. unfold run_request. apply (step_get_tx_from ordrel). intros tx1 Ht1. rewrite Ht in Ht1. injection Ht1 as <-.
  apply (step_get_conn_from ordrel). intros cn _. apply (step_get_db_from ordrel). intros d _.
  apply (step_get_from ordrel). destruct (w_requests w !! r) as [rq|]; [|apply (step_ret ordrel)].
  destruct (exec_request _ _ _) as [d' res].
  apply (step_bind_from ordrel); [apply (step_modify_from ordrel); o_sig; [done | done | cbn; lia]|].
  intros u w1 Hw1. unfold st_modify in Hw1. injection Hw1 as _ Hw1. subst w1.
  unfold update_tx, complete_request, update_request. apply (step_modify2_from ordrel).
  - eapply ordrel_dequeue_complete; [exact Ht | exact Hq | cbn; by rewrite Hq | done | apply completes_complete_request].
  - repeat o_step.
Qed.

Lemma ordrel_deliver_abort (t : nat) : step_ok ordrel (deliver_abort t).
Proof.
  intros w. unfold deliver_abort. apply (step_get_tx_from ordrel). intros tx Ht.
  destruct (tx_requests tx) as [|r rs] eqn:Hq.
  - destruct (tx_openreq tx) as [r|] eqn:Ho; [|from_ok; repeat o_step].
    apply (ordrel_of_ordr_from w r); [intros Hw; exact (ord_openreq w Hw t tx r Ht Ho)|].
    from_ok. repeat o_step.
  - unfold update_tx, complete_request, update_request. apply (step_modify2_from ordrel).
    + eapply ordrel_dequeue_complete; [exact Ht | exact Hq | done | done | intros ?; by split_and!].
    + repeat o_step.
Qed.

Lemma ordrel_host_step : step_ok ordrel host_step.
Proof.
  intros w. unfold host_step. apply (step_get_from ordrel).
  destruct (omap _ (map_to_list (w_txs w))) as [|m ms] eqn:E.
  - destruct (omap _ (map_to_list (w_requests w))) as [|m ms] eqn:E2; [apply (step_ret ordrel)|].
    apply omap_first in E2 as ([r rq] & Hin%elem_of_map_to_list & Hm). unfold open_task in Hm.
    apply fmap_Some in Hm as ([name version] & Hready & ->). cbn in Hin, Hready |- *.
    apply (step_bind_from ordrel); [|intros; apply (step_ret ordrel)].
    apply (ordrel_of_ordr_from w r); [|apply ordr_run_open].
    intros Hw. exists rq. split; [done|]. apply (ord_open w Hw r rq Hin). unfold is_open, open_ready in *.
    by destruct (rq_op rq).
  - apply omap_first in E as ([t tx] & Hin%elem_of_map_to_list & Hm). cbn in Hin, Hm. unfold tx_task in Hm.
    apply (step_bind_from ordrel); [|intros; apply (step_ret ordrel)].
    repeat case_match; simplify_eq;
      first [apply ordrel_deliver_abort | apply ordrel_finish_commit | eapply ordrel_run_request_from; eauto].
Qed.

(** ** Requests complete in the order they were placed *)

Lemma ordered_step (w w' : World) : sys_step w w' -> ordered w -> ordered w'.
Proof.
  destruct 1 as [cs w w' o Hr | w w' o Hr].
  - exact (proj2 (ordrel_run_task _ (step_run_calls ordrel cs ordrel_run_call) w o w' Hr)).
  - exact (proj2 (ordrel_host_step w o w' Hr)).
Qed.

Lemma ordered_reachable (w0 w : World) : reachable w0 w -> ordered w0 -> ordered w.
Proof. induction 1 as [w|w1 w2 w3 H12 _ IH]; [done|]. intros H. exact (IH (ordered_step _ _ H12 H)). Qed.

Lemma ordered_empty : ordered empty_world.
Proof.
  split; [exact fifo_empty | intros t [x Hx] | intros r [x Hx] | intros r rq t Hx | intros t tx r Hx
         | intros r1 rq1 r2 rq2 t Hx | intros r rq Hx | intros t tx r Hx]; cbn in Hx; by rewrite lookup_empty in Hx.
Qed.

(** C9: requests of one transaction complete in placement order.  In
    every world a client program reaches from the empty one, when two
    requests belong to the same transaction (the transaction of the
    store or index handle they were placed through) and the later placed
    one (larger id) is done, the earlier one is done too: the platform
    completes a transaction's requests, and fires their 'success' or
    'error' events, in the order the wrapper's calls placed them. *)
Theorem requests_complete_in_order (w : World) (r1 r2 : nat) (rq1 rq2 : Request) (t : nat) :
  reachable empty_world w -> w_requests w !! r1 = Some rq1 -> w_requests w !! r2 = Some rq2 ->
  src_tx (rq_source rq1) = Some t -> src_tx (rq_source rq2) = Some t -> r1 < r2 ->
  rq_done rq2 = true -> rq_done rq1 = true.
Proof. intros Hr. exact (ord_done w (ordered_reachable _ _ Hr ordered_empty) r1 rq1 r2 rq2 t). Qed.

Lemma requests_complete_in_order_witness :
  let rq1 := default (mkRequest SrcFactory OpClear false JUndefined None None false []) (w_requests fifo_ran !! 8) in
  let rq2 := default (mkRequest SrcFactory OpClear false JUndefined None None false []) (w_requests fifo_ran !! 10) in
  w_requests fifo_ran !! 8 = Some rq1 /\ w_requests fifo_ran !! 10 = Some rq2 /\
  src_tx (rq_source rq1) = Some 5 /\ src_tx (rq_source rq2) = Some 5 /\ rq_done rq2 = true /\ rq_done rq1 = true.
Proof.
  intros rq1 rq2.
  assert (Hr : reachable empty_world fifo_ran).
  { eapply rtc_trans; [apply reachable_fifo_queued|].
    apply (run_host_reachable 2 fifo_queued _ (fst (run_host 2 fifo_queued))), surjective_pairing. }
  assert (H1 : w_requests fifo_ran !! 8 = Some rq1) by (vm_compute; reflexivity).
  assert (H2 : w_requests fifo_ran !! 10 = Some rq2) by (vm_compute; reflexivity).
  assert (T1 : src_tx (rq_source rq1) = Some 5) by (vm_compute; reflexivity).
  assert (T2 : src_tx (rq_source rq2) = Some 5) by (vm_compute; reflexivity).
  assert (D2 : rq_done rq2 = true) by (vm_compute; reflexivity).
  split_and!; [exact H1 | exact H2 | exact T1 | exact T2 | exact D2 |].
  exact (requests_complete_in_order fifo_ran 8 10 rq1 rq2 5 Hr H1 H2 T1 T2 ltac:(lia) D2).
Defined.
